(** * Markdown to ADF conversion of [JiraService]

    A shallow embedding of the markdown converter of [JiraService]
    ([parseMarkdownInline], [buildParagraph], [getLineIndent],
    [splitTableRow], [isTableSeparator], [buildTableNode],
    [parseMarkdownBlocks] and [createTextADF]) together with the
    properties of the converter that the specification states.

    Conventions of the embedding.

    - A JavaScript string is the list of its UTF-16 code units
      ([jsstring := list N]).  The regular expressions of the source have no
      [u] flag, so they work on code units, as the model does.
    - Every regular expression of the source is written out as the
      deterministic matcher it denotes; the comment above each matcher
      gives the expression and explains why backtracking cannot produce a
      different match.
    - The [while] and [for] loops are fuel-indexed functions returning
      [None] when the fuel is exhausted; the totality theorems show that
      the fuel handed out by the top-level definitions always suffices.
    - The list stack of [parseMarkdownBlocks] holds references to list
      nodes that live inside [blocks].  A reference is modelled as the
      position of the node inside [blocks] ([NodeRef]); a mutation through
      a reference is an update of [blocks] at that position; a dangling
      reference is an error outcome ([None]) of the model, and the
      totality theorem shows that it never arises. *)

From Stdlib Require Import NArith List Lia Bool String Ascii Sorted.
From Stdlib Require Import DecimalString DecimalPos DecimalN.
From stdpp Require Import base option list.
Import ListNotations.

#[local] Open Scope N_scope.
#[local] Open Scope nat_scope.

(** ** Strings *)

Module JS.

Abbreviation char := N.
Abbreviation jsstring := (list N).

(** Code units of a Rocq string literal (one unit per byte: the literals
    used in this file are ASCII). *)
Definition str (s : string) : jsstring :=
  map N_of_ascii (list_ascii_of_string s).

Definition LF : char := 10%N.
Definition CR : char := 13%N.
Definition TAB : char := 9%N.
Definition SPACE : char := 32%N.

Definition in_range (lo hi c : N) : bool := (lo <=? c)%N && (c <=? hi)%N.

(** ECMAScript [LineTerminator]: LF, CR, LS, PS. *)
Definition isLineTerminator (c : char) : bool :=
  (c =? 10)%N || (c =? 13)%N || (c =? 8232)%N || (c =? 8233)%N.

(** ECMAScript [WhiteSpace] and [LineTerminator]: the class [\s], which
    is also the set of code units removed by [trim] and [trimEnd]. *)
Definition isSpace (c : char) : bool :=
  in_range 9 13 c || (c =? 32)%N || (c =? 160)%N || (c =? 5760)%N
  || in_range 8192 8202 c || (c =? 8232)%N || (c =? 8233)%N
  || (c =? 8239)%N || (c =? 8287)%N || (c =? 12288)%N || (c =? 65279)%N.

(** The class [\d]. *)
Definition isDigit (c : char) : bool := in_range 48 57 c.

(** The class [\w]: [A-Za-z0-9_]. *)
Definition isWord (c : char) : bool :=
  in_range 65 90 c || in_range 97 122 c || isDigit c || (c =? 95)%N.

Fixpoint takeWhile {A} (p : A -> bool) (s : list A) : list A :=
  match s with
  | c :: s' => if p c then c :: takeWhile p s' else []
  | [] => []
  end.

Fixpoint dropWhile {A} (p : A -> bool) (s : list A) : list A :=
  match s with
  | c :: s' => if p c then dropWhile p s' else s
  | [] => []
  end.

Definition trimStart (s : jsstring) : jsstring := dropWhile isSpace s.
Definition trimEnd (s : jsstring) : jsstring :=
  rev (dropWhile isSpace (rev s)).
Definition trim (s : jsstring) : jsstring := trimStart (trimEnd s).

(** [s.startsWith(pre)], returning the rest of [s]. *)
Fixpoint stripPrefix (pre s : jsstring) : option jsstring :=
  match pre, s with
  | [], _ => Some s
  | p :: pre', c :: s' => if (p =? c)%N then stripPrefix pre' s' else None
  | _ :: _, [] => None
  end.

(** [s.includes(c)] for a one-unit needle. *)
Definition includes (c : char) (s : jsstring) : bool :=
  existsb (fun d => (d =? c)%N) s.

(** [s.split(sep)] for a one-unit separator: never the empty list. *)
Fixpoint split (sep : char) (s : jsstring) : list jsstring :=
  match s with
  | [] => [[]]
  | c :: s' =>
      if (c =? sep)%N then [] :: split sep s'
      else match split sep s' with
           | l :: ls => (c :: l) :: ls
           | [] => [[c]]
           end
  end.

(** [parts.join(sep)]. *)
Fixpoint join (sep : jsstring) (parts : list jsstring) : jsstring :=
  match parts with
  | [] => []
  | [p] => p
  | p :: ps => p ++ sep ++ join sep ps
  end.

(** [text.replace(/\r\n/g, "\n")]. *)
Fixpoint replaceCRLF (s : jsstring) : jsstring :=
  match s with
  | [] => []
  | c :: s' =>
      match s' with
      | d :: s'' =>
          if (c =? 13)%N && (d =? 10)%N then 10%N :: replaceCRLF s''
          else c :: replaceCRLF s'
      | [] => [c]
      end
  end.

(** The Number values that [Number] yields for a string of decimal
    digits: a non-negative integer that a double represents, or
    [Infinity]. *)
Inductive number :=
| integer (value : N)
| Infinity.

(** [ToBoolean] of such a value: only 0 is falsy. *)
Definition truthy (n : number) : bool :=
  match n with
  | integer value => negb (value =? 0)%N
  | Infinity => true
  end.

(** The mathematical value of a string of decimal digits. *)
Definition decimalValue (digits : jsstring) : N :=
  fold_left (fun acc c => (10 * acc + (c - 48))%N) digits 0%N.

(** The Number value for a non-negative integer [n]: the double nearest
    to [n], the one with the even significand when two are equally near,
    and [Infinity] when the rounding reaches 2^1024.  An integer of at
    most 53 bits is a double.  A longer one keeps its 53 leading bits
    [q]; the [shift] bits that are cut off, [r], decide the rounding. *)
Definition roundToDouble (n : N) : number :=
  let bits := N.size n in
  if (bits <=? 53)%N then integer n
  else
    let shift := (bits - 53)%N in
    let q := N.shiftr n shift in
    let r := (n - N.shiftl q shift)%N in
    let half := N.shiftl 1 (shift - 1) in
    let q' := if (half <? r)%N || ((r =? half)%N && N.odd q)
              then (q + 1)%N else q in
    let value := N.shiftl q' shift in
    if (N.shiftl 1 1024 <=? value)%N then Infinity else integer value.

(** [Number(digits)] for a string of decimal digits: the Number value for
    its mathematical value, a double.  (ECMAScript lets an implementation
    ignore the digits after the 20th significant one; the model rounds
    the exact value, as V8 does.) *)
Definition Number (digits : jsstring) : number :=
  roundToDouble (decimalValue digits).

End JS.
Import JS.

(** ** Document model

    The node types of [~/types/jira] as the converter builds them. *)

Inductive MarkType := strike | strong | em | code | link.

(** [{ type }] or [{ type: "link", attrs: { href } }]. *)
Record JiraADFMark := Mark {
  mark_type : MarkType;
  mark_href : option jsstring
}.

(** [{ type: "text", text, marks? }] or [{ type: "hardBreak" }]; an unmarked
    text node has no [marks] property. *)
Inductive JiraADFInlineNode :=
| TextNode (text : jsstring) (marks : option (list JiraADFMark))
| HardBreak.

Record JiraADFParagraphNode := ParagraphNode {
  paragraph_content : list JiraADFInlineNode
}.

Inductive JiraADFTableCell :=
| TableHeader (content : list JiraADFParagraphNode)
| TableCell (content : list JiraADFParagraphNode).

Record JiraADFTableRowNode := TableRow {
  row_content : list JiraADFTableCell
}.

Record JiraADFTableNode := TableNode {
  isNumberColumnEnabled : bool;
  layout : jsstring;
  table_content : list JiraADFTableRowNode
}.

#[local] Set Warnings "-register-all".

Inductive JiraADFBlockNode :=
| Paragraph (p : JiraADFParagraphNode)
| Heading (level : nat) (content : list JiraADFInlineNode)
| CodeBlock (language : option jsstring) (content : list JiraADFInlineNode)
| Blockquote (content : list JiraADFBlockNode)
| BulletList (content : list JiraADFListItemNode)
| OrderedList (order : option number) (content : list JiraADFListItemNode)
| Table (t : JiraADFTableNode)
with JiraADFListItemNode :=
| ListItem (content : list JiraADFBlockNode).

Record JiraADFDocument := Doc {
  version : nat;
  doc_content : list JiraADFBlockNode
}.

Definition item_content (it : JiraADFListItemNode) : list JiraADFBlockNode :=
  match it with ListItem c => c end.

(** ** The inline tokenizer *)

(** The result of [String.prototype.match]: the matched text followed by
    the capture groups. *)
Definition RegExpMatch : Type := list jsstring.

Definition group (m : RegExpMatch) (k : nat) : jsstring := default [] (m !! k).

Definition notChar (stop : char) (c : char) : bool := negb (c =? stop)%N.

(** [/^OPEN([^c]+)CLOSE/] where [CLOSE] starts with the excluded unit [c]:
    the group is the longest run of units other than [c] after [OPEN]; it
    must be non-empty and followed by [CLOSE].  A shorter group would be
    followed by a unit other than [c], where [CLOSE] cannot match, so the
    greedy match is the only candidate. *)
Definition delimited (open : jsstring) (stop : char) (close : jsstring)
    (s : jsstring) : option RegExpMatch :=
  rest ← stripPrefix open s;
  match takeWhile (notChar stop) rest with
  | [] => None
  | (_ :: _) as inner =>
      _ ← stripPrefix close (dropWhile (notChar stop) rest);
      Some [open ++ inner ++ close; inner]
  end.

(** [/^\[([^\]]+)\]\(([^)]+)\)/]. *)
Definition linkRegex (s : jsstring) : option RegExpMatch :=
  m ← delimited (str "[") 93%N (str "](") s;
  rest ← stripPrefix (group m 0) s;
  match takeWhile (notChar 41%N) rest with
  | [] => None
  | (_ :: _) as target =>
      _ ← stripPrefix (str ")") (dropWhile (notChar 41%N) rest);
      Some [group m 0 ++ target ++ str ")"; group m 1; target]
  end.

Record Pattern := {
  regex : jsstring -> option RegExpMatch;
  markType : MarkType;
  textGroup : nat;
  hrefGroup : option nat
}.

Definition patterns : list Pattern := [
  {| regex := delimited (str "~~") 126%N (str "~~"); markType := strike;
     textGroup := 1; hrefGroup := None |};
  {| regex := delimited (str "**") 42%N (str "**"); markType := strong;
     textGroup := 1; hrefGroup := None |};
  {| regex := delimited (str "*") 42%N (str "*"); markType := em;
     textGroup := 1; hrefGroup := None |};
  {| regex := delimited (str "__") 95%N (str "__"); markType := strong;
     textGroup := 1; hrefGroup := None |};
  {| regex := delimited (str "_") 95%N (str "_"); markType := em;
     textGroup := 1; hrefGroup := None |};
  {| regex := delimited (str "`") 96%N (str "`"); markType := code;
     textGroup := 1; hrefGroup := None |};
  {| regex := linkRegex; markType := link;
     textGroup := 1; hrefGroup := Some 2 |}
].

(** The [for (const pattern of patterns)] loop: the first pattern that
    matches, with its match. *)
Fixpoint firstMatch (ps : list Pattern) (remaining : jsstring)
    : option (Pattern * RegExpMatch) :=
  match ps with
  | [] => None
  | p :: ps' =>
      match regex p remaining with
      | Some m => Some (p, m)
      | None => firstMatch ps' remaining
      end
  end.

Definition markOf (p : Pattern) (m : RegExpMatch) : JiraADFMark :=
  match markType p with
  | link => Mark link (Some (group m (default 2 (hrefGroup p))))
  | t => Mark t None
  end.

(** Does [/~~|\*\*|\*|__|_|`|\[|\]/] match at the start of [s]? *)
Definition specialAt (s : jsstring) : bool :=
  match s with
  | [] => false
  | c :: s' =>
      match stripPrefix (str "~~") s with
      | Some _ => true
      | None =>
          (c =? 42)%N || (c =? 95)%N || (c =? 96)%N || (c =? 91)%N
          || (c =? 93)%N
      end
  end.

(** [remaining.search(/~~|\*\*|\*|__|_|`|\[|\]/)]; [None] stands for -1. *)
Fixpoint searchSpecial (s : jsstring) : option nat :=
  if specialAt s then Some 0
  else match s with
       | [] => None
       | _ :: s' => S <$> searchSpecial s'
       end.

(** The [while (remaining.length > 0)] loop of [parseMarkdownInline]. *)
Fixpoint inlineLoop (fuel : nat) (remaining : jsstring)
    (nodes : list JiraADFInlineNode) : option (list JiraADFInlineNode) :=
  match remaining with
  | [] => Some nodes
  | _ :: _ =>
      match fuel with
      | 0 => None
      | S fuel' =>
          match firstMatch patterns remaining with
          | Some (p, m) =>
              inlineLoop fuel' (drop (length (group m 0)) remaining)
                (nodes ++ [TextNode (group m (textGroup p)) (Some [markOf p m])])
          | None =>
              match searchSpecial remaining with
              | None => Some (nodes ++ [TextNode remaining None])
              | Some 0 =>
                  inlineLoop fuel' (drop 1 remaining)
                    (nodes ++ [TextNode (take 1 remaining) None])
              | Some nextSpecial =>
                  inlineLoop fuel' (drop nextSpecial remaining)
                    (nodes ++ [TextNode (take nextSpecial remaining) None])
              end
          end
      end
  end.

Definition parseMarkdownInline_fuel (fuel : nat) (text : jsstring)
    : option (list JiraADFInlineNode) :=
  inlineLoop fuel text [].

(** Every iteration removes at least one unit of [remaining], so
    [length text] iterations are enough ([inlineLoop_total] below). *)
Definition parseMarkdownInline (text : jsstring) : list JiraADFInlineNode :=
  default [] (parseMarkdownInline_fuel (length text) text).

Definition buildParagraph (text : jsstring) : JiraADFParagraphNode :=
  let content := parseMarkdownInline text in
  ParagraphNode (match content with
                 | [] => [TextNode [] None]
                 | _ :: _ => content
                 end).

(** A node as the tokenizer emits it: a text node with a non-empty text
    that is unmarked or carries exactly one mark. *)
Definition isTokenNode (n : JiraADFInlineNode) : bool :=
  match n with
  | TextNode (_ :: _) None => true
  | TextNode (_ :: _) (Some [_]) => true
  | _ => false
  end.

(** One iteration of the loop of [parseMarkdownInline] on a non-empty
    [remaining]: the node it pushes and what is left, or the last node when
    the loop breaks. *)
Definition inlineStep (remaining : jsstring)
    : JiraADFInlineNode * option jsstring :=
  match firstMatch patterns remaining with
  | Some (p, m) =>
      (TextNode (group m (textGroup p)) (Some [markOf p m]),
       Some (drop (length (group m 0)) remaining))
  | None =>
      match searchSpecial remaining with
      | None => (TextNode remaining None, None)
      | Some 0 => (TextNode (take 1 remaining) None, Some (drop 1 remaining))
      | Some k => (TextNode (take k remaining) None, Some (drop k remaining))
      end
  end.

(** ** Line-level helpers of the block parser *)

Definition getLineIndent (line : jsstring) : nat :=
  length (flat_map (fun c => if (c =? TAB)%N then [SPACE; SPACE] else [c])
            (takeWhile isSpace line)).

(** [s.replace(/^\|/, "")]. *)
Definition dropLeadingPipe (s : jsstring) : jsstring :=
  match s with
  | c :: s' => if (c =? 124)%N then s' else s
  | [] => []
  end.

(** [s.replace(/\|$/, "")]: without the [m] flag, [$] is the end of input. *)
Definition dropTrailingPipe (s : jsstring) : jsstring :=
  match rev s with
  | c :: r => if (c =? 124)%N then rev r else s
  | [] => s
  end.

Definition splitTableRow (line : jsstring) : list jsstring :=
  let trimmed := dropTrailingPipe (dropLeadingPipe (trim line)) in
  map trim (split 124%N trimmed).

(** [/^:?-{3,}:?$/.test(cell)].  Each quantifier has a single candidate:
    a colon that is not taken, or a shorter run of dashes, leaves a unit
    that the next item of the expression cannot match. *)
Definition separatorCell (cell : jsstring) : bool :=
  let s1 := match cell with
            | c :: s' => if (c =? 58)%N then s' else cell
            | [] => cell
            end in
  let dashes := takeWhile (fun c => (c =? 45)%N) s1 in
  (3 <=? length dashes)
  && match dropWhile (fun c => (c =? 45)%N) s1 with
     | [] => true
     | [c] => (c =? 58)%N
     | _ => false
     end.

Definition isTableSeparator (line : jsstring) : bool :=
  let cells := splitTableRow line in
  (0 <? length cells) && forallb separatorCell cells.

Definition toParagraph (value : jsstring) : JiraADFParagraphNode :=
  let inline := parseMarkdownInline value in
  ParagraphNode (match inline with
                 | [] => [TextNode [] None]
                 | _ :: _ => inline
                 end).

Definition buildTableNode (headerLine : jsstring) (bodyLines : list jsstring)
    : JiraADFTableNode :=
  let headerRow :=
    TableRow (map (fun cell => TableHeader [toParagraph cell])
                (splitTableRow headerLine)) in
  let bodyRows :=
    map (fun line =>
           TableRow (map (fun cell => TableCell [toParagraph cell])
                       (splitTableRow line)))
      bodyLines in
  TableNode false (str "default") (headerRow :: bodyRows).

(** The class [[\w-]]. *)
Definition isLanguageUnit (c : char) : bool := isWord c || (c =? 45)%N.

(** [trimmed.match(/^```([\w-]+)?\s*$/)], giving the language group
    ([None]: the group did not take part).  The group is the longest run of
    [[\w-]] after the fence; a shorter run, or none, leaves a word unit in
    front of [\s*$]. *)
Definition codeFenceStart (trimmed : jsstring) : option (option jsstring) :=
  match stripPrefix (str "```") trimmed with
  | Some rest =>
      let language := takeWhile isLanguageUnit rest in
      if forallb isSpace (dropWhile isLanguageUnit rest)
      then Some (match language with [] => None | _ :: _ => Some language end)
      else None
  | None => None
  end.

(** [/^\s*```\s*$/.test(line)]. *)
Definition codeFenceEnd (line : jsstring) : bool :=
  match stripPrefix (str "```") (dropWhile isSpace line) with
  | Some rest => forallb isSpace rest
  | None => false
  end.

(** [/^\s*>\s?/.test(line)]. *)
Definition isQuoteLine (line : jsstring) : bool :=
  match dropWhile isSpace line with
  | c :: _ => (c =? 62)%N
  | [] => false
  end.

(** [line.replace(/^\s*>\s?/, "")]. *)
Definition stripQuote (line : jsstring) : jsstring :=
  match dropWhile isSpace line with
  | c :: rest =>
      if (c =? 62)%N then
        match rest with
        | d :: rest' => if isSpace d then rest' else rest
        | [] => []
        end
      else line
  | [] => line
  end.

(** The tail shared by the heading and list-item expressions: [\s+], then
    a group holding [.*], then [$].  That is at least one unit of white
    space and then the rest of the line, which [.] matches only when it
    holds no line terminator.  [\s+] takes the whole run of white space:
    giving some of it back to the group does not help, since the group
    then still has to cross the same rest to reach [$]. *)
Definition spaceThenRest (s : jsstring) : option jsstring :=
  match takeWhile isSpace s with
  | [] => None
  | _ :: _ =>
      let rest := dropWhile isSpace s in
      if forallb (fun c => negb (isLineTerminator c)) rest then Some rest
      else None
  end.

(** [trimmed.match(re)] for the heading expression [^(#{1,6})] followed by
    the tail above: groups 1 and 2.  With more than six [#] the unit after
    the sixth is a [#], which [\s+] rejects. *)
Definition headingMatch (trimmed : jsstring) : option (jsstring * jsstring) :=
  let hashes := takeWhile (fun c => (c =? 35)%N) trimmed in
  if (1 <=? length hashes) && (length hashes <=? 6) then
    text ← spaceThenRest (dropWhile (fun c => (c =? 35)%N) trimmed);
    Some (hashes, text)
  else None.

(** [line.match(re)] for the bullet expression: [^], a group holding
    [\s*], one of [-] and [*], then the tail above.  Groups 1 and 2. *)
Definition bulletMatch (line : jsstring) : option (jsstring * jsstring) :=
  match dropWhile isSpace line with
  | c :: rest =>
      if (c =? 45)%N || (c =? 42)%N then
        text ← spaceThenRest rest;
        Some (takeWhile isSpace line, text)
      else None
  | [] => None
  end.

(** [line.match(re)] for the ordered expression: [^], a group holding
    [\s*], a group holding [\d+], a dot, then the tail above.  Groups 1, 2
    and 3. *)
Definition orderedMatch (line : jsstring)
    : option (jsstring * jsstring * jsstring) :=
  let rest := dropWhile isSpace line in
  match takeWhile isDigit rest with
  | [] => None
  | (_ :: _) as digits =>
      match dropWhile isDigit rest with
      | c :: rest' =>
          if (c =? 46)%N then
            text ← spaceThenRest rest';
            Some (takeWhile isSpace line, digits, text)
          else None
      | [] => None
      end
  end.

(** ** References to list nodes

    [entry.node] of a list-stack entry is a reference to a list node that
    sits in [blocks] or, for a nested list, in the content of a list item
    of another list.  [NodeRef] is the position of that node: [ref_steps]
    descends through (index of a list in the current sequence of blocks,
    index of one of its items) pairs, and [ref_index] is the index of the
    node in the sequence reached.  The arrays of the source only grow at
    their end while a list is referenced, so a position keeps denoting the
    same node.  (The one insertion at the front,
    [item.content.unshift(paragraph)], is for an item that does not start
    with a paragraph; no state of a run has such an item, see
    [reaches_ok].) *)

Record NodeRef := {
  ref_steps : list (nat * nat);
  ref_index : nat
}.

Definition listContent (b : JiraADFBlockNode)
    : option (list JiraADFListItemNode) :=
  match b with
  | BulletList c => Some c
  | OrderedList _ c => Some c
  | _ => None
  end.

Definition setListContent (b : JiraADFBlockNode)
    (c : list JiraADFListItemNode) : JiraADFBlockNode :=
  match b with
  | BulletList _ => BulletList c
  | OrderedList o _ => OrderedList o c
  | _ => b
  end.

(** The node a reference denotes. *)
Fixpoint derefAt (steps : list (nat * nat)) (idx : nat)
    (bs : list JiraADFBlockNode) : option JiraADFBlockNode :=
  match steps with
  | [] => bs !! idx
  | (c, i) :: steps' =>
      b ← bs !! c;
      items ← listContent b;
      it ← items !! i;
      derefAt steps' idx (item_content it)
  end.

Definition deref (r : NodeRef) (bs : list JiraADFBlockNode)
    : option JiraADFBlockNode :=
  derefAt (ref_steps r) (ref_index r) bs.

(** [node.content] through a reference. *)
Definition readContent (r : NodeRef) (bs : list JiraADFBlockNode)
    : option (list JiraADFListItemNode) :=
  deref r bs ≫= listContent.

(** A mutation of [node.content] through a reference. *)
Fixpoint updateAt (steps : list (nat * nat)) (idx : nat)
    (f : list JiraADFListItemNode -> list JiraADFListItemNode)
    (bs : list JiraADFBlockNode) : option (list JiraADFBlockNode) :=
  match steps with
  | [] =>
      b ← bs !! idx;
      items ← listContent b;
      Some (<[idx := setListContent b (f items)]> bs)
  | (c, i) :: steps' =>
      b ← bs !! c;
      items ← listContent b;
      it ← items !! i;
      content' ← updateAt steps' idx f (item_content it);
      Some (<[c := setListContent b (<[i := ListItem content']> items)]> bs)
  end.

Definition updateContent (r : NodeRef)
    (f : list JiraADFListItemNode -> list JiraADFListItemNode)
    (bs : list JiraADFBlockNode) : option (list JiraADFBlockNode) :=
  updateAt (ref_steps r) (ref_index r) f bs.

(** ** The block parser *)

Inductive ListType := bullet | ordered.

Definition ListType_eqb (a b : ListType) : bool :=
  match a, b with
  | bullet, bullet | ordered, ordered => true
  | _, _ => false
  end.

Record ListEntry := {
  entry_type : ListType;
  entry_indent : nat;
  entry_node : NodeRef
}.

(** The local variables of [parseMarkdownBlocks].  [listStack] has its top
    (the last element of the array) at the head. *)
Record State := {
  blocks : list JiraADFBlockNode;
  paragraphLines : list jsstring;
  listStack : list ListEntry
}.

Definition initialState : State :=
  {| blocks := []; paragraphLines := []; listStack := [] |}.

Definition pushBlock (b : JiraADFBlockNode) (st : State) : State :=
  {| blocks := blocks st ++ [b];
     paragraphLines := paragraphLines st;
     listStack := listStack st |}.

Definition setBlocks (bs : list JiraADFBlockNode) (st : State) : State :=
  {| blocks := bs;
     paragraphLines := paragraphLines st;
     listStack := listStack st |}.

Definition setListStack (stack : list ListEntry) (st : State) : State :=
  {| blocks := blocks st;
     paragraphLines := paragraphLines st;
     listStack := stack |}.

Definition flushParagraph (st : State) : State :=
  match paragraphLines st with
  | [] => st
  | _ :: _ =>
      let content := trim (join (str " ") (paragraphLines st)) in
      {| blocks := match content with
                   | [] => blocks st
                   | _ :: _ => blocks st ++ [Paragraph (buildParagraph content)]
                   end;
         paragraphLines := [];
         listStack := listStack st |}
  end.

Definition flushListStack (st : State) : State := setListStack [] st.

Definition getLastListItem (content : list JiraADFListItemNode)
    : option JiraADFListItemNode :=
  last content.

(** [start ? { order: start } : undefined]: a start of 0 is falsy. *)
Definition createListNode (type : ListType) (start : option number)
    : JiraADFBlockNode :=
  match type with
  | bullet => BulletList []
  | ordered =>
      OrderedList (match start with
                   | Some n => if truthy n then Some n else None
                   | None => None
                   end) []
  end.

(** The effect of
    [parentItem = getLastListItem(parent.node)], the creation of a
    placeholder item when there is none, and [parentItem.content.push(node)]
    on [parent.node.content]. *)
Definition nestInLastItem (node : JiraADFBlockNode)
    (content : list JiraADFListItemNode) : list JiraADFListItemNode :=
  match getLastListItem content with
  | None => content ++ [ListItem [Paragraph (buildParagraph []); node]]
  | Some parentItem =>
      <[length content - 1 := ListItem (item_content parentItem ++ [node])]>
        content
  end.

(** The reference to a node pushed by [nestInLastItem]. *)
Definition nestedRef (parent : NodeRef) (content : list JiraADFListItemNode)
    : NodeRef :=
  match getLastListItem content with
  | None =>
      {| ref_steps := ref_steps parent ++ [(ref_index parent, length content)];
         ref_index := 1 |}
  | Some parentItem =>
      {| ref_steps :=
           ref_steps parent ++ [(ref_index parent, length content - 1)];
         ref_index := length (item_content parentItem) |}
  end.

Definition ensureListContext (type : ListType) (indent : nat)
    (start : option number) (st : State) : option (ListEntry * State) :=
  let stack1 := dropWhile (fun e => indent <? entry_indent e) (listStack st) in
  let current := head stack1 in
  let reuse :=
    match current with
    | Some c => (entry_indent c =? indent) && ListType_eqb (entry_type c) type
    | None => false
    end in
  match current, reuse with
  | Some c, true => Some (c, setListStack stack1 st)
  | _, _ =>
      let '(parent, stack2) :=
        match current with
        | Some c =>
            if entry_indent c <? indent then (Some c, stack1)
            else if entry_indent c =? indent
                 then (head (tail stack1), tail stack1)
                 else (None, stack1)
        | None => (None, stack1)
        end in
      let node := createListNode type start in
      match parent with
      | None =>
          let entry := {| entry_type := type; entry_indent := indent;
                          entry_node := {| ref_steps := [];
                                           ref_index := length (blocks st) |} |} in
          Some (entry,
                {| blocks := blocks st ++ [node];
                   paragraphLines := paragraphLines st;
                   listStack := entry :: stack2 |})
      | Some p =>
          content ← readContent (entry_node p) (blocks st);
          blocks' ← updateContent (entry_node p) (nestInLastItem node) (blocks st);
          let entry := {| entry_type := type; entry_indent := indent;
                          entry_node := nestedRef (entry_node p) content |} in
          Some (entry,
                {| blocks := blocks';
                   paragraphLines := paragraphLines st;
                   listStack := entry :: stack2 |})
      end
  end.

(** [entry.node.content.push({ type: "listItem", content: [paragraph] })]. *)
Definition pushListItem (entry : ListEntry) (text : jsstring) (st : State)
    : option State :=
  blocks' ← updateContent (entry_node entry)
              (fun content => content ++ [ListItem [Paragraph (buildParagraph text)]])
              (blocks st);
  Some (setBlocks blocks' st).

(** [paragraph.content] after [appendContinuationToListItem] has handled
    the tokens [inline] of the line. *)
Definition continueParagraph (inline : list JiraADFInlineNode)
    (p : JiraADFParagraphNode) : JiraADFParagraphNode :=
  match inline with
  | [] => p
  | _ :: _ =>
      let hasPlaceholder :=
        match paragraph_content p with
        | [TextNode [] _] => true
        | _ => false
        end in
      if hasPlaceholder then ParagraphNode inline
      else ParagraphNode (paragraph_content p ++ [HardBreak] ++ inline)
  end.

(** The effect of [appendContinuationToListItem(entry, line)] on
    [entry.node.content]: the last item (a placeholder item when there is
    none), its first paragraph (a new one in front when the item does not
    start with a paragraph), and the update of that paragraph. *)
Definition continueLastItem (line : jsstring)
    (content : list JiraADFListItemNode) : list JiraADFListItemNode :=
  let content1 :=
    match getLastListItem content with
    | Some _ => content
    | None => content ++ [ListItem [Paragraph (buildParagraph [])]]
    end in
  let inline := parseMarkdownInline (trim line) in
  match getLastListItem content1 with
  | Some (ListItem (Paragraph p :: rest)) =>
      <[length content1 - 1 :=
          ListItem (Paragraph (continueParagraph inline p) :: rest)]> content1
  | Some (ListItem others) =>
      <[length content1 - 1 :=
          ListItem (Paragraph (continueParagraph inline (buildParagraph []))
                    :: others)]> content1
  | None => content1
  end.

Definition appendContinuationToListItem (entry : ListEntry) (line : jsstring)
    (st : State) : option State :=
  blocks' ← updateContent (entry_node entry) (continueLastItem line) (blocks st);
  Some (setBlocks blocks' st).

(** The test of the table rule:
    [i + 1 < lines.length && trimmed.includes("|") &&
     this.isTableSeparator(lines[i + 1].trim())]. *)
Definition tableStartsAt (lines : list jsstring) (i : nat)
    (trimmed : jsstring) : bool :=
  match lines !! (i + 1) with
  | Some next => includes 124%N trimmed && isTableSeparator (trim next)
  | None => false
  end.

(** The lines that the table rule takes as body rows: the loop breaks on
    [row.length === 0 || !row.includes("|")] for [row = lines[cursor].trim()]. *)
Definition isTableBodyLine (l : jsstring) : bool :=
  let row := trim l in
  negb (match row with [] => true | _ :: _ => false end
        || negb (includes 124%N row)).

(** One iteration of the [for] loop over [lines], started at index [i];
    [rec] is the recursive call of [parseMarkdownBlocks].  The result is
    the state after the iteration and the value of [i] after the [i += 1]
    that follows it (so [cursor] where the source sets [i = cursor - 1]). *)
Definition loopBody (rec : jsstring -> option (list JiraADFBlockNode))
    (lines : list jsstring) (i : nat) (st : State) : option (nat * State) :=
  rawLine ← lines !! i;
  let line := trimEnd rawLine in
  let trimmed := trim line in
  match trimmed with
  | [] => Some (i + 1, flushListStack (flushParagraph st))
  | _ :: _ =>
  match codeFenceStart trimmed with
  | Some language =>
      let st1 := flushListStack (flushParagraph st) in
      let codeLines :=
        takeWhile (fun l => negb (codeFenceEnd l)) (drop (i + 1) lines) in
      Some (i + 1 + length codeLines + 1,
            pushBlock (CodeBlock language
                         [TextNode (join [LF] codeLines) None])
              st1)
  | None =>
  if tableStartsAt lines i trimmed then
    let st1 := flushListStack (flushParagraph st) in
    let bodyLines := map trim (takeWhile isTableBodyLine (drop (i + 2) lines)) in
    let cursor := i + 2 + length bodyLines in
    Some (cursor, pushBlock (Table (buildTableNode trimmed bodyLines)) st1)
  else if isQuoteLine line then
    let st1 := flushListStack (flushParagraph st) in
    let quoteLines := map stripQuote (takeWhile isQuoteLine (drop i lines)) in
    let cursor := i + length quoteLines in
    quoteContent ← rec (join [LF] quoteLines);
    Some (cursor, pushBlock (Blockquote quoteContent) st1)
  else
  match headingMatch trimmed with
  | Some (hashes, text) =>
      let st1 := flushListStack (flushParagraph st) in
      Some (i + 1,
            pushBlock (Heading (length hashes) (parseMarkdownInline text)) st1)
  | None =>
  match bulletMatch line with
  | Some (spaces, text) =>
      let st1 := flushParagraph st in
      let indent := getLineIndent spaces in
      '(entry, st2) ← ensureListContext bullet indent None st1;
      st3 ← pushListItem entry text st2;
      Some (i + 1, st3)
  | None =>
  match orderedMatch line with
  | Some (spaces, digits, text) =>
      let st1 := flushParagraph st in
      let indent := getLineIndent spaces in
      '(entry, st2) ← ensureListContext ordered indent (Some (Number digits)) st1;
      st3 ← pushListItem entry text st2;
      Some (i + 1, st3)
  | None =>
  let addLine (s : State) :=
    {| blocks := blocks s;
       paragraphLines := paragraphLines s ++ [trimmed];
       listStack := listStack s |} in
  match listStack st with
  | top :: _ =>
      if entry_indent top <? getLineIndent line
      then st1 ← appendContinuationToListItem top line st; Some (i + 1, st1)
      else Some (i + 1, addLine (flushListStack st))
  | [] => Some (i + 1, addLine st)
  end
  end end end end end.

(** The statements after the loop. *)
Definition finish (st : State) : list JiraADFBlockNode :=
  let st1 := flushListStack (flushParagraph st) in
  match blocks st1 with
  | [] => [Paragraph (buildParagraph [])]
  | _ :: _ => blocks st1
  end.

(** The [for] loop of [parseMarkdownBlocks] from index [i] on, followed by
    [finish]; a blockquote calls the parser on its own text with the fuel
    that is left. *)
Fixpoint blocksLoop (fuel : nat) (lines : list jsstring) (i : nat)
    (st : State) : option (list JiraADFBlockNode) :=
  if i <? length lines then
    match fuel with
    | 0 => None
    | S fuel' =>
        let rec text :=
          blocksLoop fuel' (split LF (replaceCRLF text)) 0 initialState in
        '(i', st') ← loopBody rec lines i st;
        blocksLoop fuel' lines i' st'
    end
  else Some (finish st).

Definition parseMarkdownBlocks_fuel (fuel : nat) (text : jsstring)
    : option (list JiraADFBlockNode) :=
  blocksLoop fuel (split LF (replaceCRLF text)) 0 initialState.

(** [length text + 1] iterations are enough ([parseMarkdownBlocks_total]
    below), so the default is never used. *)
Definition parseMarkdownBlocks (text : jsstring) : list JiraADFBlockNode :=
  default [] (parseMarkdownBlocks_fuel (length text + 1) text).

(** One iteration of the loop with the recursive call run to its end. *)
Definition loopStep (lines : list jsstring) (i : nat) (st : State)
    : option (nat * State) :=
  loopBody (fun text => Some (parseMarkdownBlocks text)) lines i st.

Definition createTextADF (text : jsstring) : JiraADFDocument :=
  {| version := 1; doc_content := parseMarkdownBlocks text |}.


(** ** Checks over documents

    [checkBlock K] holds of a block when every sequence of inline nodes
    in it passes the check that [K] has for the kind of node holding it
    (a paragraph, also the paragraph of a table cell, a heading or a code
    block), and the content of every list item passes [itemOk K]. *)

Record InlineCheck := {
  paragraphOk : list JiraADFInlineNode -> bool;
  headingOk : list JiraADFInlineNode -> bool;
  codeOk : list JiraADFInlineNode -> bool;
  itemOk : list JiraADFBlockNode -> bool
}.

Definition checkCell (K : InlineCheck) (c : JiraADFTableCell) : bool :=
  match c with
  | TableHeader ps | TableCell ps =>
      forallb (fun p => paragraphOk K (paragraph_content p)) ps
  end.

Definition checkTable (K : InlineCheck) (t : JiraADFTableNode) : bool :=
  forallb (fun r => forallb (checkCell K) (row_content r)) (table_content t).

Fixpoint checkBlock (K : InlineCheck) (b : JiraADFBlockNode) : bool :=
  match b with
  | Paragraph p => paragraphOk K (paragraph_content p)
  | Heading _ c => headingOk K c
  | CodeBlock _ c => codeOk K c
  | Blockquote c => forallb (checkBlock K) c
  | BulletList c => forallb (checkItem K) c
  | OrderedList _ c => forallb (checkItem K) c
  | Table t => checkTable K t
  end
with checkItem (K : InlineCheck) (it : JiraADFListItemNode) : bool :=
  match it with
  | ListItem c => itemOk K c && forallb (checkBlock K) c
  end.

Definition checkDocument (K : InlineCheck) (d : JiraADFDocument) : bool :=
  forallb (checkBlock K) (doc_content d).

(** A text node carries at most one mark: its [marks], when present, has
    length one. *)
Definition atMostOneMark (n : JiraADFInlineNode) : bool :=
  match n with
  | TextNode _ (Some ms) => length ms =? 1
  | TextNode _ None => true
  | HardBreak => true
  end.

Definition marksCheck : InlineCheck :=
  {| paragraphOk := forallb atMostOneMark;
     headingOk := forallb atMostOneMark;
     codeOk := forallb atMostOneMark;
     itemOk := fun _ => true |}.

(** No text node with an empty text. *)
Definition nonEmptyText (n : JiraADFInlineNode) : bool :=
  match n with
  | TextNode [] _ => false
  | _ => true
  end.

(** The placeholder [[{ type: "text", text: "" }]]. *)
Definition isPlaceholder (c : list JiraADFInlineNode) : bool :=
  match c with
  | [TextNode [] None] => true
  | _ => false
  end.

(** Where an empty text can be: alone in a paragraph, or as the one
    unmarked text node of a code block. *)
Definition emptyTextCheck : InlineCheck :=
  {| paragraphOk := fun c => isPlaceholder c || forallb nonEmptyText c;
     headingOk := forallb nonEmptyText;
     codeOk := fun c => match c with
                        | [TextNode _ None] => true
                        | _ => false
                        end;
     itemOk := fun _ => true |}.

(** The stricter reading of the placement of empty texts: only as the
    placeholder of a paragraph, nowhere else. *)
Definition placeholderOnlyCheck : InlineCheck :=
  {| paragraphOk := fun c => isPlaceholder c || forallb nonEmptyText c;
     headingOk := forallb nonEmptyText;
     codeOk := forallb nonEmptyText;
     itemOk := fun _ => true |}.

(** The content of a list item starts with a paragraph. *)
Definition startsWithParagraph (c : list JiraADFBlockNode) : bool :=
  match c with
  | Paragraph _ :: _ => true
  | _ => false
  end.

Definition shapeCheck : InlineCheck :=
  {| paragraphOk := fun _ => true;
     headingOk := fun _ => true;
     codeOk := fun _ => true;
     itemOk := startsWithParagraph |}.

(** What a step of the parser can do to a node that is already in the
    document: a list keeps its type and its [order] and a paragraph stays
    a paragraph (their content can change); every other block stays as it
    is. *)
Definition keeps (b b' : JiraADFBlockNode) : Prop :=
  match b with
  | BulletList _ => exists c', b' = BulletList c'
  | OrderedList o _ => exists c', b' = OrderedList o c'
  | Paragraph _ => exists p', b' = Paragraph p'
  | _ => b' = b
  end.

(** ** Well-formed parser states *)

(** The type and the [order] attribute of a list node. *)
Definition listHead (b : JiraADFBlockNode)
    : option (ListType * option number) :=
  match b with
  | BulletList _ => Some (bullet, None)
  | OrderedList o _ => Some (ordered, o)
  | _ => None
  end.

(** The reference of a stack entry denotes a list node of the entry's
    type. *)
Definition entryValid (bs : list JiraADFBlockNode) (e : ListEntry) : Prop :=
  exists b o, deref (entry_node e) bs = Some b
              /\ listHead b = Some (entry_type e, o).

Definition depth (e : ListEntry) : nat := length (ref_steps (entry_node e)).

(** Every entry of the stack is valid, and an entry lies deeper in the
    document than the entries below it. *)
Definition stateOk (st : State) : Prop :=
  Forall (entryValid (blocks st)) (listStack st)
  /\ StronglySorted (fun e e' => depth e' < depth e) (listStack st).

(** The input left from line [i] on, counted as the fuel that the loop
    needs: one per unit and one per line. *)
Definition inputLeft (lines : list jsstring) (i : nat) : nat :=
  list_sum (map (fun l => length l + 1) (drop i lines)).

(** The units that the scan of [parseMarkdownInline] stops at: the units
    of [/~~|\*\*|\*|__|_|`|\[|\]/]. *)
Definition isDelimiterUnit (c : char) : bool :=
  (c =? 126)%N || (c =? 42)%N || (c =? 95)%N || (c =? 96)%N
  || (c =? 91)%N || (c =? 93)%N.

(** The children of the items of [c] are still there in [c'], at the same
    places: a child that is a list is the same list, any other child is
    kept in the sense of [keeps]. *)
Definition childrenKept (c c' : list JiraADFListItemNode) : Prop :=
  forall i it, c !! i = Some it ->
    exists it', c' !! i = Some it'
      /\ forall j b, item_content it !! j = Some b ->
           exists b', item_content it' !! j = Some b'
                      /\ keeps b b'
                      /\ (forall h, listHead b = Some h -> b' = b).

(** The states of the loop on [lines]: [reaches lines i st] when the loop
    gets to the test of its condition with the line cursor at [i] and the
    local variables as in [st]. *)
Inductive reaches (lines : list jsstring) : nat -> State -> Prop :=
| reaches_start : reaches lines 0 initialState
| reaches_step i st i' st' :
    reaches lines i st ->
    loopStep lines i st = Some (i', st') ->
    reaches lines i' st'.

(** The list children of the items of [c'] are list children of the items
    of [c], at the same places, but for the child at [pos], which is
    [node]. *)
Definition listChildrenFrom (c c' : list JiraADFListItemNode)
    (pos : option (nat * nat)) (node : JiraADFBlockNode) : Prop :=
  forall i it' j b' h,
    c' !! i = Some it' -> item_content it' !! j = Some b' ->
    listHead b' = Some h ->
    (exists it, c !! i = Some it /\ item_content it !! j = Some b')
    \/ (pos = Some (i, j) /\ b' = node).

(** ** Further definitions

    The definitions below serve the properties of the last part of the
    file: descriptions of lines, invariants of the block parser, and the
    parts of [JiraService] around the converter. *)

(** The rest after a run of units that satisfy [p]: it is empty or starts
    with a unit that does not satisfy [p], so a greedy scan for [p] stops
    in front of it. *)
Definition stopsRun {A} (p : A -> bool) (rest : list A) : Prop :=
  match rest with
  | c :: _ => p c = false
  | [] => True
  end.

(** A line that none of the rules for blank lines, code fences,
    blockquotes, headings and list items takes: the tests of [loopBody] on
    [rawLine] alone, in the order of the source.  (The table rule looks at
    the next line too, see [tableStartsAt].) *)
Definition isOtherLine (rawLine : jsstring) : bool :=
  let line := trimEnd rawLine in
  let trimmed := trim line in
  match trimmed with
  | [] => false
  | _ :: _ =>
      match codeFenceStart trimmed with
      | Some _ => false
      | None =>
          negb (isQuoteLine line)
          && match headingMatch trimmed with
             | Some _ => false
             | None =>
                 match bulletMatch line with
                 | Some _ => false
                 | None =>
                     match orderedMatch line with
                     | Some _ => false
                     | None => true
                     end
                 end
             end
      end
  end.

(** The indents of the open lists grow from the bottom of the stack to
    its top (the head of [listStack]). *)
Definition indentsIncrease (stack : list ListEntry) : Prop :=
  StronglySorted (fun e e' => entry_indent e' < entry_indent e) stack.

(** What holds of the local variables of [parseMarkdownBlocks] at every
    test of the loop condition, besides [stateOk]: the indents of the open
    lists increase; a paragraph is pending only while no list is open;
    and the pending lines are trimmed and not empty. *)
Definition stateInv (st : State) : Prop :=
  indentsIncrease (listStack st)
  /\ (paragraphLines st = [] \/ listStack st = [])
  /\ Forall (fun l => l <> [] /\ trim l = l) (paragraphLines st).

(** The paragraph that stands for no content: [buildParagraph("")]. *)
Definition isPlaceholderBlock (b : JiraADFBlockNode) : bool :=
  match b with
  | Paragraph p => isPlaceholder (paragraph_content p)
  | _ => false
  end.

(** The parser has seen content: a block is there or a paragraph is
    pending. *)
Definition hasContent (st : State) : Prop :=
  blocks st <> [] \/ paragraphLines st <> [].

(** The item rules of [loopBody] on a line: [rawLine] is taken by the
    bullet rule or by the ordered rule, with the type of list, the leading
    white space (group 1), the [start] that the rule hands to
    [ensureListContext] and the text of the item. *)
Definition itemLine (rawLine : jsstring) (type : ListType)
    (spaces : jsstring) (start : option number) (text : jsstring) : Prop :=
  (type = bullet /\ start = None
   /\ bulletMatch (trimEnd rawLine) = Some (spaces, text))
  \/ (type = ordered
      /\ exists digits,
           start = Some (Number digits)
           /\ orderedMatch (trimEnd rawLine) = Some (spaces, digits, text)).

(** ** The tokens of a text *)

(** The run of the loop of [parseMarkdownInline] as a relation: the nodes
    that the iterations push for [remaining], in order ([inlineStep] is
    one iteration). *)
Inductive tokenized : jsstring -> list JiraADFInlineNode -> Prop :=
| tokenized_nil : tokenized [] []
| tokenized_break remaining n :
    remaining <> [] ->
    inlineStep remaining = (n, None) ->
    tokenized remaining [n]
| tokenized_step remaining n rest nodes :
    remaining <> [] ->
    inlineStep remaining = (n, Some rest) ->
    tokenized rest nodes ->
    tokenized remaining (n :: nodes).

Definition nodeText (n : JiraADFInlineNode) : jsstring :=
  match n with
  | TextNode text _ => text
  | HardBreak => []
  end.

Definition isUnmarked (n : JiraADFInlineNode) : bool :=
  match n with
  | TextNode _ None => true
  | _ => false
  end.

(** The delimiter units that the scan for the next special position
    stops at by themselves (a [~] stops it only in a pair). *)
Definition isMarkupUnit (c : char) : bool :=
  (c =? 42)%N || (c =? 95)%N || (c =? 96)%N || (c =? 91)%N || (c =? 93)%N.

Definition lacks (c : char) (s : jsstring) : bool := negb (includes c s).

(** The shape of a node of the tokenizer: an unmarked text is one unit or
    holds no markup unit; the text of a marked node does not hold the unit
    that its pattern excludes, and a link has an [href] without [)]. *)
Definition tokenShape (n : JiraADFInlineNode) : bool :=
  match n with
  | TextNode [] _ => false
  | TextNode text None =>
      (length text =? 1) || forallb (fun c => negb (isMarkupUnit c)) text
  | TextNode text (Some [Mark strike None]) => lacks 126%N text
  | TextNode text (Some [Mark code None]) => lacks 96%N text
  | TextNode text (Some [Mark strong None])
  | TextNode text (Some [Mark em None]) => lacks 42%N text || lacks 95%N text
  | TextNode text (Some [Mark link (Some href)]) =>
      lacks 93%N text && lacks 41%N href
      && match href with [] => false | _ :: _ => true end
  | _ => false
  end.

(** The delimiter, the unit that the group excludes and the mark of the
    six patterns of [parseMarkdownInline] that have the same text on both
    sides of the group, in the order of the source. *)
Definition delimiters : list (jsstring * char * MarkType) := [
  (str "~~", 126%N, strike);
  (str "**", 42%N, strong);
  (str "*", 42%N, em);
  (str "__", 95%N, strong);
  (str "_", 95%N, em);
  (str "`", 96%N, code)
].

(** ** The service around the converter

    Values of type [unknown], as the error handling of [request] looks at
    them: the results of [response.json()] and the values that are thrown.
    An object is the list of its own properties in property order.  The
    value of a number is looked at nowhere ([typeof] only), so a natural
    number, enough for a status code, stands for it. *)

Inductive JSValue :=
| JSUndefined
| JSNull
| JSBoolean (b : bool)
| JSNumber (n : N)
| JSString (s : jsstring)
| JSArray (elements : list JSValue)
| JSObject (properties : list (jsstring * JSValue)).

(** [typeof value === "string"]. *)
Definition isStringValue (value : JSValue) : bool :=
  match value with JSString _ => true | _ => false end.

(** [typeof value === "number"]. *)
Definition isNumberValue (value : JSValue) : bool :=
  match value with JSNumber _ => true | _ => false end.

(** [!!value && typeof value === "object"]: [typeof] is ["object"] for
    [null], arrays and objects, and of these only [null] is falsy. *)
Definition isObjectValue (value : JSValue) : bool :=
  match value with JSArray _ | JSObject _ => true | _ => false end.

(** The text of a value that is a string. *)
Definition stringOf (value : JSValue) : jsstring :=
  match value with JSString s => s | _ => [] end.

(** [value?.name] for a property name that is neither [length] nor an
    index nor a name of a prototype: the own property of an object, and
    [undefined] for any other value. *)
Definition getProperty (value : JSValue) (name : jsstring) : JSValue :=
  match value with
  | JSObject properties =>
      match List.find (fun p => bool_decide (p.1 = name)) properties with
      | Some p => p.2
      | None => JSUndefined
      end
  | _ => JSUndefined
  end.

(** [String(i)] for an array index. *)
Fixpoint decimalDigits (fuel n : nat) (acc : jsstring) : jsstring :=
  match fuel with
  | 0 => acc
  | S fuel' =>
      let acc' := N.of_nat (48 + n mod 10) :: acc in
      if n <? 10 then acc' else decimalDigits fuel' (n / 10) acc'
  end.

Definition decimal (n : nat) : jsstring := decimalDigits (S n) n [].

(** [Object.values(value)] and [Object.entries(value)] of an object or an
    array (without holes). *)
Definition objectValues (value : JSValue) : list JSValue :=
  match value with
  | JSArray elements => elements
  | JSObject properties => map snd properties
  | _ => []
  end.

Definition objectEntries (value : JSValue) : list (jsstring * JSValue) :=
  match value with
  | JSArray elements => imap (fun i element => (decimal i, element)) elements
  | JSObject properties => properties
  | _ => []
  end.

Definition isJiraErrorBody (value : JSValue) : bool := isObjectValue value.

Definition isStringRecord (value : JSValue) : bool :=
  isObjectValue value && forallb isStringValue (objectValues value).

Definition isNonEmptyString (value : JSValue) : bool :=
  match value with
  | JSString s => 0 <? length (trim s)
  | _ => false
  end.

Definition formatJiraErrorMessage (errorBody : JSValue) (statusText : jsstring)
    : jsstring :=
  let parsed := if isJiraErrorBody errorBody then errorBody else JSUndefined in
  let topLevelMessages :=
    match getProperty parsed (str "errorMessages") with
    | JSArray messages => map stringOf (List.filter isNonEmptyString messages)
    | _ => []
    end in
  let fieldMessages :=
    if isStringRecord (getProperty parsed (str "errors")) then
      map (fun entry => entry.1 ++ str ": " ++ stringOf entry.2)
        (List.filter (fun entry => isNonEmptyString entry.2)
           (objectEntries (getProperty parsed (str "errors"))))
    else [] in
  if (0 <? length topLevelMessages) || (0 <? length fieldMessages) then
    join (str " | ") (topLevelMessages ++ fieldMessages)
  else if isNonEmptyString (getProperty parsed (str "message")) then
    stringOf (getProperty parsed (str "message"))
  else if isNonEmptyString errorBody then stringOf errorBody
  else match statusText with
       | [] => str "Unknown error"
       | _ :: _ => statusText
       end.

Definition isJiraError (value : JSValue) : bool :=
  isObjectValue value
  && isNumberValue (getProperty value (str "status"))
  && isStringValue (getProperty value (str "err")).

(** A thrown value: an instance of [Error] with its message (the
    rejections of [fetch] and of [response.json()]), or any other value. *)
Inductive Thrown :=
| ThrownError (message : jsstring)
| ThrownValue (value : JSValue).

(** What [request] reads of a response; [json] is the outcome of
    [response.json()]. *)
Record Response := {
  ok : bool;
  status : N;
  statusText : jsstring;
  json : Thrown + JSValue
}.

(** The object literal that [request] throws for a response that is not
    ok. *)
Definition jiraError (status : N) (err : jsstring) : JSValue :=
  JSObject [(str "status", JSNumber status); (str "err", JSString err)].

Section Request.

(** [String(value)] of the runtime, for a thrown value that is not an
    instance of [Error]. *)
Variable String : JSValue -> jsstring.

(** The [try] block of [request], as a function of the outcome
    [fetched] of [await fetch(...)] (the evaluation of the arguments of
    the call included); [undefined] is the result for status 204. *)
Definition requestTry (fetched : Thrown + Response) : Thrown + JSValue :=
  match fetched with
  | inl error => inl error
  | inr response =>
      if negb (ok response) then
        let errorBody :=
          match json response with
          | inr body => body
          | inl _ => JSUndefined
          end in
        inl (ThrownValue
               (jiraError (status response)
                  (formatJiraErrorMessage errorBody (statusText response))))
      else if (status response =? 204)%N then inr JSUndefined
      else json response
  end.

(** [request] with its [catch] clause: a [JiraError] is thrown on as it
    is, anything else is wrapped in an [Error]. *)
Definition request (fetched : Thrown + Response) : Thrown + JSValue :=
  match requestTry fetched with
  | inr value => inr value
  | inl error =>
      let isJira :=
        match error with
        | ThrownValue value => isJiraError value
        | ThrownError _ => false
        end in
      if isJira then inl error
      else inl (ThrownError
                  (str "Failed to make request to Jira API: "
                   ++ match error with
                      | ThrownError message => message
                      | ThrownValue value => String value
                      end))
  end.

End Request.

(** The constructor of [JiraService]: the fields that it sets. *)
Record JiraService := {
  baseUrl : jsstring;
  auth_username : jsstring;
  auth_password : jsstring
}.

(** [baseUrl.endsWith("/") ? baseUrl.slice(0, -1) : baseUrl]. *)
Definition dropTrailingSlash (baseUrl : jsstring) : jsstring :=
  match rev baseUrl with
  | c :: r => if (c =? 47)%N then rev r else baseUrl
  | [] => baseUrl
  end.

Definition newJiraService (baseUrl username apiToken : jsstring) : JiraService :=
  {| baseUrl := dropTrailingSlash baseUrl;
     auth_username := username;
     auth_password := apiToken |}.

(** The URL that [request] fetches. *)
Definition requestUrl (service : JiraService) (endpoint : jsstring) : jsstring :=
  baseUrl service ++ endpoint.

(** The callers of [createTextADF], up to their call of [request]: the
    message of the [Error] that they throw, or the endpoint and the
    document that they send. *)
Definition addComment (issueKey comment : jsstring)
    : jsstring + (jsstring * JiraADFDocument) :=
  let content := trim comment in
  match content with
  | [] => inl (str "Comment text cannot be empty")
  | _ :: _ =>
      inr (str "/rest/api/3/issue/" ++ issueKey ++ str "/comment",
           createTextADF content)
  end.

Definition updateIssueDescription (issueKey description : jsstring)
    : jsstring + (jsstring * JiraADFDocument) :=
  let content := trim description in
  match content with
  | [] => inl (str "Description text cannot be empty")
  | _ :: _ =>
      inr (str "/rest/api/3/issue/" ++ issueKey, createTextADF content)
  end.

(** The [description] field of the payload of [createEpic] and of
    [createIssueWithParent], and the [comment] field of [linkIssues]:
    [if (description) { ... = this.createTextADF(description) }], where
    [undefined] and the empty string are falsy. *)
Definition optionalDocument (description : option jsstring)
    : option JiraADFDocument :=
  match description with
  | None | Some [] => None
  | Some text => Some (createTextADF text)
  end.

(** [url.endsWith("/")]. *)
Definition endsWithSlash (url : jsstring) : bool :=
  match rev url with
  | c :: _ => (c =? 47)%N
  | [] => false
  end.

(** ** Lists with items, items with text *)

(** The content of a paragraph that holds text: it is not empty and has
    no text node with an empty text (so it is not the placeholder). *)
Definition isFilled (content : list JiraADFInlineNode) : bool :=
  match content with
  | [] => false
  | _ :: _ => forallb nonEmptyText content
  end.

Definition startsFilled (c : list JiraADFBlockNode) : bool :=
  match c with
  | Paragraph p :: _ => isFilled (paragraph_content p)
  | _ => false
  end.

(** Every list in the block has at least one item, and the content of
    every item starts with a paragraph that holds text; also inside
    blockquotes. *)
Fixpoint liveBlock (b : JiraADFBlockNode) : bool :=
  match b with
  | Blockquote c => forallb liveBlock c
  | BulletList c | OrderedList _ c =>
      match c with
      | [] => false
      | _ :: _ => forallb liveItem c
      end
  | _ => true
  end
with liveItem (it : JiraADFListItemNode) : bool :=
  match it with
  | ListItem c => startsFilled c && forallb liveBlock c
  end.

Definition liveItems (c : list JiraADFListItemNode) : bool :=
  match c with
  | [] => false
  | _ :: _ => forallb liveItem c
  end.

(** ** Blocks at any depth *)

(** A block that a list item holds: a paragraph, or a list whose items
    hold such blocks. *)
Fixpoint itemBlock (b : JiraADFBlockNode) : bool :=
  match b with
  | Paragraph _ => true
  | BulletList c => forallb itemBlocks c
  | OrderedList _ c => forallb itemBlocks c
  | _ => false
  end
with itemBlocks (it : JiraADFListItemNode) : bool :=
  match it with
  | ListItem c => forallb itemBlock c
  end.

(** The argument of the recursive call for the run of quote lines that
    starts at line [i]. *)
Definition quoteTextAt (lines : list jsstring) (i : nat) : jsstring :=
  join [LF] (map stripQuote (takeWhile isQuoteLine (drop i lines))).

(** A block of the top level of the parser on [lines]: a list of it holds
    paragraphs and lists only, at any depth, and a blockquote holds the
    blocks of the text of a run of quote lines. *)
Definition topBlock (lines : list jsstring) (b : JiraADFBlockNode) : Prop :=
  match b with
  | BulletList _ | OrderedList _ _ => itemBlock b = true
  | Blockquote c =>
      exists i rawLine,
        lines !! i = Some rawLine
        /\ isQuoteLine (trimEnd rawLine) = true
        /\ c = parseMarkdownBlocks (quoteTextAt lines i)
  | _ => True
  end.

(** The texts that the parser runs on for [text]: the text itself, and
    the text of every run of quote lines of such a text. *)
Inductive parsedFor (text : jsstring) : jsstring -> Prop :=
| parsed_text : parsedFor text text
| parsed_quote t i rawLine :
    parsedFor text t ->
    split LF (replaceCRLF t) !! i = Some rawLine ->
    isQuoteLine (trimEnd rawLine) = true ->
    parsedFor text (quoteTextAt (split LF (replaceCRLF t)) i).

(** [b] is a block of [bs] at any depth: one of [bs], or a block at any
    depth of the content of an item of a list of [bs] or of the content
    of a blockquote of [bs]. *)
Inductive occursIn (b : JiraADFBlockNode) : list JiraADFBlockNode -> Prop :=
| occurs_here bs : In b bs -> occursIn b bs
| occurs_in_item bs l items it :
    In l bs -> listContent l = Some items -> In it items ->
    occursIn b (item_content it) -> occursIn b bs
| occurs_in_quote bs c :
    In (Blockquote c) bs -> occursIn b c -> occursIn b bs.
(** * Properties *)

#[local] Arguments buildParagraph : simpl never.
#[local] Arguments parseMarkdownInline : simpl never.
#[local] Arguments str : simpl never.
#[local] Arguments trim : simpl never.
#[local] Arguments trimEnd : simpl never.
#[local] Arguments splitTableRow : simpl never.

(** ** Strings *)

Section StringFacts.

Context {A : Type}.
Implicit Types (p : A -> bool) (s : list A).

Lemma takeWhile_dropWhile p s : takeWhile p s ++ dropWhile p s = s.
Proof.
  induction s as [|c s IH]; simpl; [done|].
  destruct (p c); simpl; [by rewrite IH | done].
Qed.

Lemma length_dropWhile p s : length (dropWhile p s) <= length s.
Proof.
  induction s as [|c s IH]; simpl; [lia|].
  destruct (p c); simpl; lia.
Qed.

Lemma length_takeWhile p s : length (takeWhile p s) <= length s.
Proof.
  induction s as [|c s IH]; simpl; [lia|].
  destruct (p c); simpl; lia.
Qed.

Lemma dropWhile_head p s c s' : dropWhile p s = c :: s' -> p c = false.
Proof.
  induction s as [|d s IH]; simpl; [done|].
  destruct (p d) eqn:E; [done|]. intros [= -> _]. done.
Qed.

Lemma dropWhile_idemp p s : dropWhile p (dropWhile p s) = dropWhile p s.
Proof.
  destruct (dropWhile p s) as [|c s'] eqn:E; [done|].
  simpl. by rewrite (dropWhile_head _ _ _ _ E).
Qed.

Lemma takeWhile_all p s : forallb p s = true -> takeWhile p s = s.
Proof.
  induction s as [|c s IH]; simpl; [done|].
  destruct (p c); simpl; [|done]. intros H. by rewrite IH.
Qed.

Lemma takeWhile_Forall p s : Forall (fun c => p c = true) (takeWhile p s).
Proof.
  induction s as [|c s IH]; simpl; [constructor|].
  destruct (p c) eqn:E; by constructor.
Qed.

Lemma dropWhile_suffix p s : exists k, dropWhile p s = drop k s.
Proof.
  induction s as [|c s [k IH]]; simpl; [by exists 0|].
  destruct (p c); [by exists (S k) | by exists 0].
Qed.

End StringFacts.

Lemma stripPrefix_length pre s rest :
  stripPrefix pre s = Some rest -> length s = length pre + length rest.
Proof.
  revert s. induction pre as [|p pre IH]; intros s; simpl.
  - by intros [= ->].
  - destruct s as [|c s]; [done|]. destruct (p =? c)%N; [|done].
    intros H. apply IH in H. simpl. lia.
Qed.

Lemma stripPrefix_app pre s rest :
  stripPrefix pre s = Some rest -> s = pre ++ rest.
Proof.
  revert s. induction pre as [|p pre IH]; intros s; simpl.
  - by intros [= ->].
  - destruct s as [|c s]; [done|]. destruct (N.eqb_spec p c); [|done].
    intros H. apply IH in H. by subst.
Qed.

Lemma trimEnd_idemp s : trimEnd (trimEnd s) = trimEnd s.
Proof. unfold trimEnd. by rewrite rev_involutive, dropWhile_idemp. Qed.

Lemma trim_trimEnd s : trim (trimEnd s) = trim s.
Proof. unfold trim. by rewrite trimEnd_idemp. Qed.

Lemma length_trimEnd s : length (trimEnd s) <= length s.
Proof.
  unfold trimEnd. rewrite length_rev.
  etrans; [apply length_dropWhile|]. by rewrite length_rev.
Qed.

(** ** The inline tokenizer *)

Lemma delimited_inv open stop close s m :
  delimited open stop close s = Some m ->
  exists inner,
    inner <> [] /\ m = [open ++ inner ++ close; inner]
    /\ exists rest, s = (open ++ inner ++ close) ++ rest.
Proof.
  unfold delimited. intros H.
  apply bind_Some in H as (rest & E1 & H).
  destruct (takeWhile (notChar stop) rest) as [|c inner] eqn:E2; [done|].
  apply bind_Some in H as (rest' & E3 & [= <-]).
  exists (c :: inner). split; [done|]. split; [done|].
  exists rest'. apply stripPrefix_app in E1, E3.
  rewrite E1. rewrite <- (takeWhile_dropWhile (notChar stop) rest) at 1.
  rewrite E2, E3. by rewrite <- !app_assoc.
Qed.

Lemma linkRegex_inv s m :
  linkRegex s = Some m ->
  exists inner target all,
    inner <> [] /\ all <> [] /\ m = [all; inner; target]
    /\ exists rest, s = all ++ rest.
Proof.
  unfold linkRegex. intros H.
  apply bind_Some in H as (m1 & E1 & H).
  apply delimited_inv in E1 as (inner & Hne & -> & rest0 & Hs).
  apply bind_Some in H as (rest & E2 & H).
  destruct (takeWhile (notChar 41%N) rest) as [|c target] eqn:E3; [done|].
  apply bind_Some in H as (rest' & E4 & [= <-]).
  change (group [?a; ?b] 0) with a in *. change (group [?a; ?b] 1) with b in *.
  exists inner, (c :: target),
    ((str "[" ++ inner ++ str "](") ++ (c :: target) ++ str ")").
  split; [done|]. split; [|split; [done|]].
  - done.
  - exists rest'. apply stripPrefix_app in E2, E4.
    rewrite E2 at 1. rewrite <- (takeWhile_dropWhile (notChar 41%N) rest) at 1.
    rewrite E3, E4. by rewrite <- !app_assoc.
Qed.

Lemma firstMatch_In ps s p m :
  firstMatch ps s = Some (p, m) -> In p ps /\ regex p s = Some m.
Proof.
  induction ps as [|q ps IH]; simpl; [done|].
  destruct (regex q s) eqn:E.
  - intros [= <- <-]. auto.
  - intros H. apply IH in H as [? ?]. auto.
Qed.

(** What a successful pattern match looks like: a non-empty matched text
    that is a prefix of the input, and a non-empty text group. *)
Lemma firstMatch_inv s p m :
  firstMatch patterns s = Some (p, m) ->
  group m (textGroup p) <> []
  /\ 0 < length (group m 0)
  /\ exists rest, s = group m 0 ++ rest.
Proof.
  intros H. apply firstMatch_In in H as [Hin Hm].
  unfold patterns in Hin. cbn [In] in Hin.
  repeat (destruct Hin as [<-|Hin]; cbn [regex textGroup] in *;
    [ first
      [ apply delimited_inv in Hm as (inner & Hne & -> & rest & ->);
        change (group [?a; ?b] 0) with a; change (group [?a; ?b] 1) with b;
        (split; [done|]); split;
        [ destruct inner; [done|]; rewrite !length_app; cbn [length]; lia
        | by exists rest ]
      | apply linkRegex_inv in Hm as (inner & target & all & Hne & Hall & -> & rest & ->);
        change (group [?a; ?b; ?c] 0) with a;
        change (group [?a; ?b; ?c] 1) with b;
        (split; [done|]); split; [|by exists rest];
        destruct all; [done|cbn [length]; lia] ]
    | ]).
  done.
Qed.

Lemma searchSpecial_lt s k : searchSpecial s = Some k -> k < length s.
Proof.
  revert k. induction s as [|c s IH]; intros k.
  - simpl. done.
  - cbn [searchSpecial]. destruct (specialAt (c :: s)).
    + intros [= <-]. simpl. lia.
    + destruct (searchSpecial s) as [j|]; [|done].
      intros [= <-]. specialize (IH j eq_refl). simpl. lia.
Qed.

Lemma isTokenNode_plain s : s <> [] -> isTokenNode (TextNode s None) = true.
Proof. by destruct s. Qed.

Lemma isTokenNode_marked s m : s <> [] -> isTokenNode (TextNode s (Some [m])) = true.
Proof. by destruct s. Qed.

Lemma inlineLoop_step fuel c s nodes :
  inlineLoop (S fuel) (c :: s) nodes =
  match inlineStep (c :: s) with
  | (n, Some rest) => inlineLoop fuel rest (nodes ++ [n])
  | (n, None) => Some (nodes ++ [n])
  end.
Proof.
  unfold inlineStep. cbn [inlineLoop].
  destruct (firstMatch patterns (c :: s)) as [[p m]|]; [done|].
  destruct (searchSpecial (c :: s)) as [[|k]|]; done.
Qed.

(** Strict progress: an iteration emits a token node and leaves strictly
    less input. *)
Lemma inlineStep_progress s n next :
  s <> [] -> inlineStep s = (n, next) ->
  isTokenNode n = true
  /\ match next with Some rest => length rest < length s | None => True end.
Proof.
  intros Hs. unfold inlineStep.
  destruct (firstMatch patterns s) as [[p m]|] eqn:E.
  - apply firstMatch_inv in E as (Hg & Hlen & rest & Hrest).
    intros [= <- <-]. split; [by apply isTokenNode_marked|].
    rewrite length_drop. destruct s; [done|]. simpl. lia.
  - destruct (searchSpecial s) as [[|k]|] eqn:E2.
    + intros [= <- <-]. split.
      * apply isTokenNode_plain. by destruct s.
      * rewrite length_drop. destruct s; [done|]. simpl. lia.
    + intros [= <- <-]. apply searchSpecial_lt in E2. split.
      * apply isTokenNode_plain. destruct s; [done|]. done.
      * rewrite length_drop. lia.
    + intros [= <- <-]. split; [by apply isTokenNode_plain|done].
Qed.

Lemma inlineLoop_total fuel s nodes :
  length s <= fuel ->
  exists out, inlineLoop fuel s nodes = Some (nodes ++ out)
              /\ forallb isTokenNode out = true.
Proof.
  revert s nodes. induction fuel as [|fuel IH]; intros s nodes Hlen.
  - destruct s; [|simpl in Hlen; lia]. exists []. by rewrite app_nil_r.
  - destruct s as [|c s]; [exists []; by rewrite app_nil_r|].
    rewrite inlineLoop_step.
    destruct (inlineStep (c :: s)) as [n next] eqn:E.
    apply inlineStep_progress in E as [Hn Hnext]; [|done].
    destruct next as [rest|].
    + destruct (IH rest (nodes ++ [n])) as (out & -> & Hout).
      { simpl in *. lia. }
      exists (n :: out). rewrite <- app_assoc. split; [done|].
      simpl. by rewrite Hn, Hout.
    + exists [n]. split; [done|]. simpl. by rewrite Hn.
Qed.

Lemma parseMarkdownInline_fuel_Some text :
  parseMarkdownInline_fuel (length text) text = Some (parseMarkdownInline text).
Proof.
  unfold parseMarkdownInline, parseMarkdownInline_fuel.
  destruct (inlineLoop_total (length text) text []) as (out & -> & _); done.
Qed.

Lemma parseMarkdownInline_tokens text :
  forallb isTokenNode (parseMarkdownInline text) = true.
Proof.
  unfold parseMarkdownInline, parseMarkdownInline_fuel.
  destruct (inlineLoop_total (length text) text []) as (out & -> & Hout); done.
Qed.

Lemma parseMarkdownInline_nil : parseMarkdownInline [] = [].
Proof. reflexivity. Qed.

Lemma parseMarkdownInline_nonempty text :
  text <> [] -> parseMarkdownInline text <> [].
Proof.
  intros Hne. unfold parseMarkdownInline, parseMarkdownInline_fuel.
  destruct text as [|c s]; [done|]. cbn [length]. rewrite inlineLoop_step.
  destruct (inlineStep (c :: s)) as [n [rest|]] eqn:E; [|done].
  apply inlineStep_progress in E as [_ Hlt]; [|done].
  destruct (inlineLoop_total (length s) rest ([] ++ [n])) as (out & -> & _).
  { simpl in Hlt. lia. }
  done.
Qed.

(** ** Checks are preserved by the block parser *)

Lemma forallb_lookup {A} (p : A -> bool) (l : list A) i x :
  forallb p l = true -> l !! i = Some x -> p x = true.
Proof.
  rewrite forallb_forall. intros H Hl. apply H.
  apply list_elem_of_In. by eapply list_elem_of_lookup_2.
Qed.

Lemma forallb_insert {A} (p : A -> bool) (l : list A) i x :
  forallb p l = true -> p x = true -> forallb p (<[i:=x]> l) = true.
Proof.
  revert i. induction l as [|y l IH]; intros i; simpl; [done|].
  intros [Hy Hl]%andb_true_iff Hx. destruct i; simpl.
  - by rewrite Hx, Hl.
  - by rewrite Hy, IH.
Qed.

Lemma forallb_snoc {A} (p : A -> bool) (l : list A) x :
  forallb p (l ++ [x]) = forallb p l && p x.
Proof. rewrite forallb_app. simpl. by rewrite andb_true_r. Qed.

Lemma last_lookup_length {A} (l : list A) x :
  last l = Some x -> l !! (length l - 1) = Some x.
Proof.
  intros H. rewrite last_lookup in H.
  by replace (length l - 1) with (pred (length l)) by lia.
Qed.

Lemma toParagraph_buildParagraph : toParagraph = buildParagraph.
Proof. reflexivity. Qed.

Ltac obind := cbn [mbind option_bind].

Ltac docsimpl :=
  cbn [forallb checkItem checkBlock checkCell blocks pushBlock
       flushListStack setListStack setBlocks item_content row_content
       table_content paragraphLines listStack].

Section CheckPreserved.

Variable K : InlineCheck.

Hypothesis buildParagraph_ok :
  forall text, paragraphOk K (paragraph_content (buildParagraph text)) = true.
Hypothesis heading_ok :
  forall text, headingOk K (parseMarkdownInline text) = true.
Hypothesis code_ok :
  forall s, codeOk K [TextNode s None] = true.
Hypothesis continueParagraph_ok :
  forall text p,
    paragraphOk K (paragraph_content p) = true ->
    paragraphOk K
      (paragraph_content (continueParagraph (parseMarkdownInline text) p)) = true.
Hypothesis item_paragraph_ok :
  forall p rest, itemOk K (Paragraph p :: rest) = true.
Hypothesis item_snoc_ok :
  forall c b, itemOk K c = true -> itemOk K (c ++ [b]) = true.
Hypothesis item_update_ok :
  forall c j b c0 x,
    c !! j = Some b -> listContent b = Some c0 ->
    itemOk K c = true -> itemOk K (<[j := setListContent b x]> c) = true.

#[local] Abbreviation checked bs := (forallb (checkBlock K) bs = true).
#[local] Abbreviation checkedItems c := (forallb (checkItem K) c = true).

Lemma check_listContent b c :
  checkBlock K b = true -> listContent b = Some c -> checkedItems c.
Proof. destruct b; docsimpl; intros H [= <-]; done. Qed.

Lemma check_setListContent b c0 c :
  listContent b = Some c0 -> checkedItems c ->
  checkBlock K (setListContent b c) = true.
Proof. destruct b; docsimpl; intros [= <-] H; done. Qed.

Lemma updateAt_replaces steps idx f bs bs' :
  updateAt steps idx f bs = Some bs' ->
  exists j b c x,
    bs !! j = Some b /\ listContent b = Some c
    /\ bs' = <[j := setListContent b x]> bs.
Proof.
  destruct steps as [|[k i] steps]; cbn [updateAt]; intros H.
  - apply bind_Some in H as (b & Hb & H).
    apply bind_Some in H as (items & Hitems & [= <-]).
    by eexists _, _, _, _.
  - apply bind_Some in H as (b & Hb & H).
    apply bind_Some in H as (items & Hitems & H).
    apply bind_Some in H as (it & Hit & H).
    apply bind_Some in H as (content' & Hc & [= <-]).
    by eexists _, _, _, _.
Qed.

Lemma updateAt_check steps idx f bs bs' :
  (forall c, checkedItems c -> checkedItems (f c)) ->
  checked bs -> updateAt steps idx f bs = Some bs' -> checked bs'.
Proof.
  intros Hf. revert bs bs'.
  induction steps as [|[c i] steps IH]; intros bs bs' Hbs; cbn [updateAt]; intros H.
  - apply bind_Some in H as (b & Hb & H).
    apply bind_Some in H as (items & Hitems & [= <-]).
    apply forallb_insert; [done|].
    eapply check_setListContent; [done|]. apply Hf.
    eapply check_listContent; [|done]. by eapply forallb_lookup.
  - apply bind_Some in H as (b & Hb & H).
    apply bind_Some in H as (items & Hitems & H).
    apply bind_Some in H as (it & Hit & H).
    apply bind_Some in H as (content' & Hc & [= <-]).
    assert (checkedItems items) as Hok.
    { eapply check_listContent; [|done]. by eapply forallb_lookup. }
    apply forallb_insert; [done|].
    eapply check_setListContent; [done|].
    apply forallb_insert; [done|].
    pose proof (forallb_lookup _ _ _ _ Hok Hit) as Hi.
    destruct it as [content]. cbn [checkItem item_content] in *.
    apply andb_true_iff in Hi as [Hi1 Hi2].
    apply andb_true_iff. split; [|by eapply IH].
    destruct (updateAt_replaces _ _ _ _ _ Hc) as (j & b0 & c0 & x & Hj & Hc0 & ->).
    by eapply item_update_ok.
Qed.

Lemma pushItem_check text c :
  checkedItems c ->
  checkedItems (c ++ [ListItem [Paragraph (buildParagraph text)]]).
Proof.
  intros H. rewrite forallb_snoc, H. docsimpl.
  by rewrite item_paragraph_ok, buildParagraph_ok.
Qed.

Lemma nestInLastItem_check node c :
  checkBlock K node = true -> checkedItems c ->
  checkedItems (nestInLastItem node c).
Proof.
  intros Hn Hc. unfold nestInLastItem.
  destruct (getLastListItem c) as [[content]|] eqn:E.
  - apply forallb_insert; [done|]. cbn [checkItem item_content].
    apply last_lookup_length in E.
    pose proof (forallb_lookup _ _ _ _ Hc E) as Hit. cbn [checkItem] in Hit.
    apply andb_true_iff in Hit as [Hit1 Hit2].
    by rewrite item_snoc_ok, forallb_snoc, Hn, Hit2.
  - rewrite forallb_snoc, Hc. docsimpl.
    by rewrite item_paragraph_ok, buildParagraph_ok, Hn.
Qed.

Lemma continueLastItem_check line c :
  checkedItems c -> checkedItems (continueLastItem line c).
Proof.
  intros Hc. unfold continueLastItem.
  set (c1 := match getLastListItem c with Some _ => c | None => _ end).
  assert (checkedItems c1) as Hc1.
  { subst c1. destruct (getLastListItem c); [done|].
    rewrite forallb_snoc, Hc. docsimpl.
    by rewrite item_paragraph_ok, buildParagraph_ok. }
  clearbody c1.
  destruct (getLastListItem c1) as [[content]|] eqn:E; [|done].
  apply last_lookup_length in E.
  pose proof (forallb_lookup _ _ _ _ Hc1 E) as Hit. cbn [checkItem] in Hit.
  apply andb_true_iff in Hit as [Hit1 Hit2].
  destruct content as [|[p| | | | | |] rest];
    (apply forallb_insert; [done|]); cbn [checkItem];
    rewrite item_paragraph_ok; cbn [forallb checkBlock andb] in *;
    try (rewrite continueParagraph_ok; [done|apply buildParagraph_ok]).
  apply andb_true_iff in Hit2 as [Hp Hrest].
  by rewrite continueParagraph_ok, Hrest.
Qed.

Lemma flushParagraph_check st :
  checked (blocks st) -> checked (blocks (flushParagraph st)).
Proof.
  intros H. unfold flushParagraph. destruct (paragraphLines st); [done|].
  cbn [blocks]. destruct (trim _); [done|].
  rewrite forallb_snoc, H. docsimpl. apply buildParagraph_ok.
Qed.

Lemma createListNode_check type start :
  checkBlock K (createListNode type start) = true.
Proof. by destruct type. Qed.

Lemma ensureListContext_check type indent start st e st' :
  checked (blocks st) ->
  ensureListContext type indent start st = Some (e, st') ->
  checked (blocks st').
Proof.
  intros Hst. unfold ensureListContext.
  set (stack1 := dropWhile _ _). clearbody stack1.
  destruct (head stack1) as [c|] eqn:Ehd.
  - destruct (_ && _).
    + by intros [= <- <-].
    + destruct (entry_indent c <? indent).
      * intros H. apply bind_Some in H as (content & Hc & H).
        apply bind_Some in H as (bs' & Hup & [= <- <-]). cbn [blocks].
        eapply updateAt_check; [|done|exact Hup].
        intros. apply nestInLastItem_check; [apply createListNode_check|done].
      * destruct (entry_indent c =? indent).
        -- destruct (head (tail stack1)) as [p|].
           ++ intros H. apply bind_Some in H as (content & Hc & H).
              apply bind_Some in H as (bs' & Hup & [= <- <-]). cbn [blocks].
              eapply updateAt_check; [|done|exact Hup].
              intros. apply nestInLastItem_check; [apply createListNode_check|done].
           ++ intros [= <- <-]. cbn [blocks].
              by rewrite forallb_snoc, Hst, createListNode_check.
        -- intros [= <- <-]. cbn [blocks].
           by rewrite forallb_snoc, Hst, createListNode_check.
  - intros [= <- <-]. cbn [blocks].
    by rewrite forallb_snoc, Hst, createListNode_check.
Qed.

Lemma pushListItem_check e text st st' :
  checked (blocks st) -> pushListItem e text st = Some st' ->
  checked (blocks st').
Proof.
  intros Hst H. unfold pushListItem in H.
  apply bind_Some in H as (bs' & Hup & [= <-]). cbn [blocks setBlocks].
  eapply updateAt_check; [|done|exact Hup]. intros. by apply pushItem_check.
Qed.

Lemma appendContinuation_check e line st st' :
  checked (blocks st) -> appendContinuationToListItem e line st = Some st' ->
  checked (blocks st').
Proof.
  intros Hst H. unfold appendContinuationToListItem in H.
  apply bind_Some in H as (bs' & Hup & [= <-]). cbn [blocks setBlocks].
  eapply updateAt_check; [|done|exact Hup]. intros. by apply continueLastItem_check.
Qed.

Lemma buildTableNode_check header body :
  checkTable K (buildTableNode header body) = true.
Proof.
  unfold buildTableNode, checkTable. cbn [table_content forallb row_content].
  apply andb_true_iff. split.
  - apply forallb_forall. intros c [cell [<- _]]%in_map_iff. docsimpl.
    by rewrite buildParagraph_ok.
  - apply forallb_forall. intros r [line [<- _]]%in_map_iff.
    cbn [row_content].
    apply forallb_forall. intros c [cell [<- _]]%in_map_iff. docsimpl.
    by rewrite buildParagraph_ok.
Qed.

Lemma loopBody_check rec lines i st i' st' :
  (forall text r, rec text = Some r -> checked r) ->
  checked (blocks st) ->
  loopBody rec lines i st = Some (i', st') ->
  checked (blocks st').
Proof.
  intros Hrec Hst H. unfold loopBody in H.
  apply bind_Some in H as (rawLine & Hraw & H).
  pose proof (flushParagraph_check st Hst) as Hfl.
  destruct (trim (trimEnd rawLine)) as [|t0 trimmed'] eqn:Etrim.
  { injection H as <- <-. done. }
  destruct (codeFenceStart _) as [language|].
  { injection H as <- <-. cbn [blocks pushBlock flushListStack setListStack].
    rewrite forallb_snoc. cbn [checkBlock]. by rewrite Hfl, code_ok. }
  destruct (tableStartsAt _ _ _).
  { injection H as <- <-. cbn [blocks pushBlock flushListStack setListStack].
    rewrite forallb_snoc. cbn [checkBlock]. by rewrite Hfl, buildTableNode_check. }
  destruct (isQuoteLine _).
  { apply bind_Some in H as (qc & Hqc & [= <- <-]).
    cbn [blocks pushBlock flushListStack setListStack].
    rewrite forallb_snoc. cbn [checkBlock]. rewrite Hfl. docsimpl.
    by eapply Hrec. }
  destruct (headingMatch _) as [[hashes text]|].
  { injection H as <- <-. cbn [blocks pushBlock flushListStack setListStack].
    rewrite forallb_snoc. cbn [checkBlock]. by rewrite Hfl, heading_ok. }
  destruct (bulletMatch _) as [[spaces text]|].
  { apply bind_Some in H as ([e st2] & He & H).
    apply bind_Some in H as (st3 & Hpush & [= <- <-]).
    eapply pushListItem_check; [|done].
    by eapply ensureListContext_check. }
  destruct (orderedMatch _) as [[[spaces digits] text]|].
  { apply bind_Some in H as ([e st2] & He & H).
    apply bind_Some in H as (st3 & Hpush & [= <- <-]).
    eapply pushListItem_check; [|done].
    by eapply ensureListContext_check. }
  destruct (listStack st) as [|top stack]; [by injection H as <- <-|].
  destruct (_ <? _).
  - apply bind_Some in H as (st1 & Happ & [= <- <-]).
    eapply appendContinuation_check; [exact Hst|exact Happ].
  - by injection H as <- <-.
Qed.

Lemma finish_check st : checked (blocks st) -> checked (finish st).
Proof.
  intros H. apply flushParagraph_check in H. unfold finish.
  cbn [blocks flushListStack setListStack].
  destruct (blocks (flushParagraph st)); [|done].
  docsimpl. by rewrite buildParagraph_ok.
Qed.

Lemma blocksLoop_check fuel lines i st r :
  checked (blocks st) -> blocksLoop fuel lines i st = Some r -> checked r.
Proof.
  revert lines i st r.
  induction fuel as [|fuel IH]; intros lines i st r Hst; cbn [blocksLoop].
  - destruct (i <? length lines); [done|]. intros [= <-]. by apply finish_check.
  - destruct (i <? length lines); [|intros [= <-]; by apply finish_check].
    intros H. apply bind_Some in H as ([i' st'] & Hbody & H).
    eapply IH; [|exact H].
    eapply loopBody_check; [|done|exact Hbody].
    intros text r' Hr. by eapply IH; [|exact Hr].
Qed.

Lemma parseMarkdownBlocks_check text : checked (parseMarkdownBlocks text).
Proof.
  unfold parseMarkdownBlocks, parseMarkdownBlocks_fuel.
  destruct (blocksLoop _ _ _ _) as [r|] eqn:E; [|done].
  by eapply blocksLoop_check; [|exact E].
Qed.

End CheckPreserved.

(** ** References *)

Lemma listHead_listContent b h :
  listHead b = Some h -> exists c, listContent b = Some c.
Proof. destruct b; simpl; intros [= <-]; eauto. Qed.

Lemma listContent_listHead b c :
  listContent b = Some c -> exists h, listHead b = Some h.
Proof. destruct b; simpl; intros [= <-]; eauto. Qed.

Lemma listHead_setListContent b c :
  listHead (setListContent b c) = listHead b.
Proof. by destruct b. Qed.

Lemma listContent_setListContent b c0 c :
  listContent b = Some c0 -> listContent (setListContent b c) = Some c.
Proof. destruct b; simpl; intros [= <-]; done. Qed.

Lemma derefAt_app steps idx bs more b :
  derefAt steps idx bs = Some b -> derefAt steps idx (bs ++ more) = Some b.
Proof.
  destruct steps as [|[c i] steps]; cbn [derefAt]; intros H.
  - by apply lookup_app_l_Some.
  - apply bind_Some in H as (b0 & Hb0 & H).
    by rewrite (lookup_app_l_Some _ _ _ _ Hb0).
Qed.

(** A mutation through a valid reference succeeds and is seen through the
    reference. *)
Lemma updateAt_same steps idx f bs b c :
  derefAt steps idx bs = Some b -> listContent b = Some c ->
  exists bs',
    updateAt steps idx f bs = Some bs'
    /\ derefAt steps idx bs' = Some (setListContent b (f c)).
Proof.
  revert bs. induction steps as [|[k i] steps IH]; intros bs; cbn [derefAt updateAt].
  - intros Hb Hc. rewrite Hb. cbn. rewrite Hc. cbn. eexists. split; [done|].
    apply list_lookup_insert_eq. by eapply lookup_lt_Some.
  - intros H Hc.
    apply bind_Some in H as (b0 & Hb0 & H).
    apply bind_Some in H as (items & Hitems & H).
    apply bind_Some in H as (it & Hit & H).
    destruct (IH _ H Hc) as (content' & Hup & Hde).
    rewrite Hb0. cbn. rewrite Hitems. cbn. rewrite Hit. cbn. rewrite Hup. cbn.
    eexists. split; [done|].
    rewrite list_lookup_insert_eq by by eapply lookup_lt_Some. cbn.
    erewrite listContent_setListContent by done. cbn.
    rewrite list_lookup_insert_eq by by eapply lookup_lt_Some. cbn. done.
Qed.

(** A mutation keeps every node above the mutated one in place, with its
    type and [order]. *)
Lemma updateAt_above steps idx f bs bs' steps' idx' b :
  updateAt steps idx f bs = Some bs' ->
  length steps' < length steps ->
  derefAt steps' idx' bs = Some b ->
  exists b', derefAt steps' idx' bs' = Some b' /\ listHead b' = listHead b.
Proof.
  revert steps idx bs bs' b.
  induction steps' as [|[k' i'] steps' IH]; intros steps idx bs bs' b Hup Hlen Hb.
  - destruct steps as [|[k i] steps]; [simpl in Hlen; lia|].
    cbn [updateAt derefAt] in *.
    apply bind_Some in Hup as (b0 & Hb0 & Hup).
    apply bind_Some in Hup as (items & Hitems & Hup).
    apply bind_Some in Hup as (it & Hit & Hup).
    apply bind_Some in Hup as (content' & Hc & [= <-]).
    destruct (decide (k = idx')) as [->|Hne].
    + rewrite list_lookup_insert_eq by by eapply lookup_lt_Some.
      eexists. split; [done|]. rewrite listHead_setListContent. congruence.
    + rewrite list_lookup_insert_ne by done. eauto.
  - destruct steps as [|[k i] steps]; [simpl in Hlen; lia|].
    cbn [updateAt derefAt] in *.
    apply bind_Some in Hup as (b0 & Hb0 & Hup).
    apply bind_Some in Hup as (items & Hitems & Hup).
    apply bind_Some in Hup as (it & Hit & Hup).
    apply bind_Some in Hup as (content' & Hc & [= <-]).
    apply bind_Some in Hb as (b1 & Hb1 & Hb).
    apply bind_Some in Hb as (items1 & Hitems1 & Hb).
    apply bind_Some in Hb as (it1 & Hit1 & Hb).
    destruct (decide (k = k')) as [->|Hne].
    + rewrite list_lookup_insert_eq by by eapply lookup_lt_Some. cbn.
      assert (b1 = b0) as -> by congruence.
      assert (items1 = items) as -> by congruence.
      erewrite listContent_setListContent by done. cbn.
      destruct (decide (i = i')) as [->|Hne].
      * rewrite list_lookup_insert_eq by by eapply lookup_lt_Some. cbn.
        assert (it1 = it) as -> by congruence.
        eapply IH; [exact Hc| |exact Hb]. simpl in Hlen. lia.
      * rewrite list_lookup_insert_ne by done. rewrite Hit1. cbn. eauto.
    + rewrite list_lookup_insert_ne by done. rewrite Hb1. cbn.
      rewrite Hitems1. cbn. rewrite Hit1. cbn. eauto.
Qed.

(** The node behind one more step. *)
Lemma derefAt_snoc steps idx i c bs :
  derefAt (steps ++ [(idx, i)]) c bs =
  (b ← derefAt steps idx bs; items ← listContent b; it ← items !! i;
   item_content it !! c).
Proof.
  revert bs. induction steps as [|[k j] steps IH]; intros bs; cbn [derefAt app].
  - done.
  - destruct (bs !! k) as [b|]; [|done]. cbn.
    destruct (listContent b) as [items|]; [|done]. cbn.
    destruct (items !! j) as [it|]; [|done]. cbn. apply IH.
Qed.

Lemma insert_last {A} (l : list A) x y :
  <[length (l ++ [x]) - 1 := y]> (l ++ [x]) = l ++ [y].
Proof.
  rewrite length_app. cbn [length].
  replace (length l + 1 - 1) with (length l + 0) by lia.
  by rewrite insert_app_r.
Qed.

Lemma nestInLastItem_nil node :
  nestInLastItem node [] = [ListItem [Paragraph (buildParagraph []); node]].
Proof. reflexivity. Qed.

Lemma nestInLastItem_snoc node items it :
  nestInLastItem node (items ++ [it]) =
  items ++ [ListItem (item_content it ++ [node])].
Proof.
  unfold nestInLastItem, getLastListItem. rewrite last_snoc.
  apply insert_last.
Qed.

Lemma nestedRef_nil parent :
  nestedRef parent [] =
  {| ref_steps := ref_steps parent ++ [(ref_index parent, 0)]; ref_index := 1 |}.
Proof. reflexivity. Qed.

Lemma nestedRef_snoc parent items it :
  nestedRef parent (items ++ [it]) =
  {| ref_steps := ref_steps parent ++ [(ref_index parent, length items)];
     ref_index := length (item_content it) |}.
Proof.
  unfold nestedRef, getLastListItem. rewrite last_snoc, length_app.
  cbn [length]. by replace (length items + 1 - 1) with (length items) by lia.
Qed.

Lemma list_nil_or_snoc {A} (l : list A) : l = [] \/ exists l' x, l = l' ++ [x].
Proof.
  destruct (last l) as [x|] eqn:E.
  - apply last_Some in E as [l' ->]. eauto.
  - apply last_None in E. auto.
Qed.

(** The reference handed out for a nested list denotes that list. *)
Lemma nestedRef_deref parent c node bs b :
  deref parent bs = Some b ->
  listContent b = Some (nestInLastItem node c) ->
  deref (nestedRef parent c) bs = Some node.
Proof.
  unfold deref. intros Hb Hc.
  destruct (list_nil_or_snoc c) as [->|(items & it & ->)].
  - rewrite nestedRef_nil. cbn [ref_steps ref_index].
    rewrite derefAt_snoc, Hb. cbn. rewrite Hc. done.
  - rewrite nestedRef_snoc. cbn [ref_steps ref_index].
    rewrite derefAt_snoc, Hb. cbn. rewrite Hc, nestInLastItem_snoc. cbn.
    rewrite list_lookup_middle by done. cbn.
    by rewrite list_lookup_middle.
Qed.

(** Before the nested list is pushed, its reference denotes nothing. *)
Lemma nestedRef_fresh parent c bs b :
  deref parent bs = Some b ->
  listContent b = Some c ->
  deref (nestedRef parent c) bs = None.
Proof.
  unfold deref. intros Hb Hc.
  destruct (list_nil_or_snoc c) as [->|(items & it & ->)].
  - rewrite nestedRef_nil. cbn [ref_steps ref_index].
    rewrite derefAt_snoc, Hb. cbn. rewrite Hc. done.
  - rewrite nestedRef_snoc. cbn [ref_steps ref_index].
    rewrite derefAt_snoc, Hb. cbn. rewrite Hc. cbn.
    rewrite list_lookup_middle by done. cbn.
    apply lookup_ge_None. lia.
Qed.

(** ** Well-formed states are preserved *)

Lemma StronglySorted_drop {A} (R : A -> A -> Prop) l k :
  StronglySorted R l -> StronglySorted R (drop k l).
Proof.
  revert k. induction l as [|x l IH]; intros k H.
  - by rewrite drop_nil.
  - destruct k; [done|]. simpl. apply IH. by inversion H.
Qed.

Lemma entryValid_app bs more e :
  entryValid bs e -> entryValid (bs ++ more) e.
Proof.
  intros (b & o & Hb & Hh). exists b, o. split; [|done].
  by apply derefAt_app.
Qed.

Lemma stateOk_initial : stateOk initialState.
Proof. split; constructor. Qed.

Lemma stateOk_flushListStack st : stateOk (flushListStack st).
Proof. split; constructor. Qed.

Lemma stateOk_pushBlock_flush b st : stateOk (pushBlock b (flushListStack st)).
Proof. split; constructor. Qed.

Lemma stateOk_flushParagraph st : stateOk st -> stateOk (flushParagraph st).
Proof.
  intros [Hv Hs]. unfold flushParagraph.
  destruct (paragraphLines st); [done|].
  split; cbn [blocks listStack]; [|done].
  destruct (trim _); [done|].
  eapply Forall_impl; [exact Hv|]. intros e. apply entryValid_app.
Qed.

(** A mutation through the top entry of the stack succeeds, is seen
    through the entry, and leaves every entry valid. *)
Lemma update_top f e stack bs :
  Forall (entryValid bs) (e :: stack) ->
  StronglySorted (fun e e' => depth e' < depth e) (e :: stack) ->
  exists b c bs',
    deref (entry_node e) bs = Some b
    /\ listContent b = Some c
    /\ updateContent (entry_node e) f bs = Some bs'
    /\ deref (entry_node e) bs' = Some (setListContent b (f c))
    /\ Forall (entryValid bs') (e :: stack).
Proof.
  intros Hv Hs. inversion Hv as [|? ? (b & o & Hb & Hh) Hrest]; subst.
  destruct (listHead_listContent _ _ Hh) as [c Hc].
  destruct (updateAt_same _ _ f _ _ _ Hb Hc) as (bs' & Hup & Hde).
  exists b, c, bs'. repeat split; [done..|].
  constructor.
  - exists (setListContent b (f c)), o. split; [done|].
    by rewrite listHead_setListContent.
  - inversion Hs as [|? ? _ Hdeeper]; subst.
    apply Forall_forall. intros e' Hin.
    rewrite Forall_forall in Hrest, Hdeeper.
    destruct (Hrest _ Hin) as (b1 & o1 & Hb1 & Hh1).
    destruct (updateAt_above _ _ _ _ _ _ _ _ Hup (Hdeeper _ Hin) Hb1)
      as (b1' & Hb1' & Hh1').
    exists b1', o1. split; [done|]. congruence.
Qed.

Lemma pushListItem_ok e text st stack :
  stateOk st -> listStack st = e :: stack ->
  exists st',
    pushListItem e text st = Some st'
    /\ stateOk st'
    /\ listStack st' = listStack st
    /\ paragraphLines st' = paragraphLines st.
Proof.
  intros [Hv Hs] Hstack. rewrite Hstack in Hv, Hs.
  destruct (update_top
              (fun content => content ++ [ListItem [Paragraph (buildParagraph text)]])
              _ _ _ Hv Hs)
    as (b & c & bs' & Hb & Hc & Hup & Hde & Hv').
  exists (setBlocks bs' st). unfold pushListItem. rewrite Hup. cbn.
  split; [done|]. split; [|done].
  split; cbn [blocks listStack setBlocks]; by rewrite Hstack.
Qed.

Lemma appendContinuation_ok e line st stack :
  stateOk st -> listStack st = e :: stack ->
  exists st',
    appendContinuationToListItem e line st = Some st'
    /\ stateOk st'
    /\ listStack st' = listStack st
    /\ paragraphLines st' = paragraphLines st.
Proof.
  intros [Hv Hs] Hstack. rewrite Hstack in Hv, Hs.
  destruct (update_top (continueLastItem line) _ _ _ Hv Hs)
    as (b & c & bs' & Hb & Hc & Hup & Hde & Hv').
  exists (setBlocks bs' st). unfold appendContinuationToListItem.
  rewrite Hup. cbn.
  split; [done|]. split; [|done].
  split; cbn [blocks listStack setBlocks]; by rewrite Hstack.
Qed.

Lemma depth_nestedRef parent c :
  length (ref_steps (nestedRef parent c)) = length (ref_steps parent) + 1.
Proof.
  unfold nestedRef. destruct (getLastListItem c); cbn [ref_steps];
    rewrite length_app; done.
Qed.

Lemma listHead_createListNode type start :
  exists o, listHead (createListNode type start) = Some (type, o).
Proof. destruct type; simpl; eauto. Qed.

(** Creation of a list under the top entry [p] of a stack. *)
Lemma nest_under_top type indent start (p : ListEntry) stack st :
  Forall (entryValid (blocks st)) (p :: stack) ->
  StronglySorted (fun e e' => depth e' < depth e) (p :: stack) ->
  exists content bs',
    readContent (entry_node p) (blocks st) = Some content
    /\ updateContent (entry_node p)
         (nestInLastItem (createListNode type start)) (blocks st) = Some bs'
    /\ let e := {| entry_type := type; entry_indent := indent;
                   entry_node := nestedRef (entry_node p) content |} in
       stateOk {| blocks := bs'; paragraphLines := paragraphLines st;
                  listStack := e :: p :: stack |}
       /\ deref (entry_node e) (blocks st) = None
       /\ deref (entry_node e) bs' = Some (createListNode type start)
       /\ readContent (entry_node p) bs'
          = Some (nestInLastItem (createListNode type start) content).
Proof.
  intros Hv Hs.
  destruct (update_top (nestInLastItem (createListNode type start)) _ _ _ Hv Hs)
    as (b & c & bs' & Hb & Hc & Hup & Hde & Hv').
  exists c, bs'. split; [unfold readContent; by rewrite Hb|]. split; [done|].
  assert (listContent (setListContent b (nestInLastItem (createListNode type start) c))
          = Some (nestInLastItem (createListNode type start) c)) as Hc'
    by by eapply listContent_setListContent.
  cbn zeta. cbn [entry_node]. repeat split.
  - cbn [blocks listStack]. constructor; [|done].
    destruct (listHead_createListNode type start) as [o Ho].
    exists (createListNode type start), o. cbn [entry_node entry_type].
    split; [|done]. by eapply nestedRef_deref.
  - cbn [listStack]. constructor; [done|].
    inversion Hs as [|? ? _ Hdeeper]; subst.
    constructor.
    + unfold depth. cbn [entry_node]. rewrite depth_nestedRef. lia.
    + eapply Forall_impl; [exact Hdeeper|]. intros e'. unfold depth.
      cbn [entry_node]. rewrite depth_nestedRef. lia.
  - by eapply nestedRef_fresh.
  - by eapply nestedRef_deref.
  - unfold readContent. by rewrite Hde.
Qed.

(** Creation of a list at the top level, on an empty stack. *)
Lemma push_top_level type indent start st :
  let e := {| entry_type := type; entry_indent := indent;
              entry_node := {| ref_steps := [];
                               ref_index := length (blocks st) |} |} in
  stateOk {| blocks := blocks st ++ [createListNode type start];
             paragraphLines := paragraphLines st;
             listStack := [e] |}
  /\ deref (entry_node e) (blocks st) = None
  /\ deref (entry_node e) (blocks st ++ [createListNode type start])
     = Some (createListNode type start).
Proof.
  cbn zeta. unfold deref. cbn [entry_node ref_steps ref_index derefAt].
  assert ((blocks st ++ [createListNode type start]) !! length (blocks st)
          = Some (createListNode type start)) as Hl
    by by rewrite list_lookup_middle.
  repeat split.
  - cbn [blocks listStack]. constructor; [|done].
    destruct (listHead_createListNode type start) as [o Ho].
    exists (createListNode type start), o. done.
  - repeat constructor.
  - by apply lookup_ge_None.
  - done.
Qed.

Lemma ensureListContext_ok type indent start st :
  stateOk st ->
  exists e st' stack',
    ensureListContext type indent start st = Some (e, st')
    /\ stateOk st'
    /\ listStack st' = e :: stack'
    /\ paragraphLines st' = paragraphLines st
    /\ entry_type e = type
    /\ ((In e (listStack st) /\ blocks st' = blocks st)
        \/ (deref (entry_node e) (blocks st) = None
            /\ deref (entry_node e) (blocks st')
               = Some (createListNode type start))).
Proof.
  intros [Hv Hs]. unfold ensureListContext.
  destruct (dropWhile_suffix (fun e => indent <? entry_indent e) (listStack st))
    as [k Hk].
  pose proof (dropWhile_head (fun e => indent <? entry_indent e) (listStack st)) as Hhd.
  set (stack1 := dropWhile _ _) in *.
  assert (Forall (entryValid (blocks st)) stack1) as Hv1
    by (rewrite Hk; by apply Forall_drop).
  assert (StronglySorted (fun e e' => depth e' < depth e) stack1) as Hs1
    by (rewrite Hk; by apply StronglySorted_drop).
  assert (forall e, In e stack1 -> In e (listStack st)) as Hin.
  { intros e. rewrite Hk. intros He%list_elem_of_In.
    apply list_elem_of_In. by eapply subseteq_drop. }
  clear Hk. destruct stack1 as [|c rest]; cbn [head tail].
  - destruct (push_top_level type indent start st) as (Hok & Hfresh & Hnew).
    eexists _, _, _. split; [done|]. split; [exact Hok|]. cbn [listStack blocks].
    split; [done|]. split; [done|]. split; [done|]. by right.
  - specialize (Hhd c rest eq_refl). cbn beta in Hhd.
    apply Nat.ltb_ge in Hhd.
    destruct ((entry_indent c =? indent) && ListType_eqb (entry_type c) type) eqn:Ereuse.
    + apply andb_true_iff in Ereuse as [_ Hty].
      exists c, (setListStack (c :: rest) st), rest.
      split; [done|]. split; [done|]. split; [done|]. split; [done|].
      split; [by destruct (entry_type c), type|].
      left. split; [apply Hin; by left|done].
    + destruct (entry_indent c <? indent) eqn:Elt.
      * destruct (nest_under_top type indent start c rest st Hv1 Hs1)
          as (content & bs' & Hread & Hup & Hok & Hfresh & Hnew & _).
        rewrite Hread. cbn. rewrite Hup. cbn.
        eexists _, _, _. split; [done|]. split; [exact Hok|]. cbn [listStack blocks].
        split; [done|]. split; [done|]. split; [done|]. by right.
      * apply Nat.ltb_ge in Elt.
        assert (entry_indent c = indent) as Heq by lia.
        rewrite Heq, Nat.eqb_refl.
        inversion Hv1 as [|? ? _ Hvrest]; subst.
        inversion Hs1 as [|? ? Hsrest _]; subst.
        destruct rest as [|p rest']; cbn [head tail].
        -- destruct (push_top_level type (entry_indent c) start st)
             as (Hok & Hfresh & Hnew).
           eexists _, _, _. split; [done|]. split; [exact Hok|].
           cbn [listStack blocks].
           split; [done|]. split; [done|]. split; [done|]. by right.
        -- destruct (nest_under_top type (entry_indent c) start p rest' st Hvrest Hsrest)
             as (content & bs' & Hread & Hup & Hok & Hfresh & Hnew & _).
           rewrite Hread. cbn. rewrite Hup. cbn.
           eexists _, _, _. split; [done|]. split; [exact Hok|].
           cbn [listStack blocks].
           split; [done|]. split; [done|]. split; [done|]. by right.
Qed.

(** ** Termination of the block parser *)

Lemma inputLeft_step lines i l :
  lines !! i = Some l ->
  inputLeft lines i = length l + 1 + inputLeft lines (S i).
Proof.
  intros H. unfold inputLeft. by rewrite (drop_S _ _ _ H).
Qed.

Lemma inputLeft_mono lines i j :
  i <= j -> inputLeft lines j <= inputLeft lines i.
Proof.
  induction 1 as [|j Hle IH]; [done|].
  destruct (lines !! j) as [l|] eqn:E.
  - rewrite (inputLeft_step _ _ _ E) in IH. lia.
  - unfold inputLeft at 1. rewrite drop_ge; [simpl; lia|].
    apply lookup_ge_None in E. lia.
Qed.

Lemma replaceCRLF_cons c d s :
  replaceCRLF (c :: d :: s) =
  if (c =? 13)%N && (d =? 10)%N then 10%N :: replaceCRLF s
  else c :: replaceCRLF (d :: s).
Proof. reflexivity. Qed.

Lemma length_replaceCRLF_aux n s :
  length s <= n -> length (replaceCRLF s) <= length s.
Proof.
  revert s. induction n as [|n IH]; intros s Hn.
  - destruct s; [done|simpl in Hn; lia].
  - destruct s as [|c [|d s]]; [done..|].
    rewrite replaceCRLF_cons. destruct ((c =? 13)%N && (d =? 10)%N).
    + cbn [length] in *. specialize (IH s). lia.
    + cbn [length] in *. specialize (IH (d :: s)). cbn [length] in IH. lia.
Qed.

Lemma length_replaceCRLF s : length (replaceCRLF s) <= length s.
Proof. by apply (length_replaceCRLF_aux (length s)). Qed.

Lemma split_nonempty sep s : split sep s <> [].
Proof.
  destruct s as [|c s]; [done|]. simpl.
  destruct (c =? sep)%N; [done|]. by destruct (split sep s).
Qed.

Lemma list_sum_cons x l : list_sum (x :: l) = x + list_sum l.
Proof. reflexivity. Qed.

Lemma split_sum sep s :
  list_sum (map (fun l => length l + 1) (split sep s)) = length s + 1.
Proof.
  induction s as [|c s IH]; [done|]. cbn [split].
  destruct (c =? sep)%N.
  - cbn [map length]. rewrite list_sum_cons, IH. cbn [length]. lia.
  - pose proof (split_nonempty sep s).
    destruct (split sep s) as [|l ls]; [done|].
    cbn [map length] in *. rewrite list_sum_cons in *. cbn [length]. lia.
Qed.

Lemma inputLeft_split text :
  inputLeft (split LF (replaceCRLF text)) 0 <= length text + 1.
Proof.
  unfold inputLeft. rewrite drop_0, split_sum.
  pose proof (length_replaceCRLF text). lia.
Qed.

Lemma join_cons sep p q ps :
  join sep (p :: q :: ps) = p ++ sep ++ join sep (q :: ps).
Proof. reflexivity. Qed.

Lemma length_join_LF parts :
  parts <> [] ->
  length (join [LF] parts) + 1 = list_sum (map (fun l => length l + 1) parts).
Proof.
  induction parts as [|p ps IH]; [done|]. intros _.
  destruct ps as [|q ps].
  - simpl. lia.
  - rewrite join_cons. cbn [map]. rewrite list_sum_cons, !length_app.
    cbn [length]. specialize (IH ltac:(done)). cbn [map] in IH. lia.
Qed.

Lemma trimEnd_prefix s : exists t, s = trimEnd s ++ t.
Proof.
  exists (rev (takeWhile isSpace (rev s))). unfold trimEnd.
  rewrite <- rev_app_distr, takeWhile_dropWhile. by rewrite rev_involutive.
Qed.

Lemma dropWhile_app_nonempty {A} (p : A -> bool) s t c r :
  dropWhile p s = c :: r -> dropWhile p (s ++ t) = c :: r ++ t.
Proof.
  induction s as [|d s IH]; simpl; [done|].
  destruct (p d); [done|]. by intros [= -> ->].
Qed.

Lemma isQuoteLine_trimEnd s :
  isQuoteLine (trimEnd s) = true -> isQuoteLine s = true.
Proof.
  destruct (trimEnd_prefix s) as [t Ht]. unfold isQuoteLine.
  destruct (dropWhile isSpace (trimEnd s)) as [|c r] eqn:E; [done|].
  rewrite Ht at 1. by rewrite (dropWhile_app_nonempty _ _ t _ _ E).
Qed.

Lemma length_stripQuote l :
  isQuoteLine l = true -> length (stripQuote l) + 1 <= length l.
Proof.
  unfold isQuoteLine, stripQuote.
  pose proof (length_dropWhile isSpace l) as Hlen.
  destruct (dropWhile isSpace l) as [|c rest]; [done|].
  intros ->. cbn [length] in Hlen.
  destruct rest as [|d rest']; [simpl; lia|].
  destruct (isSpace d); cbn [length] in *; lia.
Qed.

Lemma quoteRun_sum (ls : list jsstring) :
  list_sum (map (fun l => length l + 1) (map stripQuote (takeWhile isQuoteLine ls)))
  + length (takeWhile isQuoteLine ls)
  <= list_sum (map (fun l => length l + 1) ls).
Proof.
  induction ls as [|l ls IH]; [done|]. cbn [takeWhile].
  destruct (isQuoteLine l) eqn:E; cbn [map length]; rewrite ?list_sum_cons;
    [|cbn [list_sum fold_right]; lia].
  pose proof (length_stripQuote l E). lia.
Qed.

(** The text of a blockquote is strictly shorter than the lines it is
    taken from. *)
Lemma quoteText_shorter lines i rawLine :
  lines !! i = Some rawLine ->
  isQuoteLine (trimEnd rawLine) = true ->
  let quoteLines := map stripQuote (takeWhile isQuoteLine (drop i lines)) in
  0 < length quoteLines
  /\ length (join [LF] quoteLines) + 2 <= inputLeft lines i.
Proof.
  intros Hl Hq%isQuoteLine_trimEnd. cbn zeta. unfold inputLeft.
  pose proof (quoteRun_sum (drop i lines)) as Hsum.
  rewrite (drop_S _ _ _ Hl) in *. cbn [takeWhile] in *. rewrite Hq in *.
  cbn [map length] in *. split; [lia|].
  pose proof (length_join_LF
    (stripQuote rawLine :: map stripQuote (takeWhile isQuoteLine (drop (S i) lines)))
    ltac:(done)) as Hj.
  cbn [map] in Hj. lia.
Qed.

(** One iteration from a well-formed state: it returns, moves the line
    cursor forward and leaves a well-formed state, provided the recursive
    call returns on every text shorter than the input that is left. *)
Lemma loopBody_ok rec lines i st :
  stateOk st -> i < length lines ->
  (forall text, length text + 2 <= inputLeft lines i -> is_Some (rec text)) ->
  exists i' st',
    loopBody rec lines i st = Some (i', st') /\ i < i' /\ stateOk st'.
Proof.
  intros Hst Hi Hrec. unfold loopBody.
  destruct (lookup_lt_is_Some_2 _ _ Hi) as [rawLine Hraw]. rewrite Hraw. obind.
  destruct (trim (trimEnd rawLine)) as [|t0 trimmed'] eqn:Etrim.
  { eexists _, _. split; [done|]. split; [lia|apply stateOk_flushListStack]. }
  destruct (codeFenceStart _) as [language|].
  { eexists _, _. split; [done|]. split; [lia|apply stateOk_pushBlock_flush]. }
  destruct (tableStartsAt _ _ _).
  { eexists _, _. split; [done|]. split; [lia|apply stateOk_pushBlock_flush]. }
  destruct (isQuoteLine _) eqn:Equote.
  { destruct (quoteText_shorter _ _ _ Hraw Equote) as [Hpos Hlen].
    destruct (Hrec _ Hlen) as [qc Hqc]. rewrite Hqc. obind.
    eexists _, _. split; [done|]. split; [lia|apply stateOk_pushBlock_flush]. }
  destruct (headingMatch _) as [[hashes text]|].
  { eexists _, _. split; [done|]. split; [lia|apply stateOk_pushBlock_flush]. }
  pose proof (stateOk_flushParagraph _ Hst) as Hfl.
  destruct (bulletMatch _) as [[spaces text]|].
  { destruct (ensureListContext_ok bullet (getLineIndent spaces) None _ Hfl)
      as (e & st2 & stack' & -> & Hok2 & Hstack & _).
    obind. destruct (pushListItem_ok e text st2 stack' Hok2 Hstack)
      as (st3 & -> & Hok3 & _).
    obind. eexists _, _. split; [done|]. split; [lia|done]. }
  destruct (orderedMatch _) as [[[spaces digits] text]|].
  { destruct (ensureListContext_ok ordered (getLineIndent spaces)
                (Some (Number digits)) _ Hfl)
      as (e & st2 & stack' & -> & Hok2 & Hstack & _).
    obind. destruct (pushListItem_ok e text st2 stack' Hok2 Hstack)
      as (st3 & -> & Hok3 & _).
    obind. eexists _, _. split; [done|]. split; [lia|done]. }
  destruct (listStack st) as [|top stack] eqn:Estack.
  { eexists _, _. split; [done|]. split; [lia|]. split; constructor. }
  destruct (entry_indent top <? getLineIndent (trimEnd rawLine)).
  - destruct (appendContinuation_ok top (trimEnd rawLine) st stack Hst Estack)
      as (st1 & -> & Hok1 & _).
    obind. eexists _, _. split; [done|]. split; [lia|done].
  - eexists _, _. split; [done|]. split; [lia|]. split; constructor.
Qed.

Lemma blocksLoop_total fuel lines i st :
  stateOk st -> inputLeft lines i <= fuel ->
  is_Some (blocksLoop fuel lines i st).
Proof.
  revert lines i st.
  induction fuel as [|fuel IH]; intros lines i st Hst Hfuel; cbn [blocksLoop].
  - destruct (Nat.ltb_spec i (length lines)) as [Hi|Hi]; [|done].
    destruct (lookup_lt_is_Some_2 _ _ Hi) as [l Hl].
    rewrite (inputLeft_step _ _ _ Hl) in Hfuel. lia.
  - destruct (Nat.ltb_spec i (length lines)) as [Hi|Hi]; [|done].
    destruct (lookup_lt_is_Some_2 _ _ Hi) as [l Hl].
    pose proof (inputLeft_step _ _ _ Hl) as Hstep.
    destruct (loopBody_ok
                (fun text => blocksLoop fuel (split LF (replaceCRLF text)) 0 initialState)
                lines i st Hst Hi) as (i' & st' & -> & Hlt & Hst').
    { intros text Htext. apply IH; [apply stateOk_initial|].
      pose proof (inputLeft_split text). lia. }
    cbn. apply IH; [done|].
    pose proof (inputLeft_mono lines (S i) i' ltac:(lia)). lia.
Qed.

Lemma parseMarkdownBlocks_fuel_Some text :
  parseMarkdownBlocks_fuel (length text + 1) text
  = Some (parseMarkdownBlocks text).
Proof.
  unfold parseMarkdownBlocks.
  destruct (blocksLoop_total (length text + 1) (split LF (replaceCRLF text)) 0
              initialState stateOk_initial (inputLeft_split text)) as [r Hr].
  unfold parseMarkdownBlocks_fuel. by rewrite Hr.
Qed.

(** ** The result does not depend on the fuel *)

Lemma loopBody_mono rec1 rec2 lines i st r :
  (forall text x, rec1 text = Some x -> rec2 text = Some x) ->
  loopBody rec1 lines i st = Some r -> loopBody rec2 lines i st = Some r.
Proof.
  intros Hrec. unfold loopBody.
  destruct (lines !! i) as [rawLine|]; [|done]. obind.
  destruct (trim (trimEnd rawLine)); [done|].
  destruct (codeFenceStart _); [done|].
  destruct (tableStartsAt _ _ _); [done|].
  destruct (isQuoteLine _); [|done].
  intros H. apply bind_Some in H as (qc & Hqc & H).
  by rewrite (Hrec _ _ Hqc).
Qed.

Lemma blocksLoop_mono fuel fuel' lines i st r :
  fuel <= fuel' ->
  blocksLoop fuel lines i st = Some r -> blocksLoop fuel' lines i st = Some r.
Proof.
  revert fuel' lines i st r.
  induction fuel as [|fuel IH]; intros fuel' lines i st r Hle; cbn [blocksLoop].
  - destruct fuel'; cbn [blocksLoop]; destruct (i <? length lines); done.
  - destruct fuel' as [|fuel']; [lia|]. cbn [blocksLoop].
    destruct (i <? length lines); [|done].
    intros H. apply bind_Some in H as ([i' st'] & Hbody & H).
    erewrite loopBody_mono; [| |exact Hbody].
    + obind. apply (IH fuel'); [lia|done].
    + intros text x Hx. apply (IH fuel'); [lia|done].
Qed.

Lemma parseMarkdownBlocks_fuel_inv fuel text r :
  parseMarkdownBlocks_fuel fuel text = Some r -> r = parseMarkdownBlocks text.
Proof.
  intros H. pose proof (parseMarkdownBlocks_fuel_Some text) as Hc.
  unfold parseMarkdownBlocks_fuel in *.
  destruct (Nat.le_ge_cases fuel (length text + 1)) as [Hle|Hle].
  - apply (blocksLoop_mono _ _ _ _ _ _ Hle) in H. congruence.
  - apply (blocksLoop_mono _ _ _ _ _ _ Hle) in Hc. congruence.
Qed.

Lemma parseMarkdownBlocks_fuel_ge fuel text :
  length text + 1 <= fuel ->
  parseMarkdownBlocks_fuel fuel text = Some (parseMarkdownBlocks text).
Proof.
  intros Hle. pose proof (parseMarkdownBlocks_fuel_Some text) as Hc.
  unfold parseMarkdownBlocks_fuel in *.
  by apply (blocksLoop_mono _ _ _ _ _ _ Hle) in Hc.
Qed.

Lemma blocksLoop_S fuel lines i st :
  blocksLoop (S fuel) lines i st =
  if i <? length lines
  then '(i', st') ← loopBody
                      (fun text => blocksLoop fuel (split LF (replaceCRLF text)) 0
                                     initialState) lines i st;
       blocksLoop fuel lines i' st'
  else Some (finish st).
Proof. reflexivity. Qed.

(** With enough fuel, the loop is the iteration of [loopStep]. *)
Lemma blocksLoop_unfold fuel lines i st :
  stateOk st -> inputLeft lines i <= fuel ->
  blocksLoop fuel lines i st =
  if i <? length lines
  then '(i', st') ← loopStep lines i st; blocksLoop fuel lines i' st'
  else Some (finish st).
Proof.
  intros Hst Hfuel.
  destruct (Nat.ltb_spec i (length lines)) as [Hi|Hi].
  2: { destruct fuel; cbn [blocksLoop];
       destruct (Nat.ltb_spec i (length lines)); [lia|done|lia|done]. }
  destruct (lookup_lt_is_Some_2 _ _ Hi) as [l Hl].
  pose proof (inputLeft_step _ _ _ Hl) as Hstep.
  destruct fuel as [|fuel]; [lia|].
  rewrite blocksLoop_S at 1.
  destruct (Nat.ltb_spec i (length lines)); [|lia].
  set (rec := fun text => blocksLoop fuel (split LF (replaceCRLF text)) 0 initialState).
  destruct (loopBody_ok rec lines i st Hst Hi) as (i' & st' & Hbody & Hlt & Hst').
  { intros text Htext. apply blocksLoop_total; [apply stateOk_initial|].
    pose proof (inputLeft_split text). lia. }
  rewrite Hbody. unfold loopStep.
  rewrite (loopBody_mono rec (fun text => Some (parseMarkdownBlocks text))
             lines i st (i', st')); [|
    by intros text x ->%parseMarkdownBlocks_fuel_inv | exact Hbody].
  obind.
  destruct (blocksLoop_total fuel lines i' st' Hst') as [r Hr].
  { pose proof (inputLeft_mono lines (S i) i' ltac:(lia)). lia. }
  rewrite Hr. symmetry. eapply blocksLoop_mono; [|exact Hr]. lia.
Qed.

(** ** Classification of a line

    What the first unit of the trimmed line tells about the rules that
    come before the rule of interest. *)

Lemma trim_eq s : trim s = dropWhile isSpace (trimEnd s).
Proof. reflexivity. Qed.

Lemma trim_of_trimEnd s : trim (trimEnd s) = dropWhile isSpace (trimEnd s).
Proof. by rewrite trim_trimEnd. Qed.

Lemma codeFenceStart_head c s :
  (c =? 96)%N = false -> codeFenceStart (c :: s) = None.
Proof.
  intros H. unfold codeFenceStart.
  change (str "```") with [96%N; 96%N; 96%N]. cbn [stripPrefix].
  rewrite N.eqb_sym in H. by rewrite H.
Qed.

Lemma headingMatch_head c s :
  (c =? 35)%N = false -> headingMatch (c :: s) = None.
Proof. intros H. unfold headingMatch. cbn [takeWhile]. by rewrite H. Qed.

Lemma dropWhile_keeps {A} (p : A -> bool) l1 c l2 :
  p c = false -> exists l, dropWhile p (l1 ++ c :: l2) = l ++ c :: l2.
Proof.
  intros Hc. induction l1 as [|d l1 [l IH]]; simpl.
  - rewrite Hc. by exists [].
  - destruct (p d); [by exists l|]. by exists (d :: l1).
Qed.

Lemma isQuoteLine_trimEnd_iff s :
  isQuoteLine (trimEnd s) = isQuoteLine s.
Proof.
  destruct (isQuoteLine s) eqn:E.
  - unfold isQuoteLine in *.
    pose proof (takeWhile_dropWhile isSpace s) as Hs.
    pose proof (takeWhile_Forall isSpace s) as Hsp.
    destruct (dropWhile isSpace s) as [|c r] eqn:Ed; [done|].
    apply N.eqb_eq in E as ->.
    unfold trimEnd. rewrite <- Hs, rev_app_distr. cbn [rev].
    rewrite <- app_assoc. cbn [app].
    destruct (dropWhile_keeps isSpace (rev r) 62%N (rev (takeWhile isSpace s))
                eq_refl) as [l ->].
    rewrite rev_app_distr. cbn [rev]. rewrite rev_involutive, <- app_assoc.
    cbn [app].
    assert (forall a b, Forall (fun c => isSpace c = true) a ->
              dropWhile isSpace (a ++ 62%N :: b) = 62%N :: b) as Hdrop.
    { intros a b Ha. induction Ha as [|d a Hd _ IH]; [done|].
      simpl. by rewrite Hd. }
    by rewrite Hdrop.
  - destruct (isQuoteLine (trimEnd s)) eqn:E'; [|done].
    apply isQuoteLine_trimEnd in E'. congruence.
Qed.

Lemma bulletMatch_inv line spaces text :
  bulletMatch line = Some (spaces, text) ->
  exists c rest,
    dropWhile isSpace line = c :: rest
    /\ ((c =? 45)%N || (c =? 42)%N) = true
    /\ spaces = takeWhile isSpace line
    /\ spaceThenRest rest = Some text.
Proof.
  unfold bulletMatch. destruct (dropWhile isSpace line) as [|c rest]; [done|].
  destruct ((c =? 45)%N || (c =? 42)%N) eqn:E; [|done].
  intros H. apply bind_Some in H as (t & Ht & [= <- <-]).
  by exists c, rest.
Qed.

Lemma orderedMatch_inv line spaces digits text :
  orderedMatch line = Some (spaces, digits, text) ->
  exists c rest,
    dropWhile isSpace line = c :: rest
    /\ isDigit c = true
    /\ spaces = takeWhile isSpace line
    /\ digits = takeWhile isDigit (c :: rest)
    /\ digits <> [].
Proof.
  unfold orderedMatch.
  destruct (takeWhile isDigit (dropWhile isSpace line)) as [|d ds] eqn:E; [done|].
  destruct (dropWhile isDigit _) as [|dot rest']; [done|].
  destruct (dot =? 46)%N; [|done].
  intros H. apply bind_Some in H as (t & Ht & [= <- <- <-]).
  destruct (dropWhile isSpace line) as [|c rest]; [done|].
  cbn [takeWhile] in E. destruct (isDigit c) eqn:Ec; [|done].
  exists c, rest. repeat split; try done.
  cbn [takeWhile]. by rewrite Ec.
Qed.

Lemma bulletMatch_head c rest line :
  dropWhile isSpace line = c :: rest ->
  ((c =? 45)%N || (c =? 42)%N) = false -> bulletMatch line = None.
Proof. intros H Hc. unfold bulletMatch. by rewrite H, Hc. Qed.

Ltac unit_facts :=
  repeat match goal with
  | H : (_ || _) = true |- _ => apply orb_true_iff in H as [H|H]
  | H : (_ && _) = true |- _ => apply andb_true_iff in H as [? H]
  | H : (_ =? _)%N = true |- _ => apply N.eqb_eq in H
  | H : (_ <=? _)%N = true |- _ => apply N.leb_le in H
  | H : in_range _ _ _ = true |- _ => unfold in_range in H
  | H : isDigit _ = true |- _ => unfold isDigit in H
  end.

Ltac unit_neq :=
  unit_facts;
  repeat match goal with
  | |- (_ || _) = false => apply orb_false_iff; split
  | |- (_ =? _)%N = false => apply N.eqb_neq; lia
  end.

(** The rules of [loopBody] that a line beginning (after white space) with
    [>], with a bullet or with a digit gets to. *)
Lemma loopBody_quote rec lines i st rawLine :
  lines !! i = Some rawLine ->
  isQuoteLine rawLine = true ->
  tableStartsAt lines i (trim rawLine) = false ->
  loopBody rec lines i st =
  let run := takeWhile isQuoteLine (drop i lines) in
  quoteContent ← rec (join [LF] (map stripQuote run));
  Some (i + length run,
        pushBlock (Blockquote quoteContent) (flushListStack (flushParagraph st))).
Proof.
  intros Hraw Hq Htable. unfold loopBody. rewrite Hraw. obind.
  rewrite trim_trimEnd, Htable, isQuoteLine_trimEnd_iff, Hq.
  rewrite <- isQuoteLine_trimEnd_iff in Hq. unfold isQuoteLine in Hq.
  rewrite <- trim_trimEnd, trim_of_trimEnd.
  destruct (dropWhile isSpace (trimEnd rawLine)) as [|c r]; [done|].
  rewrite codeFenceStart_head by unit_neq.
  cbn zeta. by rewrite length_map.
Qed.

Lemma loopBody_bullet rec lines i st rawLine spaces text :
  lines !! i = Some rawLine ->
  bulletMatch (trimEnd rawLine) = Some (spaces, text) ->
  tableStartsAt lines i (trim rawLine) = false ->
  loopBody rec lines i st =
  ('(entry, st2) ← ensureListContext bullet (getLineIndent spaces) None
                     (flushParagraph st);
   st3 ← pushListItem entry text st2;
   Some (i + 1, st3)).
Proof.
  intros Hraw Hb Htable. unfold loopBody. rewrite Hraw. obind.
  rewrite trim_trimEnd, Htable, Hb.
  apply bulletMatch_inv in Hb as (c & rest & Hd & Hc & _).
  unfold isQuoteLine. rewrite <- trim_trimEnd, trim_of_trimEnd, Hd.
  rewrite codeFenceStart_head by unit_neq.
  rewrite headingMatch_head by unit_neq.
  assert ((c =? 62)%N = false) as -> by unit_neq. done.
Qed.

Lemma loopBody_ordered rec lines i st rawLine spaces digits text :
  lines !! i = Some rawLine ->
  orderedMatch (trimEnd rawLine) = Some (spaces, digits, text) ->
  tableStartsAt lines i (trim rawLine) = false ->
  loopBody rec lines i st =
  ('(entry, st2) ← ensureListContext ordered (getLineIndent spaces)
                     (Some (Number digits)) (flushParagraph st);
   st3 ← pushListItem entry text st2;
   Some (i + 1, st3)).
Proof.
  intros Hraw Ho Htable. unfold loopBody. rewrite Hraw. obind.
  rewrite trim_trimEnd, Htable, Ho.
  apply orderedMatch_inv in Ho as (c & rest & Hd & Hc & _).
  unfold isQuoteLine. rewrite <- trim_trimEnd, trim_of_trimEnd.
  rewrite (bulletMatch_head c rest) by (done || unit_neq).
  rewrite Hd.
  rewrite codeFenceStart_head by unit_neq.
  rewrite headingMatch_head by unit_neq.
  assert ((c =? 62)%N = false) as -> by unit_neq. done.
Qed.

Lemma loopBody_blank rec lines i st rawLine :
  lines !! i = Some rawLine ->
  trim rawLine = [] ->
  loopBody rec lines i st = Some (i + 1, flushListStack (flushParagraph st)).
Proof.
  intros Hraw Hb. unfold loopBody. rewrite Hraw. obind.
  by rewrite trim_trimEnd, Hb.
Qed.

Lemma inlineLoop_mono fuel fuel' s nodes r :
  fuel <= fuel' ->
  inlineLoop fuel s nodes = Some r -> inlineLoop fuel' s nodes = Some r.
Proof.
  revert fuel' s nodes.
  induction fuel as [|fuel IH]; intros fuel' s nodes Hle.
  - destruct s; [|done]. by destruct fuel'.
  - destruct fuel' as [|fuel']; [lia|].
    destruct s as [|c s]; [done|]. rewrite !inlineLoop_step.
    destruct (inlineStep (c :: s)) as [n [rest|]]; [|done].
    apply IH. lia.
Qed.

Lemma finish_nonempty st : finish st <> [].
Proof. unfold finish. by destruct (blocks _). Qed.

Lemma blocksLoop_nonempty fuel lines i st r :
  blocksLoop fuel lines i st = Some r -> r <> [].
Proof.
  revert lines i st.
  induction fuel as [|fuel IH]; intros lines i st; cbn [blocksLoop].
  - destruct (i <? length lines); [done|].
    intros [= <-]. apply finish_nonempty.
  - destruct (i <? length lines); [|intros [= <-]; apply finish_nonempty].
    intros H. apply bind_Some in H as ([i' st'] & _ & H). by eapply IH.
Qed.

Lemma forallb_impl {A} (p q : A -> bool) l :
  (forall x, p x = true -> q x = true) ->
  forallb p l = true -> forallb q l = true.
Proof.
  intros Hpq. rewrite !forallb_forall. auto.
Qed.

Lemma isTokenNode_atMostOneMark n :
  isTokenNode n = true -> atMostOneMark n = true.
Proof. by destruct n as [[|c s] [[|m [|m' ms]]|]|]. Qed.

Lemma isTokenNode_nonEmptyText n :
  isTokenNode n = true -> nonEmptyText n = true.
Proof. by destruct n as [[|c s] [[|m [|m' ms]]|]|]. Qed.

Lemma buildParagraph_content text :
  paragraph_content (buildParagraph text) =
  match parseMarkdownInline text with
  | [] => [TextNode [] None]
  | _ :: _ => parseMarkdownInline text
  end.
Proof. reflexivity. Qed.

Lemma buildParagraph_nil :
  buildParagraph [] = ParagraphNode [TextNode [] None].
Proof. reflexivity. Qed.

(** The four facts that [CheckPreserved] asks for, for the two checks. *)
Lemma marks_buildParagraph text :
  paragraphOk marksCheck (paragraph_content (buildParagraph text)) = true.
Proof.
  rewrite buildParagraph_content. cbn [paragraphOk marksCheck].
  pose proof (parseMarkdownInline_tokens text) as H.
  destruct (parseMarkdownInline text); [done|].
  by apply (forallb_impl isTokenNode), H; apply isTokenNode_atMostOneMark.
Qed.

Lemma marks_heading text :
  headingOk marksCheck (parseMarkdownInline text) = true.
Proof.
  apply (forallb_impl isTokenNode), parseMarkdownInline_tokens.
  apply isTokenNode_atMostOneMark.
Qed.

Lemma marks_continue text p :
  paragraphOk marksCheck (paragraph_content p) = true ->
  paragraphOk marksCheck
    (paragraph_content (continueParagraph (parseMarkdownInline text) p)) = true.
Proof.
  intros Hp. pose proof (marks_heading text) as Hin.
  cbn [paragraphOk headingOk marksCheck] in *. unfold continueParagraph.
  destruct (parseMarkdownInline text) as [|n ns]; [done|].
  destruct (match paragraph_content p with [TextNode [] _] => true | _ => false end);
    cbn [paragraph_content]; [done|].
  rewrite !forallb_app, Hp, Hin. done.
Qed.

Lemma empty_buildParagraph text :
  paragraphOk emptyTextCheck (paragraph_content (buildParagraph text)) = true.
Proof.
  rewrite buildParagraph_content. cbn [paragraphOk emptyTextCheck].
  pose proof (parseMarkdownInline_tokens text) as H.
  destruct (parseMarkdownInline text); [done|].
  apply orb_true_iff. right.
  by apply (forallb_impl isTokenNode), H; apply isTokenNode_nonEmptyText.
Qed.

Lemma empty_heading text :
  headingOk emptyTextCheck (parseMarkdownInline text) = true.
Proof.
  apply (forallb_impl isTokenNode), parseMarkdownInline_tokens.
  apply isTokenNode_nonEmptyText.
Qed.

Lemma empty_continue text p :
  paragraphOk emptyTextCheck (paragraph_content p) = true ->
  paragraphOk emptyTextCheck
    (paragraph_content (continueParagraph (parseMarkdownInline text) p)) = true.
Proof.
  intros Hp. pose proof (empty_heading text) as Hin.
  cbn [paragraphOk headingOk emptyTextCheck] in *. unfold continueParagraph.
  destruct (parseMarkdownInline text) as [|n ns]; [done|].
  destruct (paragraph_content p) as [|[[|c s] m|] [|n2 c2]] eqn:Ec;
    cbn [paragraph_content]; try (by rewrite Hin, orb_true_r);
    apply orb_true_iff; right;
    apply orb_true_iff in Hp as [Hp|Hp]; try done;
    try (by destruct m);
    rewrite forallb_app, Hp; cbn [forallb app nonEmptyText andb]; exact Hin.
Qed.

(** ** Text without delimiter units *)

Lemma stripPrefix_head_ne d pre c s :
  (d =? c)%N = false -> stripPrefix (d :: pre) (c :: s) = None.
Proof. intros H. cbn [stripPrefix]. by rewrite H. Qed.

Lemma firstMatch_plain c s :
  isDelimiterUnit c = false -> firstMatch patterns (c :: s) = None.
Proof.
  unfold isDelimiterUnit. intros H.
  repeat (apply orb_false_iff in H as [H ?]).
  unfold patterns, firstMatch, linkRegex, delimited. cbn [regex].
  change (str "~~") with [126%N; 126%N]. change (str "**") with [42%N; 42%N].
  change (str "*") with [42%N]. change (str "__") with [95%N; 95%N].
  change (str "_") with [95%N]. change (str "`") with [96%N].
  change (str "[") with [91%N].
  rewrite !stripPrefix_head_ne by (by rewrite N.eqb_sym).
  done.
Qed.

Lemma searchSpecial_plain s :
  forallb (fun c => negb (isDelimiterUnit c)) s = true ->
  searchSpecial s = None.
Proof.
  induction s as [|c s IH]; [done|]. cbn [forallb].
  intros [Hc Hs]%andb_true_iff. apply negb_true_iff in Hc.
  cbn [searchSpecial]. rewrite (IH Hs).
  unfold specialAt. change (str "~~") with [126%N; 126%N].
  unfold isDelimiterUnit in Hc.
  repeat (apply orb_false_iff in Hc as [Hc ?]).
  rewrite stripPrefix_head_ne by (by rewrite N.eqb_sym).
  repeat match goal with H : (_ =? _)%N = false |- _ => rewrite H; clear H end.
  done.
Qed.

(** ** Runs of lines *)

Lemma takeWhile_prefix {A} (p : A -> bool) l :
  takeWhile p l = take (length (takeWhile p l)) l.
Proof.
  induction l as [|x l IH]; [done|]. cbn [takeWhile].
  destruct (p x); [|done]. cbn [length take]. by rewrite <- IH.
Qed.

Lemma takeWhile_maximal {A} (p : A -> bool) l x :
  l !! length (takeWhile p l) = Some x -> p x = false.
Proof.
  induction l as [|y l IH]; [done|]. cbn [takeWhile].
  destruct (p y) eqn:E; cbn [length].
  - apply IH.
  - by intros [= <-].
Qed.

(** ** A mutation one level below a node, seen from that node *)

Lemma updateAt_child steps idx i cidx f bs b items it child cc :
  derefAt steps idx bs = Some b ->
  listContent b = Some items ->
  items !! i = Some it ->
  item_content it !! cidx = Some child ->
  listContent child = Some cc ->
  exists bs',
    updateAt (steps ++ [(idx, i)]) cidx f bs = Some bs'
    /\ derefAt steps idx bs'
       = Some (setListContent b
                 (<[i := ListItem (<[cidx := setListContent child (f cc)]>
                                     (item_content it))]> items)).
Proof.
  revert bs. induction steps as [|[k j] steps IH]; intros bs;
    cbn [derefAt updateAt app].
  - intros Hb Hitems Hit Hchild Hcc.
    rewrite Hb. obind. rewrite Hitems. obind. rewrite Hit. obind.
    rewrite Hchild. obind. rewrite Hcc. obind.
    eexists. split; [done|].
    apply list_lookup_insert_eq. by eapply lookup_lt_Some.
  - intros H Hitems Hit Hchild Hcc.
    apply bind_Some in H as (b0 & Hb0 & H).
    apply bind_Some in H as (items0 & Hitems0 & H).
    apply bind_Some in H as (it0 & Hit0 & H).
    destruct (IH _ H Hitems Hit Hchild Hcc) as (content' & Hup & Hde).
    rewrite Hb0. obind. rewrite Hitems0. obind. rewrite Hit0. obind.
    rewrite Hup. obind. eexists. split; [done|].
    rewrite list_lookup_insert_eq by by eapply lookup_lt_Some. obind.
    erewrite listContent_setListContent by done. obind.
    rewrite list_lookup_insert_eq by by eapply lookup_lt_Some. obind. done.
Qed.

Lemma dropWhile_head_false {A} (p : A -> bool) x l :
  p x = false -> dropWhile p (x :: l) = x :: l.
Proof. intros H. cbn [dropWhile]. by rewrite H. Qed.

Lemma insert_at_length {A} (l : list A) x y :
  <[length l := y]> (l ++ [x]) = l ++ [y].
Proof.
  replace (length l) with (length l + 0) by lia. by rewrite insert_app_r.
Qed.

(** ** List items *)

Lemma listStack_flushParagraph st :
  listStack (flushParagraph st) = listStack st.
Proof. unfold flushParagraph. by destruct (paragraphLines st). Qed.

Lemma pushListItem_deref e text st stack :
  stateOk st -> listStack st = e :: stack ->
  exists st' b c,
    pushListItem e text st = Some st'
    /\ stateOk st'
    /\ listStack st' = listStack st
    /\ deref (entry_node e) (blocks st) = Some b
    /\ listContent b = Some c
    /\ deref (entry_node e) (blocks st')
       = Some (setListContent b (c ++ [ListItem [Paragraph (buildParagraph text)]])).
Proof.
  intros [Hv Hs] Hstack. rewrite Hstack in Hv, Hs.
  destruct (update_top
              (fun content => content ++ [ListItem [Paragraph (buildParagraph text)]])
              _ _ _ Hv Hs)
    as (b & c & bs' & Hb & Hc & Hup & Hde & Hv').
  exists (setBlocks bs' st), b, c. unfold pushListItem. rewrite Hup. obind.
  split; [done|]. split; [|done].
  split; cbn [blocks listStack setBlocks]; by rewrite Hstack.
Qed.

(** An item line whose indent exceeds the indent of the top entry opens a
    list inside the last item of the top entry's list. *)
Lemma ensureListContext_deeper type indent start st top stack :
  stateOk st ->
  listStack st = top :: stack ->
  entry_indent top < indent ->
  exists content bs',
    readContent (entry_node top) (blocks st) = Some content
    /\ let e := {| entry_type := type; entry_indent := indent;
                   entry_node := nestedRef (entry_node top) content |} in
       let st' := {| blocks := bs'; paragraphLines := paragraphLines st;
                     listStack := e :: top :: stack |} in
       ensureListContext type indent start st = Some (e, st')
       /\ stateOk st'
       /\ deref (entry_node e) bs' = Some (createListNode type start)
       /\ readContent (entry_node top) bs'
          = Some (nestInLastItem (createListNode type start) content).
Proof.
  intros [Hv Hs] Hstack Hlt. rewrite Hstack in Hv, Hs.
  destruct (nest_under_top type indent start top stack st Hv Hs)
    as (content & bs' & Hread & Hup & Hok & _ & Hnew & Hparent).
  exists content, bs'. split; [done|]. cbn zeta.
  split; [|done].
  unfold ensureListContext. rewrite Hstack.
  rewrite dropWhile_head_false by (apply Nat.ltb_ge; lia).
  cbn [head].
  assert ((entry_indent top =? indent) = false) as -> by (apply Nat.eqb_neq; lia).
  cbn [andb].
  assert ((entry_indent top <? indent) = true) as -> by (apply Nat.ltb_lt; lia).
  rewrite Hread. obind. rewrite Hup. obind. done.
Qed.

(** ** The shape of list items *)

Lemma shape_item_snoc c b :
  startsWithParagraph c = true -> startsWithParagraph (c ++ [b]) = true.
Proof. by destruct c as [|[] c]. Qed.

Lemma shape_item_update c j b c0 x :
  c !! j = Some b -> listContent b = Some c0 ->
  startsWithParagraph c = true ->
  startsWithParagraph (<[j := setListContent b x]> c) = true.
Proof.
  destruct c as [|b0 c]; [done|]. destruct j as [|j].
  - intros [= ->] Hc. by destruct b.
  - done.
Qed.

Lemma parseMarkdownBlocks_shape text :
  forallb (checkBlock shapeCheck) (parseMarkdownBlocks text) = true.
Proof.
  apply parseMarkdownBlocks_check; try done.
  - apply shape_item_snoc.
  - apply shape_item_update.
Qed.

Lemma loopStep_shape lines i st i' st' :
  forallb (checkBlock shapeCheck) (blocks st) = true ->
  loopStep lines i st = Some (i', st') ->
  forallb (checkBlock shapeCheck) (blocks st') = true.
Proof.
  intros Hst H. eapply (loopBody_check shapeCheck); try exact H; try done.
  - apply shape_item_snoc.
  - apply shape_item_update.
  - intros text r [= <-]. apply parseMarkdownBlocks_shape.
Qed.

Lemma derefAt_check K steps idx bs b :
  forallb (checkBlock K) bs = true ->
  derefAt steps idx bs = Some b -> checkBlock K b = true.
Proof.
  revert bs. induction steps as [|[k i] steps IH]; intros bs Hbs; cbn [derefAt].
  - intros H. by eapply forallb_lookup.
  - intros H.
    apply bind_Some in H as (b0 & Hb0 & H).
    apply bind_Some in H as (items & Hitems & H).
    apply bind_Some in H as (it & Hit & H).
    eapply IH; [|exact H].
    pose proof (forallb_lookup _ _ _ _ Hbs Hb0) as H0.
    assert (forallb (checkItem K) items = true) as Hitems'.
    { destruct b0; simpl in Hitems; try done; injection Hitems as <-; done. }
    pose proof (forallb_lookup _ _ _ _ Hitems' Hit) as H1.
    destruct it as [c]. cbn [checkItem item_content] in *.
    by apply andb_true_iff in H1 as [_ H1].
Qed.

(** ** Nodes are kept *)

Lemma keeps_refl b : keeps b b.
Proof. destruct b; simpl; eauto. Qed.

Lemma keeps_trans b1 b2 b3 : keeps b1 b2 -> keeps b2 b3 -> keeps b1 b3.
Proof.
  destruct b1; simpl; try (by intros ->);
    intros [x ->]; simpl; done.
Qed.

Lemma keeps_setListContent b c x :
  listContent b = Some c -> keeps b (setListContent b x).
Proof. destruct b; simpl; intros [= <-]; eauto. Qed.

Lemma childrenKept_refl c : childrenKept c c.
Proof.
  intros i it Hit. exists it. split; [done|]. intros j b Hb.
  exists b. split; [done|]. split; [apply keeps_refl|done].
Qed.

(** A reference into a sequence of blocks denotes a kept node in a
    sequence whose blocks are kept and whose lists are the same. *)
Lemma derefAt_kept steps idx content content' b :
  (forall j b0, content !! j = Some b0 ->
     exists b0', content' !! j = Some b0' /\ keeps b0 b0'
                 /\ (forall h, listHead b0 = Some h -> b0' = b0)) ->
  derefAt steps idx content = Some b ->
  exists b', derefAt steps idx content' = Some b' /\ keeps b b'.
Proof.
  intros Hkept. destruct steps as [|[k i] steps]; cbn [derefAt]; intros H.
  - destruct (Hkept _ _ H) as (b' & Hb' & Hk & _). eauto.
  - apply bind_Some in H as (b0 & Hb0 & H).
    apply bind_Some in H as (items & Hitems & H).
    destruct (Hkept _ _ Hb0) as (b0' & Hb0' & _ & Hsame).
    destruct (listContent_listHead _ _ Hitems) as [h Hh].
    rewrite (Hsame _ Hh) in Hb0'. rewrite Hb0'. obind. rewrite Hitems. obind.
    exists b. split; [done|apply keeps_refl].
Qed.

(** A mutation whose function keeps the children of the items keeps every
    node of the document. *)
Lemma updateAt_keeps steps idx f bs bs' :
  updateAt steps idx f bs = Some bs' ->
  (forall b c, derefAt steps idx bs = Some b -> listContent b = Some c ->
     childrenKept c (f c)) ->
  forall steps' idx' b0,
    derefAt steps' idx' bs = Some b0 ->
    exists b0', derefAt steps' idx' bs' = Some b0' /\ keeps b0 b0'.
Proof.
  revert bs bs'. induction steps as [|[k i] steps IH]; intros bs bs' Hup Hf;
    cbn [updateAt derefAt] in *.
  - apply bind_Some in Hup as (b & Hb & Hup).
    apply bind_Some in Hup as (c & Hc & [= <-]).
    specialize (Hf b c Hb Hc).
    intros [|[k' i'] steps'] idx' b0; cbn [derefAt]; intros H0.
    + destruct (decide (idx = idx')) as [->|Hne].
      * rewrite list_lookup_insert_eq by by eapply lookup_lt_Some.
        assert (b0 = b) as -> by congruence.
        eexists. split; [done|]. by eapply keeps_setListContent.
      * rewrite list_lookup_insert_ne by done.
        exists b0. split; [done|apply keeps_refl].
    + apply bind_Some in H0 as (b1 & Hb1 & H0).
      apply bind_Some in H0 as (items1 & Hitems1 & H0).
      apply bind_Some in H0 as (it1 & Hit1 & H0).
      destruct (decide (idx = k')) as [->|Hne].
      * rewrite list_lookup_insert_eq by by eapply lookup_lt_Some. obind.
        assert (b1 = b) as -> by congruence.
        assert (items1 = c) as -> by congruence.
        erewrite listContent_setListContent by done. obind.
        destruct (Hf _ _ Hit1) as (it' & Hit' & Hchildren).
        rewrite Hit'. obind.
        by eapply derefAt_kept.
      * rewrite list_lookup_insert_ne by done.
        rewrite Hb1. obind. rewrite Hitems1. obind. rewrite Hit1. obind.
        exists b0. split; [done|apply keeps_refl].
  - apply bind_Some in Hup as (b & Hb & Hup).
    apply bind_Some in Hup as (items & Hitems & Hup).
    apply bind_Some in Hup as (it & Hit & Hup).
    apply bind_Some in Hup as (content' & Hc & [= <-]).
    intros [|[k' i'] steps'] idx' b0; cbn [derefAt]; intros H0.
    + destruct (decide (k = idx')) as [->|Hne].
      * rewrite list_lookup_insert_eq by by eapply lookup_lt_Some.
        assert (b0 = b) as -> by congruence.
        eexists. split; [done|]. by eapply keeps_setListContent.
      * rewrite list_lookup_insert_ne by done.
        exists b0. split; [done|apply keeps_refl].
    + apply bind_Some in H0 as (b1 & Hb1 & H0).
      apply bind_Some in H0 as (items1 & Hitems1 & H0).
      apply bind_Some in H0 as (it1 & Hit1 & H0).
      destruct (decide (k = k')) as [->|Hne].
      * rewrite list_lookup_insert_eq by by eapply lookup_lt_Some. obind.
        assert (b1 = b) as -> by congruence.
        assert (items1 = items) as -> by congruence.
        erewrite listContent_setListContent by done. obind.
        destruct (decide (i = i')) as [->|Hnei].
        -- rewrite list_lookup_insert_eq by by eapply lookup_lt_Some. obind.
           assert (it1 = it) as -> by congruence.
           cbn [item_content].
           eapply (IH _ _ Hc); [|exact H0].
           intros b2 c2 Hb2 Hc2. apply (Hf b2 c2); [|done].
           rewrite Hb. obind. rewrite Hitems. obind. rewrite Hit. obind. done.
        -- rewrite list_lookup_insert_ne by done. rewrite Hit1. obind.
           exists b0. split; [done|apply keeps_refl].
      * rewrite list_lookup_insert_ne by done.
        rewrite Hb1. obind. rewrite Hitems1. obind. rewrite Hit1. obind.
        exists b0. split; [done|apply keeps_refl].
Qed.

Lemma childrenKept_push c it0 : childrenKept c (c ++ [it0]).
Proof.
  intros i it Hit. exists it. split; [by apply lookup_app_l_Some|].
  intros j b Hb. exists b. split; [done|]. split; [apply keeps_refl|done].
Qed.

Lemma childrenKept_last items it it' :
  (forall j b, item_content it !! j = Some b ->
     exists b', item_content it' !! j = Some b' /\ keeps b b'
                /\ (forall h, listHead b = Some h -> b' = b)) ->
  childrenKept (items ++ [it]) (items ++ [it']).
Proof.
  intros Hlast i it1 Hit1.
  destruct (decide (i < length items)) as [Hlt|Hge].
  - rewrite lookup_app_l in Hit1 by done.
    exists it1. split; [by apply lookup_app_l_Some|].
    intros j b Hb. exists b. split; [done|]. split; [apply keeps_refl|done].
  - assert (i = length items) as ->.
    { apply lookup_lt_Some in Hit1. rewrite length_app in Hit1. simpl in Hit1. lia. }
    rewrite list_lookup_middle in Hit1 by done. injection Hit1 as <-.
    exists it'. split; [by rewrite list_lookup_middle|done].
Qed.

Lemma childrenKept_nest node c : childrenKept c (nestInLastItem node c).
Proof.
  destruct (list_nil_or_snoc c) as [->|(items & it & ->)].
  - intros i it Hit. done.
  - rewrite nestInLastItem_snoc. apply childrenKept_last.
    intros j b Hb. exists b. cbn [item_content].
    split; [by apply lookup_app_l_Some|]. split; [apply keeps_refl|done].
Qed.

Lemma continueLastItem_nil line :
  exists p, continueLastItem line [] = [ListItem [Paragraph p]].
Proof. unfold continueLastItem. cbn. eauto. Qed.

Lemma continueLastItem_snoc line items p rest :
  continueLastItem line (items ++ [ListItem (Paragraph p :: rest)])
  = items ++ [ListItem (Paragraph (continueParagraph
                                     (parseMarkdownInline (trim line)) p) :: rest)].
Proof.
  unfold continueLastItem, getLastListItem. rewrite last_snoc.
  cbn zeta. rewrite last_snoc. apply insert_last.
Qed.

Lemma childrenKept_continue line c :
  forallb (checkItem shapeCheck) c = true ->
  childrenKept c (continueLastItem line c).
Proof.
  intros Hshape.
  destruct (list_nil_or_snoc c) as [->|(items & [content] & ->)].
  - intros i it Hit. done.
  - rewrite forallb_snoc in Hshape. apply andb_true_iff in Hshape as [_ Hlast].
    cbn [checkItem itemOk shapeCheck] in Hlast.
    apply andb_true_iff in Hlast as [Hlast _].
    destruct content as [|[p| | | | | |] rest]; try done.
    rewrite continueLastItem_snoc. apply childrenKept_last.
    intros [|j] b; cbn [item_content lookup list_lookup].
    + intros [= <-]. eexists. split; [done|]. split; [simpl; eauto|done].
    + intros Hb. exists b. split; [done|]. split; [apply keeps_refl|done].
Qed.

Lemma flushParagraph_blocks st :
  exists more, blocks (flushParagraph st) = blocks st ++ more.
Proof.
  unfold flushParagraph. destruct (paragraphLines st).
  - exists []. by rewrite app_nil_r.
  - cbn [blocks]. destruct (trim _); [|by eexists].
    exists []. by rewrite app_nil_r.
Qed.

Lemma app_keeps r bs more b :
  deref r bs = Some b ->
  exists b', deref r (bs ++ more) = Some b' /\ keeps b b'.
Proof.
  intros H. exists b. split; [by apply derefAt_app|apply keeps_refl].
Qed.

Lemma flushParagraph_keeps st r b :
  deref r (blocks st) = Some b ->
  exists b', deref r (blocks (flushParagraph st)) = Some b' /\ keeps b b'.
Proof.
  destruct (flushParagraph_blocks st) as [more ->]. apply app_keeps.
Qed.

Lemma updateContent_keeps r0 f bs bs' :
  updateContent r0 f bs = Some bs' ->
  (forall c, readContent r0 bs = Some c -> childrenKept c (f c)) ->
  forall r b, deref r bs = Some b ->
    exists b', deref r bs' = Some b' /\ keeps b b'.
Proof.
  intros Hup Hf r b Hb. eapply updateAt_keeps; [exact Hup| |exact Hb].
  intros b0 c Hb0 Hc. apply Hf. unfold readContent, deref. by rewrite Hb0.
Qed.

Lemma ensureListContext_keeps type indent start st e st' :
  ensureListContext type indent start st = Some (e, st') ->
  forall r b, deref r (blocks st) = Some b ->
    exists b', deref r (blocks st') = Some b' /\ keeps b b'.
Proof.
  unfold ensureListContext.
  set (stack1 := dropWhile _ _). clearbody stack1.
  assert (forall p stack2,
    (content ← readContent (entry_node p) (blocks st);
     blocks' ← updateContent (entry_node p)
                 (nestInLastItem (createListNode type start)) (blocks st);
     Some ({| entry_type := type; entry_indent := indent;
              entry_node := nestedRef (entry_node p) content |},
           {| blocks := blocks'; paragraphLines := paragraphLines st;
              listStack := {| entry_type := type; entry_indent := indent;
                              entry_node := nestedRef (entry_node p) content |}
                           :: stack2 |})) = Some (e, st') ->
    forall r b, deref r (blocks st) = Some b ->
      exists b', deref r (blocks st') = Some b' /\ keeps b b') as Hnest.
  { intros p stack2 H.
    apply bind_Some in H as (content & Hc & H).
    apply bind_Some in H as (bs' & Hup & [= <- <-]). cbn [blocks].
    eapply updateContent_keeps; [exact Hup|].
    intros c _. apply childrenKept_nest. }
  destruct (head stack1) as [c|] eqn:Ehd.
  - destruct (_ && _).
    + intros [= <- <-] r b Hb. exists b. split; [done|apply keeps_refl].
    + destruct (entry_indent c <? indent); [apply Hnest|].
      destruct (entry_indent c =? indent).
      * destruct (head (tail stack1)) as [p|]; [apply Hnest|].
        intros [= <- <-]. cbn [blocks]. intros r b. apply app_keeps.
      * intros [= <- <-]. cbn [blocks]. intros r b. apply app_keeps.
  - intros [= <- <-]. cbn [blocks]. intros r b. apply app_keeps.
Qed.

Lemma pushListItem_keeps e text st st' :
  pushListItem e text st = Some st' ->
  forall r b, deref r (blocks st) = Some b ->
    exists b', deref r (blocks st') = Some b' /\ keeps b b'.
Proof.
  unfold pushListItem. intros H.
  apply bind_Some in H as (bs' & Hup & [= <-]). cbn [blocks setBlocks].
  eapply updateContent_keeps; [exact Hup|].
  intros c _. apply childrenKept_push.
Qed.

Lemma appendContinuation_keeps e line st st' :
  forallb (checkBlock shapeCheck) (blocks st) = true ->
  appendContinuationToListItem e line st = Some st' ->
  forall r b, deref r (blocks st) = Some b ->
    exists b', deref r (blocks st') = Some b' /\ keeps b b'.
Proof.
  unfold appendContinuationToListItem. intros Hshape H.
  apply bind_Some in H as (bs' & Hup & [= <-]). cbn [blocks setBlocks].
  eapply updateContent_keeps; [exact Hup|].
  intros c Hc. apply childrenKept_continue.
  unfold readContent in Hc. apply bind_Some in Hc as (b0 & Hb0 & Hc).
  pose proof (derefAt_check shapeCheck _ _ _ _ Hshape Hb0) as Hcheck.
  destruct b0; simpl in Hc; try done; injection Hc as <-; done.
Qed.

(** No iteration of the loop changes the type or the [order] of a list
    that is in the document, and apart from lists and paragraphs it
    changes no block at all. *)
Lemma loopBody_keeps rec lines i st i' st' :
  forallb (checkBlock shapeCheck) (blocks st) = true ->
  loopBody rec lines i st = Some (i', st') ->
  forall r b, deref r (blocks st) = Some b ->
    exists b', deref r (blocks st') = Some b' /\ keeps b b'.
Proof.
  intros Hshape H r b Hb. unfold loopBody in H.
  apply bind_Some in H as (rawLine & Hraw & H).
  destruct (flushParagraph_keeps st r b Hb) as (b1 & Hb1 & Hk1).
  assert (forall x,
    exists b', deref r (blocks (pushBlock x (flushListStack (flushParagraph st))))
               = Some b' /\ keeps b b') as Hpush.
  { intros x. cbn [blocks pushBlock flushListStack setListStack].
    destruct (app_keeps r _ [x] _ Hb1) as (b2 & Hb2 & Hk2).
    exists b2. split; [done|]. by eapply keeps_trans. }
  destruct (trim (trimEnd rawLine)) as [|t0 trimmed'] eqn:Etrim.
  { injection H as <- <-. cbn [blocks flushListStack setListStack]. eauto. }
  destruct (codeFenceStart _) as [language|].
  { injection H as <- <-. apply Hpush. }
  destruct (tableStartsAt _ _ _).
  { injection H as <- <-. apply Hpush. }
  destruct (isQuoteLine _).
  { apply bind_Some in H as (qc & Hqc & [= <- <-]). apply Hpush. }
  destruct (headingMatch _) as [[hashes text]|].
  { injection H as <- <-. apply Hpush. }
  assert (forall type indent start text,
    ('(entry, st2) ← ensureListContext type indent start (flushParagraph st);
     st3 ← pushListItem entry text st2; Some (i + 1, st3)) = Some (i', st') ->
    exists b', deref r (blocks st') = Some b' /\ keeps b b') as Hitem.
  { intros type indent start text H0.
    apply bind_Some in H0 as ([e st2] & He & H0).
    apply bind_Some in H0 as (st3 & Hp & [= <- <-]).
    destruct (ensureListContext_keeps _ _ _ _ _ _ He r b1 Hb1) as (b2 & Hb2 & Hk2).
    destruct (pushListItem_keeps _ _ _ _ Hp r b2 Hb2) as (b3 & Hb3 & Hk3).
    exists b3. split; [done|]. eauto using keeps_trans. }
  destruct (bulletMatch _) as [[spaces text]|]; [by eapply Hitem|].
  destruct (orderedMatch _) as [[[spaces digits] text]|]; [by eapply Hitem|].
  destruct (listStack st) as [|top stack].
  { injection H as <- <-. cbn [blocks]. exists b. split; [done|apply keeps_refl]. }
  destruct (entry_indent top <? getLineIndent (trimEnd rawLine)).
  - apply bind_Some in H as (st1 & Happ & [= <- <-]).
    by eapply appendContinuation_keeps.
  - injection H as <- <-. cbn [blocks].
    exists b. split; [done|apply keeps_refl].
Qed.

(** An ordered item line joins the list of an open entry, leaving its
    [order] alone, or creates a list whose [order] is taken from the
    number written on the line. *)
Lemma loopBody_ordered_item rec lines i st rawLine spaces digits text :
  stateOk st ->
  lines !! i = Some rawLine ->
  orderedMatch (trimEnd rawLine) = Some (spaces, digits, text) ->
  tableStartsAt lines i (trim rawLine) = false ->
  let item := ListItem [Paragraph (buildParagraph text)] in
  exists e st' stack',
    loopBody rec lines i st = Some (i + 1, st')
    /\ listStack st' = e :: stack'
    /\ entry_type e = ordered
    /\ ((In e (listStack st)
         /\ exists o c,
              deref (entry_node e) (blocks st) = Some (OrderedList o c)
              /\ deref (entry_node e) (blocks st')
                 = Some (OrderedList o (c ++ [item])))
        \/ (deref (entry_node e) (blocks st) = None
            /\ deref (entry_node e) (blocks st')
               = Some (OrderedList
                         (if truthy (Number digits) then Some (Number digits)
                          else None) [item]))).
Proof.
  intros Hst Hraw Ho Htable. cbn zeta.
  rewrite (loopBody_ordered _ _ _ _ _ _ _ _ Hraw Ho Htable).
  pose proof (stateOk_flushParagraph _ Hst) as Hst0.
  destruct (ensureListContext_ok ordered (getLineIndent spaces)
              (Some (Number digits)) _ Hst0)
    as (e & st2 & stack' & -> & Hok2 & Hstack & _ & Hty & Hcase).
  obind.
  destruct (pushListItem_deref e text st2 stack' Hok2 Hstack)
    as (st3 & b & c & -> & Hok3 & Hstack3 & Hb & Hc & Hb3).
  obind. exists e, st3, stack'. split; [done|].
  split; [congruence|]. split; [done|].
  destruct (flushParagraph_blocks st) as [more Hmore].
  destruct Hcase as [[Hin Hblocks]|[Hfresh Hnew]].
  - left. rewrite listStack_flushParagraph in Hin. split; [done|].
    destruct Hst as [Hv _]. rewrite Forall_forall in Hv.
    destruct (Hv e (proj2 (list_elem_of_In _ _) Hin)) as (b0 & o & Hb0 & Hh).
    rewrite Hty in Hh. destruct b0 as [| | | | |o0 c0|]; simpl in Hh; try done.
    injection Hh as ->.
    exists o, c0. split; [done|].
    assert (b = OrderedList o c0) as ->.
    { rewrite Hblocks, Hmore in Hb.
      unfold deref in *. rewrite (derefAt_app _ _ _ more _ Hb0) in Hb. congruence. }
    simpl in Hc. injection Hc as <-. exact Hb3.
  - right. split.
    + destruct (deref (entry_node e) (blocks st)) as [b0|] eqn:E; [|done].
      unfold deref in *. apply (derefAt_app _ _ _ more) in E.
      rewrite <- Hmore in E. congruence.
    + assert (b = createListNode ordered (Some (Number digits))) as -> by congruence.
      simpl in Hc. injection Hc as <-. exact Hb3.
Qed.

Lemma loopStep_ok lines i st i' st' :
  stateOk st -> loopStep lines i st = Some (i', st') ->
  stateOk st' /\ i < i'.
Proof.
  intros Hst H.
  assert (i < length lines) as Hi.
  { apply lookup_lt_is_Some. unfold loopStep, loopBody in H.
    destruct (lines !! i); [eauto|done]. }
  destruct (loopBody_ok (fun text => Some (parseMarkdownBlocks text)) lines i st Hst Hi)
    as (i2 & st2 & Hbody & Hlt & Hst2); [eauto|].
  unfold loopStep in H. rewrite H in Hbody. by injection Hbody as <- <-.
Qed.

(** ** Where new lists come from *)

(** A block pushed onto a sequence adds one place, its own, when it has
    no list items. *)
Lemma derefAt_push_inv steps idx bs x b' :
  (forall c, listContent x = Some c -> c = []) ->
  derefAt steps idx (bs ++ [x]) = Some b' ->
  derefAt steps idx bs = Some b'
  \/ (steps = [] /\ idx = length bs /\ b' = x).
Proof.
  intros Hx. destruct steps as [|[k i] steps]; cbn [derefAt]; intros H.
  - apply lookup_app_Some in H as [H|[Hge H]]; [by left|].
    right. destruct (idx - length bs) as [|n] eqn:E; [|by destruct n].
    injection H as <-. split; [done|]. split; [lia|done].
  - apply bind_Some in H as (b0 & Hb0 & H).
    apply lookup_app_Some in Hb0 as [Hb0|[Hge Hb0]].
    + left. by rewrite Hb0.
    + destruct (k - length bs) as [|n]; [|by destruct n].
      injection Hb0 as <-.
      apply bind_Some in H as (items & Hitems & H).
      rewrite (Hx _ Hitems) in H. done.
Qed.

Lemma derefAt_flush_inv steps idx st b' h :
  derefAt steps idx (blocks (flushParagraph st)) = Some b' ->
  listHead b' = Some h ->
  derefAt steps idx (blocks st) = Some b'.
Proof.
  unfold flushParagraph. destruct (paragraphLines st); [done|].
  cbn [blocks]. destruct (trim _); [done|].
  intros H Hh. apply derefAt_push_inv in H as [H|(_ & _ & ->)]; done.
Qed.

Lemma updateAt_new steps idx f bs bs' pos node :
  updateAt steps idx f bs = Some bs' ->
  listContent node = Some [] ->
  (forall b c, derefAt steps idx bs = Some b -> listContent b = Some c ->
     listChildrenFrom c (f c) pos node) ->
  forall steps' idx' b' h,
    derefAt steps' idx' bs' = Some b' ->
    listHead b' = Some h ->
    (exists b, derefAt steps' idx' bs = Some b /\ listHead b = Some h)
    \/ (exists i, pos = Some (i, idx') /\ steps' = steps ++ [(idx, i)]
                  /\ b' = node).
Proof.
  intros Hup Hnode. revert bs bs' Hup.
  induction steps as [|[k i] steps IH]; intros bs bs' Hup Hf;
    cbn [updateAt derefAt] in *.
  - apply bind_Some in Hup as (b & Hb & Hup).
    apply bind_Some in Hup as (c & Hc & [= <-]).
    specialize (Hf b c Hb Hc).
    intros [|[k' i'] steps'] idx' b' h; cbn [derefAt]; intros H0 Hh.
    + left. destruct (decide (idx = idx')) as [->|Hne].
      * rewrite list_lookup_insert_eq in H0 by by eapply lookup_lt_Some.
        injection H0 as <-. exists b. split; [done|].
        by rewrite listHead_setListContent in Hh.
      * rewrite list_lookup_insert_ne in H0 by done. eauto.
    + apply bind_Some in H0 as (b1 & Hb1 & H0).
      apply bind_Some in H0 as (items1 & Hitems1 & H0).
      apply bind_Some in H0 as (it1 & Hit1 & H0).
      destruct (decide (idx = k')) as [->|Hne].
      * rewrite list_lookup_insert_eq in Hb1 by by eapply lookup_lt_Some.
        injection Hb1 as <-.
        erewrite listContent_setListContent in Hitems1 by done.
        injection Hitems1 as <-.
        destruct steps' as [|[j i2] steps']; cbn [derefAt] in H0.
        -- destruct (Hf _ _ _ _ _ Hit1 H0 Hh) as [(it & Hit & Hchild)|[-> ->]].
           ++ left. exists b'. split; [|done].
              rewrite Hb. obind. rewrite Hc. obind. rewrite Hit. obind. done.
           ++ right. by exists i'.
        -- apply bind_Some in H0 as (b2 & Hb2 & H0).
           apply bind_Some in H0 as (items2 & Hitems2 & H0).
           destruct (listContent_listHead _ _ Hitems2) as [h2 Hh2].
           destruct (Hf _ _ _ _ _ Hit1 Hb2 Hh2) as [(it & Hit & Hchild)|[_ ->]].
           ++ left. exists b'. split; [|done].
              rewrite Hb. obind. rewrite Hc. obind. rewrite Hit. obind.
              cbn [derefAt]. rewrite Hchild. obind. rewrite Hitems2. obind. done.
           ++ rewrite Hnode in Hitems2. injection Hitems2 as <-. done.
      * rewrite list_lookup_insert_ne in Hb1 by done. left.
        exists b'. split; [|done].
        rewrite Hb1. obind. rewrite Hitems1. obind. rewrite Hit1. obind. done.
  - apply bind_Some in Hup as (b & Hb & Hup).
    apply bind_Some in Hup as (items & Hitems & Hup).
    apply bind_Some in Hup as (it & Hit & Hup).
    apply bind_Some in Hup as (content' & Hc & [= <-]).
    intros [|[k' i'] steps'] idx' b' h; cbn [derefAt]; intros H0 Hh.
    + left. destruct (decide (k = idx')) as [->|Hne].
      * rewrite list_lookup_insert_eq in H0 by by eapply lookup_lt_Some.
        injection H0 as <-. exists b. split; [done|].
        by rewrite listHead_setListContent in Hh.
      * rewrite list_lookup_insert_ne in H0 by done. eauto.
    + apply bind_Some in H0 as (b1 & Hb1 & H0).
      apply bind_Some in H0 as (items1 & Hitems1 & H0).
      apply bind_Some in H0 as (it1 & Hit1 & H0).
      destruct (decide (k = k')) as [->|Hne].
      * rewrite list_lookup_insert_eq in Hb1 by by eapply lookup_lt_Some.
        injection Hb1 as <-.
        erewrite listContent_setListContent in Hitems1 by done.
        injection Hitems1 as <-.
        destruct (decide (i = i')) as [->|Hnei].
        -- rewrite list_lookup_insert_eq in Hit1 by by eapply lookup_lt_Some.
           injection Hit1 as <-. cbn [item_content] in H0.
           destruct (IH _ _ Hc) with (steps' := steps') (idx' := idx')
                                     (b' := b') (h := h)
             as [(b0 & Hb0 & Hh0)|(i0 & Hpos & -> & ->)]; try done.
           ++ intros b2 c2 Hb2 Hc2. apply (Hf b2 c2); [|done].
              rewrite Hb. obind. rewrite Hitems. obind. rewrite Hit. obind. done.
           ++ left. exists b0. split; [|done].
              rewrite Hb. obind. rewrite Hitems. obind. rewrite Hit. obind. done.
           ++ right. by exists i0.
        -- rewrite list_lookup_insert_ne in Hit1 by done. left.
           exists b'. split; [|done].
           rewrite Hb. obind. rewrite Hitems. obind. rewrite Hit1. obind. done.
      * rewrite list_lookup_insert_ne in Hb1 by done. left.
        exists b'. split; [|done].
        rewrite Hb1. obind. rewrite Hitems1. obind. rewrite Hit1. obind. done.
Qed.

Lemma listChildrenFrom_last items it it' pos node :
  (forall j b' h, item_content it' !! j = Some b' -> listHead b' = Some h ->
     item_content it !! j = Some b'
     \/ (pos = Some (length items, j) /\ b' = node)) ->
  listChildrenFrom (items ++ [it]) (items ++ [it']) pos node.
Proof.
  intros Hlast i it1 j b' h Hit1 Hb' Hh.
  destruct (decide (i < length items)) as [Hlt|Hge].
  - rewrite lookup_app_l in Hit1 by done. left.
    exists it1. split; [by apply lookup_app_l_Some|done].
  - assert (i = length items) as ->.
    { apply lookup_lt_Some in Hit1. rewrite length_app in Hit1. simpl in Hit1. lia. }
    rewrite list_lookup_middle in Hit1 by done. injection Hit1 as <-.
    destruct (Hlast _ _ _ Hb' Hh) as [H|H]; [left|by right].
    exists it. split; [by rewrite list_lookup_middle|done].
Qed.

Lemma listChildrenFrom_push c p node :
  listChildrenFrom c (c ++ [ListItem [Paragraph p]]) None node.
Proof.
  intros i it' j b' h Hit' Hb' Hh. left.
  apply lookup_app_Some in Hit' as [Hit'|[Hge Hit']]; [eauto|].
  destruct (i - length c) as [|n]; [|by destruct n].
  injection Hit' as <-. destruct j as [|[|j]]; [|done..].
  injection Hb' as <-. done.
Qed.

Lemma listChildrenFrom_nest node parent c :
  listChildrenFrom c (nestInLastItem node c)
    (Some (match last (ref_steps (nestedRef parent c)) with
           | Some (_, i) => i
           | None => 0
           end,
           ref_index (nestedRef parent c)))
    node.
Proof.
  destruct (list_nil_or_snoc c) as [->|(items & it & ->)].
  - rewrite nestInLastItem_nil, nestedRef_nil. cbn [ref_steps ref_index].
    rewrite last_snoc.
    intros [|i] it' j b' h; [|done]. intros [= <-].
    destruct j as [|[|j]]; [|by intros [= <-]; right|done].
    by intros [= <-].
  - rewrite nestInLastItem_snoc, nestedRef_snoc. cbn [ref_steps ref_index].
    rewrite last_snoc. apply listChildrenFrom_last.
    intros j b' h Hb' Hh. cbn [item_content] in Hb'.
    apply lookup_app_Some in Hb' as [Hb'|[Hge Hb']]; [by left|].
    destruct (j - length (item_content it)) as [|n] eqn:E; [|by destruct n].
    injection Hb' as <-. right. split; [|done]. do 2 f_equal. lia.
Qed.

Lemma listChildrenFrom_continue line c node :
  forallb (checkItem shapeCheck) c = true ->
  listChildrenFrom c (continueLastItem line c) None node.
Proof.
  intros Hshape.
  destruct (list_nil_or_snoc c) as [->|(items & [content] & ->)].
  - destruct (continueLastItem_nil line) as [p ->].
    intros [|i] it' j b' h; [|done]. intros [= <-].
    destruct j as [|j]; [|done]. by intros [= <-].
  - rewrite forallb_snoc in Hshape. apply andb_true_iff in Hshape as [_ Hlast].
    cbn [checkItem itemOk shapeCheck] in Hlast.
    apply andb_true_iff in Hlast as [Hlast _].
    destruct content as [|[p| | | | | |] rest]; try done.
    rewrite continueLastItem_snoc. apply listChildrenFrom_last.
    intros [|j] b' h; cbn [item_content lookup list_lookup].
    + by intros [= <-].
    + intros Hb' _. by left.
Qed.

Lemma updateContent_new r0 f bs bs' pos node :
  updateContent r0 f bs = Some bs' ->
  listContent node = Some [] ->
  (forall c, readContent r0 bs = Some c -> listChildrenFrom c (f c) pos node) ->
  forall r b' h,
    deref r bs' = Some b' -> listHead b' = Some h ->
    (exists b, deref r bs = Some b /\ listHead b = Some h)
    \/ (exists i, pos = Some (i, ref_index r)
                  /\ ref_steps r = ref_steps r0 ++ [(ref_index r0, i)]
                  /\ b' = node).
Proof.
  intros Hup Hnode Hf r b' h Hb' Hh.
  eapply updateAt_new; [exact Hup|exact Hnode| |exact Hb'|exact Hh].
  intros b0 c Hb0 Hc. apply Hf. unfold readContent, deref. by rewrite Hb0.
Qed.

Lemma listContent_createListNode type start :
  listContent (createListNode type start) = Some [].
Proof. by destruct type. Qed.

Lemma nestedRef_last parent c :
  ref_steps (nestedRef parent c)
  = ref_steps parent
    ++ [(ref_index parent,
         match last (ref_steps (nestedRef parent c)) with
         | Some (_, i) => i
         | None => 0
         end)].
Proof.
  unfold nestedRef. destruct (getLastListItem c); cbn [ref_steps];
    by rewrite last_snoc.
Qed.

(** [ensureListContext] adds at most one list to the document: the one
    that the entry it returns refers to. *)
Lemma ensureListContext_new type indent start st e st' :
  ensureListContext type indent start st = Some (e, st') ->
  forall r b' h,
    deref r (blocks st') = Some b' -> listHead b' = Some h ->
    (exists b, deref r (blocks st) = Some b /\ listHead b = Some h)
    \/ (r = entry_node e /\ b' = createListNode type start).
Proof.
  unfold ensureListContext.
  set (stack1 := dropWhile _ _). clearbody stack1.
  assert (forall p stack2,
    (content ← readContent (entry_node p) (blocks st);
     blocks' ← updateContent (entry_node p)
                 (nestInLastItem (createListNode type start)) (blocks st);
     Some ({| entry_type := type; entry_indent := indent;
              entry_node := nestedRef (entry_node p) content |},
           {| blocks := blocks'; paragraphLines := paragraphLines st;
              listStack := {| entry_type := type; entry_indent := indent;
                              entry_node := nestedRef (entry_node p) content |}
                           :: stack2 |})) = Some (e, st') ->
    forall r b' h,
      deref r (blocks st') = Some b' -> listHead b' = Some h ->
      (exists b, deref r (blocks st) = Some b /\ listHead b = Some h)
      \/ (r = entry_node e /\ b' = createListNode type start)) as Hnest.
  { intros p stack2 H.
    apply bind_Some in H as (content & Hc & H).
    apply bind_Some in H as (bs' & Hup & [= <- <-]). cbn [blocks entry_node].
    intros r b' h Hb' Hh.
    destruct (updateContent_new _ _ _ _
                (Some (match last (ref_steps (nestedRef (entry_node p) content)) with
                       | Some (_, i) => i
                       | None => 0
                       end,
                       ref_index (nestedRef (entry_node p) content)))
                (createListNode type start)
                Hup (listContent_createListNode type start)) with (r := r) (b' := b') (h := h)
      as [?|(i & [= <- Hidx] & Hsteps & ->)]; try done.
    - intros c Hc'. assert (c = content) as -> by congruence.
      apply listChildrenFrom_nest.
    - by left.
    - right. split; [|done]. destruct r as [rs ri]. cbn [ref_steps ref_index] in *.
      subst rs ri. rewrite <- nestedRef_last. by destruct (nestedRef _ _). }
  assert (forall stack2,
    let e0 := {| entry_type := type; entry_indent := indent;
                 entry_node := {| ref_steps := [];
                                  ref_index := length (blocks st) |} |} in
    Some (e0, {| blocks := blocks st ++ [createListNode type start];
                 paragraphLines := paragraphLines st;
                 listStack := e0 :: stack2 |}) = Some (e, st') ->
    forall r b' h,
      deref r (blocks st') = Some b' -> listHead b' = Some h ->
      (exists b, deref r (blocks st) = Some b /\ listHead b = Some h)
      \/ (r = entry_node e /\ b' = createListNode type start)) as Htop.
  { intros stack2 e0 [= <- <-] r b' h Hb' Hh. cbn [blocks entry_node] in *.
    apply derefAt_push_inv in Hb' as [Hb'|(Hs & Hi & ->)].
    - left. eauto.
    - right. split; [|done]. destruct r as [rs ri]. cbn [ref_steps ref_index] in *.
      by subst.
    - intros c. rewrite listContent_createListNode. by intros [= <-]. }
  destruct (head stack1) as [c|] eqn:Ehd.
  - destruct (_ && _).
    + intros [= <- <-] r b' h Hb' Hh. left. eauto.
    + destruct (entry_indent c <? indent); [apply Hnest|].
      destruct (entry_indent c =? indent).
      * destruct (head (tail stack1)) as [p|]; [apply Hnest|apply Htop].
      * apply Htop.
  - apply Htop.
Qed.

Lemma pushListItem_new e text st st' :
  pushListItem e text st = Some st' ->
  forall r b' h,
    deref r (blocks st') = Some b' -> listHead b' = Some h ->
    exists b, deref r (blocks st) = Some b /\ listHead b = Some h.
Proof.
  unfold pushListItem. intros H.
  apply bind_Some in H as (bs' & Hup & [= <-]). cbn [blocks setBlocks].
  intros r b' h Hb' Hh.
  destruct (updateContent_new _ _ _ _ None (BulletList []) Hup eq_refl)
    with (r := r) (b' := b') (h := h) as [?|(i & ? & _)]; try done.
  intros c _. apply listChildrenFrom_push.
Qed.

Lemma appendContinuation_new e line st st' :
  forallb (checkBlock shapeCheck) (blocks st) = true ->
  appendContinuationToListItem e line st = Some st' ->
  forall r b' h,
    deref r (blocks st') = Some b' -> listHead b' = Some h ->
    exists b, deref r (blocks st) = Some b /\ listHead b = Some h.
Proof.
  unfold appendContinuationToListItem. intros Hshape H.
  apply bind_Some in H as (bs' & Hup & [= <-]). cbn [blocks setBlocks].
  intros r b' h Hb' Hh.
  destruct (updateContent_new _ _ _ _ None (BulletList []) Hup eq_refl)
    with (r := r) (b' := b') (h := h) as [?|(i & ? & _)]; try done.
  intros c Hc. apply listChildrenFrom_continue.
  unfold readContent in Hc. apply bind_Some in Hc as (b0 & Hb0 & Hc).
  pose proof (derefAt_check shapeCheck _ _ _ _ Hshape Hb0) as Hcheck.
  destruct b0; simpl in Hc; try done; injection Hc as <-; done.
Qed.

Lemma deref_flush_inv r st b' h :
  deref r (blocks (flushParagraph st)) = Some b' ->
  listHead b' = Some h ->
  deref r (blocks st) = Some b'.
Proof. apply derefAt_flush_inv. Qed.

(** A list that is in the document after an iteration and was not there
    before is the list that an item line has created, with the item of
    that line as its one item. *)
Lemma loopBody_new_list rec lines i st i' st' r b' h :
  stateOk st ->
  forallb (checkBlock shapeCheck) (blocks st) = true ->
  loopBody rec lines i st = Some (i', st') ->
  deref r (blocks st) = None ->
  deref r (blocks st') = Some b' ->
  listHead b' = Some h ->
  exists rawLine spaces text,
    lines !! i = Some rawLine /\ i' = i + 1
    /\ ((bulletMatch (trimEnd rawLine) = Some (spaces, text)
         /\ b' = BulletList [ListItem [Paragraph (buildParagraph text)]])
        \/ (exists digits,
              orderedMatch (trimEnd rawLine) = Some (spaces, digits, text)
              /\ b' = OrderedList
                        (if truthy (Number digits) then Some (Number digits)
                         else None)
                        [ListItem [Paragraph (buildParagraph text)]])).
Proof.
  intros Hst Hshape H Hnone Hb' Hh. unfold loopBody in H.
  apply bind_Some in H as (rawLine & Hraw & H).
  assert (forall x, listContent x = None ->
            deref r (blocks (pushBlock x (flushListStack (flushParagraph st))))
            = Some b' -> False) as Hpush.
  { intros x Hx Hd. cbn [blocks pushBlock flushListStack setListStack] in Hd.
    apply derefAt_push_inv in Hd as [Hd|(_ & _ & ->)].
    - apply deref_flush_inv with (h := h) in Hd; [congruence|done].
    - destruct x; done.
    - intros c. by rewrite Hx. }
  destruct (trim (trimEnd rawLine)) as [|t0 trimmed'] eqn:Etrim.
  { injection H as <- <-. cbn [blocks flushListStack setListStack] in Hb'.
    apply deref_flush_inv with (h := h) in Hb'; [congruence|done]. }
  destruct (codeFenceStart _) as [language|].
  { injection H as <- <-. by eapply Hpush in Hb'. }
  destruct (tableStartsAt _ _ _).
  { injection H as <- <-. by eapply Hpush in Hb'. }
  destruct (isQuoteLine _).
  { apply bind_Some in H as (qc & Hqc & [= <- <-]). by eapply Hpush in Hb'. }
  destruct (headingMatch _) as [[hashes text]|].
  { injection H as <- <-. by eapply Hpush in Hb'. }
  pose proof (stateOk_flushParagraph _ Hst) as Hst0.
  assert (forall type start text,
    ('(entry, st2) ← ensureListContext type (getLineIndent (takeWhile isSpace (trimEnd rawLine)))
                       start (flushParagraph st);
     st3 ← pushListItem entry text st2; Some (i + 1, st3)) = Some (i', st') ->
    i' = i + 1
    /\ b' = setListContent (createListNode type start)
              [ListItem [Paragraph (buildParagraph text)]]) as Hitem.
  { intros type start text H0.
    destruct (ensureListContext_ok type
                (getLineIndent (takeWhile isSpace (trimEnd rawLine))) start _ Hst0)
      as (e & st2 & stack' & Hens & Hok2 & Hstack & _).
    rewrite Hens in H0. cbn [mbind option_bind] in H0.
    destruct (pushListItem_deref e text st2 stack' Hok2 Hstack)
      as (st3 & b & c & Hp & _ & _ & Hb & Hc & Hb3).
    rewrite Hp in H0. cbn [mbind option_bind] in H0. injection H0 as <- <-.
    split; [done|].
    destruct (pushListItem_new _ _ _ _ Hp r b' h Hb' Hh) as (b2 & Hb2 & Hh2).
    destruct (ensureListContext_new _ _ _ _ _ _ Hens r b2 h Hb2 Hh2)
      as [(b0 & Hb0 & Hh0)|[-> ->]].
    - apply deref_flush_inv with (h := h) in Hb0; [congruence|done].
    - rewrite Hb in Hb2. injection Hb2 as ->.
      rewrite listContent_createListNode in Hc. injection Hc as <-.
      rewrite Hb3 in Hb'. by injection Hb' as <-. }
  destruct (bulletMatch _) as [[spaces text]|] eqn:Eb.
  { pose proof (bulletMatch_inv _ _ _ Eb) as (c0 & rest & _ & _ & -> & _).
    destruct (Hitem bullet None text H) as [-> ->].
    exists rawLine, (takeWhile isSpace (trimEnd rawLine)), text.
    split; [done|]. split; [done|]. by left. }
  destruct (orderedMatch _) as [[[spaces digits] text]|] eqn:Eo.
  { pose proof (orderedMatch_inv _ _ _ _ Eo) as (c0 & rest & _ & _ & -> & _).
    destruct (Hitem ordered (Some (Number digits)) text H) as [-> ->].
    exists rawLine, (takeWhile isSpace (trimEnd rawLine)), text.
    split; [done|]. split; [done|]. right. by exists digits. }
  destruct (listStack st) as [|top stack].
  { injection H as <- <-. cbn [blocks] in Hb'. congruence. }
  destruct (entry_indent top <? getLineIndent (trimEnd rawLine)).
  - apply bind_Some in H as (st1 & Happ & [= <- <-]).
    destruct (appendContinuation_new _ _ _ _ Hshape Happ r b' h Hb' Hh)
      as (b0 & Hb0 & _).
    congruence.
  - injection H as <- <-. cbn [blocks] in Hb'. congruence.
Qed.

(** ** The states of a run *)

Lemma reaches_ok lines i st :
  reaches lines i st ->
  stateOk st /\ forallb (checkBlock shapeCheck) (blocks st) = true.
Proof.
  induction 1 as [|i st i' st' _ [Hok Hshape] Hstep].
  - split; [apply stateOk_initial|done].
  - split; [by eapply loopStep_ok|by eapply loopStep_shape].
Qed.

(** The result of the parser is [finish] of a state of the run. *)
Lemma blocksLoop_reaches fuel lines i st r :
  reaches lines i st ->
  blocksLoop fuel lines i st = Some r ->
  exists i' st', reaches lines i' st' /\ length lines <= i' /\ r = finish st'.
Proof.
  revert i st. induction fuel as [|fuel IH]; intros i st Hreach.
  - cbn [blocksLoop]. destruct (Nat.ltb_spec i (length lines)); [done|].
    intros [= <-]. eauto.
  - rewrite blocksLoop_S. destruct (Nat.ltb_spec i (length lines)).
    + intros H0. apply bind_Some in H0 as ([i' st'] & Hbody & H0).
      eapply IH; [|exact H0]. eapply reaches_step; [exact Hreach|].
      unfold loopStep. eapply loopBody_mono; [|exact Hbody].
      by intros text x ->%parseMarkdownBlocks_fuel_inv.
    + intros [= <-]. eauto.
Qed.

Lemma parseMarkdownBlocks_reaches text :
  let lines := split LF (replaceCRLF text) in
  exists i st,
    reaches lines i st /\ length lines <= i
    /\ parseMarkdownBlocks text = finish st.
Proof.
  cbn zeta. pose proof (parseMarkdownBlocks_fuel_Some text) as H.
  unfold parseMarkdownBlocks_fuel in H.
  eapply blocksLoop_reaches; [apply reaches_start|exact H].
Qed.

(** Every ordered list of a state of the run has been created by an
    ordered item line, at a place where there was no node, with the
    [order] that it still has. *)
Lemma reaches_created lines i st r o c :
  reaches lines i st ->
  deref r (blocks st) = Some (OrderedList o c) ->
  exists j stj stj' rawLine spaces digits text,
    j < i
    /\ reaches lines j stj
    /\ loopStep lines j stj = Some (j + 1, stj')
    /\ lines !! j = Some rawLine
    /\ orderedMatch (trimEnd rawLine) = Some (spaces, digits, text)
    /\ deref r (blocks stj) = None
    /\ deref r (blocks stj')
       = Some (OrderedList o [ListItem [Paragraph (buildParagraph text)]])
    /\ o = (if truthy (Number digits) then Some (Number digits) else None).
Proof.
  intros Hreach. revert o c.
  induction Hreach as [|i st i' st' Hreach IH Hstep]; intros o c Hr.
  - unfold deref in Hr. destruct (ref_steps r) as [|[k i0] steps];
      cbn [derefAt blocks initialState] in Hr; done.
  - destruct (reaches_ok _ _ _ Hreach) as [Hok Hshape].
    destruct (loopStep_ok _ _ _ _ _ Hok Hstep) as [_ Hlt].
    destruct (deref r (blocks st)) as [b|] eqn:Eb.
    + destruct (loopBody_keeps _ _ _ _ _ _ Hshape Hstep r b Eb) as (b' & Hb' & Hk).
      assert (b' = OrderedList o c) as -> by congruence.
      destruct b; simpl in Hk; try (by destruct Hk); try done.
      destruct Hk as [c' [= -> ->]].
      destruct (IH _ _ eq_refl)
        as (j & stj & stj' & rawLine & spaces & digits & text & Hj & Hrest).
      exists j, stj, stj', rawLine, spaces, digits, text. split; [lia|done].
    + destruct (loopBody_new_list _ _ _ _ _ _ r _ (ordered, o) Hok Hshape Hstep Eb Hr eq_refl)
        as (rawLine & spaces & text & Hraw & -> & [[_ [=]]|(digits & Ho & [= -> ->])]).
      exists i, st, st', rawLine, spaces, digits, text.
      split; [lia|]. repeat split; done.
Qed.

(** ** Strict progress *)

Lemma loopBody_progress rec lines i st i' st' :
  loopBody rec lines i st = Some (i', st') -> i < i'.
Proof.
  intros H. unfold loopBody in H.
  apply bind_Some in H as (rawLine & Hraw & H).
  destruct (trim (trimEnd rawLine)) as [|t0 trimmed'] eqn:Etrim.
  { injection H as <- <-. lia. }
  destruct (codeFenceStart _) as [language|].
  { injection H as <- <-. lia. }
  destruct (tableStartsAt _ _ _).
  { injection H as <- <-. lia. }
  destruct (isQuoteLine _) eqn:Equote.
  { apply bind_Some in H as (qc & Hqc & [= <- <-]).
    destruct (quoteText_shorter _ _ _ Hraw Equote) as [Hpos _]. lia. }
  destruct (headingMatch _) as [[hashes text]|].
  { injection H as <- <-. lia. }
  destruct (bulletMatch _) as [[spaces text]|].
  { apply bind_Some in H as ([e st2] & He & H).
    apply bind_Some in H as (st3 & Hpush & [= <- <-]). lia. }
  destruct (orderedMatch _) as [[[spaces digits] text]|].
  { apply bind_Some in H as ([e st2] & He & H).
    apply bind_Some in H as (st3 & Hpush & [= <- <-]). lia. }
  destruct (listStack st) as [|top stack]; [injection H as <- <-; lia|].
  destruct (entry_indent top <? getLineIndent (trimEnd rawLine)).
  - apply bind_Some in H as (st1 & Happ & [= <- <-]). lia.
  - injection H as <- <-. lia.
Qed.

Lemma quoteRun_shorter lines i :
  let run := takeWhile isQuoteLine (drop i lines) in
  run = [] \/ length (join [LF] (map stripQuote run)) + 2 <= inputLeft lines i.
Proof.
  cbn zeta. unfold inputLeft.
  pose proof (quoteRun_sum (drop i lines)) as Hsum.
  destruct (takeWhile isQuoteLine (drop i lines)) as [|l run] eqn:E; [by left|].
  right.
  pose proof (length_join_LF (map stripQuote (l :: run)) ltac:(done)) as Hj.
  cbn [length] in Hsum. lia.
Qed.

(** ** The value of [Number] *)

Lemma str_String a s : str (String a s) = N_of_ascii a :: str s.
Proof. reflexivity. Qed.

Lemma decimalValue_snoc digits c :
  decimalValue (digits ++ [c]) = (10 * decimalValue digits + (c - 48))%N.
Proof. unfold decimalValue. by rewrite fold_left_app. Qed.

(** The digits that the Standard Library prints for [d], read with an
    accumulator. *)
Lemma decimalValue_acc d acc :
  fold_left (fun acc c => (10 * acc + (c - 48))%N)
    (str (NilEmpty.string_of_uint d)) acc
  = (Unsigned.of_lu (Decimal.rev d) + acc * 10 ^ Unsigned.usize d)%N.
Proof.
  revert acc.
  induction d as [|d IH|d IH|d IH|d IH|d IH|d IH|d IH|d IH|d IH|d IH];
    intros acc;
    [unfold str; cbn; lia|..];
    cbn [NilEmpty.string_of_uint]; rewrite str_String; cbn [fold_left];
    rewrite IH;
    match goal with
    | |- context [Decimal.rev (?D d)] =>
        change (Decimal.rev (D d)) with (Decimal.revapp d (D Decimal.Nil));
        rewrite (Unsigned.of_lu_revapp d (D Decimal.Nil))
    end;
    cbn [Unsigned.usize]; rewrite N.pow_succ_r';
    match goal with
    | |- context [(N_of_ascii ?a - 48)%N] =>
        let k := eval vm_compute in (N_of_ascii a - 48)%N in
        change (N_of_ascii a - 48)%N with k
    end;
    match goal with
    | |- context [Unsigned.of_lu (?D Decimal.Nil)] =>
        let k := eval vm_compute in (Unsigned.of_lu (D Decimal.Nil)) in
        change (Unsigned.of_lu (D Decimal.Nil)) with k
    end;
    lia.
Qed.

(** [decimalValue] reads a string of decimal digits as the Standard
    Library reads the decimal number [d] that prints as that string. *)
Lemma decimalValue_of_uint d :
  decimalValue (str (NilEmpty.string_of_uint d)) = N.of_uint d.
Proof.
  unfold decimalValue. rewrite decimalValue_acc.
  change (N.of_uint d) with (Pos.of_uint d). rewrite Unsigned.of_uint_alt. lia.
Qed.

Lemma decimalValue_to_uint n :
  decimalValue (str (NilEmpty.string_of_uint (N.to_uint n))) = n.
Proof. by rewrite decimalValue_of_uint, DecimalN.Unsigned.of_to. Qed.

Lemma size_le_53 n : (n < 2 ^ 53)%N -> (N.size n <= 53)%N.
Proof.
  intros Hn. destruct (N.eq_dec n 0%N) as [->|Hn0]; [done|].
  rewrite N.size_log2 by done.
  apply N.le_succ_l, N.log2_lt_pow2; lia.
Qed.

(** An integer up to 2^53 is a double. *)
Lemma roundToDouble_exact n : (n <= 2 ^ 53)%N -> roundToDouble n = integer n.
Proof.
  intros Hn. apply N.lt_eq_cases in Hn as [Hn| ->]; [|by vm_compute].
  unfold roundToDouble.
  by rewrite (proj2 (N.leb_le _ _) (size_le_53 n Hn)).
Qed.

(** The parts of an integer of more than 53 bits that the rounding looks
    at: the 53 leading bits [q], the rest [r] and the weight [p] of the
    last bit kept. *)
Lemma roundToDouble_long n :
  (53 < N.size n)%N ->
  exists h q r,
    (2 ^ (N.size n - 53) = 2 * h)%N /\ (0 < h)%N
    /\ (n = q * (2 * h) + r)%N /\ (r < 2 * h)%N
    /\ (2 ^ 52 <= q < 2 ^ 53)%N
    /\ roundToDouble n
       = (let q' := if (h <? r)%N || ((r =? h)%N && N.odd q)
                    then (q + 1)%N else q in
          if (2 ^ 1024 <=? q' * (2 * h))%N then Infinity
          else integer (q' * (2 * h))).
Proof.
  intros Hbits. set (s := (N.size n - 53)%N).
  assert (N.size n = 53 + s)%N as Hs by lia.
  assert (1 <= s)%N as Hs1 by lia.
  set (h := (2 ^ (s - 1))%N).
  assert (2 ^ s = 2 * h)%N as Hp.
  { unfold h. rewrite <- N.pow_succ_r'. f_equal. lia. }
  assert (0 < h)%N as Hh.
  { unfold h. apply N.neq_0_lt_0, N.pow_nonzero. done. }
  pose proof (N.size_gt n) as Hgt. pose proof (N.size_le n) as Hle.
  rewrite Hs, N.pow_add_r, Hp in Hgt, Hle.
  rewrite N.succ_double_spec in Hle.
  pose proof (N.div_mod n (2 * h) ltac:(lia)) as Hdiv.
  pose proof (N.mod_lt n (2 * h) ltac:(lia)) as Hmod.
  exists h, (n / (2 * h))%N, (n mod (2 * h))%N.
  split; [done|]. split; [done|]. split; [lia|]. split; [done|]. split.
  - split.
    + apply N.div_le_lower_bound; lia.
    + apply N.Div0.div_lt_upper_bound; lia.
  - unfold roundToDouble. fold s.
    rewrite (proj2 (N.leb_gt _ _) Hbits).
    rewrite !N.shiftl_mul_pow2, N.shiftr_div_pow2, !N.mul_1_l, Hp. fold h.
    rewrite (N.mul_comm (n / (2 * h))), <- N.Div0.mod_eq.
    reflexivity.
Qed.

(** A literal reads as a falsy value only when its value is 0. *)
Lemma truthy_roundToDouble n : truthy (roundToDouble n) = negb (n =? 0)%N.
Proof.
  destruct (N.leb_spec (N.size n) 53) as [Hb|Hb].
  - unfold roundToDouble. by rewrite (proj2 (N.leb_le _ _) Hb).
  - destruct (roundToDouble_long n Hb)
      as (h & q & r & _ & Hh & Hn & _ & [Hq _] & ->).
    cbn zeta. assert (0 < 2 ^ 52)%N by done.
    rewrite (proj2 (N.eqb_neq n 0)) by nia.
    destruct (_ <=? _)%N; [done|]. cbn [truthy negb].
    destruct (_ || _); apply negb_true_iff, N.eqb_neq; nia.
Qed.

(** The value is a double nearest to the integer: it is a multiple of the
    weight of the last of 53 bits, at most half that weight away. *)
Lemma roundToDouble_nearest n v :
  roundToDouble n = integer v ->
  (2 * (v - n) <= 2 ^ (N.size n - 53)
   /\ 2 * (n - v) <= 2 ^ (N.size n - 53)
   /\ v mod 2 ^ (N.size n - 53) = 0)%N.
Proof.
  destruct (N.leb_spec (N.size n) 53) as [Hb|Hb].
  - unfold roundToDouble. rewrite (proj2 (N.leb_le _ _) Hb). intros [= <-].
    replace (N.size n - 53)%N with 0%N by lia.
    rewrite N.mod_1_r. split; [|split]; [lia..|done].
  - destruct (roundToDouble_long n Hb)
      as (h & q & r & -> & Hh & Hn & Hr & _ & ->).
    cbn zeta. destruct (_ <=? _)%N; [done|]. intros [= <-].
    rewrite N.Div0.mod_mul.
    destruct (N.ltb_spec h r) as [Hlt|Hge]; cbn [orb].
    + split; [|split]; [nia..|done].
    + destruct (N.eqb_spec r h) as [->|Hne]; cbn [andb].
      * destruct (N.odd q); (split; [|split]; [nia..|done]).
      * split; [|split]; [nia..|done].
Qed.

(** The value is [Infinity] from the middle between the largest double
    and 2^1024 on. *)
Lemma roundToDouble_Infinity n :
  roundToDouble n = Infinity <-> (2 ^ 1024 - 2 ^ 970 <= n)%N.
Proof.
  set (T := (2 ^ 970)%N).
  assert (2 ^ 1024 = 2 ^ 54 * T)%N as H1024 by (by vm_compute).
  assert (2 ^ 971 = 2 * T)%N as H971 by (by vm_compute).
  assert (2 ^ 53 < T)%N as HT by (by vm_compute).
  assert (2 ^ 54 = 2 * 2 ^ 53)%N as H54 by done.
  assert (N.odd (2 ^ 53 - 1) = true) as Hodd by done.
  rewrite H1024. clearbody T.
  destruct (N.leb_spec (N.size n) 53) as [Hb|Hb].
  - unfold roundToDouble. rewrite (proj2 (N.leb_le _ _) Hb).
    pose proof (N.size_gt n) as Hgt.
    pose proof (N.pow_le_mono_r 2 _ _ ltac:(done) Hb).
    split; [done|]. nia.
  - destruct (roundToDouble_long n Hb)
      as (h & q & r & Hp & Hh & Hn & Hr & [Hq1 Hq2] & ->).
    cbn zeta. rewrite H1024.
    set (q' := if (_ || _) then (q + 1)%N else q).
    assert (q <= q' <= q + 1)%N as Hq' by (unfold q'; destruct (_ || _); lia).
    assert ((if (2 ^ 54 * T <=? q' * (2 * h))%N then Infinity
             else integer (q' * (2 * h))) = Infinity
            <-> (2 ^ 54 * T <= q' * (2 * h))%N) as ->.
    { destruct (N.leb_spec (2 ^ 54 * T) (q' * (2 * h))); split; (done || lia). }
    destruct (N.lt_trichotomy (N.size n - 53) 971) as [Hs|[Hs|Hs]].
    + assert (2 * h <= T)%N as Hle.
      { rewrite <- Hp.
        transitivity (2 ^ 970)%N; [apply N.pow_le_mono_r; [done|lia]|].
        assert (2 ^ 971 = 2 * 2 ^ 970)%N by (by vm_compute). lia. }
      assert (q' * (2 * h) <= 2 ^ 53 * T)%N by (apply N.mul_le_mono; lia).
      assert ((q + 1) * (2 * h) <= 2 ^ 53 * T)%N by (apply N.mul_le_mono; lia).
      split; lia.
    + rewrite Hs, H971 in Hp. assert (h = T) as -> by lia.
      destruct (N.eq_dec q (2 ^ 53 - 1)%N) as [Hq|Hq].
      * assert (q' = if (T <=? r)%N then (q + 1)%N else q) as ->.
        { unfold q'. rewrite Hq, Hodd, andb_true_r.
          destruct (N.ltb_spec T r), (N.eqb_spec r T), (N.leb_spec T r);
            cbn [orb]; done || lia. }
        rewrite Hq in *.
        destruct (N.leb_spec T r); split; lia.
      * assert (q' * (2 * T) <= (2 ^ 53 - 1) * (2 * T))%N
          by (apply N.mul_le_mono_r; lia).
        assert ((q + 1) * (2 * T) <= (2 ^ 53 - 1) * (2 * T))%N
          by (apply N.mul_le_mono_r; lia).
        split; lia.
    + assert (4 * T <= 2 * h)%N as Hge.
      { rewrite <- Hp.
        transitivity (2 ^ 972)%N; [|apply N.pow_le_mono_r; [done|lia]].
        replace 972%N with (N.succ 971) by done.
        rewrite N.pow_succ_r', H971. lia. }
      assert (2 ^ 52 * (4 * T) <= q * (2 * h))%N by (apply N.mul_le_mono; lia).
      assert (q * (2 * h) <= q' * (2 * h))%N by (apply N.mul_le_mono_r; lia).
      split; lia.
Qed.

(** Of two doubles equally near, the value is the one with the even
    significand. *)
Lemma roundToDouble_tie n v :
  roundToDouble n = integer v ->
  (2 * (v - n) = 2 ^ (N.size n - 53) \/ 2 * (n - v) = 2 ^ (N.size n - 53))%N ->
  N.even (v / 2 ^ (N.size n - 53)) = true.
Proof.
  destruct (N.leb_spec (N.size n) 53) as [Hb|Hb].
  - unfold roundToDouble. rewrite (proj2 (N.leb_le _ _) Hb). intros [= <-].
    replace (N.size n - 53)%N with 0%N by lia. cbn. lia.
  - destruct (roundToDouble_long n Hb)
      as (h & q & r & -> & Hh & Hn & Hr & _ & ->).
    cbn zeta. destruct (_ <=? _)%N; [done|]. intros [= <-].
    rewrite N.div_mul by lia.
    destruct (N.ltb_spec h r) as [Hlt|Hge]; cbn [orb]; [nia|].
    destruct (N.eqb_spec r h) as [->|Hne]; cbn [andb]; [|nia].
    intros _. destruct (N.odd q) eqn:Eq.
    + by rewrite N.add_1_r, N.even_succ.
    + by rewrite <- N.negb_odd, Eq.
Qed.

(** ** Blocks at any depth *)

Lemma itemBlock_listContent b c :
  itemBlock b = true -> listContent b = Some c -> forallb itemBlocks c = true.
Proof. destruct b; cbn; intros H [= <-]; done. Qed.

Lemma itemBlock_setListContent b c0 c :
  listContent b = Some c0 -> forallb itemBlocks c = true ->
  itemBlock (setListContent b c) = true.
Proof. destruct b; cbn; intros [= <-] H; done. Qed.

Lemma topBlock_list lines b c :
  listContent b = Some c -> topBlock lines b <-> itemBlock b = true.
Proof. by destruct b. Qed.

Lemma updateAt_itemBlock steps idx f bs bs' :
  (forall c, forallb itemBlocks c = true -> forallb itemBlocks (f c) = true) ->
  forallb itemBlock bs = true ->
  updateAt steps idx f bs = Some bs' ->
  forallb itemBlock bs' = true.
Proof.
  intros Hf. revert bs bs'.
  induction steps as [|[c i] steps IH]; intros bs bs' Hbs; cbn [updateAt]; intros H.
  - apply bind_Some in H as (b & Hb & H).
    apply bind_Some in H as (items & Hitems & [= <-]).
    apply forallb_insert; [done|].
    eapply itemBlock_setListContent; [done|]. apply Hf.
    eapply itemBlock_listContent; [|done]. by eapply forallb_lookup.
  - apply bind_Some in H as (b & Hb & H).
    apply bind_Some in H as (items & Hitems & H).
    apply bind_Some in H as (it & Hit & H).
    apply bind_Some in H as (content' & Hc & [= <-]).
    assert (forallb itemBlocks items = true) as Hok.
    { eapply itemBlock_listContent; [|done]. by eapply forallb_lookup. }
    apply forallb_insert; [done|].
    eapply itemBlock_setListContent; [done|].
    apply forallb_insert; [done|]. cbn [itemBlocks].
    pose proof (forallb_lookup _ _ _ _ Hok Hit) as Hi.
    destruct it as [content]. cbn [itemBlocks item_content] in *.
    by eapply IH.
Qed.

Lemma updateAt_topBlock lines steps idx f bs bs' :
  (forall c, forallb itemBlocks c = true -> forallb itemBlocks (f c) = true) ->
  Forall (topBlock lines) bs ->
  updateAt steps idx f bs = Some bs' ->
  Forall (topBlock lines) bs'.
Proof.
  intros Hf Hbs H.
  destruct steps as [|[c i] steps]; cbn [updateAt] in H.
  - apply bind_Some in H as (b & Hb & H).
    apply bind_Some in H as (items & Hitems & [= <-]).
    apply Forall_insert; [done|].
    pose proof (proj1 (Forall_lookup _ _) Hbs _ _ Hb) as Hb'.
    rewrite (topBlock_list _ _ _ Hitems) in Hb'.
    destruct b; try done; cbn in *; injection Hitems as <-; by apply Hf.
  - apply bind_Some in H as (b & Hb & H).
    apply bind_Some in H as (items & Hitems & H).
    apply bind_Some in H as (it & Hit & H).
    apply bind_Some in H as (content' & Hc & [= <-]).
    apply Forall_insert; [done|].
    pose proof (proj1 (Forall_lookup _ _) Hbs _ _ Hb) as Hb'.
    rewrite (topBlock_list _ _ _ Hitems) in Hb'.
    pose proof (itemBlock_listContent _ _ Hb' Hitems) as Hok.
    pose proof (forallb_lookup _ _ _ _ Hok Hit) as Hi.
    destruct it as [content]. cbn [itemBlocks item_content] in *.
    pose proof (updateAt_itemBlock _ _ _ _ _ Hf Hi Hc) as Hc'.
    assert (forallb itemBlocks (<[i := ListItem content']> items) = true) as Hnew
      by (by apply forallb_insert).
    destruct b; try done; cbn in *; injection Hitems as <-; done.
Qed.

Lemma pushItem_itemBlocks text c :
  forallb itemBlocks c = true ->
  forallb itemBlocks (c ++ [ListItem [Paragraph (buildParagraph text)]]) = true.
Proof. intros H. by rewrite forallb_snoc, H. Qed.

Lemma nestInLastItem_itemBlocks type start c :
  forallb itemBlocks c = true ->
  forallb itemBlocks (nestInLastItem (createListNode type start) c) = true.
Proof.
  intros Hc. unfold nestInLastItem.
  assert (itemBlock (createListNode type start) = true) as Hn by (by destruct type).
  destruct (getLastListItem c) as [[content]|] eqn:E.
  - apply forallb_insert; [done|]. cbn [itemBlocks item_content].
    apply last_lookup_length in E.
    pose proof (forallb_lookup _ _ _ _ Hc E) as Hit. cbn [itemBlocks] in Hit.
    by rewrite forallb_snoc, Hit, Hn.
  - rewrite forallb_snoc, Hc. cbn [itemBlocks forallb itemBlock]. by rewrite Hn.
Qed.

Lemma continueLastItem_itemBlocks line c :
  forallb itemBlocks c = true ->
  forallb itemBlocks (continueLastItem line c) = true.
Proof.
  intros Hc. unfold continueLastItem.
  set (c1 := match getLastListItem c with Some _ => c | None => _ end).
  assert (forallb itemBlocks c1 = true) as Hc1.
  { subst c1. destruct (getLastListItem c); [done|]. by rewrite forallb_snoc, Hc. }
  clearbody c1.
  destruct (getLastListItem c1) as [[content]|] eqn:E; [|done].
  apply last_lookup_length in E.
  pose proof (forallb_lookup _ _ _ _ Hc1 E) as Hit. cbn [itemBlocks] in Hit.
  destruct content as [|[p| | | | | |] rest];
    (apply forallb_insert; [done|]); cbn [itemBlocks forallb itemBlock andb] in *;
    done.
Qed.
Lemma ensureListContext_blocks type indent start st e st' :
  ensureListContext type indent start st = Some (e, st') ->
  blocks st' = blocks st
  \/ blocks st' = blocks st ++ [createListNode type start]
  \/ exists r, updateContent r (nestInLastItem (createListNode type start))
                 (blocks st) = Some (blocks st').
Proof.
  intros H.
  assert (forall parent stack2,
            match parent with
            | None =>
                Some ({| entry_type := type; entry_indent := indent;
                         entry_node := {| ref_steps := [];
                                          ref_index := length (blocks st) |} |},
                      {| blocks := blocks st ++ [createListNode type start];
                         paragraphLines := paragraphLines st;
                         listStack :=
                           {| entry_type := type; entry_indent := indent;
                              entry_node := {| ref_steps := [];
                                               ref_index := length (blocks st) |} |}
                           :: stack2 |})
            | Some p =>
                content ← readContent (entry_node p) (blocks st);
                blocks' ← updateContent (entry_node p)
                            (nestInLastItem (createListNode type start))
                            (blocks st);
                Some ({| entry_type := type; entry_indent := indent;
                         entry_node := nestedRef (entry_node p) content |},
                      {| blocks := blocks';
                         paragraphLines := paragraphLines st;
                         listStack :=
                           {| entry_type := type; entry_indent := indent;
                              entry_node := nestedRef (entry_node p) content |}
                           :: stack2 |})
            end = Some (e, st') ->
            blocks st' = blocks st ++ [createListNode type start]
            \/ exists r, updateContent r
                           (nestInLastItem (createListNode type start))
                           (blocks st) = Some (blocks st')) as Hmk.
  { intros [p|] stack2 Hr.
    - apply bind_Some in Hr as (content & _ & Hr).
      apply bind_Some in Hr as (bs' & Hup & [= <- <-]). cbn [blocks].
      right. by exists (entry_node p).
    - injection Hr as <- <-. by left. }
  unfold ensureListContext in H.
  set (stack1 := dropWhile _ _) in H. clearbody stack1.
  destruct stack1 as [|c stack1]; cbn [head] in H.
  - right. by apply (Hmk None []).
  - destruct (_ && _).
    + injection H as <- <-. by left.
    + right. destruct (entry_indent c <? indent).
      * by apply (Hmk (Some c) (c :: stack1)).
      * destruct (entry_indent c =? indent).
        -- by apply (Hmk (head stack1) stack1).
        -- by apply (Hmk None (c :: stack1)).
Qed.

Lemma flushParagraph_topBlock lines st :
  Forall (topBlock lines) (blocks st) ->
  Forall (topBlock lines) (blocks (flushParagraph st)).
Proof.
  intros H. unfold flushParagraph. destruct (paragraphLines st); [done|].
  cbn [blocks]. destruct (trim _); [done|].
  apply Forall_app. split; [done|]. by constructor.
Qed.

Lemma loopStep_topBlock lines i st i' st' :
  Forall (topBlock lines) (blocks st) ->
  loopStep lines i st = Some (i', st') ->
  Forall (topBlock lines) (blocks st').
Proof.
  intros Hst H. unfold loopStep, loopBody in H.
  apply bind_Some in H as (rawLine & Hraw & H).
  pose proof (flushParagraph_topBlock lines st Hst) as Hfl.
  assert (forall b, topBlock lines b ->
            Forall (topBlock lines) (blocks (flushParagraph st) ++ [b])) as Hpush.
  { intros b Hb. apply Forall_app. split; [done|]. by constructor. }
  assert (forall type indent start text e st2 st3,
            ensureListContext type indent start (flushParagraph st)
            = Some (e, st2) ->
            pushListItem e text st2 = Some st3 ->
            Forall (topBlock lines) (blocks st3)) as Hitem.
  { intros type indent start text e st2 st3 He Hp.
    unfold pushListItem in Hp. apply bind_Some in Hp as (bs' & Hup & [= <-]).
    cbn [blocks setBlocks].
    eapply updateAt_topBlock; [apply pushItem_itemBlocks| |exact Hup].
    destruct (ensureListContext_blocks _ _ _ _ _ _ He) as [->|[->|[r Hr]]].
    - done.
    - apply Hpush. by destruct type.
    - eapply updateAt_topBlock; [apply nestInLastItem_itemBlocks|exact Hfl|exact Hr]. }
  destruct (trim (trimEnd rawLine)) as [|t0 trimmed'] eqn:Etrim.
  { by injection H as <- <-. }
  destruct (codeFenceStart _) as [language|].
  { injection H as <- <-. cbn [blocks pushBlock flushListStack setListStack].
    by apply Hpush. }
  destruct (tableStartsAt _ _ _).
  { injection H as <- <-. cbn [blocks pushBlock flushListStack setListStack].
    by apply Hpush. }
  destruct (isQuoteLine _) eqn:Eq.
  { apply bind_Some in H as (qc & [= <-] & [= <- <-]).
    cbn [blocks pushBlock flushListStack setListStack].
    apply Hpush. by exists i, rawLine. }
  destruct (headingMatch _) as [[hashes text]|].
  { injection H as <- <-. cbn [blocks pushBlock flushListStack setListStack].
    by apply Hpush. }
  destruct (bulletMatch _) as [[spaces text]|].
  { apply bind_Some in H as ([e st2] & He & H).
    apply bind_Some in H as (st3 & Hp & [= <- <-]). by eapply Hitem. }
  destruct (orderedMatch _) as [[[spaces digits] text]|].
  { apply bind_Some in H as ([e st2] & He & H).
    apply bind_Some in H as (st3 & Hp & [= <- <-]). by eapply Hitem. }
  destruct (listStack st) as [|top stack]; [by injection H as <- <-|].
  destruct (_ <? _); [|by injection H as <- <-].
  apply bind_Some in H as (st1 & Happ & [= <- <-]).
  unfold appendContinuationToListItem in Happ.
  apply bind_Some in Happ as (bs' & Hup & [= <-]). cbn [blocks setBlocks].
  eapply updateAt_topBlock; [apply continueLastItem_itemBlocks|exact Hst|exact Hup].
Qed.

Lemma reaches_topBlock lines i st :
  reaches lines i st -> Forall (topBlock lines) (blocks st).
Proof.
  induction 1 as [|i st i' st' _ IH Hstep]; [constructor|].
  by eapply loopStep_topBlock.
Qed.

(** The blocks that the parser returns for a text are blocks of the top
    level for the lines of the text. *)
Lemma parseMarkdownBlocks_topBlock text :
  Forall (topBlock (split LF (replaceCRLF text))) (parseMarkdownBlocks text).
Proof.
  destruct (parseMarkdownBlocks_reaches text) as (i & st & Hreach & _ & ->).
  pose proof (flushParagraph_topBlock _ _ (reaches_topBlock _ _ _ Hreach)) as H.
  unfold finish. cbn [blocks flushListStack setListStack].
  destruct (blocks (flushParagraph st)); [by repeat constructor|done].
Qed.

Lemma parsedFor_trans text t t' :
  parsedFor text t -> parsedFor t t' -> parsedFor text t'.
Proof.
  intros Ht. induction 1 as [|t1 i rawLine _ IH Hraw Hq]; [done|].
  by eapply parsed_quote.
Qed.

(** Inside a list item a block at any depth is the node of a
    reference. *)
Lemma occursIn_item b bs :
  occursIn b bs -> forallb itemBlock bs = true ->
  exists steps idx, derefAt steps idx bs = Some b.
Proof.
  induction 1 as [bs Hin|bs l items it Hl Hitems Hit _ IH|bs c Hc _ _];
    intros Hbs.
  - apply list_elem_of_In, list_elem_of_lookup in Hin as [idx Hidx].
    by exists [], idx.
  - apply list_elem_of_In, list_elem_of_lookup in Hl as [k Hk].
    apply list_elem_of_In, list_elem_of_lookup in Hit as [i Hi].
    pose proof (forallb_lookup _ _ _ _ Hbs Hk) as Hl'.
    pose proof (itemBlock_listContent _ _ Hl' Hitems) as Hok.
    pose proof (forallb_lookup _ _ _ _ Hok Hi) as Hit'.
    destruct it as [content]. cbn [itemBlocks item_content] in *.
    destruct (IH Hit') as (steps & idx & Hd).
    exists ((k, i) :: steps), idx. cbn [derefAt].
    rewrite Hk. cbn [mbind option_bind]. rewrite Hitems. cbn [mbind option_bind].
    by rewrite Hi.
  - apply list_elem_of_In, list_elem_of_lookup in Hc as [k Hk].
    by pose proof (forallb_lookup _ _ _ _ Hbs Hk).
Qed.

(** Every block at any depth of the result of the parser is the node of a
    reference in the result for the text or for the text of a quote. *)
Lemma occursIn_parsed b bs :
  occursIn b bs ->
  forall text, bs = parseMarkdownBlocks text ->
  exists text' r,
    parsedFor text text' /\ deref r (parseMarkdownBlocks text') = Some b.
Proof.
  induction 1 as [bs Hin|bs l items it Hl Hitems Hit Hocc _|bs c Hc _ IH];
    intros text ->.
  - apply list_elem_of_In, list_elem_of_lookup in Hin as [idx Hidx].
    exists text, {| ref_steps := []; ref_index := idx |}.
    split; [constructor|done].
  - apply list_elem_of_In, list_elem_of_lookup in Hl as [k Hk].
    apply list_elem_of_In, list_elem_of_lookup in Hit as [i Hi].
    pose proof (proj1 (Forall_lookup _ _) (parseMarkdownBlocks_topBlock text)
                  _ _ Hk) as Hl'.
    rewrite (topBlock_list _ _ _ Hitems) in Hl'.
    pose proof (itemBlock_listContent _ _ Hl' Hitems) as Hok.
    pose proof (forallb_lookup _ _ _ _ Hok Hi) as Hit'.
    destruct it as [content]. cbn [itemBlocks item_content] in *.
    destruct (occursIn_item _ _ Hocc Hit') as (steps & idx & Hd).
    exists text, {| ref_steps := (k, i) :: steps; ref_index := idx |}.
    split; [constructor|]. unfold deref. cbn [ref_steps ref_index derefAt].
    rewrite Hk. cbn [mbind option_bind]. rewrite Hitems. cbn [mbind option_bind].
    by rewrite Hi.
  - apply list_elem_of_In, list_elem_of_lookup in Hc as [k Hk].
    pose proof (proj1 (Forall_lookup _ _) (parseMarkdownBlocks_topBlock text)
                  _ _ Hk) as (i & rawLine & Hraw & Hq & ->).
    destruct (IH _ eq_refl) as (text' & r & Hp & Hd).
    exists text', r. split; [|done].
    eapply parsedFor_trans; [|exact Hp].
    eapply parsed_quote; [constructor|exact Hraw|exact Hq].
Qed.

(** Every ordered list of the result of the parser has been created by an
    ordered item line of the text, with the [order] that it has in the
    result. *)
Lemma parseMarkdownBlocks_created text r o c :
  deref r (parseMarkdownBlocks text) = Some (OrderedList o c) ->
  let lines := split LF (replaceCRLF text) in
  exists j st st' rawLine spaces digits itemText,
    reaches lines j st
    /\ loopStep lines j st = Some (j + 1, st')
    /\ lines !! j = Some rawLine
    /\ orderedMatch (trimEnd rawLine) = Some (spaces, digits, itemText)
    /\ deref r (blocks st) = None
    /\ deref r (blocks st')
       = Some (OrderedList o [ListItem [Paragraph (buildParagraph itemText)]])
    /\ o = (if truthy (Number digits) then Some (Number digits) else None).
Proof.
  intros Hr. cbn zeta.
  destruct (parseMarkdownBlocks_reaches text) as (i & st & Hreach & _ & Hfin).
  rewrite Hfin in Hr. unfold finish in Hr.
  cbn [blocks flushListStack setListStack] in Hr.
  assert (deref r (blocks st) = Some (OrderedList o c)) as Hst.
  { destruct (blocks (flushParagraph st)) as [|b0 bs] eqn:E.
    - unfold deref in Hr. destruct (ref_steps r) as [|[k i0] steps];
        cbn [derefAt] in Hr.
      + by destruct (ref_index r) as [|n].
      + by destruct k as [|k].
    - rewrite <- E in Hr. by eapply deref_flush_inv. }
  destruct (reaches_created _ _ _ _ _ _ Hreach Hst)
    as (j & stj & stj' & rawLine & spaces & digits & itemText & _ & Hrest).
  by exists j, stj, stj', rawLine, spaces, digits, itemText.
Qed.

(** * The claims of the specification *)

(** C1 - Totality.  For every input string the converter returns a
    document and has no error outcome: the loop of the inline tokenizer
    and the loop of the block parser (with its recursive calls for
    blockquotes and its capture loops) return within [length text] and
    [length text + 1] units of fuel, and with any larger amount of fuel
    they return the same value.  Each loop makes strict progress: an
    iteration of the tokenizer leaves strictly less of [remaining], an
    iteration of the block loop (with the capture loops of the code fence,
    the table and the blockquote inside it) moves the line cursor forward,
    and the text that a blockquote hands to the recursive call is
    strictly shorter than the input that is left.  An unterminated code
    fence takes the rest of the input and still gives a code block. *)
Theorem converter_total (text : jsstring) (extra : nat) :
  parseMarkdownInline_fuel (length text + extra) text
    = Some (parseMarkdownInline text)
  /\ parseMarkdownBlocks_fuel (length text + 1 + extra) text
    = Some (parseMarkdownBlocks text)
  /\ createTextADF text
    = {| version := 1; doc_content := parseMarkdownBlocks text |}
  /\ (forall c s,
        match inlineStep (c :: s) with
        | (_, Some rest) => length rest < length (c :: s)
        | (_, None) => True
        end)
  /\ (forall rec lines i st,
        match loopBody rec lines i st with
        | Some (i', _) => i < i'
        | None => True
        end)
  /\ (forall lines i,
        let run := takeWhile isQuoteLine (drop i lines) in
        run = []
        \/ length (join [LF] (map stripQuote run)) + 2 <= inputLeft lines i)
  /\ parseMarkdownBlocks (str "```js" ++ [LF] ++ str "a" ++ [LF] ++ [LF] ++ str "*b")
    = [CodeBlock (Some (str "js"))
         [TextNode (str "a" ++ [LF] ++ [LF] ++ str "*b") None]].
Proof.
  split; [|split; [|split; [|split; [|split; [|split]]]]].
  - eapply inlineLoop_mono; [|apply parseMarkdownInline_fuel_Some]. lia.
  - apply parseMarkdownBlocks_fuel_ge. lia.
  - reflexivity.
  - intros c s. destruct (inlineStep (c :: s)) as [n [rest|]] eqn:E; [|done].
    by apply inlineStep_progress in E as [_ ?].
  - intros rec lines i st.
    destruct (loopBody rec lines i st) as [[i' st']|] eqn:E; [|done].
    by eapply loopBody_progress.
  - apply quoteRun_shorter.
  - vm_compute. reflexivity.
Qed.

(** C2 - The block parser never returns zero blocks; for the empty string
    it returns exactly one paragraph holding one text node with an empty
    text and no marks. *)
Theorem blocks_never_empty (text : jsstring) :
  parseMarkdownBlocks text <> []
  /\ doc_content (createTextADF text) <> []
  /\ parseMarkdownBlocks [] = [Paragraph (ParagraphNode [TextNode [] None])].
Proof.
  assert (parseMarkdownBlocks text <> []) as H.
  { pose proof (parseMarkdownBlocks_fuel_Some text) as H.
    unfold parseMarkdownBlocks_fuel in H. by eapply blocksLoop_nonempty. }
  split; [done|]. split; [done|]. reflexivity.
Qed.



(** C4 - A blank line flushes the pending paragraph buffer into a
    paragraph block (when the buffer holds text) and empties the whole
    list stack, whatever its height; a list item after it finds no open
    list, so it starts a new list block at the top level: two items of the
    same indent with a blank line between them give two lists, where
    without the blank line they give one. *)
Theorem blank_line_closes_all_lists
    (rec : jsstring -> option (list JiraADFBlockNode))
    (lines : list jsstring) (i : nat) (st : State) (rawLine : jsstring) :
  lines !! i = Some rawLine ->
  trim rawLine = [] ->
  exists st',
    loopBody rec lines i st = Some (i + 1, st')
    /\ paragraphLines st' = []
    /\ listStack st' = []
    /\ blocks st'
       = match paragraphLines st with
         | [] => blocks st
         | _ :: _ =>
             match trim (join (str " ") (paragraphLines st)) with
             | [] => blocks st
             | (_ :: _) as content =>
                 blocks st ++ [Paragraph (buildParagraph content)]
             end
         end
    /\ (forall type indent start,
          let e := {| entry_type := type; entry_indent := indent;
                      entry_node := {| ref_steps := [];
                                       ref_index := length (blocks st') |} |} in
          ensureListContext type indent start st'
          = Some (e, {| blocks := blocks st' ++ [createListNode type start];
                        paragraphLines := [];
                        listStack := [e] |}))
    /\ parseMarkdownBlocks (str "- a" ++ [LF] ++ [LF] ++ str "- b")
       = [BulletList [ListItem [Paragraph (ParagraphNode [TextNode (str "a") None])]];
          BulletList [ListItem [Paragraph (ParagraphNode [TextNode (str "b") None])]]]
    /\ parseMarkdownBlocks (str "- a" ++ [LF] ++ str "- b")
       = [BulletList [ListItem [Paragraph (ParagraphNode [TextNode (str "a") None])];
                      ListItem [Paragraph (ParagraphNode [TextNode (str "b") None])]]].
Proof.
  intros Hraw Hblank. exists (flushListStack (flushParagraph st)).
  split; [by eapply loopBody_blank|].
  assert (paragraphLines (flushListStack (flushParagraph st)) = []) as Hpl.
  { unfold flushParagraph. destruct (paragraphLines st) eqn:E; [|done].
    cbn [flushListStack setListStack paragraphLines]. done. }
  split; [done|]. split; [done|]. split.
  { unfold flushParagraph. destruct (paragraphLines st) as [|l ls] eqn:E; [done|].
    cbn [flushListStack setListStack blocks].
    by destruct (trim (join (str " ") (l :: ls))). }
  split.
  { intros type indent start. unfold ensureListContext.
    cbn [flushListStack setListStack listStack dropWhile head]. cbn zeta.
    cbn [blocks paragraphLines listStack] in *. by rewrite Hpl. }
  split; vm_compute; reflexivity.
Qed.

Lemma blank_line_closes_all_lists_witness :
  exists st',
    loopBody (fun _ => None) [str "- a"; []; str "- b"] 1
      {| blocks := [BulletList [ListItem [Paragraph (buildParagraph (str "a"))]]];
         paragraphLines := [];
         listStack := [{| entry_type := bullet; entry_indent := 0;
                          entry_node := {| ref_steps := []; ref_index := 0 |} |}] |}
    = Some (2, st')
    /\ listStack st' = [].
Proof.
  destruct (blank_line_closes_all_lists (fun _ => None)
              [str "- a"; []; str "- b"] 1
              {| blocks := [BulletList [ListItem [Paragraph (buildParagraph (str "a"))]]];
                 paragraphLines := [];
                 listStack := [{| entry_type := bullet; entry_indent := 0;
                                  entry_node := {| ref_steps := []; ref_index := 0 |} |}] |}
              [] eq_refl eq_refl) as (st' & H1 & _ & H3 & _).
  exists st'. split; [exact H1|exact H3].
Defined.

(** C5 (amended) - The [order] attribute of an ordered list is the
    Number value of the number written on the ordered item line that
    created the list, when that number is not 0, and is absent otherwise.
    [Number] yields a double: the number itself up to 2^53, above it the
    nearest double (of two equally near the one with the even
    significand), and [Infinity] from 2^1024 - 2^970 on.

    For every ordered list that a reference reaches in the blocks that
    the parser returns, there is an iteration of the loop, at an ordered
    item line, before which there is no node at the place of the list and
    after which the list is there, with the item of that line as its one
    item and with the [order] that it has in the result.  Later items
    join the list without a change of its [order]
    ([loopBody_ordered_item], [loopBody_keeps]).  The value of the digits
    is the number that the Standard Library reads from them.

    Every ordered list at any depth of the result, inside list items and
    blockquotes, is reached by a reference in the result of the parser
    for the text or for the text of a run of quote lines, so the same
    holds of it: its [order] is that of an ordered item line of that text.

    In particular ["5. x\n6. y"] gives one ordered list with [order] 5
    and the two items [x] and [y]. *)
Theorem ordered_list_start (text : jsstring) :
  (forall (r : NodeRef) (o : option number) (c : list JiraADFListItemNode),
     deref r (parseMarkdownBlocks text) = Some (OrderedList o c) ->
     let lines := split LF (replaceCRLF text) in
     exists j st st' rawLine spaces digits itemText,
       reaches lines j st
       /\ loopStep lines j st = Some (j + 1, st')
       /\ lines !! j = Some rawLine
       /\ orderedMatch (trimEnd rawLine) = Some (spaces, digits, itemText)
       /\ deref r (blocks st) = None
       /\ deref r (blocks st')
          = Some (OrderedList o [ListItem [Paragraph (buildParagraph itemText)]])
       /\ o = (if truthy (Number digits) then Some (Number digits) else None)
       /\ (o = None <-> decimalValue digits = 0%N)
       /\ ((0 < decimalValue digits <= 2 ^ 53)%N ->
           o = Some (integer (decimalValue digits)))
       /\ (Number digits = Infinity
           <-> (2 ^ 1024 - 2 ^ 970 <= decimalValue digits)%N)
       /\ (forall v,
             Number digits = integer v ->
             let n := decimalValue digits in
             let ulp := (2 ^ (N.size n - 53))%N in
             (2 * (v - n) <= ulp)%N /\ (2 * (n - v) <= ulp)%N
             /\ (v mod ulp = 0)%N
             /\ ((2 * (v - n) = ulp \/ 2 * (n - v) = ulp)%N ->
                 N.even (v / ulp) = true)))
  /\ (forall d : Decimal.uint,
        decimalValue (str (NilEmpty.string_of_uint d)) = N.of_uint d)
  /\ (forall o c,
        occursIn (OrderedList o c) (parseMarkdownBlocks text) ->
        exists text' r,
          parsedFor text text'
          /\ deref r (parseMarkdownBlocks text') = Some (OrderedList o c)
          /\ exists j rawLine spaces digits itemText,
               split LF (replaceCRLF text') !! j = Some rawLine
               /\ orderedMatch (trimEnd rawLine)
                  = Some (spaces, digits, itemText)
               /\ o = (if truthy (Number digits) then Some (Number digits)
                       else None))
  /\ parseMarkdownBlocks (str "5. x" ++ [LF] ++ str "6. y")
     = [OrderedList (Some (integer 5))
          [ListItem [Paragraph (ParagraphNode [TextNode (str "x") None])];
           ListItem [Paragraph (ParagraphNode [TextNode (str "y") None])]]]
  /\ parseMarkdownBlocks (str "0. x")
     = [OrderedList None
          [ListItem [Paragraph (ParagraphNode [TextNode (str "x") None])]]].
Proof.
  split; [|split; [exact decimalValue_of_uint|
                   split; [|split; vm_compute; reflexivity]]].
  - intros r o c Hr.
    destruct (parseMarkdownBlocks_created _ _ _ _ Hr)
      as (j & stj & stj' & rawLine & spaces & digits & itemText & H1 & H2
          & H3 & H4 & H5 & H6 & Ho).
    exists j, stj, stj', rawLine, spaces, digits, itemText.
    do 7 (split; [assumption|]).
    pose proof (truthy_roundToDouble (decimalValue digits)) as Ht.
    fold (Number digits) in Ht.
    split; [|split; [|split]].
    + rewrite Ho, Ht.
      destruct (N.eqb_spec (decimalValue digits) 0); cbn [negb]; split; done.
    + intros [Hpos Hle]. rewrite Ho, Ht.
      rewrite (proj2 (N.eqb_neq _ _)) by lia. cbn [negb].
      unfold Number. by rewrite roundToDouble_exact.
    + apply roundToDouble_Infinity.
    + intros v Hv. cbn zeta.
      destruct (roundToDouble_nearest _ _ Hv) as (Hup & Hdown & Hmod).
      do 3 (split; [assumption|]). by apply roundToDouble_tie.
  - intros o c Hocc.
    destruct (occursIn_parsed _ _ Hocc text eq_refl) as (text' & r & Hp & Hd).
    exists text', r. split; [done|]. split; [done|].
    destruct (parseMarkdownBlocks_created _ _ _ _ Hd)
      as (j & _ & _ & rawLine & spaces & digits & itemText & _ & _ & H3 & H4
          & _ & _ & Ho).
    by exists j, rawLine, spaces, digits, itemText.
Qed.

Lemma ordered_list_start_witness :
  (exists j st st' rawLine spaces digits itemText,
     reaches [str "5. x"; str "6. y"] j st
     /\ loopStep [str "5. x"; str "6. y"] j st = Some (j + 1, st')
     /\ [str "5. x"; str "6. y"] !! j = Some rawLine
     /\ orderedMatch (trimEnd rawLine) = Some (spaces, digits, itemText)
     /\ deref {| ref_steps := []; ref_index := 0 |} (blocks st) = None
     /\ deref {| ref_steps := []; ref_index := 0 |} (blocks st')
        = Some (OrderedList (Some (integer 5))
                  [ListItem [Paragraph (buildParagraph itemText)]])
     /\ Some (integer 5)
        = (if truthy (Number digits) then Some (Number digits) else None)
     /\ ((0 < decimalValue digits <= 2 ^ 53)%N ->
         Some (integer 5) = Some (integer (decimalValue digits))))
  /\ (exists text' r,
        parsedFor (str "- a" ++ [LF] ++ str "> 7. b") text'
        /\ deref r (parseMarkdownBlocks text')
           = Some (OrderedList (Some (integer 7))
                     [ListItem [Paragraph (buildParagraph (str "b"))]])).
Proof.
  split.
  - destruct (proj1 (ordered_list_start (str "5. x" ++ [LF] ++ str "6. y"))
                {| ref_steps := []; ref_index := 0 |} (Some (integer 5))
                [ListItem [Paragraph (buildParagraph (str "x"))];
                 ListItem [Paragraph (buildParagraph (str "y"))]]
                eq_refl)
      as (j & st & st' & rawLine & spaces & digits & itemText & H1 & H2 & H3
          & H4 & H5 & H6 & H7 & _ & H9 & _).
    exists j, st, st', rawLine, spaces, digits, itemText.
    repeat (split; [assumption|]). exact H9.
  - destruct (proj1 (proj2 (proj2 (ordered_list_start
                                     (str "- a" ++ [LF] ++ str "> 7. b"))))
                (Some (integer 7))
                [ListItem [Paragraph (buildParagraph (str "b"))]])
      as (text' & r & Hp & Hd & _).
    + apply (occurs_in_quote _ _
               [OrderedList (Some (integer 7))
                  [ListItem [Paragraph (buildParagraph (str "b"))]]]).
      * right. left. vm_compute. reflexivity.
      * apply occurs_here. left. reflexivity.
    + exists text', r. split; [exact Hp|exact Hd].
Defined.

(** C5 as stated fails above 2^53, where not every integer is a double:
    the [order] of the list is the nearest double and not the number
    written on the line; a number of 310 digits gives [Infinity]. *)
Lemma large_literal_is_rounded :
  orderedMatch (str "9007199254740993. x")
  = Some ([], str "9007199254740993", str "x")
  /\ decimalValue (str "9007199254740993") = 9007199254740993%N
  /\ parseMarkdownBlocks (str "9007199254740993. x")
     = [OrderedList (Some (integer 9007199254740992))
          [ListItem [Paragraph (ParagraphNode [TextNode (str "x") None])]]]
  /\ integer 9007199254740992 <> integer 9007199254740993
  /\ parseMarkdownBlocks (str "1" ++ repeat 48%N 309 ++ str ". x")
     = [OrderedList (Some Infinity)
          [ListItem [Paragraph (ParagraphNode [TextNode (str "x") None])]]].
Proof.
  split; [vm_compute; reflexivity|]. split; [vm_compute; reflexivity|].
  split; [vm_compute; reflexivity|]. split; [discriminate|].
  vm_compute; reflexivity.
Qed.

(** C6 - A bullet item whose indent exceeds the indent of the innermost
    open list (the top entry of the list stack) opens a new bullet list
    that is pushed as the last child of the last item of that list, and
    the item becomes the one item of the new list.  In particular
    ["- a\n  - b"] gives one bullet list with one item that holds the
    paragraph [a] followed by a bullet list with one item holding the
    paragraph [b]. *)
Theorem nested_bullet_item
    (rec : jsstring -> option (list JiraADFBlockNode))
    (lines : list jsstring) (i : nat) (st : State)
    (rawLine spaces text : jsstring) (top : ListEntry)
    (stack : list ListEntry) (items : list JiraADFListItemNode)
    (lastItem : JiraADFListItemNode) :
  stateOk st ->
  lines !! i = Some rawLine ->
  bulletMatch (trimEnd rawLine) = Some (spaces, text) ->
  tableStartsAt lines i (trim rawLine) = false ->
  listStack st = top :: stack ->
  entry_indent top < getLineIndent spaces ->
  readContent (entry_node top) (blocks (flushParagraph st))
    = Some (items ++ [lastItem]) ->
  let nested := BulletList [ListItem [Paragraph (buildParagraph text)]] in
  (exists e st',
     loopBody rec lines i st = Some (i + 1, st')
     /\ stateOk st'
     /\ listStack st' = e :: top :: stack
     /\ entry_type e = bullet
     /\ entry_indent e = getLineIndent spaces
     /\ deref (entry_node e) (blocks st') = Some nested
     /\ readContent (entry_node top) (blocks st')
        = Some (items ++ [ListItem (item_content lastItem ++ [nested])]))
  /\ parseMarkdownBlocks (str "- a" ++ [LF] ++ str "  - b")
     = [BulletList
          [ListItem
             [Paragraph (ParagraphNode [TextNode (str "a") None]);
              BulletList
                [ListItem [Paragraph (ParagraphNode [TextNode (str "b") None])]]]]].
Proof.
  intros Hst Hraw Hb Htable Hstack Hlt Hread. cbn zeta.
  split; [|vm_compute; reflexivity].
  rewrite (loopBody_bullet _ _ _ _ _ _ _ Hraw Hb Htable).
  pose proof (stateOk_flushParagraph _ Hst) as Hst0.
  assert (listStack (flushParagraph st) = top :: stack) as Hstack0
    by by rewrite listStack_flushParagraph.
  destruct (ensureListContext_deeper bullet (getLineIndent spaces) None
              _ top stack Hst0 Hstack0 Hlt)
    as (content & bs1 & Hread' & Hens & Hok1 & Hnew & Hparent).
  cbn zeta in *.
  assert (content = items ++ [lastItem]) as -> by congruence.
  rewrite Hens. obind.
  rewrite nestInLastItem_snoc in Hparent.
  rewrite nestedRef_snoc in *.
  unfold readContent in Hparent.
  apply bind_Some in Hparent as (b1 & Hb1 & Hc1).
  destruct (updateAt_child (ref_steps (entry_node top)) (ref_index (entry_node top))
              (length items) (length (item_content lastItem))
              (fun c => c ++ [ListItem [Paragraph (buildParagraph text)]])
              bs1 b1 _ _ (BulletList []) [] Hb1 Hc1
              (list_lookup_middle _ _ _ _ eq_refl)
              (list_lookup_middle _ _ _ _ eq_refl) eq_refl)
    as (bs2 & Hup & Hde).
  unfold pushListItem, updateContent. cbn [entry_node ref_steps ref_index blocks].
  rewrite Hup. obind.
  eexists _, _. split; [done|].
  assert (stateOk
            (setBlocks bs2
               {| blocks := bs1;
                  paragraphLines := paragraphLines (flushParagraph st);
                  listStack :=
                    {| entry_type := bullet;
                       entry_indent := getLineIndent spaces;
                       entry_node :=
                         {| ref_steps := ref_steps (entry_node top)
                                         ++ [(ref_index (entry_node top), length items)];
                            ref_index := length (item_content lastItem) |} |}
                    :: top :: stack |})) as Hok2.
  { destruct (pushListItem_ok _ text _ _ Hok1 eq_refl) as (st3 & Hpush & Hok3 & _).
    unfold pushListItem, updateContent in Hpush.
    cbn [entry_node ref_steps ref_index blocks] in Hpush.
    rewrite Hup in Hpush. by injection Hpush as <-. }
  split; [exact Hok2|]. cbn [setBlocks listStack blocks entry_type entry_indent entry_node].
  repeat split.
  - unfold deref. cbn [ref_steps ref_index entry_node].
    rewrite derefAt_snoc, Hde. obind.
    erewrite listContent_setListContent by done. obind.
    rewrite insert_at_length, list_lookup_middle by done. obind.
    cbn [item_content]. rewrite insert_at_length.
    by rewrite list_lookup_middle by done.
  - unfold readContent, deref. rewrite Hde. obind.
    erewrite listContent_setListContent by done.
    rewrite insert_at_length. cbn [item_content].
    by rewrite insert_at_length.
Qed.

Lemma nested_bullet_item_witness :
  exists e st',
    loopBody (fun _ => None) [str "- a"; str "  - b"] 1
      {| blocks := [BulletList [ListItem [Paragraph (buildParagraph (str "a"))]]];
         paragraphLines := [];
         listStack := [{| entry_type := bullet; entry_indent := 0;
                          entry_node := {| ref_steps := []; ref_index := 0 |} |}] |}
    = Some (2, st')
    /\ deref (entry_node e) (blocks st')
       = Some (BulletList [ListItem [Paragraph (buildParagraph (str "b"))]])
    /\ readContent {| ref_steps := []; ref_index := 0 |} (blocks st')
       = Some [ListItem [Paragraph (buildParagraph (str "a"));
                         BulletList [ListItem [Paragraph (buildParagraph (str "b"))]]]].
Proof.
  assert (stateOk
    {| blocks := [BulletList [ListItem [Paragraph (buildParagraph (str "a"))]]];
       paragraphLines := [];
       listStack := [{| entry_type := bullet; entry_indent := 0;
                        entry_node := {| ref_steps := []; ref_index := 0 |} |}] |})
    as Hok.
  { split; repeat constructor. by eexists _, None. }
  destruct (nested_bullet_item (fun _ => None) [str "- a"; str "  - b"] 1 _
              (str "  - b") (str "  ") (str "b") _ [] []
              (ListItem [Paragraph (buildParagraph (str "a"))])
              Hok eq_refl eq_refl eq_refl eq_refl
              ltac:(vm_compute; lia) eq_refl)
    as [(e & st' & H1 & _ & _ & _ & _ & H6 & H7) _].
  exists e, st'. split; [exact H1|]. split; [exact H6|exact H7].
Defined.

(** C7 (amended) - When the line cursor is at a line that starts with
    optional white space and [>], and the table rule does not take that
    line as a header row, the run of such lines from the cursor up to the
    first line that is not of this form gives exactly one blockquote block:
    its content is the result of the block parser on the lines of the run
    with the [>] prefix and one following unit of white space removed,
    joined by newlines; the cursor moves past the run.  In particular
    ["> line1\n> line2"] gives one blockquote that holds the blocks of
    ["line1\nline2"], one paragraph with the two lines joined by a
    space. *)
Theorem blockquote_run (lines : list jsstring) (i : nat) (st : State)
    (rawLine : jsstring) :
  lines !! i = Some rawLine ->
  isQuoteLine rawLine = true ->
  tableStartsAt lines i (trim rawLine) = false ->
  let run := takeWhile isQuoteLine (drop i lines) in
  let quoteContent := parseMarkdownBlocks (join [LF] (map stripQuote run)) in
  loopStep lines i st
  = Some (i + length run,
          {| blocks := blocks (flushParagraph st) ++ [Blockquote quoteContent];
             paragraphLines := paragraphLines (flushParagraph st);
             listStack := [] |})
  /\ 0 < length run
  /\ run = take (length run) (drop i lines)
  /\ Forall (fun l => isQuoteLine l = true) run
  /\ (forall l, lines !! (i + length run) = Some l -> isQuoteLine l = false)
  /\ parseMarkdownBlocks (str "> line1" ++ [LF] ++ str "> line2")
     = [Blockquote (parseMarkdownBlocks (str "line1" ++ [LF] ++ str "line2"))]
  /\ parseMarkdownBlocks (str "line1" ++ [LF] ++ str "line2")
     = [Paragraph (ParagraphNode [TextNode (str "line1 line2") None])].
Proof.
  intros Hraw Hq Htable. cbn zeta.
  split; [|split; [|split; [|split; [|split; [|split]]]]].
  - unfold loopStep. rewrite (loopBody_quote _ _ _ _ _ Hraw Hq Htable). done.
  - rewrite (drop_S _ _ _ Hraw). cbn [takeWhile]. rewrite Hq. cbn [length]. lia.
  - apply takeWhile_prefix.
  - apply takeWhile_Forall.
  - intros l Hl. apply (takeWhile_maximal isQuoteLine (drop i lines)).
    by rewrite lookup_drop.
  - vm_compute. reflexivity.
  - vm_compute. reflexivity.
Qed.

Lemma blockquote_run_witness :
  loopStep [str "> line1"; str "> line2"; str "after"] 0 initialState
  = Some (2,
          {| blocks := [Blockquote (parseMarkdownBlocks (str "line1" ++ [LF] ++ str "line2"))];
             paragraphLines := [];
             listStack := [] |}).
Proof.
  exact (proj1 (blockquote_run [str "> line1"; str "> line2"; str "after"] 0
                  initialState (str "> line1") eq_refl eq_refl eq_refl)).
Defined.

(** C7 as stated fails when the table rule comes first: a line that
    starts with [>] and holds a [|], followed by a separator row, is a
    run of one quote line, and it gives a table and no blockquote. *)
Lemma quote_line_taken_as_table_header :
  isQuoteLine (str ">a|b") = true
  /\ isQuoteLine (str "---") = false
  /\ parseMarkdownBlocks (str ">a|b" ++ [LF] ++ str "---")
     = [Table (buildTableNode (str ">a|b") [])]
  /\ parseMarkdownBlocks (str ">a|b" ++ [LF] ++ str "---")
     <> [Blockquote (parseMarkdownBlocks (str "a|b"))].
Proof. repeat split; try (vm_compute; reflexivity). vm_compute. discriminate. Qed.

(** C8 - Every text node of a document carries at most one mark: its
    [marks], when present, has length one.  This holds of the tokens of
    the inline tokenizer and of every sequence of inline nodes anywhere in
    the document.  A span matched by a pattern is not scanned again:
    emphasis inside a strong span stays in the text of the one node. *)
Theorem text_nodes_carry_at_most_one_mark (text : jsstring) :
  forallb atMostOneMark (parseMarkdownInline text) = true
  /\ checkDocument marksCheck (createTextADF text) = true
  /\ parseMarkdownInline (str "**a _b_ c**")
     = [TextNode (str "a _b_ c") (Some [Mark strong None])].
Proof.
  split; [|split].
  - apply marks_heading.
  - apply parseMarkdownBlocks_check.
    + apply marks_buildParagraph.
    + apply marks_heading.
    + done.
    + apply marks_continue.
    + done.
    + done.
    + done.
  - vm_compute. reflexivity.
Qed.

(** C9 (amended) - For every non-empty string that holds none of the
    delimiter units [~ * _ ` [ ]], the inline tokenizer yields exactly one
    unmarked text node whose text is the string. *)
Theorem plain_text_is_one_node (s : jsstring) :
  s <> [] ->
  forallb (fun c => negb (isDelimiterUnit c)) s = true ->
  parseMarkdownInline s = [TextNode s None].
Proof.
  intros Hne Hplain.
  unfold parseMarkdownInline, parseMarkdownInline_fuel.
  destruct s as [|c s]; [done|]. cbn [length]. rewrite inlineLoop_step.
  unfold inlineStep. rewrite (searchSpecial_plain _ Hplain).
  cbn [forallb] in Hplain. apply andb_true_iff in Hplain as [Hc _].
  apply negb_true_iff in Hc. by rewrite (firstMatch_plain _ _ Hc).
Qed.

Lemma plain_text_is_one_node_witness :
  parseMarkdownInline (str "plain text, no marks")
  = [TextNode (str "plain text, no marks") None].
Proof. apply plain_text_is_one_node; [done|reflexivity]. Defined.

(** C9 as stated fails for the empty string, which holds no delimiter
    unit and is the text of the placeholder node of [buildParagraph]: the
    tokenizer yields no node for it. *)
Lemma empty_text_gives_no_node :
  forallb (fun c => negb (isDelimiterUnit c)) [] = true
  /\ paragraph_content (buildParagraph []) = [TextNode [] None]
  /\ parseMarkdownInline [] = []
  /\ parseMarkdownInline [] <> [TextNode [] None].
Proof. repeat split; done. Qed.

(** C10 (amended) - Every inline node that the tokenizer emits is a text
    node with a non-empty text.  In a document, a text node with an empty
    text is either the only node of a paragraph (the placeholder, also in
    a table cell) or the one text node of a code block, whose body is
    then empty; the content of a heading holds no empty text. *)
Theorem empty_text_placement (text : jsstring) :
  forallb isTokenNode (parseMarkdownInline text) = true
  /\ forallb nonEmptyText (parseMarkdownInline text) = true
  /\ checkDocument emptyTextCheck (createTextADF text) = true.
Proof.
  split; [|split].
  - apply parseMarkdownInline_tokens.
  - apply empty_heading.
  - apply parseMarkdownBlocks_check.
    + apply empty_buildParagraph.
    + apply empty_heading.
    + done.
    + apply empty_continue.
    + done.
    + done.
    + done.
Qed.

(** C10 as stated fails on a code fence without a body: the document has
    a text node with an empty text that is not the placeholder of a
    paragraph. *)
Lemma empty_text_in_code_block :
  createTextADF (str "```")
  = {| version := 1; doc_content := [CodeBlock None [TextNode [] None]] |}
  /\ checkDocument placeholderOnlyCheck (createTextADF (str "```")) = false.
Proof. split; vm_compute; reflexivity. Qed.

(** * Further properties of the converter and of the service *)

(** ** White space and scans *)

Lemma dropWhile_nil_iff {A} (p : A -> bool) (s : list A) :
  dropWhile p s = [] <-> forallb p s = true.
Proof.
  induction s as [|c s IH]; simpl; [done|].
  destruct (p c); simpl; [done|]. split; intros H; discriminate H.
Qed.

Lemma takeWhile_app_stop {A} (p : A -> bool) (a : list A) c b :
  forallb p a = true -> p c = false -> takeWhile p (a ++ c :: b) = a.
Proof.
  intros Ha Hc. induction a as [|d a IH]; simpl in *.
  - by rewrite Hc.
  - apply andb_true_iff in Ha as [-> Ha]. by rewrite IH.
Qed.

Lemma dropWhile_app_stop {A} (p : A -> bool) (a : list A) c b :
  forallb p a = true -> p c = false -> dropWhile p (a ++ c :: b) = c :: b.
Proof.
  intros Ha Hc. induction a as [|d a IH]; simpl in *.
  - by rewrite Hc.
  - apply andb_true_iff in Ha as [-> Ha]. by rewrite IH.
Qed.

Lemma takeWhile_forallb {A} (p : A -> bool) (s : list A) :
  forallb p (takeWhile p s) = true.
Proof.
  induction s as [|c s IH]; simpl; [done|].
  destruct (p c) eqn:E; simpl; [by rewrite E|done].
Qed.

Lemma takeWhile_run {A} (p : A -> bool) (a rest : list A) :
  forallb p a = true -> stopsRun p rest -> takeWhile p (a ++ rest) = a.
Proof.
  intros Ha Hrest. destruct rest as [|c rest].
  - rewrite app_nil_r. by apply takeWhile_all.
  - by apply takeWhile_app_stop.
Qed.

Lemma dropWhile_run {A} (p : A -> bool) (a rest : list A) :
  forallb p a = true -> stopsRun p rest -> dropWhile p (a ++ rest) = rest.
Proof.
  intros Ha Hrest. destruct rest as [|c rest].
  - rewrite app_nil_r. by apply dropWhile_nil_iff.
  - by apply dropWhile_app_stop.
Qed.

Lemma dropWhile_stopsRun {A} (p : A -> bool) (s : list A) :
  stopsRun p (dropWhile p s).
Proof.
  destruct (dropWhile p s) as [|c r] eqn:E; [done|].
  by apply dropWhile_head in E.
Qed.

Lemma forallb_rev {A} (p : A -> bool) (s : list A) :
  forallb p (rev s) = forallb p s.
Proof.
  induction s as [|c s IH]; [done|].
  cbn [rev]. rewrite forallb_app, IH. simpl. rewrite andb_true_r.
  apply andb_comm.
Qed.

Lemma trimEnd_nil_iff s : trimEnd s = [] <-> forallb isSpace s = true.
Proof.
  unfold trimEnd. rewrite <- (forallb_rev isSpace s), <- dropWhile_nil_iff.
  split; intros H.
  - apply (f_equal (@rev _)) in H. by rewrite rev_involutive in H.
  - by rewrite H.
Qed.

Lemma trimEnd_last s l c : trimEnd s = l ++ [c] -> isSpace c = false.
Proof.
  unfold trimEnd. intros H. apply (f_equal (@rev _)) in H.
  rewrite rev_involutive, rev_app_distr in H. cbn [rev app] in H.
  by apply dropWhile_head in H.
Qed.

Lemma trimEnd_fixed l c : isSpace c = false -> trimEnd (l ++ [c]) = l ++ [c].
Proof.
  intros Hc. unfold trimEnd. rewrite rev_app_distr. cbn [rev app dropWhile].
  rewrite Hc. cbn [rev]. by rewrite rev_involutive.
Qed.

Lemma trim_nil_iff s : trim s = [] <-> forallb isSpace s = true.
Proof.
  rewrite trim_eq, dropWhile_nil_iff. split; intros H.
  - apply trimEnd_nil_iff.
    destruct (list_nil_or_snoc (trimEnd s)) as [E|(l & c & E)]; [done|].
    pose proof (trimEnd_last _ _ _ E) as Hc. rewrite E, forallb_app in H.
    simpl in H. rewrite Hc in H. by rewrite andb_false_r in H.
  - apply trimEnd_nil_iff in H. by rewrite H.
Qed.

(** A trimmed string has no white space at either end. *)
Lemma trim_ends s :
  stopsRun isSpace (trim s) /\ stopsRun isSpace (rev (trim s)).
Proof.
  split; [rewrite trim_eq; apply dropWhile_stopsRun|].
  rewrite trim_eq.
  destruct (list_nil_or_snoc (trimEnd s)) as [->|(l0 & c0 & E0)]; [done|].
  pose proof (trimEnd_last _ _ _ E0) as Hc0. rewrite E0.
  destruct (dropWhile_keeps isSpace l0 c0 [] Hc0) as [l ->].
  rewrite rev_app_distr. by cbn [rev app stopsRun].
Qed.

Lemma trim_fixed s :
  stopsRun isSpace s -> stopsRun isSpace (rev s) -> trim s = s.
Proof.
  intros Hhead Hlast. rewrite trim_eq.
  assert (trimEnd s = s) as ->.
  { destruct (list_nil_or_snoc s) as [->|(l & c & ->)]; [done|].
    rewrite rev_app_distr in Hlast. cbn [rev app stopsRun] in Hlast.
    by apply trimEnd_fixed. }
  destruct s as [|c s]; [done|]. cbn [stopsRun] in Hhead.
  by apply dropWhile_head_false.
Qed.

Lemma trim_idemp s : trim (trim s) = trim s.
Proof. apply trim_fixed; apply trim_ends. Qed.

(** ** The line expressions of the block parser *)

Lemma spaceThenRest_shape (s text : jsstring) :
  spaceThenRest s = Some text <->
  exists gap,
    s = gap ++ text
    /\ gap <> [] /\ forallb isSpace gap = true
    /\ stopsRun isSpace text
    /\ forallb (fun c => negb (isLineTerminator c)) text = true.
Proof.
  unfold spaceThenRest. split.
  - intros H. exists (takeWhile isSpace s).
    pose proof (takeWhile_dropWhile isSpace s) as Hs.
    pose proof (takeWhile_forallb isSpace s) as Hgap.
    pose proof (dropWhile_stopsRun isSpace s) as Hstop.
    destruct (takeWhile isSpace s) as [|g gap]; [done|].
    destruct (forallb _ (dropWhile isSpace s)) eqn:E; [|done].
    injection H as <-. by repeat split.
  - intros (gap & -> & Hne & Hgap & Hstop & Hlt).
    rewrite takeWhile_run, dropWhile_run by done.
    destruct gap; [done|]. by rewrite Hlt.
Qed.

(** X1 - The bullet expression of the block parser ([^], a group of white
    space, one of [-] and [*], white space, a group with the rest, [$])
    matches a line exactly when the line is a run of white space (group
    1), a [-] or a [*], a non-empty run of white space, and a text (group
    2) that does not start with white space and holds no line terminator.
    So the marker needs white space after it, and the text of the item
    never starts with white space. *)
Theorem bullet_line_shape (line spaces text : jsstring) :
  bulletMatch line = Some (spaces, text) <->
  exists marker gap,
    line = spaces ++ marker :: gap ++ text
    /\ forallb isSpace spaces = true
    /\ (marker = 45%N \/ marker = 42%N)
    /\ gap <> [] /\ forallb isSpace gap = true
    /\ stopsRun isSpace text
    /\ forallb (fun c => negb (isLineTerminator c)) text = true.
Proof.
  split.
  - intros H. apply bulletMatch_inv in H as (c & rest & Hd & Hc & -> & Hrest).
    apply spaceThenRest_shape in Hrest as (gap & -> & Hne & Hgap & Hstop & Hlt).
    exists c, gap. rewrite <- Hd, takeWhile_dropWhile.
    repeat split; try done; [apply takeWhile_forallb|].
    apply orb_true_iff in Hc as [Hc|Hc]; apply N.eqb_eq in Hc; auto.
  - intros (marker & gap & -> & Hsp & Hm & Hne & Hgap & Hstop & Hlt).
    assert (isSpace marker = false) as Hms by (by destruct Hm as [->| ->]).
    unfold bulletMatch.
    rewrite dropWhile_app_stop, takeWhile_app_stop by done.
    assert (((marker =? 45)%N || (marker =? 42)%N) = true) as ->
      by (by destruct Hm as [->| ->]).
    assert (spaceThenRest (gap ++ text) = Some text) as ->; [|done].
    apply spaceThenRest_shape. by exists gap.
Qed.

Lemma isDigit_not_space c : isDigit c = true -> isSpace c = false.
Proof.
  intros H. unfold isDigit, in_range in H.
  apply andb_true_iff in H as [H1 H2].
  apply N.leb_le in H1. apply N.leb_le in H2.
  unfold isSpace, in_range.
  repeat (apply orb_false_iff; split);
    try (apply N.eqb_neq; lia);
    apply andb_false_iff; (left; apply N.leb_gt; lia) || (right; apply N.leb_gt; lia).
Qed.

(** X2 - The ordered expression of the block parser ([^], a group of
    white space, a group of digits, a dot, white space, a group with the
    rest, [$]) matches a line exactly when the line is a run of white
    space (group 1), a non-empty run of decimal digits (group 2), a dot, a
    non-empty run of white space, and a text (group 3) that does not start
    with white space and holds no line terminator. *)
Theorem ordered_line_shape (line spaces digits text : jsstring) :
  orderedMatch line = Some (spaces, digits, text) <->
  exists gap,
    line = spaces ++ digits ++ 46%N :: gap ++ text
    /\ forallb isSpace spaces = true
    /\ digits <> [] /\ forallb isDigit digits = true
    /\ gap <> [] /\ forallb isSpace gap = true
    /\ stopsRun isSpace text
    /\ forallb (fun c => negb (isLineTerminator c)) text = true.
Proof.
  split.
  - intros H. unfold orderedMatch in H.
    pose proof (takeWhile_dropWhile isSpace line) as Hline.
    pose proof (takeWhile_dropWhile isDigit (dropWhile isSpace line)) as Hrest.
    pose proof (takeWhile_forallb isDigit (dropWhile isSpace line)) as Hdig.
    destruct (takeWhile isDigit (dropWhile isSpace line)) as [|d ds] eqn:E;
      [done|].
    destruct (dropWhile isDigit (dropWhile isSpace line)) as [|dot rest'];
      [done|].
    destruct (dot =? 46)%N eqn:Edot; [|done]. apply N.eqb_eq in Edot as ->.
    apply bind_Some in H as (t & Ht & [= <- <- <-]).
    apply spaceThenRest_shape in Ht as (gap & -> & Hne & Hgap & Hstop & Hlt).
    exists gap. rewrite Hrest, Hline.
    repeat split; try done. apply takeWhile_forallb.
  - intros (gap & -> & Hsp & Hne & Hdig & Hgne & Hgap & Hstop & Hlt).
    destruct digits as [|d ds]; [done|].
    assert (isSpace d = false) as Hd.
    { apply isDigit_not_space. simpl in Hdig.
      by apply andb_true_iff in Hdig as [? _]. }
    unfold orderedMatch. cbn [app].
    rewrite dropWhile_app_stop, takeWhile_app_stop by done.
    change (d :: ds ++ 46%N :: gap ++ text)
      with ((d :: ds) ++ 46%N :: gap ++ text).
    rewrite takeWhile_app_stop, dropWhile_app_stop by done.
    rewrite N.eqb_refl.
    assert (spaceThenRest (gap ++ text) = Some text) as ->; [|done].
    apply spaceThenRest_shape. by exists gap.
Qed.

(** X3 - The heading expression ([^], a group of one to six [#], white
    space, a group with the rest, [$]) matches a trimmed line exactly when
    the line is a run of one to six [#] (group 1), a non-empty run of
    white space, and a text (group 2) that does not start with white space
    and holds no line terminator.  So the level of a heading is between 1
    and 6, and seven [#] or a [#] without white space after it make no
    heading. *)
Theorem heading_line_shape (trimmed hashes text : jsstring) :
  headingMatch trimmed = Some (hashes, text) <->
  exists gap,
    trimmed = hashes ++ gap ++ text
    /\ forallb (fun c => (c =? 35)%N) hashes = true
    /\ 1 <= length hashes <= 6
    /\ gap <> [] /\ forallb isSpace gap = true
    /\ stopsRun isSpace text
    /\ forallb (fun c => negb (isLineTerminator c)) text = true.
Proof.
  split.
  - intros H. unfold headingMatch in H.
    pose proof (takeWhile_dropWhile (fun c => (c =? 35)%N) trimmed) as Hline.
    pose proof (takeWhile_forallb (fun c => (c =? 35)%N) trimmed) as Hh.
    destruct ((1 <=? length _) && (length _ <=? 6)) eqn:E; [|done].
    apply andb_true_iff in E as [E1 E2].
    apply Nat.leb_le in E1. apply Nat.leb_le in E2.
    apply bind_Some in H as (t & Ht & [= <- <-]).
    apply spaceThenRest_shape in Ht as (gap & Hd & Hne & Hgap & Hstop & Hlt).
    exists gap. rewrite <- Hd, Hline. by repeat split.
  - intros (gap & -> & Hh & [H1 H6] & Hne & Hgap & Hstop & Hlt).
    destruct gap as [|g gap]; [done|].
    assert ((g =? 35)%N = false) as Hg.
    { simpl in Hgap. apply andb_true_iff in Hgap as [Hg _].
      destruct (g =? 35)%N eqn:E; [|done]. by apply N.eqb_eq in E as ->. }
    unfold headingMatch. cbn [app].
    rewrite takeWhile_app_stop, dropWhile_app_stop by done.
    assert ((1 <=? length hashes) && (length hashes <=? 6) = true) as ->.
    { apply andb_true_iff. split; apply Nat.leb_le; lia. }
    assert (spaceThenRest (g :: gap ++ text) = Some text) as ->; [|done].
    apply spaceThenRest_shape. by exists (g :: gap).
Qed.

(** ** Indentation *)

Lemma takeWhile_idemp {A} (p : A -> bool) (s : list A) :
  takeWhile p (takeWhile p s) = takeWhile p s.
Proof. apply takeWhile_all, takeWhile_forallb. Qed.

Lemma length_expand_tabs (ws : jsstring) :
  length (flat_map (fun c => if (c =? TAB)%N then [SPACE; SPACE] else [c]) ws)
  = length ws + count_occ N.eq_dec ws TAB.
Proof.
  induction ws as [|c ws IH]; [done|].
  cbn [flat_map count_occ]. rewrite length_app, IH.
  destruct (N.eq_dec c TAB) as [->|Hne].
  - rewrite N.eqb_refl. simpl. lia.
  - apply N.eqb_neq in Hne. rewrite Hne. simpl. lia.
Qed.

(** X4 - The indent of a line is the number of units of its leading run
    of white space with every tab counted twice; any other unit of white
    space counts once.  It depends on the leading white space only. *)
Theorem line_indent_counts_tabs_twice (line : jsstring) :
  getLineIndent line
  = length (takeWhile isSpace line)
    + count_occ N.eq_dec (takeWhile isSpace line) TAB
  /\ getLineIndent (takeWhile isSpace line) = getLineIndent line
  /\ (forall ws rest,
        forallb isSpace ws = true -> stopsRun isSpace rest ->
        getLineIndent (ws ++ rest) = length ws + count_occ N.eq_dec ws TAB).
Proof.
  unfold getLineIndent. split; [apply length_expand_tabs|]. split.
  - by rewrite takeWhile_idemp.
  - intros ws rest Hws Hrest. rewrite takeWhile_run by done.
    apply length_expand_tabs.
Qed.

Lemma line_indent_counts_tabs_twice_witness :
  getLineIndent ([TAB; SPACE; TAB] ++ str "- a" ++ [TAB]) = 3 + 2.
Proof.
  apply (proj2 (proj2 (line_indent_counts_tabs_twice []))
           [TAB; SPACE; TAB] (str "- a" ++ [TAB])); reflexivity.
Defined.

(** X5 - The indent that the parser takes for a list item (the indent of
    group 1 of the item expression) is the indent of the whole line, the
    measure that a continuation line is compared with. *)
Theorem item_indent_is_line_indent (line spaces : jsstring) :
  (exists text, bulletMatch line = Some (spaces, text))
  \/ (exists digits text, orderedMatch line = Some (spaces, digits, text)) ->
  spaces = takeWhile isSpace line
  /\ getLineIndent spaces = getLineIndent line.
Proof.
  intros H.
  assert (spaces = takeWhile isSpace line) as ->.
  { destruct H as [[text H]|(digits & text & H)].
    - by apply bulletMatch_inv in H as (c & rest & _ & _ & -> & _).
    - by apply orderedMatch_inv in H as (c & rest & _ & _ & -> & _). }
  split; [done|]. unfold getLineIndent. by rewrite takeWhile_idemp.
Qed.

Lemma item_indent_is_line_indent_witness :
  [TAB; SPACE] = takeWhile isSpace ([TAB; SPACE] ++ str "- item")
  /\ getLineIndent [TAB; SPACE] = getLineIndent ([TAB; SPACE] ++ str "- item").
Proof.
  apply (item_indent_is_line_indent ([TAB; SPACE] ++ str "- item") [TAB; SPACE]).
  left. exists (str "item"). vm_compute. reflexivity.
Defined.

(** ** Table rows *)

Lemma length_split sep s :
  length (split sep s) = 1 + count_occ N.eq_dec s sep.
Proof.
  induction s as [|c s IH]; [done|]. cbn [split count_occ].
  destruct (N.eq_dec c sep) as [->|Hne].
  - rewrite N.eqb_refl. cbn [length]. by rewrite IH.
  - apply N.eqb_neq in Hne. rewrite Hne.
    destruct (split sep s) as [|l ls] eqn:E; [by apply split_nonempty in E|].
    cbn [length] in *. lia.
Qed.

(** X6 - [splitTableRow] gives at least one cell, one more than the
    number of [|] left in the trimmed line after one leading and one
    trailing [|] are removed; every cell is trimmed.  So the test
    [cells.length > 0] of [isTableSeparator] never fails, and a row is a
    separator row exactly when each of its cells is a separator cell. *)
Theorem table_row_cells (line : jsstring) :
  length (splitTableRow line)
  = 1 + count_occ N.eq_dec
          (dropTrailingPipe (dropLeadingPipe (trim line))) 124%N
  /\ Forall (fun cell => trim cell = cell) (splitTableRow line)
  /\ isTableSeparator line = forallb separatorCell (splitTableRow line).
Proof.
  unfold isTableSeparator, splitTableRow.
  rewrite length_map, length_split. repeat split.
  apply Forall_forall. intros cell Hin. apply list_elem_of_In in Hin.
  apply in_map_iff in Hin as (c & <- & _). apply trim_idemp.
Qed.

Lemma forallb_eqb_repeat (c : char) (s : jsstring) :
  forallb (fun d => (d =? c)%N) s = true -> s = repeat c (length s).
Proof.
  induction s as [|d s IH]; [done|]. simpl. intros H.
  apply andb_true_iff in H as [Hd Hs]. apply N.eqb_eq in Hd as ->.
  by rewrite <- IH.
Qed.

Lemma forallb_repeat_eqb (c : char) n :
  forallb (fun d => (d =? c)%N) (repeat c n) = true.
Proof. induction n; simpl; [done|]. by rewrite N.eqb_refl. Qed.

(** X7 - The separator cell expression ([^], an optional colon, three or
    more dashes, an optional colon, [$]) holds of a cell exactly when the
    cell is an optional colon, a run of at least three dashes and an
    optional colon, with nothing else: no white space inside, no pipe. *)
Theorem separator_cell_shape (cell : jsstring) :
  separatorCell cell = true <->
  exists left n right,
    cell = left ++ repeat 45%N n ++ right
    /\ 3 <= n
    /\ (left = [] \/ left = [58%N])
    /\ (right = [] \/ right = [58%N]).
Proof.
  unfold separatorCell. split.
  - intros H. apply andb_true_iff in H as [Hn Hrest].
    apply Nat.leb_le in Hn.
    set (s1 := match cell with
               | c :: s' => if (c =? 58)%N then s' else cell
               | [] => cell
               end) in *.
    assert (exists left, cell = left ++ s1 /\ (left = [] \/ left = [58%N]))
      as (left & Hcell & Hleft).
    { subst s1. destruct cell as [|c s']; [exists []; by auto|].
      destruct (c =? 58)%N eqn:E.
      - apply N.eqb_eq in E as ->. exists [58%N]. by auto.
      - exists []. by auto. }
    pose proof (takeWhile_dropWhile (fun c => (c =? 45)%N) s1) as Hs1.
    pose proof (forallb_eqb_repeat 45%N _
                  (takeWhile_forallb (fun c => (c =? 45)%N) s1)) as Hd.
    exists left, (length (takeWhile (fun c => (c =? 45)%N) s1)),
      (dropWhile (fun c => (c =? 45)%N) s1).
    rewrite <- Hd, Hs1. repeat split; try done.
    destruct (dropWhile _ s1) as [|c [|c' r]]; [by left| |done].
    apply N.eqb_eq in Hrest as ->. by right.
  - intros (left & n & right & -> & Hn & Hleft & Hright).
    assert (exists m, n = S m) as [m ->] by (exists (n - 1); lia).
    assert (stopsRun (fun c => (c =? 45)%N) right) as Hstop
      by (by destruct Hright as [->| ->]).
    assert (match left ++ repeat 45%N (S m) ++ right with
            | c :: s' =>
                if (c =? 58)%N then s' else left ++ repeat 45%N (S m) ++ right
            | [] => left ++ repeat 45%N (S m) ++ right
            end = repeat 45%N (S m) ++ right) as ->
      by (by destruct Hleft as [->| ->]).
    rewrite takeWhile_run, dropWhile_run
      by (done || apply forallb_repeat_eqb).
    rewrite repeat_length. apply andb_true_iff. split.
    + apply Nat.leb_le. lia.
    + by destruct Hright as [->| ->].
Qed.

(** ** The code fence *)

Ltac units_to_prop H :=
  repeat first
    [ rewrite orb_true_iff in H | rewrite andb_true_iff in H
    | rewrite N.eqb_eq in H | rewrite N.leb_le in H ].

Lemma isSpace_not_language c : isSpace c = true -> isLanguageUnit c = false.
Proof.
  intros Hs. destruct (isLanguageUnit c) eqn:Hl; [|done]. exfalso.
  unfold isSpace, isLanguageUnit, isWord, isDigit, in_range in *.
  units_to_prop Hs. units_to_prop Hl. lia.
Qed.

Lemma stopsRun_language_space (ws : jsstring) :
  forallb isSpace ws = true -> stopsRun isLanguageUnit ws.
Proof.
  destruct ws as [|c ws]; [done|]. simpl. intros H.
  apply andb_true_iff in H as [H _]. by apply isSpace_not_language.
Qed.

Lemma codeFenceStart_shape (trimmed : jsstring) (language : option jsstring) :
  codeFenceStart trimmed = Some language <->
  exists lang ws,
    trimmed = str "```" ++ lang ++ ws
    /\ forallb isLanguageUnit lang = true
    /\ forallb isSpace ws = true
    /\ language = match lang with [] => None | _ :: _ => Some lang end.
Proof.
  unfold codeFenceStart. split.
  - destruct (stripPrefix (str "```") trimmed) as [rest|] eqn:E; [|done].
    apply stripPrefix_app in E as ->.
    destruct (forallb isSpace (dropWhile isLanguageUnit rest)) eqn:Hws; [|done].
    intros [= <-].
    exists (takeWhile isLanguageUnit rest), (dropWhile isLanguageUnit rest).
    rewrite takeWhile_dropWhile. repeat split; try done.
    apply takeWhile_forallb.
  - intros (lang & ws & -> & Hlang & Hws & ->).
    assert (stripPrefix (str "```") (str "```" ++ lang ++ ws)
            = Some (lang ++ ws)) as ->.
    { change (str "```") with [96%N; 96%N; 96%N]. by cbn. }
    rewrite takeWhile_run, dropWhile_run
      by (done || by apply stopsRun_language_space).
    by rewrite Hws.
Qed.

Lemma includes_app c s t : includes c (s ++ t) = includes c s || includes c t.
Proof. unfold includes. apply existsb_app. Qed.

Lemma includes_false_forallb c (p : char -> bool) s :
  p c = false -> forallb p s = true -> includes c s = false.
Proof.
  intros Hc. unfold includes. induction s as [|d s IH]; [done|]. simpl.
  intros H. apply andb_true_iff in H as [Hd Hs]. rewrite IH by done.
  rewrite orb_false_r. apply N.eqb_neq. by intros ->; congruence.
Qed.

(** A line with a [|] is not the opening line of a code fence. *)
Lemma codeFenceStart_pipe trimmed :
  includes 124%N trimmed = true -> codeFenceStart trimmed = None.
Proof.
  intros Hpipe. destruct (codeFenceStart trimmed) as [language|] eqn:E; [|done].
  apply codeFenceStart_shape in E as (lang & ws & -> & Hlang & Hws & _).
  rewrite !includes_app in Hpipe.
  rewrite (includes_false_forallb _ isLanguageUnit lang) in Hpipe by done.
  rewrite (includes_false_forallb _ isSpace ws) in Hpipe by done.
  done.
Qed.

Lemma paragraphLines_flushParagraph st : paragraphLines (flushParagraph st) = [].
Proof. unfold flushParagraph. by destruct (paragraphLines st) eqn:E. Qed.

Lemma pushBlock_flush b st :
  pushBlock b (flushListStack (flushParagraph st))
  = {| blocks := blocks (flushParagraph st) ++ [b];
       paragraphLines := [];
       listStack := [] |}.
Proof.
  unfold pushBlock, flushListStack, setListStack.
  cbn [blocks paragraphLines listStack].
  by rewrite paragraphLines_flushParagraph.
Qed.

Lemma loopBody_code rec lines i st rawLine language :
  lines !! i = Some rawLine ->
  codeFenceStart (trim rawLine) = Some language ->
  loopBody rec lines i st =
  let codeLines :=
    takeWhile (fun l => negb (codeFenceEnd l)) (drop (i + 1) lines) in
  Some (i + 1 + length codeLines + 1,
        pushBlock (CodeBlock language [TextNode (join [LF] codeLines) None])
          (flushListStack (flushParagraph st))).
Proof.
  intros Hraw Hcode. unfold loopBody. rewrite Hraw. obind.
  rewrite trim_trimEnd, Hcode.
  destruct (trim rawLine) as [|c r] eqn:E; [done|]. done.
Qed.

(** X8 - The code fence rule.  A line whose trimmed text is three
    backticks, an optional language of word units and [-], and nothing
    else opens a code block, whatever the state of the parser: the pending
    paragraph is flushed and every open list is closed; the body is the
    run of the following lines up to the first line that is three
    backticks between white space, taken as they are (not trimmed, not
    tokenized) and joined by newlines into one text node; the closing
    line is skipped, and when there is none the body is the rest of the
    input. *)
Theorem code_fence_block
    (rec : jsstring -> option (list JiraADFBlockNode))
    (lines : list jsstring) (i : nat) (st : State)
    (rawLine : jsstring) (language : option jsstring) :
  lines !! i = Some rawLine ->
  codeFenceStart (trim rawLine) = Some language ->
  let body := takeWhile (fun l => negb (codeFenceEnd l)) (drop (i + 1) lines) in
  loopBody rec lines i st
  = Some (i + length body + 2,
          {| blocks := blocks (flushParagraph st)
                       ++ [CodeBlock language [TextNode (join [LF] body) None]];
             paragraphLines := [];
             listStack := [] |})
  /\ body = take (length body) (drop (i + 1) lines)
  /\ Forall (fun l => codeFenceEnd l = false) body
  /\ (forall l, lines !! (i + 1 + length body) = Some l -> codeFenceEnd l = true)
  /\ (length lines <= i + 1 + length body -> body = drop (i + 1) lines).
Proof.
  intros Hraw Hcode body. repeat split.
  - rewrite (loopBody_code _ _ _ _ _ _ Hraw Hcode). cbn zeta. fold body.
    rewrite pushBlock_flush. do 2 f_equal. lia.
  - apply takeWhile_prefix.
  - eapply Forall_impl; [apply takeWhile_Forall|].
    intros l Hl. cbn beta in Hl. by apply negb_true_iff in Hl.
  - intros l Hl.
    pose proof (takeWhile_maximal (fun l => negb (codeFenceEnd l))
                  (drop (i + 1) lines) l) as Hmax.
    fold body in Hmax. rewrite lookup_drop in Hmax.
    apply Hmax in Hl. by apply negb_false_iff in Hl.
  - intros Hlen.
    pose proof (takeWhile_prefix (fun l => negb (codeFenceEnd l))
                  (drop (i + 1) lines)) as Hpre.
    fold body in Hpre. rewrite Hpre at 1. apply take_ge.
    rewrite length_drop. lia.
Qed.

Lemma code_fence_block_witness :
  loopBody (fun _ => None)
    [str "  ```js"; str " *a* "; []; str " ``` "; str "b"] 0 initialState
  = Some (4,
          {| blocks := [CodeBlock (Some (str "js"))
                          [TextNode (str " *a* " ++ [LF]) None]];
             paragraphLines := [];
             listStack := [] |}).
Proof.
  exact (proj1 (code_fence_block (fun _ => None)
                  [str "  ```js"; str " *a* "; []; str " ``` "; str "b"] 0
                  initialState (str "  ```js") (Some (str "js"))
                  eq_refl eq_refl)).
Defined.

(** ** The table rule *)

Lemma includes_nonempty c s : includes c s = true -> s <> [].
Proof. by destruct s. Qed.

Lemma loopBody_table rec lines i st rawLine :
  lines !! i = Some rawLine ->
  tableStartsAt lines i (trim rawLine) = true ->
  loopBody rec lines i st =
  let rows := takeWhile isTableBodyLine (drop (i + 2) lines) in
  Some (i + 2 + length rows,
        pushBlock (Table (buildTableNode (trim rawLine) (map trim rows)))
          (flushListStack (flushParagraph st))).
Proof.
  intros Hraw Htable. unfold loopBody. rewrite Hraw. obind.
  rewrite trim_trimEnd, Htable.
  assert (includes 124%N (trim rawLine) = true) as Hpipe.
  { unfold tableStartsAt in Htable. destruct (lines !! (i + 1)); [|done].
    by apply andb_true_iff in Htable as [? _]. }
  rewrite (codeFenceStart_pipe _ Hpipe).
  destruct (trim rawLine) as [|c r] eqn:E; [done|].
  cbn zeta. by rewrite length_map.
Qed.

(** X9 - The table rule.  A line with a [|] in its trimmed text, followed
    by a separator row, starts a table whatever the state of the parser
    (a line with a [|] is never the opening line of a code fence, the only
    rule tried before): the pending paragraph is flushed and every open
    list is closed; the trimmed line is the header row, the separator row
    gives no row, and the body rows are the trimmed lines of the run that
    follows, up to the first line that is blank or has no [|]. *)
Theorem table_block
    (rec : jsstring -> option (list JiraADFBlockNode))
    (lines : list jsstring) (i : nat) (st : State)
    (rawLine next : jsstring) :
  lines !! i = Some rawLine ->
  includes 124%N (trim rawLine) = true ->
  lines !! (i + 1) = Some next ->
  isTableSeparator (trim next) = true ->
  let rows := takeWhile isTableBodyLine (drop (i + 2) lines) in
  let table := buildTableNode (trim rawLine) (map trim rows) in
  loopBody rec lines i st
  = Some (i + 2 + length rows,
          {| blocks := blocks (flushParagraph st) ++ [Table table];
             paragraphLines := [];
             listStack := [] |})
  /\ length (table_content table) = 1 + length rows
  /\ rows = take (length rows) (drop (i + 2) lines)
  /\ Forall (fun l => trim l <> [] /\ includes 124%N (trim l) = true) rows
  /\ (forall l, lines !! (i + 2 + length rows) = Some l ->
        trim l = [] \/ includes 124%N (trim l) = false).
Proof.
  intros Hraw Hpipe Hnext Hsep rows table.
  assert (tableStartsAt lines i (trim rawLine) = true) as Htable.
  { unfold tableStartsAt. by rewrite Hnext, Hpipe, Hsep. }
  repeat split.
  - rewrite (loopBody_table _ _ _ _ _ Hraw Htable). cbn zeta.
    by rewrite pushBlock_flush.
  - subst table. unfold buildTableNode. cbn [table_content length].
    by rewrite !length_map.
  - apply takeWhile_prefix.
  - eapply Forall_impl; [apply takeWhile_Forall|].
    intros l Hl. cbn beta in Hl. unfold isTableBodyLine in Hl.
    apply negb_true_iff, orb_false_iff in Hl as [Hl1 Hl2].
    apply negb_false_iff in Hl2. split; [|done]. by destruct (trim l).
  - intros l Hl.
    pose proof (takeWhile_maximal isTableBodyLine (drop (i + 2) lines) l)
      as Hmax.
    fold rows in Hmax. rewrite lookup_drop in Hmax. apply Hmax in Hl.
    unfold isTableBodyLine in Hl.
    apply negb_false_iff, orb_true_iff in Hl as [Hl|Hl].
    + left. by destruct (trim l).
    + right. by apply negb_true_iff in Hl.
Qed.

Lemma table_block_witness :
  loopBody (fun _ => None)
    [str "- x | y"; str "---"; str " 1|2 "; str "3"; str "4|5"] 0 initialState
  = Some (3,
          {| blocks := [Table (buildTableNode (str "- x | y") [str "1|2"])];
             paragraphLines := [];
             listStack := [] |}).
Proof.
  exact (proj1 (table_block (fun _ => None)
                  [str "- x | y"; str "---"; str " 1|2 "; str "3"; str "4|5"]
                  0 initialState (str "- x | y") (str "---")
                  eq_refl eq_refl eq_refl eq_refl)).
Defined.

(** ** Headings and the text of list items *)

Lemma trailing_gap_text (s pre gap text : jsstring) :
  stopsRun isSpace (rev s) ->
  s = pre ++ gap ++ text ->
  gap <> [] -> forallb isSpace gap = true ->
  text <> [].
Proof.
  intros Hend -> Hne Hgap ->. rewrite app_nil_r, rev_app_distr in Hend.
  destruct (list_nil_or_snoc gap) as [->|(g & c & ->)]; [done|].
  rewrite rev_app_distr in Hend. cbn [rev app stopsRun] in Hend.
  rewrite forallb_app in Hgap. simpl in Hgap. rewrite Hend in Hgap.
  by rewrite andb_false_r in Hgap.
Qed.

Lemma trimEnd_ends s : stopsRun isSpace (rev (trimEnd s)).
Proof.
  destruct (list_nil_or_snoc (trimEnd s)) as [->|(l & c & E)]; [done|].
  rewrite E, rev_app_distr. cbn [rev app stopsRun]. by eapply trimEnd_last.
Qed.

Lemma headingMatch_inv trimmed hashes text :
  headingMatch trimmed = Some (hashes, text) ->
  exists c rest gap,
    trimmed = c :: rest
    /\ c = 35%N
    /\ trimmed = hashes ++ gap ++ text
    /\ 1 <= length hashes <= 6
    /\ gap <> [] /\ forallb isSpace gap = true.
Proof.
  intros H. unfold headingMatch in H.
  pose proof (takeWhile_dropWhile (fun c => (c =? 35)%N) trimmed) as Hline.
  destruct ((1 <=? length _) && (length _ <=? 6)) eqn:E; [|done].
  apply andb_true_iff in E as [E1 E2].
  apply Nat.leb_le in E1. apply Nat.leb_le in E2.
  apply bind_Some in H as (t & Ht & [= <- <-]).
  apply spaceThenRest_shape in Ht as (gap & Hd & Hne & Hgap & _).
  destruct trimmed as [|c rest]; [simpl in E1; lia|].
  exists c, rest, gap. rewrite <- Hd, Hline. repeat split; try done.
  cbn [takeWhile] in E1. destruct (c =? 35)%N eqn:Ec; [|simpl in E1; lia].
  by apply N.eqb_eq in Ec.
Qed.

Lemma heading_text_nonempty rawLine hashes text :
  headingMatch (trim rawLine) = Some (hashes, text) -> text <> [].
Proof.
  intros H. apply headingMatch_inv in H as (c & rest & gap & _ & _ & E & _ & Hne & Hgap).
  eapply trailing_gap_text; [apply trim_ends|exact E|done|done].
Qed.

Lemma bullet_text_nonempty rawLine spaces text :
  bulletMatch (trimEnd rawLine) = Some (spaces, text) -> text <> [].
Proof.
  intros H. apply bulletMatch_inv in H as (c & rest & Hd & _ & -> & Hrest).
  apply spaceThenRest_shape in Hrest as (gap & -> & Hne & Hgap & _).
  pose proof (takeWhile_dropWhile isSpace (trimEnd rawLine)) as E.
  rewrite Hd in E.
  eapply (trailing_gap_text _ (takeWhile isSpace (trimEnd rawLine) ++ [c]));
    [apply trimEnd_ends| |done|done].
  by rewrite <- app_assoc.
Qed.

Lemma ordered_text_nonempty rawLine spaces digits text :
  orderedMatch (trimEnd rawLine) = Some (spaces, digits, text) -> text <> [].
Proof.
  intros H. unfold orderedMatch in H.
  pose proof (takeWhile_dropWhile isSpace (trimEnd rawLine)) as Hline.
  pose proof (takeWhile_dropWhile isDigit (dropWhile isSpace (trimEnd rawLine)))
    as Hrest.
  destruct (takeWhile isDigit _) as [|d ds]; [done|].
  destruct (dropWhile isDigit _) as [|dot rest']; [done|].
  destruct (dot =? 46)%N; [|done].
  apply bind_Some in H as (t & Ht & [= <- <- <-]).
  apply spaceThenRest_shape in Ht as (gap & -> & Hne & Hgap & _).
  eapply (trailing_gap_text _
            (takeWhile isSpace (trimEnd rawLine) ++ (d :: ds) ++ [dot]));
    [apply trimEnd_ends| |done|done].
  rewrite <- Hline at 1. rewrite <- Hrest. by rewrite <- !app_assoc.
Qed.

Lemma buildParagraph_tokens text :
  text <> [] ->
  paragraph_content (buildParagraph text) = parseMarkdownInline text.
Proof.
  intros H. rewrite buildParagraph_content.
  pose proof (parseMarkdownInline_nonempty text H).
  by destruct (parseMarkdownInline text).
Qed.

Lemma loopBody_heading rec lines i st rawLine hashes text :
  lines !! i = Some rawLine ->
  headingMatch (trim rawLine) = Some (hashes, text) ->
  tableStartsAt lines i (trim rawLine) = false ->
  loopBody rec lines i st
  = Some (i + 1,
          pushBlock (Heading (length hashes) (parseMarkdownInline text))
            (flushListStack (flushParagraph st))).
Proof.
  intros Hraw Hh Htable. unfold loopBody. rewrite Hraw. obind.
  rewrite trim_trimEnd, Htable, Hh.
  destruct (headingMatch_inv _ _ _ Hh) as (c & rest & gap & E & -> & _).
  unfold isQuoteLine. rewrite <- trim_of_trimEnd, trim_trimEnd, E.
  by rewrite codeFenceStart_head.
Qed.

(** X10 - The heading rule.  A line whose trimmed text is one to six [#],
    white space and a text gives a heading of that level with the tokens
    of the text, unless the table rule takes the line first; the pending
    paragraph is flushed and every open list is closed.  The content of a
    heading is never empty. *)
Theorem heading_block
    (rec : jsstring -> option (list JiraADFBlockNode))
    (lines : list jsstring) (i : nat) (st : State)
    (rawLine hashes text : jsstring) :
  lines !! i = Some rawLine ->
  headingMatch (trim rawLine) = Some (hashes, text) ->
  tableStartsAt lines i (trim rawLine) = false ->
  loopBody rec lines i st
  = Some (i + 1,
          {| blocks := blocks (flushParagraph st)
                       ++ [Heading (length hashes) (parseMarkdownInline text)];
             paragraphLines := [];
             listStack := [] |})
  /\ 1 <= length hashes <= 6
  /\ parseMarkdownInline text <> [].
Proof.
  intros Hraw Hh Htable. split; [|split].
  - rewrite (loopBody_heading _ _ _ _ _ _ _ Hraw Hh Htable).
    by rewrite pushBlock_flush.
  - by destruct (headingMatch_inv _ _ _ Hh) as (_ & _ & _ & _ & _ & _ & ? & _).
  - apply parseMarkdownInline_nonempty. by eapply heading_text_nonempty.
Qed.

Lemma heading_block_witness :
  loopBody (fun _ => None) [str "  ### A *b*  "] 0 initialState
  = Some (1,
          {| blocks := [Heading 3 (parseMarkdownInline (str "A *b*"))];
             paragraphLines := [];
             listStack := [] |}).
Proof.
  exact (proj1 (heading_block (fun _ => None) [str "  ### A *b*  "] 0
                  initialState (str "  ### A *b*  ") (str "###") (str "A *b*")
                  eq_refl eq_refl eq_refl)).
Defined.

(** ** Lines that no rule takes *)

Lemma takeWhile_app_l {A} (p : A -> bool) (s t : list A) :
  forallb p s = false -> takeWhile p (s ++ t) = takeWhile p s.
Proof.
  induction s as [|c s IH]; [done|]. simpl.
  destruct (p c); [|done]. simpl. intros H. by rewrite IH.
Qed.

Lemma leading_space_trimEnd s :
  trim s <> [] -> takeWhile isSpace (trimEnd s) = takeWhile isSpace s.
Proof.
  intros Hne. destruct (trimEnd_prefix s) as [t Ht].
  rewrite Ht at 2. symmetry. apply takeWhile_app_l.
  destruct (forallb isSpace (trimEnd s)) eqn:E; [|done].
  apply dropWhile_nil_iff in E. by rewrite <- trim_eq in E.
Qed.

Lemma getLineIndent_trimEnd s :
  trim s <> [] -> getLineIndent (trimEnd s) = getLineIndent s.
Proof. intros H. unfold getLineIndent. by rewrite leading_space_trimEnd. Qed.

Lemma loopBody_other rec lines i st rawLine :
  lines !! i = Some rawLine ->
  isOtherLine rawLine = true ->
  tableStartsAt lines i (trim rawLine) = false ->
  loopBody rec lines i st =
  let addLine :=
    {| blocks := blocks st;
       paragraphLines := paragraphLines st ++ [trim rawLine];
       listStack := [] |} in
  match listStack st with
  | top :: _ =>
      if entry_indent top <? getLineIndent rawLine
      then st1 ← appendContinuationToListItem top (trimEnd rawLine) st;
           Some (i + 1, st1)
      else Some (i + 1, addLine)
  | [] => Some (i + 1, addLine)
  end.
Proof.
  intros Hraw Hother Htable. unfold loopBody, isOtherLine in *.
  rewrite Hraw. obind. rewrite trim_trimEnd in *. rewrite Htable.
  assert (getLineIndent (trimEnd rawLine) = getLineIndent rawLine) as ->.
  { apply getLineIndent_trimEnd. by destruct (trim rawLine). }
  destruct (trim rawLine) as [|c r] eqn:E; [done|].
  destruct (codeFenceStart (c :: r)); [done|].
  destruct (isQuoteLine (trimEnd rawLine)); [done|].
  destruct (headingMatch (c :: r)); [done|].
  destruct (bulletMatch (trimEnd rawLine)); [done|].
  destruct (orderedMatch (trimEnd rawLine)); [done|].
  cbn zeta. destruct (listStack st) as [|top stack] eqn:Est.
  - destruct st. cbn in *. by subst.
  - destruct (_ <? _); [done|]. by destruct st.
Qed.

Lemma continueParagraph_nonempty inline p :
  inline <> [] ->
  continueParagraph inline p
  = ParagraphNode match paragraph_content p with
                  | [TextNode [] _] => inline
                  | content => content ++ HardBreak :: inline
                  end.
Proof.
  intros H. unfold continueParagraph. destruct inline as [|n inline]; [done|].
  by destruct (paragraph_content p) as [|[[|c s] m|] [|n' r]].
Qed.

(** X11 - Continuation lines.  A line that no rule takes, met while a
    list is open and indented more than the innermost open list, goes into
    the first paragraph of the last item of that list: its tokens come
    after a hard break (or take the place of the placeholder of an empty
    paragraph).  The tokens are never empty, the list stack and the
    pending paragraph stay as they are, and no block is added. *)
Theorem continuation_line
    (rec : jsstring -> option (list JiraADFBlockNode))
    (lines : list jsstring) (i : nat) (st : State) (rawLine : jsstring)
    (top : ListEntry) (stack : list ListEntry)
    (items : list JiraADFListItemNode) (p : JiraADFParagraphNode)
    (rest : list JiraADFBlockNode) :
  stateOk st ->
  lines !! i = Some rawLine ->
  isOtherLine rawLine = true ->
  tableStartsAt lines i (trim rawLine) = false ->
  listStack st = top :: stack ->
  entry_indent top < getLineIndent rawLine ->
  readContent (entry_node top) (blocks st)
    = Some (items ++ [ListItem (Paragraph p :: rest)]) ->
  let inline := parseMarkdownInline (trim rawLine) in
  let p' := ParagraphNode match paragraph_content p with
                          | [TextNode [] _] => inline
                          | content => content ++ HardBreak :: inline
                          end in
  exists st',
    loopBody rec lines i st = Some (i + 1, st')
    /\ stateOk st'
    /\ listStack st' = listStack st
    /\ paragraphLines st' = paragraphLines st
    /\ length (blocks st') = length (blocks st)
    /\ inline <> []
    /\ readContent (entry_node top) (blocks st')
       = Some (items ++ [ListItem (Paragraph p' :: rest)]).
Proof.
  intros Hok Hraw Hother Htable Hstack Hindent Hread inline p'.
  assert (inline <> []) as Hinline.
  { apply parseMarkdownInline_nonempty. unfold isOtherLine in Hother.
    rewrite trim_trimEnd in Hother. by destruct (trim rawLine). }
  rewrite (loopBody_other _ _ _ _ _ Hraw Hother Htable), Hstack. cbn zeta.
  apply Nat.ltb_lt in Hindent. rewrite Hindent.
  destruct (appendContinuation_ok top (trimEnd rawLine) st stack Hok Hstack)
    as (st' & Happ & Hok' & Hst' & Hpl').
  rewrite Happ. obind. exists st'.
  do 4 (split; [done || congruence|]). split; [|split; [done|]].
  - unfold appendContinuationToListItem in Happ.
    apply bind_Some in Happ as (bs' & Hup & [= <-]). cbn [blocks setBlocks].
    unfold updateContent in Hup.
    destruct (updateAt_replaces _ _ _ _ _ Hup) as (j & b & c & x & _ & _ & ->).
    by rewrite length_insert.
  - destruct Hok as [Hvalid Hsorted]. rewrite Hstack in Hvalid, Hsorted.
    destruct (update_top (continueLastItem (trimEnd rawLine)) top stack
                (blocks st) Hvalid Hsorted)
      as (b & c & bs' & Hb & Hc & Hup & Hb' & _).
    unfold appendContinuationToListItem in Happ. rewrite Hup in Happ.
    injection Happ as <-. cbn [blocks setBlocks].
    unfold readContent in *. rewrite Hb in Hread. cbn in Hread.
    rewrite Hc in Hread. injection Hread as ->.
    rewrite Hb'. cbn [mbind option_bind].
    rewrite (listContent_setListContent _ _ _ Hc).
    rewrite continueLastItem_snoc, trim_trimEnd. fold inline.
    by rewrite continueParagraph_nonempty.
Qed.

Lemma continuation_line_witness :
  exists st',
    loopBody (fun _ => None) [str "- a"; str "   *b*"] 1
      {| blocks := [BulletList [ListItem [Paragraph (buildParagraph (str "a"))]]];
         paragraphLines := [];
         listStack := [{| entry_type := bullet; entry_indent := 0;
                          entry_node := {| ref_steps := []; ref_index := 0 |} |}] |}
    = Some (2, st')
    /\ readContent {| ref_steps := []; ref_index := 0 |} (blocks st')
       = Some [ListItem
                 [Paragraph
                    (ParagraphNode
                       [TextNode (str "a") None; HardBreak;
                        TextNode (str "b") (Some [Mark em None])])]].
Proof.
  set (top := {| entry_type := bullet; entry_indent := 0;
                 entry_node := {| ref_steps := []; ref_index := 0 |} |}).
  set (st := {| blocks := [BulletList [ListItem [Paragraph (buildParagraph (str "a"))]]];
                paragraphLines := [];
                listStack := [top] |}).
  assert (stateOk st) as Hok.
  { split.
    - constructor; [|constructor].
      exists (BulletList [ListItem [Paragraph (buildParagraph (str "a"))]]), None.
      by split.
    - repeat constructor. }
  destruct (continuation_line (fun _ => None) [str "- a"; str "   *b*"] 1 st
              (str "   *b*") top [] []
              (buildParagraph (str "a")) [] Hok eq_refl eq_refl eq_refl
              eq_refl ltac:(vm_compute; lia) eq_refl)
    as (st' & H1 & _ & _ & _ & _ & _ & H2).
  exists st'. split; [exact H1|exact H2].
Defined.

(** X12 - A line that no rule takes, met while no list is open or
    indented no more than the innermost open list, closes every open list
    and joins the pending paragraph with its trimmed text; no block is
    added or changed by the line itself. *)
Theorem paragraph_line
    (rec : jsstring -> option (list JiraADFBlockNode))
    (lines : list jsstring) (i : nat) (st : State) (rawLine : jsstring) :
  lines !! i = Some rawLine ->
  isOtherLine rawLine = true ->
  tableStartsAt lines i (trim rawLine) = false ->
  (forall top, head (listStack st) = Some top ->
     getLineIndent rawLine <= entry_indent top) ->
  loopBody rec lines i st
  = Some (i + 1,
          {| blocks := blocks st;
             paragraphLines := paragraphLines st ++ [trim rawLine];
             listStack := [] |})
  /\ trim rawLine <> [].
Proof.
  intros Hraw Hother Htable Htop. split.
  - rewrite (loopBody_other _ _ _ _ _ Hraw Hother Htable). cbn zeta.
    destruct (listStack st) as [|top stack]; [done|].
    specialize (Htop top eq_refl). apply Nat.ltb_ge in Htop. by rewrite Htop.
  - unfold isOtherLine in Hother. rewrite trim_trimEnd in Hother.
    by destruct (trim rawLine).
Qed.

Lemma paragraph_line_witness :
  loopBody (fun _ => None) [str "- a"; str "b "] 1
    {| blocks := [BulletList [ListItem [Paragraph (buildParagraph (str "a"))]]];
       paragraphLines := [];
       listStack := [{| entry_type := bullet; entry_indent := 0;
                        entry_node := {| ref_steps := []; ref_index := 0 |} |}] |}
  = Some (2,
          {| blocks := [BulletList [ListItem [Paragraph (buildParagraph (str "a"))]]];
             paragraphLines := [str "b"];
             listStack := [] |}).
Proof.
  refine (proj1 (paragraph_line (fun _ => None) [str "- a"; str "b "] 1 _
                   (str "b ") eq_refl eq_refl eq_refl _)).
  intros top [= <-]. vm_compute. lia.
Defined.

(** ** The list stack and the pending paragraph *)

Lemma dropWhile_dropWhile {A} (p q : A -> bool) (l : list A) :
  (forall x, p x = true -> q x = true) ->
  dropWhile q (dropWhile p l) = dropWhile q l.
Proof.
  intros Hpq. induction l as [|x l IH]; [done|]. simpl.
  destruct (p x) eqn:E; [|done]. by rewrite (Hpq x E).
Qed.

Lemma indentsIncrease_dropWhile p stack :
  indentsIncrease stack -> indentsIncrease (dropWhile p stack).
Proof.
  intros H. destruct (dropWhile_suffix p stack) as [k ->].
  by apply StronglySorted_drop.
Qed.

Lemma indentsIncrease_tail c stack :
  indentsIncrease (c :: stack) ->
  indentsIncrease stack
  /\ Forall (fun x => entry_indent x < entry_indent c) stack.
Proof. intros H. by apply StronglySorted_inv in H. Qed.

(** The stack that [ensureListContext] leaves, and its result. *)
Lemma ensureListContext_stack type indent start st e st' :
  indentsIncrease (listStack st) ->
  ensureListContext type indent start st = Some (e, st') ->
  entry_type e = type
  /\ entry_indent e = indent
  /\ listStack st'
     = e :: dropWhile (fun x => indent <=? entry_indent x) (listStack st)
  /\ indentsIncrease (listStack st')
  /\ paragraphLines st' = paragraphLines st.
Proof.
  intros Hsorted H.
  assert (forall stack, indentsIncrease stack ->
            Forall (fun x => entry_indent x < indent) stack ->
            dropWhile (fun x => indent <=? entry_indent x) stack = stack
            /\ forall x, entry_indent x = indent ->
                 indentsIncrease (x :: stack)) as Hbelow.
  { intros stack Hs Hall. split.
    - destruct Hall as [|x stack Hx _]; [done|]. simpl.
      apply Nat.leb_gt in Hx. by rewrite Hx.
    - intros x Hx. constructor; [done|].
      eapply Forall_impl; [exact Hall|]. intros y Hy. cbn beta in *. lia. }
  unfold ensureListContext in H.
  rewrite <- (dropWhile_dropWhile (fun x => indent <? entry_indent x)
               (fun x => indent <=? entry_indent x))
    by (intros x Hx; apply Nat.ltb_lt in Hx; apply Nat.leb_le; lia).
  pose proof (indentsIncrease_dropWhile (fun x => indent <? entry_indent x)
                _ Hsorted) as Hs1.
  pose proof (dropWhile_stopsRun (fun x => indent <? entry_indent x)
                (listStack st)) as Hstop.
  set (stack1 := dropWhile (fun x => indent <? entry_indent x) (listStack st))
    in *.
  clearbody stack1. destruct stack1 as [|c stack1]; cbn [head] in H.
  - injection H as <- <-. cbn [listStack paragraphLines entry_type entry_indent].
    repeat split; try done. repeat constructor.
  - cbn [stopsRun] in Hstop. apply Nat.ltb_ge in Hstop.
    destruct (indentsIncrease_tail _ _ Hs1) as [Hs2 Hall].
    destruct ((entry_indent c =? indent) && ListType_eqb (entry_type c) type)
      eqn:Ereuse.
    + injection H as <- <-. apply andb_true_iff in Ereuse as [Ei Et].
      apply Nat.eqb_eq in Ei.
      cbn [listStack setListStack paragraphLines dropWhile].
      assert ((indent <=? entry_indent c) = true) as ->
        by (apply Nat.leb_le; lia).
      rewrite Ei in Hall. destruct (Hbelow _ Hs2 Hall) as [-> _].
      repeat split; try done. by destruct (entry_type c), type.
    + assert (forall parent stack2 r,
                match parent with
                | None =>
                    Some ({| entry_type := type; entry_indent := indent;
                             entry_node := {| ref_steps := [];
                                              ref_index := length (blocks st) |} |},
                          {| blocks := blocks st ++ [createListNode type start];
                             paragraphLines := paragraphLines st;
                             listStack :=
                               {| entry_type := type; entry_indent := indent;
                                  entry_node := {| ref_steps := [];
                                                   ref_index := length (blocks st) |} |}
                               :: stack2 |})
                | Some p =>
                    content ← readContent (entry_node p) (blocks st);
                    blocks' ← updateContent (entry_node p)
                                (nestInLastItem (createListNode type start))
                                (blocks st);
                    Some ({| entry_type := type; entry_indent := indent;
                             entry_node := nestedRef (entry_node p) content |},
                          {| blocks := blocks';
                             paragraphLines := paragraphLines st;
                             listStack :=
                               {| entry_type := type; entry_indent := indent;
                                  entry_node := nestedRef (entry_node p) content |}
                               :: stack2 |})
                end = Some r ->
                entry_type r.1 = type /\ entry_indent r.1 = indent
                /\ listStack r.2 = r.1 :: stack2
                /\ paragraphLines r.2 = paragraphLines st) as Hmk.
      { intros [p|] stack2 r Hr.
        - apply bind_Some in Hr as (content & _ & Hr).
          by apply bind_Some in Hr as (bs' & _ & [= <-]).
        - by injection Hr as <-. }
      destruct (entry_indent c <? indent) eqn:Elt.
      * apply (Hmk (Some c) (c :: stack1) (e, st')) in H
          as (Ht & Hi & Hst & Hpl).
        cbn [fst snd] in *. apply Nat.ltb_lt in Elt.
        assert (Forall (fun x => entry_indent x < indent) (c :: stack1)) as Hall'.
        { constructor; [done|]. eapply Forall_impl; [exact Hall|].
          intros y Hy. cbn beta in *. lia. }
        destruct (Hbelow _ Hs1 Hall') as [-> Hcons].
        rewrite Hst. repeat split; try done. by apply Hcons.
      * apply Nat.ltb_ge in Elt.
        assert (entry_indent c = indent) as Ei by lia.
        apply Nat.eqb_eq in Ei as Ei'. rewrite Ei' in H.
        apply (Hmk (head stack1) stack1 (e, st')) in H
          as (Ht & Hi & Hst & Hpl).
        cbn [fst snd] in *. cbn [dropWhile].
        assert ((indent <=? entry_indent c) = true) as ->
          by (apply Nat.leb_le; lia).
        rewrite Ei in Hall. destruct (Hbelow _ Hs2 Hall) as [-> Hcons].
        rewrite Hst. repeat split; try done. by apply Hcons.
Qed.

Lemma stateInv_flushed st :
  paragraphLines st = [] -> listStack st = [] -> stateInv st.
Proof.
  intros Hp Hl. unfold stateInv, indentsIncrease. rewrite Hp, Hl.
  repeat split; (by left) || constructor.
Qed.

Lemma stateInv_item type indent start text st e st2 st3 :
  indentsIncrease (listStack st) ->
  ensureListContext type indent start (flushParagraph st) = Some (e, st2) ->
  pushListItem e text st2 = Some st3 ->
  stateInv st3.
Proof.
  intros Hs He Hpush. rewrite <- listStack_flushParagraph in Hs.
  destruct (ensureListContext_stack _ _ _ _ _ _ Hs He)
    as (_ & _ & _ & Hs2 & Hpl).
  rewrite paragraphLines_flushParagraph in Hpl.
  unfold pushListItem in Hpush.
  apply bind_Some in Hpush as (bs' & _ & [= <-]).
  unfold stateInv. cbn [setBlocks listStack paragraphLines]. rewrite Hpl.
  repeat split; [done|by left|constructor].
Qed.

Lemma loopBody_inv rec lines i st i' st' :
  stateInv st -> loopBody rec lines i st = Some (i', st') -> stateInv st'.
Proof.
  intros (Hs & Hex & Hbuf) H. unfold loopBody in H.
  apply bind_Some in H as (rawLine & Hraw & H).
  pose proof (paragraphLines_flushParagraph st) as Hfl.
  pose proof (trim_idemp (trimEnd rawLine)) as Hidem.
  destruct (trim (trimEnd rawLine)) as [|t0 trimmed'] eqn:Etrim.
  { injection H as <- <-. by apply stateInv_flushed. }
  destruct (codeFenceStart _) as [language|].
  { injection H as <- <-. by apply stateInv_flushed. }
  destruct (tableStartsAt _ _ _).
  { injection H as <- <-. by apply stateInv_flushed. }
  destruct (isQuoteLine _).
  { apply bind_Some in H as (qc & Hqc & [= <- <-]). by apply stateInv_flushed. }
  destruct (headingMatch _) as [[hashes text]|].
  { injection H as <- <-. by apply stateInv_flushed. }
  destruct (bulletMatch _) as [[spaces text]|].
  { apply bind_Some in H as ([e st2] & He & H).
    apply bind_Some in H as (st3 & Hpush & [= <- <-]).
    by eapply stateInv_item. }
  destruct (orderedMatch _) as [[[spaces digits] text]|].
  { apply bind_Some in H as ([e st2] & He & H).
    apply bind_Some in H as (st3 & Hpush & [= <- <-]).
    by eapply stateInv_item. }
  assert (forall s : State,
            Forall (fun l => l <> [] /\ trim l = l) (paragraphLines s) ->
            stateInv {| blocks := blocks s;
                        paragraphLines := paragraphLines s ++ [t0 :: trimmed'];
                        listStack := [] |}) as Hadd.
  { intros s Hs'. unfold stateInv. cbn [listStack paragraphLines].
    repeat split; [constructor|by right|].
    apply Forall_app. split; [done|]. by repeat constructor. }
  destruct (listStack st) as [|top stack] eqn:Est.
  { injection H as <- <-. by apply Hadd. }
  destruct (_ <? _).
  - apply bind_Some in H as (st1 & Happ & [= <- <-]).
    unfold appendContinuationToListItem in Happ.
    apply bind_Some in Happ as (bs' & _ & [= <-]).
    unfold stateInv. cbn [setBlocks listStack paragraphLines].
    by rewrite Est.
  - injection H as <- <-. by apply Hadd.
Qed.

Lemma reaches_inv lines i st : reaches lines i st -> stateInv st.
Proof.
  induction 1 as [|i st i' st' _ IH Hstep].
  - by apply stateInv_flushed.
  - by eapply loopBody_inv.
Qed.

(** Two states of runs, for the instances below. *)
Lemma reaches_nested_items :
  reaches [str "- a"; str "  - b"; str "- c"] 2
    {| blocks :=
         [BulletList
            [ListItem [Paragraph (buildParagraph (str "a"));
                       BulletList [ListItem [Paragraph (buildParagraph (str "b"))]]]]];
       paragraphLines := [];
       listStack :=
         [{| entry_type := bullet; entry_indent := 2;
             entry_node := {| ref_steps := [(0, 0)]; ref_index := 1 |} |};
          {| entry_type := bullet; entry_indent := 0;
             entry_node := {| ref_steps := []; ref_index := 0 |} |}] |}.
Proof.
  apply (reaches_step _ 1
           {| blocks := [BulletList [ListItem [Paragraph (buildParagraph (str "a"))]]];
              paragraphLines := [];
              listStack :=
                [{| entry_type := bullet; entry_indent := 0;
                    entry_node := {| ref_steps := []; ref_index := 0 |} |}] |}).
  - apply (reaches_step _ 0 initialState); [apply reaches_start|].
    vm_compute. reflexivity.
  - vm_compute. reflexivity.
Qed.

Lemma reaches_pending_lines :
  reaches [str "a "; str " b"] 2
    {| blocks := []; paragraphLines := [str "a"; str "b"]; listStack := [] |}.
Proof.
  apply (reaches_step _ 1
           {| blocks := []; paragraphLines := [str "a"]; listStack := [] |}).
  - apply (reaches_step _ 0 initialState); [apply reaches_start|].
    vm_compute. reflexivity.
  - vm_compute. reflexivity.
Qed.

(** X13 - At every test of the loop condition the indents of the open
    lists strictly increase from the bottom of the list stack to its top.
    So when an item line comes, [ensureListContext] leaves on the stack
    the open lists of strictly smaller indent with, on top of them, the
    list it returns, which has the type and the indent of the item. *)
Theorem open_list_indents_increase
    (lines : list jsstring) (i : nat) (st : State) :
  reaches lines i st ->
  indentsIncrease (listStack st)
  /\ forall type indent start e st',
       ensureListContext type indent start (flushParagraph st) = Some (e, st') ->
       entry_type e = type
       /\ entry_indent e = indent
       /\ listStack st'
          = e :: dropWhile (fun x => indent <=? entry_indent x) (listStack st)
       /\ Forall (fun x => entry_indent x < indent) (tail (listStack st')).
Proof.
  intros Hreach. destruct (reaches_inv _ _ _ Hreach) as (Hs & _ & _).
  split; [done|]. intros type indent start e st' He.
  pose proof Hs as Hs'. rewrite <- listStack_flushParagraph in Hs'.
  destruct (ensureListContext_stack _ _ _ _ _ _ Hs' He)
    as (Ht & Hi & Hst & Hs2 & _).
  rewrite listStack_flushParagraph in Hst.
  repeat split; try done.
  rewrite Hst in Hs2 |- *. cbn [tail].
  apply indentsIncrease_tail in Hs2 as [_ Hall]. by rewrite Hi in Hall.
Qed.

Lemma open_list_indents_increase_witness :
  indentsIncrease
    [{| entry_type := bullet; entry_indent := 2;
        entry_node := {| ref_steps := [(0, 0)]; ref_index := 1 |} |};
     {| entry_type := bullet; entry_indent := 0;
        entry_node := {| ref_steps := []; ref_index := 0 |} |}].
Proof.
  exact (proj1 (open_list_indents_increase _ _ _ reaches_nested_items)).
Defined.

(** X14 - A paragraph is pending only while no list is open: at every
    test of the loop condition the pending lines or the list stack are
    empty.  So the flush of the pending paragraph changes nothing while a
    list is open, and a continuation line never meets a pending
    paragraph. *)
Theorem pending_paragraph_excludes_lists
    (lines : list jsstring) (i : nat) (st : State) :
  reaches lines i st ->
  (paragraphLines st = [] \/ listStack st = [])
  /\ (listStack st <> [] -> flushParagraph st = st).
Proof.
  intros Hreach. destruct (reaches_inv _ _ _ Hreach) as (_ & Hex & _).
  split; [done|]. intros Hne. destruct Hex as [Hp|Hl]; [|done].
  unfold flushParagraph. by rewrite Hp.
Qed.

Lemma pending_paragraph_excludes_lists_witness :
  let st :=
    {| blocks :=
         [BulletList
            [ListItem [Paragraph (buildParagraph (str "a"));
                       BulletList [ListItem [Paragraph (buildParagraph (str "b"))]]]]];
       paragraphLines := [];
       listStack :=
         [{| entry_type := bullet; entry_indent := 2;
             entry_node := {| ref_steps := [(0, 0)]; ref_index := 1 |} |};
          {| entry_type := bullet; entry_indent := 0;
             entry_node := {| ref_steps := []; ref_index := 0 |} |}] |} in
  paragraphLines st = [] /\ flushParagraph st = st.
Proof.
  split; [reflexivity|].
  apply (proj2 (pending_paragraph_excludes_lists _ _ _ reaches_nested_items)).
  discriminate.
Defined.

Lemma stopsRun_app {A} (p : A -> bool) (a b : list A) :
  a <> [] -> stopsRun p a -> stopsRun p (a ++ b).
Proof. by destruct a. Qed.

Lemma join_trimmed (ls : list jsstring) :
  Forall (fun l => l <> [] /\ trim l = l) ls -> ls <> [] ->
  join (str " ") ls <> []
  /\ stopsRun isSpace (join (str " ") ls)
  /\ stopsRun isSpace (rev (join (str " ") ls)).
Proof.
  induction 1 as [|l ls [Hl Htrim] Hls IH]; [done|]. intros _.
  assert (stopsRun isSpace l /\ stopsRun isSpace (rev l)) as [Hh Ht]
    by (rewrite <- Htrim; apply trim_ends).
  destruct ls as [|q ps]; [done|].
  destruct IH as (Hne & Hh' & Ht'); [done|].
  rewrite join_cons. repeat split.
  - by destruct l.
  - by apply stopsRun_app.
  - rewrite !rev_app_distr, <- app_assoc. apply stopsRun_app; [|done].
    intros E. apply (f_equal (@rev _)) in E. by rewrite rev_involutive in E.
Qed.

Lemma flushParagraph_pending st :
  Forall (fun l => l <> [] /\ trim l = l) (paragraphLines st) ->
  paragraphLines st <> [] ->
  let text := join (str " ") (paragraphLines st) in
  text <> [] /\ trim text = text
  /\ flushParagraph st
     = {| blocks := blocks st
                    ++ [Paragraph (ParagraphNode (parseMarkdownInline text))];
          paragraphLines := [];
          listStack := listStack st |}.
Proof.
  intros Hbuf Hne text.
  destruct (join_trimmed _ Hbuf Hne) as (Htext & Hh & Ht).
  assert (trim text = text) as Htrim
    by (apply trim_fixed; [exact Hh|exact Ht]).
  repeat split; try done.
  unfold flushParagraph. fold text.
  destruct (paragraphLines st) as [|l ls] eqn:E; [done|]. rewrite Htrim.
  destruct text as [|c r] eqn:Et; [done|]. rewrite <- Et.
  assert (buildParagraph text = ParagraphNode (parseMarkdownInline text)) as ->;
    [|done].
  pose proof (buildParagraph_tokens text) as Hb.
  destruct (buildParagraph text) as [content]. cbn [paragraph_content] in Hb.
  rewrite Hb; [done|]. by rewrite Et.
Qed.

(** X15 - The pending lines are trimmed and not empty, so when the
    paragraph is flushed its text, the lines joined by single spaces, is
    not empty and needs no trimming: the flush of a non-empty buffer
    always adds one paragraph, which holds the tokens of that text. *)
Theorem pending_lines_make_a_paragraph
    (lines : list jsstring) (i : nat) (st : State) :
  reaches lines i st ->
  paragraphLines st <> [] ->
  let text := join (str " ") (paragraphLines st) in
  Forall (fun l => l <> [] /\ trim l = l) (paragraphLines st)
  /\ text <> [] /\ trim text = text
  /\ flushParagraph st
     = {| blocks := blocks st
                    ++ [Paragraph (ParagraphNode (parseMarkdownInline text))];
          paragraphLines := [];
          listStack := listStack st |}.
Proof.
  intros Hreach Hne text. destruct (reaches_inv _ _ _ Hreach) as (_ & _ & Hbuf).
  split; [done|]. by apply flushParagraph_pending.
Qed.

Lemma pending_lines_make_a_paragraph_witness :
  flushParagraph
    {| blocks := []; paragraphLines := [str "a"; str "b"]; listStack := [] |}
  = {| blocks := [Paragraph (ParagraphNode (parseMarkdownInline (str "a b")))];
       paragraphLines := [];
       listStack := [] |}.
Proof.
  refine (proj2 (proj2 (proj2 (pending_lines_make_a_paragraph _ _ _
                                 reaches_pending_lines _)))).
  discriminate.
Defined.

(** ** What an iteration leaves in place *)

Lemma updateAt_top_level steps idx f bs bs' :
  updateAt steps idx f bs = Some bs' ->
  length bs' = length bs
  /\ forall j b, bs !! j = Some b -> listContent b = None -> bs' !! j = Some b.
Proof.
  intros H.
  destruct (updateAt_replaces _ _ _ _ _ H) as (j0 & b0 & c0 & x & Hj0 & Hc0 & ->).
  split; [by rewrite length_insert|]. intros j b Hj Hb.
  rewrite list_lookup_insert_ne; [done|]. intros ->. congruence.
Qed.

Lemma flushParagraph_top_level st :
  length (blocks st) <= length (blocks (flushParagraph st))
  /\ forall j b, blocks st !! j = Some b ->
       blocks (flushParagraph st) !! j = Some b.
Proof.
  destruct (flushParagraph_blocks st) as [more ->]. rewrite length_app.
  split; [lia|]. intros j b Hj. by apply lookup_app_l_Some.
Qed.

Lemma ensureListContext_top_level type indent start st e st' :
  ensureListContext type indent start st = Some (e, st') ->
  length (blocks st) <= length (blocks st')
  /\ forall j b, blocks st !! j = Some b -> listContent b = None ->
       blocks st' !! j = Some b.
Proof.
  intros H.
  assert (forall parent stack2,
            match parent with
            | None =>
                Some ({| entry_type := type; entry_indent := indent;
                         entry_node := {| ref_steps := [];
                                          ref_index := length (blocks st) |} |},
                      {| blocks := blocks st ++ [createListNode type start];
                         paragraphLines := paragraphLines st;
                         listStack :=
                           {| entry_type := type; entry_indent := indent;
                              entry_node := {| ref_steps := [];
                                               ref_index := length (blocks st) |} |}
                           :: stack2 |})
            | Some p =>
                content ← readContent (entry_node p) (blocks st);
                blocks' ← updateContent (entry_node p)
                            (nestInLastItem (createListNode type start))
                            (blocks st);
                Some ({| entry_type := type; entry_indent := indent;
                         entry_node := nestedRef (entry_node p) content |},
                      {| blocks := blocks';
                         paragraphLines := paragraphLines st;
                         listStack :=
                           {| entry_type := type; entry_indent := indent;
                              entry_node := nestedRef (entry_node p) content |}
                           :: stack2 |})
            end = Some (e, st') ->
            length (blocks st) <= length (blocks st')
            /\ forall j b, blocks st !! j = Some b -> listContent b = None ->
                 blocks st' !! j = Some b) as Hmk.
  { intros [p|] stack2 Hr.
    - apply bind_Some in Hr as (content & _ & Hr).
      apply bind_Some in Hr as (bs' & Hup & [= <- <-]). cbn [blocks].
      destruct (updateAt_top_level _ _ _ _ _ Hup) as [Hlen Hkeep].
      split; [lia|done].
    - injection Hr as <- <-. cbn [blocks]. rewrite length_app.
      split; [lia|]. intros j b Hj _. by apply lookup_app_l_Some. }
  unfold ensureListContext in H.
  set (stack1 := dropWhile _ _) in H. clearbody stack1.
  destruct stack1 as [|c stack1]; cbn [head] in H.
  - by apply (Hmk None []).
  - destruct (_ && _).
    + injection H as <- <-. by cbn [blocks setListStack].
    + destruct (entry_indent c <? indent).
      * by apply (Hmk (Some c) (c :: stack1)).
      * destruct (entry_indent c =? indent).
        -- by apply (Hmk (head stack1) stack1).
        -- by apply (Hmk None (c :: stack1)).
Qed.

Lemma loopBody_top_level rec lines i st i' st' :
  loopBody rec lines i st = Some (i', st') ->
  length (blocks st) <= length (blocks st')
  /\ forall j b, blocks st !! j = Some b -> listContent b = None ->
       blocks st' !! j = Some b.
Proof.
  intros H. unfold loopBody in H.
  apply bind_Some in H as (rawLine & Hraw & H).
  destruct (flushParagraph_top_level st) as [Hlen Hkeep].
  assert (forall b0,
            length (blocks st)
            <= length (blocks (pushBlock b0 (flushListStack (flushParagraph st))))
            /\ forall j b, blocks st !! j = Some b -> listContent b = None ->
                 blocks (pushBlock b0 (flushListStack (flushParagraph st))) !! j
                 = Some b) as Hpush.
  { intros b0. cbn [blocks pushBlock flushListStack setListStack].
    rewrite length_app. split; [lia|]. intros j b Hj _.
    by apply lookup_app_l_Some, Hkeep. }
  assert (forall type indent start text e st2 st3,
            ensureListContext type indent start (flushParagraph st)
            = Some (e, st2) ->
            pushListItem e text st2 = Some st3 ->
            length (blocks st) <= length (blocks st3)
            /\ forall j b, blocks st !! j = Some b -> listContent b = None ->
                 blocks st3 !! j = Some b) as Hitem.
  { intros type indent start text e st2 st3 He Hp.
    destruct (ensureListContext_top_level _ _ _ _ _ _ He) as [Hlen2 Hkeep2].
    unfold pushListItem in Hp. apply bind_Some in Hp as (bs' & Hup & [= <-]).
    cbn [blocks setBlocks].
    destruct (updateAt_top_level _ _ _ _ _ Hup) as [Hlen3 Hkeep3].
    split; [lia|]. intros j b Hj Hb.
    apply Hkeep3; [|done]. apply Hkeep2; [|done]. by apply Hkeep. }
  destruct (trim (trimEnd rawLine)) as [|t0 trimmed'] eqn:Etrim.
  { injection H as <- <-. cbn [blocks flushListStack setListStack].
    split; [done|]. intros j b Hj _. by apply Hkeep. }
  destruct (codeFenceStart _) as [language|].
  { injection H as <- <-. apply Hpush. }
  destruct (tableStartsAt _ _ _).
  { injection H as <- <-. apply Hpush. }
  destruct (isQuoteLine _).
  { apply bind_Some in H as (qc & Hqc & [= <- <-]). apply Hpush. }
  destruct (headingMatch _) as [[hashes text]|].
  { injection H as <- <-. apply Hpush. }
  destruct (bulletMatch _) as [[spaces text]|].
  { apply bind_Some in H as ([e st2] & He & H).
    apply bind_Some in H as (st3 & Hp & [= <- <-]). by eapply Hitem. }
  destruct (orderedMatch _) as [[[spaces digits] text]|].
  { apply bind_Some in H as ([e st2] & He & H).
    apply bind_Some in H as (st3 & Hp & [= <- <-]). by eapply Hitem. }
  destruct (listStack st) as [|top stack]; [by injection H as <- <-|].
  destruct (_ <? _); [|by injection H as <- <-].
  apply bind_Some in H as (st1 & Happ & [= <- <-]).
  unfold appendContinuationToListItem in Happ.
  apply bind_Some in Happ as (bs' & Hup & [= <-]). cbn [blocks setBlocks].
  destruct (updateAt_top_level _ _ _ _ _ Hup) as [Hlen3 Hkeep3].
  split; [lia|done].
Qed.

(** X16 - An iteration of the loop never removes, moves or retypes a
    node.  Every block of the top level that is not a list stays as it is
    at its index, and the top level never shrinks; every node that a
    reference reaches before the iteration is reached by it afterwards: a
    list as a list of the same type and [order], a paragraph as a
    paragraph, any other node unchanged. *)
Theorem iteration_keeps_nodes
    (lines : list jsstring) (i i' : nat) (st st' : State) :
  reaches lines i st ->
  loopStep lines i st = Some (i', st') ->
  length (blocks st) <= length (blocks st')
  /\ (forall j b, blocks st !! j = Some b -> listContent b = None ->
        blocks st' !! j = Some b)
  /\ (forall r b, deref r (blocks st) = Some b ->
        exists b', deref r (blocks st') = Some b' /\ keeps b b').
Proof.
  intros Hreach Hstep. destruct (reaches_ok _ _ _ Hreach) as [_ Hshape].
  destruct (loopBody_top_level _ _ _ _ _ _ Hstep) as [Hlen Hkeep].
  repeat split; try done. by eapply loopBody_keeps.
Qed.

Lemma reaches_heading :
  reaches [str "# h"; str "- a"] 1
    {| blocks := [Heading 1 (parseMarkdownInline (str "h"))];
       paragraphLines := [];
       listStack := [] |}.
Proof.
  apply (reaches_step _ 0 initialState); [apply reaches_start|].
  vm_compute. reflexivity.
Qed.

Lemma iteration_keeps_nodes_witness :
  length [Heading 1 (parseMarkdownInline (str "h"))]
  <= length [Heading 1 (parseMarkdownInline (str "h"));
             BulletList [ListItem [Paragraph (buildParagraph (str "a"))]]]
  /\ [Heading 1 (parseMarkdownInline (str "h"));
      BulletList [ListItem [Paragraph (buildParagraph (str "a"))]]] !! 0
     = Some (Heading 1 (parseMarkdownInline (str "h"))).
Proof.
  pose proof (iteration_keeps_nodes [str "# h"; str "- a"] 1 2
                {| blocks := [Heading 1 (parseMarkdownInline (str "h"))];
                   paragraphLines := [];
                   listStack := [] |}
                {| blocks :=
                     [Heading 1 (parseMarkdownInline (str "h"));
                      BulletList [ListItem [Paragraph (buildParagraph (str "a"))]]];
                   paragraphLines := [];
                   listStack := [{| entry_type := bullet; entry_indent := 0;
                                    entry_node := {| ref_steps := []; ref_index := 1 |} |}] |}
                reaches_heading eq_refl) as H.
  exact (conj (proj1 H)
              (proj1 (proj2 H) 0 (Heading 1 (parseMarkdownInline (str "h")))
                 eq_refl eq_refl)).
Defined.

(** ** Texts of white space *)

Lemma forallb_isSpace_replaceCRLF_aux n s :
  length s <= n -> forallb isSpace (replaceCRLF s) = forallb isSpace s.
Proof.
  revert s. induction n as [|n IH]; intros s Hn.
  - destruct s; [done|simpl in Hn; lia].
  - destruct s as [|c [|d s]]; [done..|].
    rewrite replaceCRLF_cons.
    destruct ((c =? 13)%N && (d =? 10)%N) eqn:E.
    + apply andb_true_iff in E as [Ec Ed].
      apply N.eqb_eq in Ec as ->. apply N.eqb_eq in Ed as ->.
      cbn [forallb]. rewrite IH by (cbn [length] in Hn; lia). done.
    + cbn [forallb]. rewrite (IH (d :: s)) by (cbn [length] in *; lia). done.
Qed.

Lemma forallb_isSpace_replaceCRLF s :
  forallb isSpace (replaceCRLF s) = forallb isSpace s.
Proof. by apply (forallb_isSpace_replaceCRLF_aux (length s)). Qed.

Lemma split_LF_blank s :
  Forall (fun l => forallb isSpace l = true) (split LF s)
  <-> forallb isSpace s = true.
Proof.
  induction s as [|c s IH]; [by split; [|repeat constructor]|].
  cbn [split forallb]. destruct (c =? LF)%N eqn:E.
  - apply N.eqb_eq in E as ->. rewrite Forall_cons, IH. cbn. tauto.
  - pose proof (split_nonempty LF s) as Hne.
    destruct (split LF s) as [|l ls]; [done|].
    rewrite andb_true_iff, <- IH, !Forall_cons. cbn [forallb].
    rewrite andb_true_iff. tauto.
Qed.

Lemma lines_blank_iff text :
  Forall (fun l => trim l = []) (split LF (replaceCRLF text))
  <-> forallb isSpace text = true.
Proof.
  rewrite <- forallb_isSpace_replaceCRLF, <- split_LF_blank.
  apply Forall_iff. intros l. apply trim_nil_iff.
Qed.

Lemma buildParagraph_not_placeholder text :
  text <> [] -> isPlaceholder (paragraph_content (buildParagraph text)) = false.
Proof.
  intros Hne. rewrite buildParagraph_tokens by done.
  pose proof (parseMarkdownInline_tokens text) as Htok.
  destruct (parseMarkdownInline text) as [|[[|c s] m|] [|n r]]; try done.
Qed.

Lemma flushParagraph_noPlaceholder st :
  forallb (fun b => negb (isPlaceholderBlock b)) (blocks st) = true ->
  forallb (fun b => negb (isPlaceholderBlock b)) (blocks (flushParagraph st))
  = true.
Proof.
  intros H. unfold flushParagraph. destruct (paragraphLines st); [done|].
  cbn [blocks]. destruct (trim _) as [|c r] eqn:E; [done|].
  rewrite forallb_snoc, H. cbn [isPlaceholderBlock andb].
  by rewrite buildParagraph_not_placeholder.
Qed.

Lemma updateAt_noPlaceholder steps idx f bs bs' :
  updateAt steps idx f bs = Some bs' ->
  forallb (fun b => negb (isPlaceholderBlock b)) bs = true ->
  forallb (fun b => negb (isPlaceholderBlock b)) bs' = true.
Proof.
  intros H Hbs.
  destruct (updateAt_replaces _ _ _ _ _ H) as (j & b & c & x & _ & Hc & ->).
  apply forallb_insert; [done|]. by destruct b.
Qed.

Lemma loopBody_noPlaceholder rec lines i st i' st' :
  forallb (fun b => negb (isPlaceholderBlock b)) (blocks st) = true ->
  loopBody rec lines i st = Some (i', st') ->
  forallb (fun b => negb (isPlaceholderBlock b)) (blocks st') = true.
Proof.
  intros Hst H. unfold loopBody in H.
  apply bind_Some in H as (rawLine & Hraw & H).
  pose proof (flushParagraph_noPlaceholder st Hst) as Hfl.
  assert (forall type indent start text e st2 st3,
            ensureListContext type indent start (flushParagraph st)
            = Some (e, st2) ->
            pushListItem e text st2 = Some st3 ->
            forallb (fun b => negb (isPlaceholderBlock b)) (blocks st3) = true)
    as Hitem.
  { intros type indent start text e st2 st3 He Hp.
    unfold pushListItem in Hp. apply bind_Some in Hp as (bs' & Hup & [= <-]).
    cbn [blocks setBlocks]. eapply updateAt_noPlaceholder; [exact Hup|].
    destruct (ensureListContext_blocks _ _ _ _ _ _ He) as [->|[->|[r Hr]]].
    - done.
    - rewrite forallb_snoc, Hfl. by destruct type.
    - by eapply updateAt_noPlaceholder; [exact Hr|]. }
  destruct (trim (trimEnd rawLine)) as [|t0 trimmed'] eqn:Etrim.
  { by injection H as <- <-. }
  destruct (codeFenceStart _) as [language|].
  { injection H as <- <-. cbn [blocks pushBlock flushListStack setListStack].
    by rewrite forallb_snoc, Hfl. }
  destruct (tableStartsAt _ _ _).
  { injection H as <- <-. cbn [blocks pushBlock flushListStack setListStack].
    by rewrite forallb_snoc, Hfl. }
  destruct (isQuoteLine _).
  { apply bind_Some in H as (qc & Hqc & [= <- <-]).
    cbn [blocks pushBlock flushListStack setListStack].
    by rewrite forallb_snoc, Hfl. }
  destruct (headingMatch _) as [[hashes text]|].
  { injection H as <- <-. cbn [blocks pushBlock flushListStack setListStack].
    by rewrite forallb_snoc, Hfl. }
  destruct (bulletMatch _) as [[spaces text]|].
  { apply bind_Some in H as ([e st2] & He & H).
    apply bind_Some in H as (st3 & Hp & [= <- <-]). by eapply Hitem. }
  destruct (orderedMatch _) as [[[spaces digits] text]|].
  { apply bind_Some in H as ([e st2] & He & H).
    apply bind_Some in H as (st3 & Hp & [= <- <-]). by eapply Hitem. }
  destruct (listStack st) as [|top stack]; [by injection H as <- <-|].
  destruct (_ <? _); [|by injection H as <- <-].
  apply bind_Some in H as (st1 & Happ & [= <- <-]).
  unfold appendContinuationToListItem in Happ.
  apply bind_Some in Happ as (bs' & Hup & [= <-]). cbn [blocks setBlocks].
  by eapply updateAt_noPlaceholder; [exact Hup|].
Qed.

Lemma flushParagraph_hasContent st :
  stateInv st -> hasContent st -> blocks (flushParagraph st) <> [].
Proof.
  intros (_ & _ & Hbuf) [Hb|Hp].
  - destruct (flushParagraph_blocks st) as [more ->]. by destruct (blocks st).
  - destruct (join_trimmed _ Hbuf Hp) as (Htext & Hh & Ht).
    unfold flushParagraph. destruct (paragraphLines st) as [|l ls]; [done|].
    cbn [blocks]. rewrite trim_fixed by done.
    destruct (join (str " ") (l :: ls)); [done|]. by destruct (blocks st).
Qed.

Lemma loopBody_hasContent rec lines i st i' st' rawLine :
  stateInv st ->
  loopBody rec lines i st = Some (i', st') ->
  lines !! i = Some rawLine ->
  hasContent st \/ trim rawLine <> [] ->
  hasContent st'.
Proof.
  intros Hinv H Hraw Hc. unfold loopBody in H. rewrite Hraw in H.
  cbn [mbind option_bind] in H. rewrite trim_trimEnd in H.
  assert (forall b, hasContent (pushBlock b (flushListStack (flushParagraph st))))
    as Hpush.
  { intros b. left. cbn [blocks pushBlock].
    by destruct (blocks (flushListStack (flushParagraph st))). }
  assert (forall r f bs bs' (s : State),
            updateContent r f bs = Some bs' -> hasContent (setBlocks bs' s))
    as Hup.
  { intros r f bs bs' s Hu. left. cbn [blocks setBlocks].
    destruct (updateAt_replaces _ _ _ _ _ Hu) as (j & b & c & x & Hj & _ & ->).
    intros E. apply (f_equal length) in E. rewrite length_insert in E.
    apply lookup_lt_Some in Hj. cbn in E. lia. }
  destruct (trim rawLine) as [|t0 trimmed'] eqn:Etrim.
  { injection H as <- <-. destruct Hc as [Hc|Hc]; [|done].
    left. cbn [blocks flushListStack setListStack].
    by apply flushParagraph_hasContent. }
  destruct (codeFenceStart _) as [language|].
  { injection H as <- <-. apply Hpush. }
  destruct (tableStartsAt _ _ _).
  { injection H as <- <-. apply Hpush. }
  destruct (isQuoteLine _).
  { apply bind_Some in H as (qc & Hqc & [= <- <-]). apply Hpush. }
  destruct (headingMatch _) as [[hashes text]|].
  { injection H as <- <-. apply Hpush. }
  destruct (bulletMatch _) as [[spaces text]|].
  { apply bind_Some in H as ([e st2] & He & H).
    apply bind_Some in H as (st3 & Hp & [= <- <-]).
    unfold pushListItem in Hp. apply bind_Some in Hp as (bs' & Hu & [= <-]).
    by eapply Hup. }
  destruct (orderedMatch _) as [[[spaces digits] text]|].
  { apply bind_Some in H as ([e st2] & He & H).
    apply bind_Some in H as (st3 & Hp & [= <- <-]).
    unfold pushListItem in Hp. apply bind_Some in Hp as (bs' & Hu & [= <-]).
    by eapply Hup. }
  assert (forall s : State,
            hasContent {| blocks := blocks s;
                          paragraphLines := paragraphLines s ++ [t0 :: trimmed'];
                          listStack := listStack s |}) as Hadd.
  { intros s. right. cbn [paragraphLines]. by destruct (paragraphLines s). }
  destruct (listStack st) as [|top stack]; [injection H as <- <-; apply Hadd|].
  destruct (_ <? _); [|injection H as <- <-; apply Hadd].
  apply bind_Some in H as (st1 & Happ & [= <- <-]).
  unfold appendContinuationToListItem in Happ.
  apply bind_Some in Happ as (bs' & Hu & [= <-]). by eapply Hup.
Qed.

Lemma reaches_content lines i st :
  reaches lines i st ->
  forallb (fun b => negb (isPlaceholderBlock b)) (blocks st) = true
  /\ (hasContent st
      \/ (st = initialState /\ Forall (fun l => trim l = []) (take i lines))).
Proof.
  induction 1 as [|i st i' st' Hreach [IH1 IH2] Hstep].
  - split; [done|]. right. split; [done|]. rewrite take_0. constructor.
  - split; [by eapply loopBody_noPlaceholder|].
    pose proof (reaches_inv _ _ _ Hreach) as Hinv.
    assert (exists rawLine, lines !! i = Some rawLine) as [rawLine Hraw].
    { unfold loopStep, loopBody in Hstep.
      destruct (lines !! i) as [l|]; [by exists l|done]. }
    destruct (trim rawLine) as [|c r] eqn:Hblank.
    + destruct IH2 as [Hc|[-> Hall]].
      * left. eapply loopBody_hasContent; [done|exact Hstep|exact Hraw|by left].
      * right. unfold loopStep in Hstep.
        rewrite (loopBody_blank _ _ _ _ _ Hraw Hblank) in Hstep.
        injection Hstep as <- <-. split; [done|].
        rewrite Nat.add_1_r, (take_S_r _ _ _ Hraw).
        apply Forall_app. split; [done|]. by constructor.
    + left. eapply loopBody_hasContent; [done|exact Hstep|exact Hraw|].
      right. by rewrite Hblank.
Qed.

Lemma reaches_blank lines i st :
  Forall (fun l => trim l = []) lines ->
  reaches lines i st -> st = initialState.
Proof.
  intros Hall. induction 1 as [|i st i' st' Hreach IH Hstep]; [done|].
  subst st. unfold loopStep in Hstep.
  assert (exists rawLine, lines !! i = Some rawLine) as [rawLine Hraw].
  { unfold loopBody in Hstep.
    destruct (lines !! i) as [l|]; [by exists l|done]. }
  assert (trim rawLine = []) as Hblank.
  { rewrite Forall_forall in Hall. apply Hall.
    by eapply list_elem_of_lookup_2. }
  rewrite (loopBody_blank _ _ _ _ _ Hraw Hblank) in Hstep.
  by injection Hstep as <- <-.
Qed.

Lemma parseMarkdownBlocks_blank (text : jsstring) :
  (parseMarkdownBlocks text = [Paragraph (ParagraphNode [TextNode [] None])]
   <-> forallb isSpace text = true)
  /\ (forallb isSpace text = false ->
      forallb (fun b => negb (isPlaceholderBlock b)) (parseMarkdownBlocks text)
      = true).
Proof.
  destruct (parseMarkdownBlocks_reaches text) as (i & st & Hreach & Hi & ->).
  destruct (reaches_content _ _ _ Hreach) as [Hno Hc].
  pose proof (reaches_inv _ _ _ Hreach) as Hinv.
  rewrite take_ge in Hc by done. rewrite lines_blank_iff in Hc.
  assert (hasContent st ->
          finish st = blocks (flushParagraph st)
          /\ blocks (flushParagraph st) <> []) as Hfin.
  { intros H. pose proof (flushParagraph_hasContent st Hinv H) as Hne.
    unfold finish. cbn [blocks flushListStack setListStack].
    by destruct (blocks (flushParagraph st)). }
  apply flushParagraph_noPlaceholder in Hno.
  split; [split|].
  - intros Hdoc. destruct Hc as [Hc|[_ Hblank]]; [|done].
    destruct (Hfin Hc) as [Hf _]. rewrite Hf in Hdoc. by rewrite Hdoc in Hno.
  - intros Hblank. apply lines_blank_iff in Hblank.
    by rewrite (reaches_blank _ _ _ Hblank Hreach).
  - intros Hnb. destruct Hc as [Hc|[_ Hblank]]; [|congruence].
    destruct (Hfin Hc) as [-> _]. done.
Qed.

(** X17 - The converter returns the placeholder document, one paragraph
    with one empty text node, exactly when the text holds nothing but
    white space (line ends included).  For any other text no block of the
    top level of the result is a placeholder paragraph. *)
Theorem placeholder_document_iff_blank (text : jsstring) :
  (parseMarkdownBlocks text = [Paragraph (ParagraphNode [TextNode [] None])]
   <-> forallb isSpace text = true)
  /\ (forallb isSpace text = false ->
      forallb (fun b => negb (isPlaceholderBlock b)) (parseMarkdownBlocks text)
      = true).
Proof. apply parseMarkdownBlocks_blank. Qed.

(** ** Paragraphs of several lines *)

Lemma reaches_other lines i st :
  Forall (fun l => isOtherLine l = true) lines ->
  (forall j l, lines !! j = Some l -> tableStartsAt lines j (trim l) = false) ->
  reaches lines i st ->
  i <= length lines
  /\ st = {| blocks := [];
             paragraphLines := map trim (take i lines);
             listStack := [] |}.
Proof.
  intros Hall Htable. induction 1 as [|i st i' st' Hreach [IHi ->] Hstep].
  - split; [lia|done].
  - unfold loopStep in Hstep.
    assert (exists rawLine, lines !! i = Some rawLine) as [rawLine Hraw].
    { unfold loopBody in Hstep.
      destruct (lines !! i) as [l|]; [by exists l|done]. }
    assert (isOtherLine rawLine = true) as Hother.
    { rewrite Forall_forall in Hall. apply Hall.
      by eapply list_elem_of_lookup_2. }
    rewrite (loopBody_other _ _ _ _ _ Hraw Hother (Htable _ _ Hraw)) in Hstep.
    cbn in Hstep. injection Hstep as <- <-.
    apply lookup_lt_Some in Hraw as Hlt. split; [lia|].
    by rewrite Nat.add_1_r, (take_S_r _ _ _ Hraw), map_app.
Qed.

Lemma placeholder_document_iff_blank_witness :
  parseMarkdownBlocks (str " " ++ [LF; TAB])
  = [Paragraph (ParagraphNode [TextNode [] None])]
  /\ forallb (fun b => negb (isPlaceholderBlock b))
       (parseMarkdownBlocks (str "> " ++ [LF] ++ str "a")) = true.
Proof.
  split.
  - apply (proj2 (proj1 (placeholder_document_iff_blank (str " " ++ [LF; TAB])))).
    reflexivity.
  - apply (proj2 (placeholder_document_iff_blank (str "> " ++ [LF] ++ str "a"))).
    reflexivity.
Defined.

(** X18 - A text whose lines are all taken by no rule (no blank line, no
    fence, quote, heading or item line, and no table header) gives exactly
    one paragraph: the tokens of the trimmed lines joined by single
    spaces.  A line end inside a paragraph becomes one space, never a
    hard break. *)
Theorem plain_lines_make_one_paragraph (text : jsstring) :
  let lines := split LF (replaceCRLF text) in
  Forall (fun l => isOtherLine l = true) lines ->
  (forall j l, lines !! j = Some l -> tableStartsAt lines j (trim l) = false) ->
  parseMarkdownBlocks text
  = [Paragraph
       (ParagraphNode (parseMarkdownInline (join (str " ") (map trim lines))))].
Proof.
  intros lines Hall Htable.
  destruct (parseMarkdownBlocks_reaches text) as (i & st & Hreach & Hi & ->).
  fold lines in Hreach, Hi.
  destruct (reaches_other _ _ _ Hall Htable Hreach) as [Hle ->].
  pose proof (reaches_inv _ _ _ Hreach) as (_ & _ & Hbuf).
  cbn [paragraphLines] in Hbuf. rewrite take_ge in Hbuf |- * by done.
  assert (map trim lines <> []) as Hne.
  { pose proof (split_nonempty LF (replaceCRLF text)) as H.
    fold lines in H. by destruct lines. }
  destruct (flushParagraph_pending
              {| blocks := []; paragraphLines := map trim lines; listStack := [] |}
              Hbuf Hne) as (_ & _ & Hflush).
  unfold finish. by rewrite Hflush.
Qed.

Lemma plain_lines_make_one_paragraph_witness :
  parseMarkdownBlocks (str "one " ++ [CR; LF] ++ str "  *two*" ++ [LF] ++ str "3")
  = [Paragraph (ParagraphNode (parseMarkdownInline (str "one *two* 3")))].
Proof.
  apply (plain_lines_make_one_paragraph
           (str "one " ++ [CR; LF] ++ str "  *two*" ++ [LF] ++ str "3")).
  - repeat constructor.
  - intros [|[|[|j]]] l; intros [= <-]; reflexivity.
Defined.

(** ** Line ends *)

Lemma replaceCRLF_noCR s : includes CR s = false -> replaceCRLF s = s.
Proof.
  induction s as [|c s IH]; [done|]. unfold includes in *. cbn [existsb].
  intros H. apply orb_false_iff in H as [Hc Hs].
  destruct s as [|d s]; [done|]. rewrite replaceCRLF_cons.
  change 13%N with CR. rewrite Hc. cbn [andb]. by rewrite IH.
Qed.

Lemma replaceCRLF_line l rest :
  includes CR l = false ->
  replaceCRLF (l ++ CR :: LF :: rest) = l ++ LF :: replaceCRLF rest.
Proof.
  induction l as [|c l IH]; [done|]. unfold includes in *. cbn [existsb].
  intros H. apply orb_false_iff in H as [Hc Hl]. cbn [app].
  destruct (l ++ CR :: LF :: rest) as [|d s] eqn:E; [by destruct l|].
  rewrite replaceCRLF_cons. change 13%N with CR. rewrite Hc. cbn [andb].
  by rewrite IH.
Qed.

Lemma includes_join_LF_CR ls :
  Forall (fun l => includes CR l = false) ls ->
  includes CR (join [LF] ls) = false.
Proof.
  induction 1 as [|l ls Hl Hls IH]; [done|].
  destruct ls as [|q ps]; [done|].
  rewrite join_cons, !includes_app, Hl, IH. done.
Qed.

Lemma replaceCRLF_join ls :
  Forall (fun l => includes CR l = false) ls ->
  replaceCRLF (join [CR; LF] ls) = join [LF] ls.
Proof.
  induction 1 as [|l ls Hl Hls IH]; [done|].
  destruct ls as [|q ps]; [by apply replaceCRLF_noCR|].
  rewrite !join_cons. cbn [app]. by rewrite replaceCRLF_line, IH.
Qed.

Lemma parseMarkdownBlocks_lines a b :
  replaceCRLF a = replaceCRLF b ->
  parseMarkdownBlocks a = parseMarkdownBlocks b.
Proof.
  intros H.
  pose proof (parseMarkdownBlocks_fuel_ge (length a + length b + 1) a) as Ha.
  pose proof (parseMarkdownBlocks_fuel_ge (length a + length b + 1) b) as Hb.
  unfold parseMarkdownBlocks_fuel in Ha, Hb. rewrite H in Ha.
  rewrite Ha in Hb by lia. specialize (Hb ltac:(lia)). by injection Hb.
Qed.

(** X19 - The converter sees a text only through its lines: a CR LF pair
    is a line end like a lone LF.  Two texts that are equal once every
    CR LF pair is replaced by LF give the same blocks; so lines without a
    CR give the same blocks whether they are joined by CR LF or by LF. *)
Theorem crlf_is_a_line_end (a b : jsstring) (ls : list jsstring) :
  (replaceCRLF a = replaceCRLF b ->
   parseMarkdownBlocks a = parseMarkdownBlocks b)
  /\ (Forall (fun l => includes CR l = false) ls ->
      parseMarkdownBlocks (join [CR; LF] ls) = parseMarkdownBlocks (join [LF] ls)).
Proof.
  split; [apply parseMarkdownBlocks_lines|].
  intros Hls. apply parseMarkdownBlocks_lines.
  rewrite (replaceCRLF_join _ Hls). symmetry.
  by apply replaceCRLF_noCR, includes_join_LF_CR.
Qed.

Lemma crlf_is_a_line_end_witness :
  parseMarkdownBlocks (join [CR; LF] [str "# a"; str "- b"; str "c"])
  = parseMarkdownBlocks (join [LF] [str "# a"; str "- b"; str "c"]).
Proof.
  apply (proj2 (crlf_is_a_line_end [] [] [str "# a"; str "- b"; str "c"])).
  repeat constructor.
Defined.

(** ** Item lines and the open lists *)

Lemma loopBody_item rec lines i st rawLine type spaces start text :
  lines !! i = Some rawLine ->
  itemLine rawLine type spaces start text ->
  tableStartsAt lines i (trim rawLine) = false ->
  loopBody rec lines i st =
  ('(entry, st2) ← ensureListContext type (getLineIndent spaces) start
                     (flushParagraph st);
   st3 ← pushListItem entry text st2;
   Some (i + 1, st3)).
Proof.
  intros Hraw [(-> & -> & Hb)|(-> & digits & -> & Ho)] Htable.
  - by eapply loopBody_bullet.
  - by eapply loopBody_ordered.
Qed.

Lemma indentsIncrease_split above c rest :
  indentsIncrease (above ++ c :: rest) ->
  forallb (fun x => entry_indent c <? entry_indent x) above = true
  /\ indentsIncrease (c :: rest).
Proof.
  induction above as [|a above IH]; [done|]. cbn [app]. intros H.
  apply indentsIncrease_tail in H as [Hs Hall].
  destruct (IH Hs) as [Hab Hc]. split; [|done]. cbn [forallb].
  rewrite Hab, andb_true_r. apply Nat.ltb_lt.
  rewrite Forall_app, Forall_cons in Hall. by destruct Hall as (_ & ? & _).
Qed.

Lemma ensureListContext_reuse type indent start st c :
  indentsIncrease (listStack st) ->
  In c (listStack st) ->
  entry_indent c = indent -> entry_type c = type ->
  exists above rest,
    listStack st = above ++ c :: rest
    /\ ensureListContext type indent start st
       = Some (c, setListStack (c :: rest) st).
Proof.
  intros Hs Hin <- <-. apply in_split in Hin as (above & rest & Hstack).
  exists above, rest. split; [done|].
  rewrite Hstack in Hs. apply indentsIncrease_split in Hs as [Habove _].
  unfold ensureListContext. rewrite Hstack.
  rewrite dropWhile_app_stop by (done || apply Nat.ltb_irrefl).
  cbn [head]. rewrite Nat.eqb_refl. by destruct (entry_type c).
Qed.

Lemma stateOk_suffix st above stack :
  stateOk st -> listStack st = above ++ stack ->
  stateOk (setListStack stack st).
Proof.
  intros [Hv Hs] E. rewrite E in Hv, Hs. split; cbn [setListStack listStack blocks].
  - by apply Forall_app in Hv as [_ ?].
  - replace stack with (drop (length above) (above ++ stack))
      by (by rewrite drop_app_length).
    by apply StronglySorted_drop.
Qed.

(** X20 - An item line whose indent and type are those of an open list
    joins that list: the lists opened inside it are closed, no list is
    created, and the item becomes the last item of the list. *)
Theorem item_joins_open_list
    (lines : list jsstring) (i : nat) (st : State) (rawLine : jsstring)
    (type : ListType) (spaces : jsstring) (start : option number)
    (text : jsstring) (c : ListEntry) (items : list JiraADFListItemNode) :
  reaches lines i st ->
  lines !! i = Some rawLine ->
  itemLine rawLine type spaces start text ->
  tableStartsAt lines i (trim rawLine) = false ->
  In c (listStack st) ->
  entry_indent c = getLineIndent spaces ->
  entry_type c = type ->
  readContent (entry_node c) (blocks st) = Some items ->
  exists st',
    loopStep lines i st = Some (i + 1, st')
    /\ listStack st'
       = c :: dropWhile (fun x => getLineIndent spaces <=? entry_indent x)
                (listStack st)
    /\ length (blocks st') = length (blocks st)
    /\ readContent (entry_node c) (blocks st')
       = Some (items ++ [ListItem [Paragraph (buildParagraph text)]]).
Proof.
  intros Hreach Hraw Hitem Htable Hin Hindent Htype Hread.
  destruct (reaches_ok _ _ _ Hreach) as [Hok _].
  destruct (reaches_inv _ _ _ Hreach) as (Hs & Hex & _).
  assert (flushParagraph st = st) as Hflush.
  { destruct Hex as [Hp|Hl]; [|by rewrite Hl in Hin].
    unfold flushParagraph. by rewrite Hp. }
  unfold loopStep. rewrite (loopBody_item _ _ _ _ _ _ _ _ _ Hraw Hitem Htable).
  rewrite Hflush.
  destruct (ensureListContext_reuse type (getLineIndent spaces) start st c
              Hs Hin Hindent Htype) as (above & rest & Hstack & Hens).
  destruct (ensureListContext_stack _ _ _ _ _ _ Hs Hens)
    as (_ & _ & Hst2 & _ & _).
  cbn [listStack setListStack] in Hst2. rewrite Hens. obind.
  pose proof (stateOk_suffix _ _ _ Hok Hstack) as Hok2.
  destruct (pushListItem_deref c text _ rest Hok2 eq_refl)
    as (st' & b & c0 & Hpush & _ & Hst' & Hb & Hc0 & Hb').
  rewrite Hpush. obind. exists st'.
  cbn [listStack setListStack blocks] in *.
  split; [done|]. split; [by rewrite Hst'|]. split.
  - unfold pushListItem in Hpush.
    apply bind_Some in Hpush as (bs' & Hup & [= <-]). cbn [blocks setBlocks].
    by destruct (updateAt_top_level _ _ _ _ _ Hup) as [-> _].
  - unfold readContent in *. rewrite Hb in Hread. cbn in Hread.
    rewrite Hc0 in Hread. injection Hread as ->.
    rewrite Hb'. cbn [mbind option_bind].
    by apply listContent_setListContent with (c0 := items).
Qed.

Lemma item_joins_open_list_witness :
  exists st',
    loopStep [str "- a"; str "  - b"; str "- c"] 2
      {| blocks :=
           [BulletList
              [ListItem [Paragraph (buildParagraph (str "a"));
                         BulletList [ListItem [Paragraph (buildParagraph (str "b"))]]]]];
         paragraphLines := [];
         listStack :=
           [{| entry_type := bullet; entry_indent := 2;
               entry_node := {| ref_steps := [(0, 0)]; ref_index := 1 |} |};
            {| entry_type := bullet; entry_indent := 0;
               entry_node := {| ref_steps := []; ref_index := 0 |} |}] |}
    = Some (3, st')
    /\ listStack st'
       = [{| entry_type := bullet; entry_indent := 0;
             entry_node := {| ref_steps := []; ref_index := 0 |} |}]
    /\ readContent {| ref_steps := []; ref_index := 0 |} (blocks st')
       = Some [ListItem [Paragraph (buildParagraph (str "a"));
                         BulletList [ListItem [Paragraph (buildParagraph (str "b"))]]];
               ListItem [Paragraph (buildParagraph (str "c"))]].
Proof.
  destruct (item_joins_open_list _ _ _ (str "- c") bullet [] None (str "c")
              {| entry_type := bullet; entry_indent := 0;
                 entry_node := {| ref_steps := []; ref_index := 0 |} |}
              [ListItem [Paragraph (buildParagraph (str "a"));
                         BulletList [ListItem [Paragraph (buildParagraph (str "b"))]]]]
              reaches_nested_items eq_refl
              (or_introl (conj eq_refl (conj eq_refl eq_refl)))
              eq_refl (or_intror (or_introl eq_refl)) eq_refl eq_refl eq_refl)
    as (st' & H1 & H2 & _ & H3).
  exists st'. split; [exact H1|]. split; [exact H2|exact H3].
Defined.

Lemma ensureListContext_new_entry type indent start st :
  indentsIncrease (listStack st) ->
  (forall c, In c (listStack st) -> entry_indent c = indent ->
     entry_type c <> type) ->
  ensureListContext type indent start st =
  let below := dropWhile (fun x => indent <=? entry_indent x) (listStack st) in
  let node := createListNode type start in
  match head below with
  | None =>
      let entry := {| entry_type := type; entry_indent := indent;
                      entry_node := {| ref_steps := [];
                                       ref_index := length (blocks st) |} |} in
      Some (entry,
            {| blocks := blocks st ++ [node];
               paragraphLines := paragraphLines st;
               listStack := entry :: below |})
  | Some p =>
      content ← readContent (entry_node p) (blocks st);
      blocks' ← updateContent (entry_node p) (nestInLastItem node) (blocks st);
      let entry := {| entry_type := type; entry_indent := indent;
                      entry_node := nestedRef (entry_node p) content |} in
      Some (entry,
            {| blocks := blocks';
               paragraphLines := paragraphLines st;
               listStack := entry :: below |})
  end.
Proof.
  intros Hsorted Hfresh. cbn zeta. unfold ensureListContext.
  rewrite <- (dropWhile_dropWhile (fun x => indent <? entry_indent x)
               (fun x => indent <=? entry_indent x))
    by (intros x Hx; apply Nat.ltb_lt in Hx; apply Nat.leb_le; lia).
  pose proof (indentsIncrease_dropWhile (fun x => indent <? entry_indent x)
                _ Hsorted) as Hs1.
  pose proof (dropWhile_stopsRun (fun x => indent <? entry_indent x)
                (listStack st)) as Hstop.
  assert (forall c, In c (dropWhile (fun x => indent <? entry_indent x)
                            (listStack st)) -> In c (listStack st)) as Hin.
  { intros c. destruct (dropWhile_suffix (fun x => indent <? entry_indent x)
                          (listStack st)) as [k ->].
    intros Hc%list_elem_of_In. apply list_elem_of_In.
    by eapply subseteq_drop. }
  set (stack1 := dropWhile (fun x => indent <? entry_indent x) (listStack st))
    in *.
  clearbody stack1. destruct stack1 as [|c stack1]; [done|].
  cbn [stopsRun head] in *. apply Nat.ltb_ge in Hstop.
  destruct (indentsIncrease_tail _ _ Hs1) as [Hs2 Hall].
  destruct (entry_indent c <? indent) eqn:Elt.
  - apply Nat.ltb_lt in Elt.
    assert ((entry_indent c =? indent) = false) as ->
      by (apply Nat.eqb_neq; lia).
    cbn [andb dropWhile].
    assert ((indent <=? entry_indent c) = false) as ->
      by (apply Nat.leb_gt; lia).
    done.
  - apply Nat.ltb_ge in Elt. assert (entry_indent c = indent) as Ei by lia.
    assert (ListType_eqb (entry_type c) type = false) as ->.
    { specialize (Hfresh c (Hin c (or_introl eq_refl)) Ei).
      by destruct (entry_type c), type. }
    rewrite andb_false_r. apply Nat.eqb_eq in Ei as Ei'. rewrite Ei'.
    cbn [dropWhile tail].
    assert ((indent <=? entry_indent c) = true) as ->
      by (apply Nat.leb_le; lia).
    assert (dropWhile (fun x => indent <=? entry_indent x) stack1 = stack1)
      as ->; [|done].
    destruct Hall as [|x stack1 Hx _]; [done|]. cbn [dropWhile].
    assert ((indent <=? entry_indent x) = false) as ->
      by (apply Nat.leb_gt; lia).
    done.
Qed.

(** X21 - An item line whose indent and type are those of no open list
    opens a new list.  The open lists of the same or a larger indent are
    closed; the new list goes into the last item of the innermost list
    that is left (the one that [nestedRef] points into), or to the end of
    the top level, after the flushed paragraph, when none is left; and the
    item of the line is the one item of the new list. *)
Theorem item_opens_new_list
    (lines : list jsstring) (i : nat) (st : State) (rawLine : jsstring)
    (type : ListType) (spaces : jsstring) (start : option number)
    (text : jsstring) :
  reaches lines i st ->
  lines !! i = Some rawLine ->
  itemLine rawLine type spaces start text ->
  tableStartsAt lines i (trim rawLine) = false ->
  (forall c, In c (listStack st) ->
     entry_indent c = getLineIndent spaces -> entry_type c <> type) ->
  let indent := getLineIndent spaces in
  let below := dropWhile (fun x => indent <=? entry_indent x) (listStack st) in
  let newList :=
    setListContent (createListNode type start)
      [ListItem [Paragraph (buildParagraph text)]] in
  exists e st',
    loopStep lines i st = Some (i + 1, st')
    /\ listStack st' = e :: below
    /\ entry_type e = type /\ entry_indent e = indent
    /\ deref (entry_node e) (blocks (flushParagraph st)) = None
    /\ deref (entry_node e) (blocks st') = Some newList
    /\ match head below with
       | None => blocks st' = blocks (flushParagraph st) ++ [newList]
       | Some p =>
           exists content,
             readContent (entry_node p) (blocks st) = Some content
             /\ entry_node e = nestedRef (entry_node p) content
       end.
Proof.
  intros Hreach Hraw Hitem Htable Hfresh indent below newList.
  destruct (reaches_ok _ _ _ Hreach) as [Hok _].
  destruct (reaches_inv _ _ _ Hreach) as (Hs & Hex & _).
  pose proof (stateOk_flushParagraph _ Hok) as Hok0.
  pose proof (listStack_flushParagraph st) as Hstack0.
  unfold loopStep. rewrite (loopBody_item _ _ _ _ _ _ _ _ _ Hraw Hitem Htable).
  fold indent.
  destruct (ensureListContext_ok type indent start _ Hok0)
    as (e & st2 & stack' & Hens & Hok2 & Hst2 & _ & Htype & Hcase).
  rewrite <- Hstack0 in Hs, Hfresh.
  destruct (ensureListContext_stack _ _ _ _ _ _ Hs Hens)
    as (_ & Hindent & Hst2' & _ & _).
  rewrite Hstack0 in Hst2'. fold below in Hst2'.
  destruct Hcase as [[Hin _]|[Hnone Hnew]].
  { exfalso. by apply (Hfresh e Hin Hindent). }
  destruct (pushListItem_deref e text st2 stack' Hok2 Hst2)
    as (st' & b & c0 & Hpush & _ & Hst' & Hb & Hc0 & Hb').
  rewrite Hens. obind. rewrite Hpush. obind. exists e, st'.
  split; [done|]. split; [by rewrite Hst', Hst2'|].
  split; [done|]. split; [done|]. split; [done|].
  rewrite Hnew in Hb. injection Hb as <-.
  rewrite listContent_createListNode in Hc0. injection Hc0 as <-.
  split; [done|].
  rewrite (ensureListContext_new_entry _ _ _ _ Hs Hfresh) in Hens.
  cbn zeta in Hens. rewrite Hstack0 in Hens. subst below indent.
  destruct (head (dropWhile _ (listStack st))) as [p|] eqn:Ehd.
  - apply bind_Some in Hens as (content & Hread & Hens).
    apply bind_Some in Hens as (bs' & Hup & [= <- <-]).
    exists content. split; [|done].
    destruct Hex as [Hp|Hl]; [|by rewrite Hl in Ehd].
    unfold flushParagraph in Hread. by rewrite Hp in Hread.
  - injection Hens as <- <-.
    unfold pushListItem, updateContent in Hpush.
    cbn [entry_node ref_steps ref_index blocks updateAt] in Hpush.
    rewrite list_lookup_middle in Hpush by done.
    cbn [mbind option_bind] in Hpush.
    rewrite listContent_createListNode in Hpush.
    cbn [mbind option_bind app] in Hpush. injection Hpush as <-.
    cbn [blocks setBlocks]. by rewrite insert_at_length.
Qed.

Lemma reaches_one_item :
  reaches [str "- a"; str "1. b"] 1
    {| blocks := [BulletList [ListItem [Paragraph (buildParagraph (str "a"))]]];
       paragraphLines := [];
       listStack :=
         [{| entry_type := bullet; entry_indent := 0;
             entry_node := {| ref_steps := []; ref_index := 0 |} |}] |}.
Proof.
  apply (reaches_step _ 0 initialState); [apply reaches_start|].
  vm_compute. reflexivity.
Qed.

Lemma item_opens_new_list_witness :
  exists e st',
    loopStep [str "- a"; str "1. b"] 1
      {| blocks := [BulletList [ListItem [Paragraph (buildParagraph (str "a"))]]];
         paragraphLines := [];
         listStack :=
           [{| entry_type := bullet; entry_indent := 0;
               entry_node := {| ref_steps := []; ref_index := 0 |} |}] |}
    = Some (2, st')
    /\ listStack st' = [e]
    /\ blocks st'
       = [BulletList [ListItem [Paragraph (buildParagraph (str "a"))]];
          OrderedList (Some (integer 1))
            [ListItem [Paragraph (buildParagraph (str "b"))]]].
Proof.
  destruct (item_opens_new_list _ _ _ (str "1. b") ordered []
              (Some (integer 1)) (str "b") reaches_one_item eq_refl
              (or_intror (conj eq_refl
                            (ex_intro _ (str "1") (conj eq_refl eq_refl))))
              eq_refl)
    as (e & st' & H1 & H2 & _ & _ & _ & _ & H3).
  - intros c [<-|[]] _. discriminate.
  - exists e, st'. split; [exact H1|]. split; [exact H2|exact H3].
Defined.

(** ** The tokens of the inline tokenizer *)

Lemma inlineLoop_tokenized fuel s nodes :
  length s <= fuel ->
  exists out, inlineLoop fuel s nodes = Some (nodes ++ out) /\ tokenized s out.
Proof.
  revert s nodes. induction fuel as [|fuel IH]; intros s nodes Hlen.
  - destruct s; [|simpl in Hlen; lia]. exists []. rewrite app_nil_r.
    split; [done|constructor].
  - destruct s as [|c s].
    { exists []. rewrite app_nil_r. split; [done|constructor]. }
    rewrite inlineLoop_step.
    destruct (inlineStep (c :: s)) as [n next] eqn:E.
    pose proof E as Hprog. apply inlineStep_progress in Hprog as [_ Hnext]; [|done].
    destruct next as [rest|].
    + destruct (IH rest (nodes ++ [n])) as (out & -> & Hout).
      { simpl in *. lia. }
      exists (n :: out). rewrite <- app_assoc. split; [done|].
      by eapply tokenized_step.
    + exists [n]. split; [done|]. by apply tokenized_break.
Qed.

Lemma parseMarkdownInline_tokenized s : tokenized s (parseMarkdownInline s).
Proof.
  destruct (inlineLoop_tokenized (length s) s [] (le_n _)) as (out & H & Hout).
  pose proof (parseMarkdownInline_fuel_Some s) as H'.
  unfold parseMarkdownInline_fuel in H'. rewrite H in H'.
  injection H' as <-. done.
Qed.

Lemma notChar_lacks c s : forallb (notChar c) s = lacks c s.
Proof.
  unfold lacks, includes. induction s as [|d s IH]; [done|].
  cbn [forallb existsb]. rewrite IH, negb_orb. done.
Qed.

Lemma delimited_inner open stop close s m :
  delimited open stop close s = Some m ->
  exists inner,
    inner <> [] /\ lacks stop inner = true
    /\ m = [open ++ inner ++ close; inner].
Proof.
  unfold delimited. intros H.
  apply bind_Some in H as (rest & E1 & H).
  pose proof (takeWhile_forallb (notChar stop) rest) as Hin.
  destruct (takeWhile (notChar stop) rest) as [|c inner] eqn:E2; [done|].
  apply bind_Some in H as (rest' & E3 & [= <-]).
  exists (c :: inner). by rewrite <- notChar_lacks.
Qed.

Lemma linkRegex_inner s m :
  linkRegex s = Some m ->
  exists inner target all,
    inner <> [] /\ lacks 93%N inner = true
    /\ target <> [] /\ lacks 41%N target = true
    /\ m = [all; inner; target].
Proof.
  unfold linkRegex. intros H.
  apply bind_Some in H as (m1 & E1 & H).
  apply delimited_inner in E1 as (inner & Hne & Hlacks & ->).
  apply bind_Some in H as (rest & E2 & H).
  pose proof (takeWhile_forallb (notChar 41%N) rest) as Hin.
  destruct (takeWhile (notChar 41%N) rest) as [|c target] eqn:E3; [done|].
  apply bind_Some in H as (rest' & E4 & [= <-]).
  rewrite notChar_lacks in Hin.
  eexists inner, (c :: target), _.
  split; [done|]. split; [done|]. split; [done|]. split; [done|]. reflexivity.
Qed.

Lemma specialAt_markup c s : specialAt (c :: s) = false -> isMarkupUnit c = false.
Proof.
  unfold specialAt, isMarkupUnit.
  by destruct (stripPrefix (str "~~") (c :: s)).
Qed.

Lemma searchSpecial_take s k :
  searchSpecial s = Some k ->
  forallb (fun c => negb (isMarkupUnit c)) (take k s) = true.
Proof.
  revert k. induction s as [|c s IH]; intros k; [done|].
  cbn [searchSpecial]. destruct (specialAt (c :: s)) eqn:E.
  - by intros [= <-].
  - intros H. apply fmap_Some in H as (k' & Hk' & ->).
    cbn [take forallb]. by rewrite (specialAt_markup _ _ E), IH.
Qed.

Lemma searchSpecial_None s :
  searchSpecial s = None ->
  forallb (fun c => negb (isMarkupUnit c)) s = true.
Proof.
  induction s as [|c s IH]; [done|].
  cbn [searchSpecial]. destruct (specialAt (c :: s)) eqn:E; [done|].
  intros H. apply fmap_None in H.
  cbn [forallb]. by rewrite (specialAt_markup _ _ E), IH.
Qed.

Lemma inlineStep_shape s n next :
  s <> [] -> inlineStep s = (n, next) -> tokenShape n = true.
Proof.
  intros Hs. unfold inlineStep.
  destruct (firstMatch patterns s) as [[p m]|] eqn:E.
  - intros [= <- _]. apply firstMatch_In in E as [Hin Hm].
    unfold patterns in Hin. cbn [In] in Hin.
    repeat (destruct Hin as [<-|Hin];
      [ cbn [regex textGroup hrefGroup markOf markType] in *;
        first
          [ apply delimited_inner in Hm as (inner & Hne & Hlacks & ->);
            change (group [?a; ?b] 1) with b;
            destruct inner; [done|];
            cbn [tokenShape]; rewrite Hlacks; by rewrite ?orb_true_r
          | apply linkRegex_inner in Hm
              as (inner & target & all & Hne & Hl1 & Hne2 & Hl2 & ->);
            change (group [?a; ?b; ?c] 1) with b;
            change (group [?a; ?b; ?c] (default 2 (Some 2))) with c;
            destruct inner; [done|]; destruct target; [done|];
            cbn [tokenShape]; by rewrite Hl1, Hl2 ]
      | ]).
    done.
  - destruct (searchSpecial s) as [[|k]|] eqn:E2; intros [= <- _].
    + destruct s as [|c [|d s]]; done.
    + pose proof (searchSpecial_take _ _ E2) as Hall.
      destruct (take (S k) s) eqn:Et; [by destruct s|].
      cbn [tokenShape]. by rewrite Hall, orb_true_r.
    + pose proof (searchSpecial_None _ E2) as Hall.
      destruct s; [done|]. cbn [tokenShape]. by rewrite Hall, orb_true_r.
Qed.

(** X22 - The shape of the nodes of the tokenizer.  An unmarked text is
    either one unit or holds none of the units [* _ ` [ ]]; a strike text
    holds no [~], a code text no backtick, a strong or emphasised text no
    [*] or no [_]; the text of a link holds no closing bracket and its
    [href] is not empty and holds no closing parenthesis.  No text is
    empty. *)
Theorem token_shapes (text : jsstring) :
  forallb tokenShape (parseMarkdownInline text) = true.
Proof.
  pose proof (parseMarkdownInline_tokenized text) as H.
  induction H as [|s n Hs Hstep|s n rest nodes Hs Hstep _ IH]; [done| |].
  - cbn [forallb]. by rewrite (inlineStep_shape _ _ _ Hs Hstep).
  - cbn [forallb]. by rewrite (inlineStep_shape _ _ _ Hs Hstep), IH.
Qed.

Lemma linkRegex_all s m :
  linkRegex s = Some m ->
  exists inner target,
    m = [(str "[" ++ inner ++ str "](") ++ target ++ str ")"; inner; target].
Proof.
  unfold linkRegex. intros H.
  apply bind_Some in H as (m1 & E1 & H).
  apply delimited_inner in E1 as (inner & _ & _ & ->).
  apply bind_Some in H as (rest & E2 & H).
  destruct (takeWhile (notChar 41%N) rest) as [|c target] eqn:E3; [done|].
  apply bind_Some in H as (rest' & E4 & [= <-]).
  by exists inner, (c :: target).
Qed.

Lemma firstMatch_sublist s p m :
  firstMatch patterns s = Some (p, m) ->
  sublist (group m (textGroup p)) (group m 0).
Proof.
  intros H. apply firstMatch_In in H as [Hin Hm].
  unfold patterns in Hin. cbn [In] in Hin.
  repeat (destruct Hin as [<-|Hin];
    [ cbn [regex textGroup] in *;
      first
        [ apply delimited_inner in Hm as (inner & _ & _ & ->);
          change (group [?a; ?b] 0) with a; change (group [?a; ?b] 1) with b;
          by apply sublist_inserts_l, sublist_inserts_r
        | apply linkRegex_all in Hm as (inner & target & ->);
          change (group [?a; ?b; ?c] 0) with a;
          change (group [?a; ?b; ?c] 1) with b;
          by apply sublist_inserts_r, sublist_inserts_l, sublist_inserts_r ]
    | ]).
  done.
Qed.

(** What an iteration takes from [remaining] and what it keeps of it. *)
Lemma inlineStep_consumes s n next :
  s <> [] -> inlineStep s = (n, next) ->
  exists consumed,
    s = consumed ++ default [] next
    /\ sublist (nodeText n) consumed
    /\ (isUnmarked n = true -> nodeText n = consumed).
Proof.
  intros Hs. unfold inlineStep.
  destruct (firstMatch patterns s) as [[p m]|] eqn:E.
  - intros [= <- <-]. pose proof (firstMatch_sublist _ _ _ E) as Hsub.
    apply firstMatch_inv in E as (_ & _ & rest & Hrest).
    exists (group m 0). unfold default. cbn [from_option id nodeText isUnmarked].
    split; [|by split].
    rewrite Hrest at 2. by rewrite drop_app_length.
  - destruct (searchSpecial s) as [[|k]|] eqn:E2; intros [= <- <-];
      unfold default; cbn [from_option id nodeText isUnmarked].
    + exists (take 1 s). by rewrite take_drop.
    + exists (take (S k) s). by rewrite take_drop.
    + exists s. by rewrite app_nil_r.
Qed.

(** X23 - The tokenizer drops nothing but delimiters and link targets:
    the texts of its nodes, in order, are disjoint pieces of the input in
    the order of the input (their concatenation is a subsequence of it);
    when no node is marked they concatenate to the input itself.  There
    are at most as many nodes as units of input. *)
Theorem inline_texts (text : jsstring) :
  let nodes := parseMarkdownInline text in
  sublist (concat (map nodeText nodes)) text
  /\ (forallb isUnmarked nodes = true -> concat (map nodeText nodes) = text)
  /\ length nodes <= length text.
Proof.
  cbn zeta. pose proof (parseMarkdownInline_tokenized text) as H.
  induction H as [|s n Hs Hstep|s n rest nodes Hs Hstep _ (IH1 & IH2 & IH3)].
  - by repeat split.
  - destruct (inlineStep_consumes _ _ _ Hs Hstep) as (consumed & E & Hsub & Hun).
    unfold default in E. cbn [from_option id] in E.
    rewrite app_nil_r in E. subst consumed.
    cbn [map concat forallb length]. rewrite app_nil_r, andb_true_r.
    repeat split; try done. destruct s; [done|]. cbn [length]. lia.
  - destruct (inlineStep_consumes _ _ _ Hs Hstep) as (consumed & E & Hsub & Hun).
    pose proof (inlineStep_progress _ _ _ Hs Hstep) as [_ Hlt].
    unfold default in E. cbn [from_option id] in E.
    cbn [map concat forallb length]. repeat split.
    + rewrite E. by apply sublist_app.
    + intros Hall. apply andb_true_iff in Hall as [Hn Hall].
      by rewrite (Hun Hn), (IH2 Hall).
    + lia.
Qed.

Lemma inline_texts_witness :
  concat (map nodeText (parseMarkdownInline (str "a ~ b * c")))
  = str "a ~ b * c".
Proof.
  apply (proj1 (proj2 (inline_texts (str "a ~ b * c")))). reflexivity.
Defined.

(** ** The markup forms *)

Lemma stripPrefix_same pre s : stripPrefix pre (pre ++ s) = Some s.
Proof.
  induction pre as [|c pre IH]; [by destruct s|].
  cbn [app stripPrefix]. by rewrite N.eqb_refl.
Qed.

Lemma delimited_match open stop close' inner rest :
  inner <> [] -> lacks stop inner = true ->
  delimited open stop (stop :: close')
    (open ++ inner ++ (stop :: close') ++ rest)
  = Some [open ++ inner ++ stop :: close'; inner].
Proof.
  intros Hne Hl. rewrite <- notChar_lacks in Hl. unfold delimited.
  rewrite stripPrefix_same. obind. cbn [app].
  assert (notChar stop stop = false) as Hstop
    by (unfold notChar; by rewrite N.eqb_refl).
  rewrite takeWhile_app_stop, dropWhile_app_stop by done.
  destruct inner as [|h inner]; [done|].
  change (stop :: close' ++ rest) with ((stop :: close') ++ rest).
  by rewrite stripPrefix_same.
Qed.

Lemma delimited_fails open stop close s :
  stripPrefix open s = None -> delimited open stop close s = None.
Proof. intros H. unfold delimited. by rewrite H. Qed.

Lemma linkRegex_fails s :
  stripPrefix (str "[") s = None -> linkRegex s = None.
Proof. intros H. unfold linkRegex. by rewrite (delimited_fails _ _ _ _ H). Qed.

Lemma inlineStep_match s p m rest :
  firstMatch patterns s = Some (p, m) ->
  s = group m 0 ++ rest ->
  inlineStep s
  = (TextNode (group m (textGroup p)) (Some [markOf p m]), Some rest).
Proof.
  intros H E. unfold inlineStep. rewrite H.
  rewrite E. by rewrite drop_app_length.
Qed.

Lemma firstMatch_at ps1 p ps2 s m :
  Forall (fun q => regex q s = None) ps1 ->
  regex p s = Some m ->
  firstMatch (ps1 ++ p :: ps2) s = Some (p, m).
Proof.
  intros Hnone Hm. induction Hnone as [|q ps1 Hq _ IH]; cbn [app firstMatch].
  - by rewrite Hm.
  - by rewrite Hq.
Qed.

Ltac str_units :=
  change (str "~~") with [126%N; 126%N] in *;
  change (str "**") with [42%N; 42%N] in *;
  change (str "*") with [42%N] in *;
  change (str "__") with [95%N; 95%N] in *;
  change (str "_") with [95%N] in *;
  change (str "`") with [96%N] in *;
  change (str "[") with [91%N] in *;
  change (str "](") with [93%N; 40%N] in *;
  change (str ")") with [41%N] in *.

(** A pattern whose first or second unit is not the one of the input
    does not match. *)
Ltac prefix_fails Hh :=
  first [ apply delimited_fails | apply linkRegex_fails ];
  str_units; cbn [app stripPrefix];
  first [ reflexivity
        | rewrite N.eqb_refl; cbn [stripPrefix];
          rewrite (N.eqb_sym _ _), Hh; reflexivity ].

Lemma delimiter_form (inner rest : jsstring) d stop type :
  inner <> [] ->
  In (d, stop, type) delimiters -> lacks stop inner = true ->
  inlineStep (d ++ inner ++ d ++ rest)
  = (TextNode inner (Some [Mark type None]), Some rest).
Proof.
  intros Hne Hin Hl. unfold delimiters in Hin. cbn [In] in Hin.
  assert (exists h inner', inner = h :: inner' /\ (h =? stop)%N = false)
    as (h & inner' & Einner & Hh).
  { destruct inner as [|h inner']; [done|]. exists h, inner'. split; [done|].
    unfold lacks, includes in Hl. cbn [existsb] in Hl.
    by apply negb_true_iff, orb_false_iff in Hl as [Hl _]. }
  assert (forall k p,
            patterns !! k = Some p ->
            regex p = delimited d stop d -> markType p = type ->
            markType p <> link -> textGroup p = 1 ->
            Forall (fun q => regex q (d ++ inner ++ d ++ rest) = None)
              (take k patterns) ->
            (exists d', d = stop :: d') ->
            inlineStep (d ++ inner ++ d ++ rest)
            = (TextNode inner (Some [Mark type None]), Some rest)) as Hcase.
  { intros k p Hk Hre Hty Hnl Htg Hnone [d' Hd].
    assert (firstMatch patterns (d ++ inner ++ d ++ rest)
            = Some (p, [d ++ inner ++ d; inner])) as Hfm.
    { rewrite <- (take_drop_middle _ _ _ Hk) at 1.
      apply firstMatch_at; [done|]. rewrite Hre, Hd.
      by apply delimited_match. }
    rewrite (inlineStep_match _ _ _ rest Hfm).
    - rewrite Htg. change (group [?a; ?b] 1) with b. unfold markOf.
      rewrite <- Hty. by destruct (markType p).
    - change (group [?a; ?b] 0) with a. by rewrite <- !app_assoc. }
  destruct Hin as [[= <- <- <-]|Hin].
  { apply (Hcase 0 _ eq_refl);
      [reflexivity|reflexivity|discriminate|reflexivity|constructor|by eexists]. }
  destruct Hin as [[= <- <- <-]|Hin].
  { apply (Hcase 1 _ eq_refl);
      [reflexivity|reflexivity|discriminate|reflexivity| |by eexists].
    subst inner. repeat constructor; cbn [regex]; prefix_fails Hh. }
  destruct Hin as [[= <- <- <-]|Hin].
  { apply (Hcase 2 _ eq_refl);
      [reflexivity|reflexivity|discriminate|reflexivity| |by eexists].
    subst inner. repeat constructor; cbn [regex]; prefix_fails Hh. }
  destruct Hin as [[= <- <- <-]|Hin].
  { apply (Hcase 3 _ eq_refl);
      [reflexivity|reflexivity|discriminate|reflexivity| |by eexists].
    subst inner. repeat constructor; cbn [regex]; prefix_fails Hh. }
  destruct Hin as [[= <- <- <-]|Hin].
  { apply (Hcase 4 _ eq_refl);
      [reflexivity|reflexivity|discriminate|reflexivity| |by eexists].
    subst inner. repeat constructor; cbn [regex]; prefix_fails Hh. }
  destruct Hin as [[= <- <- <-]|[]].
  apply (Hcase 5 _ eq_refl);
    [reflexivity|reflexivity|discriminate|reflexivity| |by eexists].
  subst inner. repeat constructor; cbn [regex]; prefix_fails Hh.
Qed.

Lemma linkRegex_match inner target rest :
  inner <> [] -> lacks 93%N inner = true ->
  target <> [] -> lacks 41%N target = true ->
  linkRegex (str "[" ++ inner ++ str "](" ++ target ++ str ")" ++ rest)
  = Some [(str "[" ++ inner ++ str "](") ++ target ++ str ")"; inner; target].
Proof.
  intros Hne Hl Hne2 Hl2. unfold linkRegex.
  assert (str "](" = 93%N :: str "(") as Hclose by reflexivity.
  rewrite Hclose at 1 2.
  rewrite (delimited_match (str "[") 93%N (str "(") inner
             (target ++ str ")" ++ rest) Hne Hl).
  obind. change (group [?a; ?b] 0) with a. change (group [?a; ?b] 1) with b.
  rewrite <- Hclose.
  replace (str "[" ++ inner ++ str "](" ++ target ++ str ")" ++ rest)
    with ((str "[" ++ inner ++ str "](") ++ target ++ str ")" ++ rest)
    by (by rewrite <- !app_assoc).
  rewrite stripPrefix_same. obind.
  rewrite <- notChar_lacks in Hl2.
  change (str ")") with [41%N]. cbn [app].
  rewrite takeWhile_app_stop, dropWhile_app_stop by done.
  destruct target as [|t target]; [done|].
  cbn [stripPrefix]. by rewrite N.eqb_refl.
Qed.

Lemma link_form (inner target rest : jsstring) :
  inner <> [] -> lacks 93%N inner = true ->
  target <> [] -> lacks 41%N target = true ->
  inlineStep (str "[" ++ inner ++ str "](" ++ target ++ str ")" ++ rest)
  = (TextNode inner (Some [Mark link (Some target)]), Some rest).
Proof.
  intros Hne Hl Hne2 Hl2.
  assert (firstMatch patterns
            (str "[" ++ inner ++ str "](" ++ target ++ str ")" ++ rest)
          = Some ({| regex := linkRegex; markType := link;
                     textGroup := 1; hrefGroup := Some 2 |},
                  [(str "[" ++ inner ++ str "](") ++ target ++ str ")";
                   inner; target])) as Hfm.
  { apply (firstMatch_at (take 6 patterns) _ []).
    - repeat constructor; cbn [regex]; apply delimited_fails;
        str_units; reflexivity.
    - by apply linkRegex_match. }
  rewrite (inlineStep_match _ _ _ rest Hfm); [done|].
  change (group [?a; ?b; ?c] 0) with a. by rewrite <- !app_assoc.
Qed.

(** X24 - The markup forms.  A text that starts with one of the six
    delimiters, a non-empty run of units without the unit of the
    delimiter, and the delimiter again gives, in one iteration, a node
    with that run and the mark of the delimiter ([~~] strike, two [*] or
    two [_] strong, one [*] or one [_] emphasis, a backtick code), and
    the tokenizer goes on after the closing delimiter; a bracketed label
    followed by a target in parentheses gives a link node with the label
    as its text and the target as its [href]. *)
Theorem markup_forms (inner rest : jsstring) :
  inner <> [] ->
  (forall d stop type,
     In (d, stop, type) delimiters -> lacks stop inner = true ->
     inlineStep (d ++ inner ++ d ++ rest)
     = (TextNode inner (Some [Mark type None]), Some rest))
  /\ (forall target,
        lacks 93%N inner = true -> target <> [] -> lacks 41%N target = true ->
        inlineStep (str "[" ++ inner ++ str "](" ++ target ++ str ")" ++ rest)
        = (TextNode inner (Some [Mark link (Some target)]), Some rest)).
Proof.
  intros Hne. split.
  - intros d stop type. by apply delimiter_form.
  - intros target Hl Hne2 Hl2. by apply link_form.
Qed.

Lemma markup_forms_witness :
  inlineStep (str "__a*b__ c") = (TextNode (str "a*b") (Some [Mark strong None]),
                                  Some (str " c"))
  /\ inlineStep (str "[a](b) c")
     = (TextNode (str "a") (Some [Mark link (Some (str "b"))]), Some (str " c")).
Proof.
  split.
  - apply (proj1 (markup_forms (str "a*b") (str " c") ltac:(discriminate))
             (str "__") 95%N strong);
      [do 3 right; by left|reflexivity].
  - apply (proj2 (markup_forms (str "a") (str " c") ltac:(discriminate))
             (str "b")); [reflexivity|discriminate|reflexivity].
Defined.

(** ** The base URL *)

Lemma dropTrailingSlash_snoc url : dropTrailingSlash (url ++ str "/") = url.
Proof.
  unfold dropTrailingSlash. change (str "/") with [47%N].
  rewrite rev_app_distr. cbn [rev app]. by rewrite rev_involutive.
Qed.

Lemma endsWithSlash_iff url :
  endsWithSlash url = true <-> exists u, url = u ++ str "/".
Proof.
  unfold endsWithSlash. change (str "/") with [47%N]. split.
  - destruct (rev url) as [|c r] eqn:E; [done|]. intros Hc.
    apply N.eqb_eq in Hc as ->. exists (rev r).
    apply (f_equal (@rev _)) in E. by rewrite rev_involutive in E.
  - intros [u ->]. by rewrite rev_app_distr.
Qed.

Lemma dropTrailingSlash_other url :
  endsWithSlash url = false -> dropTrailingSlash url = url.
Proof.
  unfold endsWithSlash, dropTrailingSlash.
  destruct (rev url) as [|c r]; [done|]. by intros ->.
Qed.

(** X25 - The constructor stores the base URL without one trailing
    slash: a URL given with a slash at its end and the same URL given
    without it make the same request URLs, and a URL that does not end
    with a slash is stored as it is.  Only one slash is removed, so the
    stored URL still ends with a slash exactly when the given one ends
    with two. *)
Theorem base_url_drops_one_slash (url username apiToken endpoint : jsstring) :
  baseUrl (newJiraService (url ++ str "/") username apiToken) = url
  /\ requestUrl (newJiraService (url ++ str "/") username apiToken) endpoint
     = url ++ endpoint
  /\ (endsWithSlash url = false ->
      baseUrl (newJiraService url username apiToken) = url)
  /\ (endsWithSlash (baseUrl (newJiraService url username apiToken)) = true
      <-> exists u, url = u ++ str "//").
Proof.
  unfold requestUrl, newJiraService. cbn [baseUrl].
  rewrite dropTrailingSlash_snoc. repeat split.
  - apply dropTrailingSlash_other.
  - intros H. destruct (endsWithSlash url) eqn:E.
    + apply endsWithSlash_iff in E as [u ->].
      rewrite dropTrailingSlash_snoc in H.
      apply endsWithSlash_iff in H as [u' ->]. exists u'.
      by rewrite <- app_assoc.
    + rewrite dropTrailingSlash_other in H by done. congruence.
  - intros [u ->]. change (str "//") with (str "/" ++ str "/").
    rewrite app_assoc, dropTrailingSlash_snoc. apply endsWithSlash_iff.
    by exists u.
Qed.

Lemma base_url_drops_one_slash_witness :
  baseUrl (newJiraService (str "https://jira.example/x") [] [])
  = str "https://jira.example/x".
Proof.
  apply (proj1 (proj2 (proj2 (base_url_drops_one_slash
                                (str "https://jira.example/x") [] [] [])))).
  reflexivity.
Defined.

(** ** Error messages *)

Lemma join_nonblank sep parts :
  parts <> [] ->
  Forall (fun p => forallb isSpace p = false) parts ->
  forallb isSpace (join sep parts) = false.
Proof.
  intros Hne Hall. destruct Hall as [|p ps Hp _]; [done|].
  destruct ps as [|q ps]; [done|].
  by rewrite join_cons, forallb_app, Hp.
Qed.

Lemma isNonEmptyString_nonblank value :
  isNonEmptyString value = true -> forallb isSpace (stringOf value) = false.
Proof.
  destruct value as [| | | |s| |]; try done. cbn [isNonEmptyString stringOf].
  intros H. destruct (forallb isSpace s) eqn:E; [|done].
  apply trim_nil_iff in E. by rewrite E in H.
Qed.

Lemma nonblank_nonempty s : forallb isSpace s = false -> s <> [].
Proof. by destruct s. Qed.

Lemma formatJiraErrorMessage_nonblank errorBody statusText :
  forallb isSpace (formatJiraErrorMessage errorBody statusText) = false
  \/ (statusText <> []
      /\ formatJiraErrorMessage errorBody statusText = statusText).
Proof.
  unfold formatJiraErrorMessage.
  set (parsed := if isJiraErrorBody errorBody then errorBody else JSUndefined).
  set (top := match getProperty parsed (str "errorMessages") with
              | JSArray messages => _
              | _ => []
              end).
  set (field := if isStringRecord _ then _ else []).
  assert (Forall (fun p => forallb isSpace p = false) top) as Htop.
  { subst top. destruct (getProperty parsed (str "errorMessages"));
      try by constructor.
    apply Forall_forall. intros p Hp. apply list_elem_of_In in Hp.
    apply in_map_iff in Hp as (v & <- & Hv). apply filter_In in Hv as [_ Hv].
    by apply isNonEmptyString_nonblank. }
  assert (Forall (fun p => forallb isSpace p = false) field) as Hfield.
  { subst field. destruct (isStringRecord _); [|by constructor].
    apply Forall_forall. intros p Hp. apply list_elem_of_In in Hp.
    apply in_map_iff in Hp as (entry & <- & Hv). apply filter_In in Hv as [_ Hv].
    rewrite !forallb_app, (isNonEmptyString_nonblank _ Hv).
    by rewrite !andb_false_r. }
  destruct ((0 <? length top) || (0 <? length field)) eqn:E.
  { left. apply join_nonblank; [|by apply Forall_app].
    destruct top; [|done]. by destruct field. }
  destruct (isNonEmptyString (getProperty parsed (str "message"))) eqn:Em.
  { left. by apply isNonEmptyString_nonblank. }
  destruct (isNonEmptyString errorBody) eqn:Eb.
  { left. by apply isNonEmptyString_nonblank. }
  destruct statusText; [by left|by right].
Qed.

(** X26 - The message that [formatJiraErrorMessage] returns is never
    empty, and it holds more than white space unless it is the status
    text of the response itself. *)
Theorem error_message_never_empty (errorBody : JSValue) (statusText : jsstring) :
  formatJiraErrorMessage errorBody statusText <> []
  /\ (forallb isSpace (formatJiraErrorMessage errorBody statusText) = true ->
      formatJiraErrorMessage errorBody statusText = statusText).
Proof.
  destruct (formatJiraErrorMessage_nonblank errorBody statusText)
    as [H|[Hne H]].
  - split; [by apply nonblank_nonempty|]. congruence.
  - split; [by rewrite H|done].
Qed.

Lemma error_message_never_empty_witness :
  formatJiraErrorMessage (JSObject [(str "message", JSString (str " "))])
    (str " ")
  = str " ".
Proof.
  apply (proj2 (error_message_never_empty
                  (JSObject [(str "message", JSString (str " "))]) (str " "))).
  reflexivity.
Defined.




(** ** Requests *)

Lemma isJiraError_jiraError status err : isJiraError (jiraError status err) = true.
Proof. reflexivity. Qed.

(** X28 - What [request] gives and what it throws.  It throws a
    [JiraError] or an [Error] whose message starts with the text
    [Failed to make request to Jira API: ], nothing else.  For a response
    that is not ok it throws the [JiraError] with the status of the
    response and a message that is not empty; the object passes the test
    of the [catch] clause and leaves it as it was thrown.  It returns a
    value only for a response that is ok: [undefined] for status 204,
    without reading the body, and the parsed body otherwise. *)
Theorem request_outcomes
    (String : JSValue -> jsstring) (fetched : Thrown + Response) :
  match request String fetched with
  | inl (ThrownValue value) => isJiraError value = true
  | inl (ThrownError message) =>
      exists cause,
        message = str "Failed to make request to Jira API: " ++ cause
  | inr value =>
      exists response,
        fetched = inr response /\ ok response = true
        /\ if (status response =? 204)%N then value = JSUndefined
           else json response = inr value
  end
  /\ (forall response,
        fetched = inr response -> ok response = false ->
        exists err,
          err <> []
          /\ request String fetched
             = inl (ThrownValue (jiraError (status response) err))).
Proof.
  split.
  - unfold request, requestTry. destruct fetched as [error|response].
    + destruct error as [message|value]; [by eexists|].
      destruct (isJiraError value) eqn:E; [done|by eexists].
    + destruct (ok response) eqn:Eok; cbn [negb].
      * destruct (status response =? 204)%N eqn:E204.
        -- exists response. by rewrite E204.
        -- destruct (json response) as [error|value] eqn:Ejson.
           ++ destruct error as [message|value]; [by eexists|].
              destruct (isJiraError value) eqn:E; [done|by eexists].
           ++ exists response. by rewrite E204.
      * by rewrite isJiraError_jiraError.
  - intros response -> Hok. unfold request, requestTry. rewrite Hok.
    cbn [negb]. rewrite isJiraError_jiraError. eexists. split; [|done].
    by destruct (formatJiraErrorMessage_nonblank
                   match json response with inr body => body | inl _ => JSUndefined end
                   (statusText response)) as [H|[Hne ->]];
      [apply nonblank_nonempty|].
Qed.

Lemma request_outcomes_witness :
  exists err,
    err <> []
    /\ request (fun _ => [])
         (inr {| ok := false; status := 404; statusText := str "Not Found";
                 json := inl (ThrownError (str "Unexpected token")) |})
       = inl (ThrownValue (jiraError 404 err)).
Proof.
  exact (proj2 (request_outcomes (fun _ => [])
                  (inr {| ok := false; status := 404;
                          statusText := str "Not Found";
                          json := inl (ThrownError (str "Unexpected token")) |}))
           _ eq_refl eq_refl).
Defined.

(** ** The callers of the converter *)

Lemma forallb_isSpace_trim text :
  forallb isSpace (trim text) = forallb isSpace text.
Proof.
  destruct (forallb isSpace text) eqn:E.
  - apply trim_nil_iff in E. by rewrite E.
  - destruct (forallb isSpace (trim text)) eqn:E'; [|done].
    apply trim_nil_iff in E'. rewrite trim_idemp in E'.
    apply trim_nil_iff in E'. congruence.
Qed.

(** X29 - [addComment] and [updateIssueDescription] refuse a text of
    white space with an [Error] and send, for any other text, the
    document of the trimmed text, which has no placeholder paragraph at
    its top level.  [createEpic], [createIssueWithParent] and
    [linkIssues] test the text as it is given: they leave out an absent
    or empty text, but for a text of white space that is not empty they
    send the placeholder document. *)
Theorem empty_texts_and_the_callers (issueKey text : jsstring) :
  (forallb isSpace text = true ->
   addComment issueKey text = inl (str "Comment text cannot be empty")
   /\ updateIssueDescription issueKey text
      = inl (str "Description text cannot be empty"))
  /\ (forallb isSpace text = false ->
      addComment issueKey text
      = inr (str "/rest/api/3/issue/" ++ issueKey ++ str "/comment",
             createTextADF (trim text))
      /\ updateIssueDescription issueKey text
         = inr (str "/rest/api/3/issue/" ++ issueKey,
                createTextADF (trim text))
      /\ forallb (fun b => negb (isPlaceholderBlock b))
           (doc_content (createTextADF (trim text))) = true)
  /\ optionalDocument None = None
  /\ optionalDocument (Some []) = None
  /\ (text <> [] -> forallb isSpace text = true ->
      optionalDocument (Some text)
      = Some {| version := 1;
                doc_content := [Paragraph (ParagraphNode [TextNode [] None])] |}).
Proof.
  unfold addComment, updateIssueDescription.
  split; [|split; [|split; [done|split; [done|]]]].
  - intros Hblank. apply trim_nil_iff in Hblank. by rewrite Hblank.
  - intros Hnb.
    assert (exists c r, trim text = c :: r) as (c & r & E).
    { destruct (trim text) as [|c r] eqn:E; [|by exists c, r].
      apply trim_nil_iff in E. congruence. }
    rewrite E. split; [done|]. split; [done|]. rewrite <- E.
    cbn [createTextADF doc_content].
    apply parseMarkdownBlocks_blank. by rewrite forallb_isSpace_trim.
  - intros Hne Hblank. destruct text as [|c text]; [done|].
    cbn [optionalDocument]. unfold createTextADF.
    by rewrite (proj2 (proj1 (parseMarkdownBlocks_blank (c :: text))) Hblank).
Qed.

Lemma empty_texts_and_the_callers_witness :
  addComment (str "K-1") (str " " ++ [LF])
  = inl (str "Comment text cannot be empty")
  /\ optionalDocument (Some (str " " ++ [LF]))
     = Some {| version := 1;
               doc_content := [Paragraph (ParagraphNode [TextNode [] None])] |}.
Proof.
  pose proof (empty_texts_and_the_callers (str "K-1") (str " " ++ [LF]))
    as (H1 & _ & _ & _ & H5).
  split; [exact (proj1 (H1 eq_refl))|].
  apply H5; [discriminate|reflexivity].
Defined.

(** ** Lists are never empty *)

Lemma liveItems_iff c :
  liveItems c = true <-> c <> [] /\ forallb liveItem c = true.
Proof. destruct c; [by split; [|intros []]|]. cbn [liveItems]. by split; [|intros []]. Qed.

Lemma liveBlock_listContent b c :
  liveBlock b = true -> listContent b = Some c -> liveItems c = true.
Proof. by destruct b; cbn; try done; intros H [= <-]. Qed.

Lemma liveBlock_setListContent b c0 c :
  listContent b = Some c0 -> liveItems c = true ->
  liveBlock (setListContent b c) = true.
Proof. by destruct b; cbn; try done; intros _ H. Qed.

Lemma startsFilled_insert c j b c0 x :
  c !! j = Some b -> listContent b = Some c0 ->
  startsFilled c = true ->
  startsFilled (<[j := setListContent b x]> c) = true.
Proof.
  destruct c as [|[p| | | | | |] rest]; try done.
  destruct j as [|j]; [|done]. by intros [= <-].
Qed.

Lemma derefAt_live steps idx bs b :
  forallb liveBlock bs = true ->
  derefAt steps idx bs = Some b -> liveBlock b = true.
Proof.
  revert bs. induction steps as [|[k i] steps IH]; intros bs Hbs; cbn [derefAt].
  - intros H. by eapply forallb_lookup.
  - intros H.
    apply bind_Some in H as (b0 & Hb0 & H).
    apply bind_Some in H as (items & Hitems & H).
    apply bind_Some in H as (it & Hit & H).
    eapply IH; [|exact H].
    pose proof (forallb_lookup _ _ _ _ Hbs Hb0) as H0.
    apply (liveBlock_listContent _ _ H0), liveItems_iff in Hitems as [_ Hitems].
    pose proof (forallb_lookup _ _ _ _ Hitems Hit) as H1.
    destruct it as [c]. cbn [liveItem item_content] in *.
    by apply andb_true_iff in H1 as [_ H1].
Qed.

Lemma updateAt_live steps idx f bs bs' :
  (forall c, liveItems c = true -> liveItems (f c) = true) ->
  forallb liveBlock bs = true ->
  updateAt steps idx f bs = Some bs' ->
  forallb liveBlock bs' = true.
Proof.
  intros Hf. revert bs bs'.
  induction steps as [|[c i] steps IH]; intros bs bs' Hbs; cbn [updateAt];
    intros H.
  - apply bind_Some in H as (b & Hb & H).
    apply bind_Some in H as (items & Hitems & [= <-]).
    apply forallb_insert; [done|].
    eapply liveBlock_setListContent; [done|]. apply Hf.
    eapply liveBlock_listContent; [|done]. by eapply forallb_lookup.
  - apply bind_Some in H as (b & Hb & H).
    apply bind_Some in H as (items & Hitems & H).
    apply bind_Some in H as (it & Hit & H).
    apply bind_Some in H as (content' & Hc & [= <-]).
    assert (liveItems items = true) as Hok.
    { eapply liveBlock_listContent; [|done]. by eapply forallb_lookup. }
    apply liveItems_iff in Hok as [Hne Hok].
    apply forallb_insert; [done|].
    eapply liveBlock_setListContent; [done|].
    apply liveItems_iff. split.
    { intros E. apply (f_equal length) in E. rewrite length_insert in E.
      by destruct items. }
    apply forallb_insert; [done|].
    pose proof (forallb_lookup _ _ _ _ Hok Hit) as Hi.
    destruct it as [content]. cbn [liveItem item_content] in *.
    apply andb_true_iff in Hi as [Hi1 Hi2].
    apply andb_true_iff. split; [|by eapply IH].
    destruct (updateAt_replaces _ _ _ _ _ Hc) as (j & b0 & c0 & x & Hj & Hc0 & ->).
    by eapply startsFilled_insert.
Qed.

Lemma setListContent_twice b c0 x y :
  listContent b = Some c0 ->
  setListContent (setListContent b x) y = setListContent b y.
Proof. by destruct b. Qed.

Lemma updateAt_twice steps idx f g bs bs1 :
  updateAt steps idx f bs = Some bs1 ->
  updateAt steps idx g bs1 = updateAt steps idx (fun c => g (f c)) bs.
Proof.
  revert bs bs1. induction steps as [|[k i] steps IH]; intros bs bs1;
    cbn [updateAt]; intros H.
  - apply bind_Some in H as (b & Hb & H).
    apply bind_Some in H as (items & Hitems & [= <-]).
    rewrite Hb. obind. rewrite Hitems. obind.
    rewrite list_lookup_insert_eq by (by eapply lookup_lt_Some). obind.
    rewrite (listContent_setListContent _ _ _ Hitems). obind.
    by rewrite list_insert_insert_eq, (setListContent_twice _ _ _ _ Hitems).
  - apply bind_Some in H as (b & Hb & H).
    apply bind_Some in H as (items & Hitems & H).
    apply bind_Some in H as (it & Hit & H).
    apply bind_Some in H as (content' & Hc & [= <-]).
    rewrite Hb. obind. rewrite Hitems. obind. rewrite Hit. obind.
    rewrite list_lookup_insert_eq by (by eapply lookup_lt_Some). obind.
    rewrite (listContent_setListContent _ _ _ Hitems). obind.
    rewrite list_lookup_insert_eq by (by eapply lookup_lt_Some). obind.
    cbn [item_content]. rewrite (IH _ _ Hc).
    destruct (updateAt steps idx (fun c => g (f c)) (item_content it));
      [|done].
    obind.
    by rewrite !list_insert_insert_eq, (setListContent_twice _ _ _ _ Hitems).
Qed.

Lemma updateAt_snoc steps idx i cidx g bs bs' :
  updateAt (steps ++ [(idx, i)]) cidx g bs = Some bs' ->
  exists b items it c',
    derefAt steps idx bs = Some b
    /\ listContent b = Some items
    /\ items !! i = Some it
    /\ updateAt [] cidx g (item_content it) = Some c'
    /\ updateAt steps idx (fun _ => <[i := ListItem c']> items) bs = Some bs'.
Proof.
  revert bs bs'. induction steps as [|[k j] steps IH]; intros bs bs';
    cbn [app]; intros H.
  - cbn [updateAt] in H.
    apply bind_Some in H as (b & Hb & H).
    apply bind_Some in H as (items & Hitems & H).
    apply bind_Some in H as (it & Hit & H).
    apply bind_Some in H as (c' & Hc & [= <-]).
    exists b, items, it, c'. cbn [derefAt updateAt].
    rewrite Hb. obind. by rewrite Hitems.
  - cbn [updateAt] in H.
    apply bind_Some in H as (b0 & Hb0 & H).
    apply bind_Some in H as (items0 & Hitems0 & H).
    apply bind_Some in H as (it0 & Hit0 & H).
    apply bind_Some in H as (content0 & Hc0 & [= <-]).
    destruct (IH _ _ Hc0) as (b & items & it & c' & Hb & Hitems & Hit & Hc & Hup).
    exists b, items, it, c'. cbn [derefAt updateAt].
    rewrite Hb0. obind. rewrite Hitems0. obind. rewrite Hit0. obind.
    rewrite Hb, Hup. by obind.
Qed.

Lemma startsFilled_app c more :
  startsFilled c = true -> startsFilled (c ++ more) = true.
Proof. by destruct c as [|[p| | | | | |] rest]. Qed.

Lemma liveItems_snoc c item :
  forallb liveItem c = true -> liveItem item = true ->
  liveItems (c ++ [item]) = true.
Proof.
  intros Hc Hitem. apply liveItems_iff. split; [by destruct c|].
  by rewrite forallb_snoc, Hc, Hitem.
Qed.

(** A new list put into the last item of a list and then given its first
    item: the two mutations leave every list with an item. *)
Lemma nest_then_push_live p content node item bs bs2 bs3 :
  forallb liveBlock bs = true ->
  readContent p bs = Some content ->
  updateContent p (nestInLastItem node) bs = Some bs2 ->
  updateContent (nestedRef p content) (fun c => c ++ [item]) bs2 = Some bs3 ->
  listContent node = Some [] ->
  liveItem item = true ->
  forallb liveBlock bs3 = true.
Proof.
  intros Hbs Hread Hup1 Hup2 Hnode Hitem.
  unfold readContent, deref in Hread.
  apply bind_Some in Hread as (b & Hb & Hc).
  pose proof (liveBlock_listContent _ _ (derefAt_live _ _ _ _ Hbs Hb) Hc) as Hlive.
  apply liveItems_iff in Hlive as [Hne Hlive].
  destruct (list_nil_or_snoc content) as [->|(items & it & ->)]; [done|].
  rewrite forallb_snoc in Hlive. apply andb_true_iff in Hlive as [Hitems Hit].
  rewrite nestedRef_snoc in Hup2. unfold updateContent in *.
  cbn [ref_steps ref_index] in Hup2.
  apply updateAt_snoc in Hup2
    as (b2 & items2 & it2 & c' & Hb2 & Hitems2 & Hit2 & Hc' & Hup3).
  destruct (updateAt_same _ _ (nestInLastItem node) _ _ _ Hb Hc)
    as (bs2' & Hup1' & Hb2').
  rewrite Hup1 in Hup1'. injection Hup1' as <-.
  rewrite Hb2 in Hb2'. injection Hb2' as ->.
  rewrite (listContent_setListContent _ _ _ Hc) in Hitems2.
  injection Hitems2 as <-. rewrite nestInLastItem_snoc in Hit2, Hup3.
  rewrite list_lookup_middle in Hit2 by done. injection Hit2 as <-.
  cbn [item_content updateAt] in Hc'.
  rewrite list_lookup_middle in Hc' by done. cbn [mbind option_bind] in Hc'.
  rewrite Hnode in Hc'. cbn [mbind option_bind app] in Hc'.
  injection Hc' as <-. rewrite !insert_at_length in Hup3.
  rewrite (updateAt_twice _ _ _ _ _ _ Hup1) in Hup3.
  eapply updateAt_live; [|exact Hbs|exact Hup3].
  intros c _. apply liveItems_snoc; [done|].
  destruct it as [ic]. cbn [liveItem item_content] in *.
  apply andb_true_iff in Hit as [Hit1 Hit2].
  rewrite startsFilled_app by done. rewrite forallb_snoc, Hit2.
  cbn [andb]. apply (liveBlock_setListContent _ _ _ Hnode).
  cbn [liveItems forallb]. by rewrite Hitem.
Qed.

Lemma ensureListContext_cases type indent start st e st' :
  ensureListContext type indent start st = Some (e, st') ->
  blocks st' = blocks st
  \/ (blocks st' = blocks st ++ [createListNode type start]
      /\ entry_node e = {| ref_steps := []; ref_index := length (blocks st) |})
  \/ (exists p content,
        readContent (entry_node p) (blocks st) = Some content
        /\ updateContent (entry_node p)
             (nestInLastItem (createListNode type start)) (blocks st)
           = Some (blocks st')
        /\ entry_node e = nestedRef (entry_node p) content).
Proof.
  intros H.
  assert (forall parent stack2,
            match parent with
            | None =>
                Some ({| entry_type := type; entry_indent := indent;
                         entry_node := {| ref_steps := [];
                                          ref_index := length (blocks st) |} |},
                      {| blocks := blocks st ++ [createListNode type start];
                         paragraphLines := paragraphLines st;
                         listStack :=
                           {| entry_type := type; entry_indent := indent;
                              entry_node := {| ref_steps := [];
                                               ref_index := length (blocks st) |} |}
                           :: stack2 |})
            | Some p =>
                content ← readContent (entry_node p) (blocks st);
                blocks' ← updateContent (entry_node p)
                            (nestInLastItem (createListNode type start))
                            (blocks st);
                Some ({| entry_type := type; entry_indent := indent;
                         entry_node := nestedRef (entry_node p) content |},
                      {| blocks := blocks';
                         paragraphLines := paragraphLines st;
                         listStack :=
                           {| entry_type := type; entry_indent := indent;
                              entry_node := nestedRef (entry_node p) content |}
                           :: stack2 |})
            end = Some (e, st') ->
            (blocks st' = blocks st ++ [createListNode type start]
             /\ entry_node e
                = {| ref_steps := []; ref_index := length (blocks st) |})
            \/ (exists p content,
                  readContent (entry_node p) (blocks st) = Some content
                  /\ updateContent (entry_node p)
                       (nestInLastItem (createListNode type start)) (blocks st)
                     = Some (blocks st')
                  /\ entry_node e = nestedRef (entry_node p) content)) as Hmk.
  { intros [p|] stack2 Hr.
    - apply bind_Some in Hr as (content & Hread & Hr).
      apply bind_Some in Hr as (bs' & Hup & [= <- <-]). cbn [blocks entry_node].
      right. by exists p, content.
    - injection Hr as <- <-. by left. }
  unfold ensureListContext in H.
  set (stack1 := dropWhile _ _) in H. clearbody stack1.
  destruct stack1 as [|c stack1]; cbn [head] in H.
  - right. by apply (Hmk None []).
  - destruct (_ && _).
    + injection H as <- <-. by left.
    + right. destruct (entry_indent c <? indent).
      * by apply (Hmk (Some c) (c :: stack1)).
      * destruct (entry_indent c =? indent).
        -- by apply (Hmk (head stack1) stack1).
        -- by apply (Hmk None (c :: stack1)).
Qed.

Lemma isFilled_tokens text :
  text <> [] -> isFilled (paragraph_content (buildParagraph text)) = true.
Proof.
  intros Hne. rewrite buildParagraph_tokens by done.
  pose proof (parseMarkdownInline_nonempty text Hne) as Hn.
  pose proof (parseMarkdownInline_tokens text) as Htok.
  destruct (parseMarkdownInline text) as [|n nodes] eqn:E; [done|].
  cbn [isFilled]. eapply forallb_impl; [|exact Htok].
  apply isTokenNode_nonEmptyText.
Qed.

Lemma liveItem_new text :
  text <> [] -> liveItem (ListItem [Paragraph (buildParagraph text)]) = true.
Proof.
  intros Hne. cbn [liveItem startsFilled forallb liveBlock].
  by rewrite isFilled_tokens.
Qed.

Lemma item_live type indent start text st e st2 st3 :
  forallb liveBlock (blocks st) = true ->
  ensureListContext type indent start st = Some (e, st2) ->
  pushListItem e text st2 = Some st3 ->
  text <> [] ->
  forallb liveBlock (blocks st3) = true.
Proof.
  intros Hst He Hp Hne. pose proof (liveItem_new text Hne) as Hitem.
  unfold pushListItem in Hp. apply bind_Some in Hp as (bs' & Hup & [= <-]).
  cbn [blocks setBlocks].
  destruct (ensureListContext_cases _ _ _ _ _ _ He)
    as [E|[[E Hr]|(p & content & Hread & Hup1 & Hr)]].
  - rewrite E in Hup. eapply updateAt_live; [|exact Hst|exact Hup].
    intros c Hc. apply liveItems_iff in Hc as [_ Hc].
    by apply liveItems_snoc.
  - rewrite E, Hr in Hup. unfold updateContent in Hup.
    cbn [ref_steps ref_index updateAt] in Hup.
    rewrite list_lookup_middle in Hup by done.
    cbn [mbind option_bind] in Hup.
    rewrite listContent_createListNode in Hup.
    cbn [mbind option_bind app] in Hup. injection Hup as <-.
    rewrite insert_at_length, forallb_snoc, Hst. cbn [andb].
    apply (liveBlock_setListContent _ _ _ (listContent_createListNode _ _)).
    cbn [liveItems forallb]. by rewrite Hitem.
  - rewrite Hr in Hup.
    eapply nest_then_push_live;
      [exact Hst|exact Hread|exact Hup1|exact Hup| |exact Hitem].
    apply listContent_createListNode.
Qed.

Lemma liveItems_last c :
  liveItems c = true ->
  exists items p rest,
    c = items ++ [ListItem (Paragraph p :: rest)]
    /\ forallb liveItem items = true
    /\ isFilled (paragraph_content p) = true
    /\ forallb liveBlock rest = true.
Proof.
  intros H. apply liveItems_iff in H as [Hne H].
  destruct (list_nil_or_snoc c) as [->|(items & it & ->)]; [done|].
  rewrite forallb_snoc in H. apply andb_true_iff in H as [Hitems Hit].
  destruct it as [[|[p| | | | | |] rest]]; try done.
  cbn [liveItem startsFilled forallb liveBlock] in Hit.
  apply andb_true_iff in Hit as [Hp Hrest]. by exists items, p, rest.
Qed.

Lemma continueLastItem_filled line items p rest :
  trim line <> [] ->
  isFilled (paragraph_content p) = true ->
  continueLastItem line (items ++ [ListItem (Paragraph p :: rest)])
  = items
    ++ [ListItem
          (Paragraph
             (ParagraphNode
                (paragraph_content p
                 ++ HardBreak :: parseMarkdownInline (trim line))) :: rest)].
Proof.
  intros Hne Hp. rewrite continueLastItem_snoc.
  rewrite continueParagraph_nonempty by (by apply parseMarkdownInline_nonempty).
  by destruct (paragraph_content p) as [|[[|c s] m|] [|n r]].
Qed.

Lemma continueLastItem_live line c :
  trim line <> [] -> liveItems c = true ->
  liveItems (continueLastItem line c) = true.
Proof.
  intros Hne Hc.
  destruct (liveItems_last _ Hc) as (items & p & rest & -> & Hitems & Hp & Hrest).
  rewrite continueLastItem_filled by done.
  apply liveItems_snoc; [done|].
  cbn [liveItem startsFilled paragraph_content forallb liveBlock].
  rewrite Hrest, andb_true_r. unfold isFilled in *.
  destruct (paragraph_content p) as [|n content]; [done|]. cbn [app].
  change (n :: content ++ HardBreak :: parseMarkdownInline (trim line))
    with ((n :: content) ++ HardBreak :: parseMarkdownInline (trim line)).
  rewrite forallb_app, Hp. cbn [forallb nonEmptyText andb].
  eapply forallb_impl; [|apply parseMarkdownInline_tokens].
  apply isTokenNode_nonEmptyText.
Qed.

Lemma flushParagraph_live st :
  forallb liveBlock (blocks st) = true ->
  forallb liveBlock (blocks (flushParagraph st)) = true.
Proof.
  intros H. unfold flushParagraph. destruct (paragraphLines st); [done|].
  cbn [blocks]. destruct (trim _); [done|]. by rewrite forallb_snoc, H.
Qed.

Lemma loopBody_live rec lines i st i' st' :
  (forall text r, rec text = Some r -> forallb liveBlock r = true) ->
  forallb liveBlock (blocks st) = true ->
  loopBody rec lines i st = Some (i', st') ->
  forallb liveBlock (blocks st') = true.
Proof.
  intros Hrec Hst H. unfold loopBody in H.
  apply bind_Some in H as (rawLine & Hraw & H).
  pose proof (flushParagraph_live _ Hst) as Hfl.
  destruct (trim (trimEnd rawLine)) as [|t0 trimmed'] eqn:Etrim.
  { by injection H as <- <-. }
  destruct (codeFenceStart _) as [language|].
  { injection H as <- <-. cbn [blocks pushBlock flushListStack setListStack].
    by rewrite forallb_snoc, Hfl. }
  destruct (tableStartsAt _ _ _).
  { injection H as <- <-. cbn [blocks pushBlock flushListStack setListStack].
    by rewrite forallb_snoc, Hfl. }
  destruct (isQuoteLine _).
  { apply bind_Some in H as (qc & Hqc & [= <- <-]).
    cbn [blocks pushBlock flushListStack setListStack].
    rewrite forallb_snoc, Hfl. cbn [liveBlock andb]. by eapply Hrec. }
  destruct (headingMatch _) as [[hashes text]|].
  { injection H as <- <-. cbn [blocks pushBlock flushListStack setListStack].
    by rewrite forallb_snoc, Hfl. }
  destruct (bulletMatch _) as [[spaces text]|] eqn:Eb.
  { apply bind_Some in H as ([e st2] & He & H).
    apply bind_Some in H as (st3 & Hp & [= <- <-]).
    eapply item_live; [exact Hfl|exact He|exact Hp|].
    by eapply bullet_text_nonempty. }
  destruct (orderedMatch _) as [[[spaces digits] text]|] eqn:Eo.
  { apply bind_Some in H as ([e st2] & He & H).
    apply bind_Some in H as (st3 & Hp & [= <- <-]).
    eapply item_live; [exact Hfl|exact He|exact Hp|].
    by eapply ordered_text_nonempty. }
  destruct (listStack st) as [|top stack]; [by injection H as <- <-|].
  destruct (_ <? _); [|by injection H as <- <-].
  apply bind_Some in H as (st1 & Happ & [= <- <-]).
  unfold appendContinuationToListItem in Happ.
  apply bind_Some in Happ as (bs' & Hup & [= <-]). cbn [blocks setBlocks].
  eapply updateAt_live; [|exact Hst|exact Hup].
  intros c Hc. apply continueLastItem_live; [|done]. by rewrite Etrim.
Qed.

Lemma finish_live st :
  forallb liveBlock (blocks st) = true -> forallb liveBlock (finish st) = true.
Proof.
  intros H. unfold finish. cbn [blocks flushListStack setListStack].
  pose proof (flushParagraph_live _ H) as Hfl.
  by destruct (blocks (flushParagraph st)).
Qed.

Lemma blocksLoop_live fuel lines i st r :
  forallb liveBlock (blocks st) = true ->
  blocksLoop fuel lines i st = Some r ->
  forallb liveBlock r = true.
Proof.
  revert lines i st r.
  induction fuel as [|fuel IH]; intros lines i st r Hst; cbn [blocksLoop].
  - destruct (i <? length lines); [done|]. intros [= <-]. by apply finish_live.
  - destruct (i <? length lines); [|intros [= <-]; by apply finish_live].
    intros H. apply bind_Some in H as ([i' st'] & Hbody & H).
    eapply IH; [|exact H].
    eapply loopBody_live; [|done|exact Hbody].
    intros text r' Hr. by eapply IH; [|exact Hr].
Qed.

Lemma parseMarkdownBlocks_live text :
  forallb liveBlock (parseMarkdownBlocks text) = true.
Proof.
  pose proof (parseMarkdownBlocks_fuel_Some text) as H.
  by eapply blocksLoop_live; [|exact H].
Qed.

Lemma reaches_live lines i st :
  reaches lines i st -> forallb liveBlock (blocks st) = true.
Proof.
  induction 1 as [|i st i' st' _ IH Hstep]; [done|].
  eapply loopBody_live; [|exact IH|exact Hstep].
  intros text r [= <-]. apply parseMarkdownBlocks_live.
Qed.

(** X30 - Lists are never empty and items never start without text: in
    the returned blocks (at any depth, also inside blockquotes) and in
    every state of a run, every list has at least one item and the
    content of every item starts with a paragraph that holds text.  So
    the branches of [ensureListContext] and of
    [appendContinuationToListItem] that make a placeholder item, that put
    a paragraph in front of an item, or that replace a placeholder text
    never run: a list nested under an open list goes to the end of its
    last item, and a continuation line always adds a hard break and its
    tokens. *)
Theorem lists_always_have_items (text : jsstring) :
  forallb liveBlock (parseMarkdownBlocks text) = true
  /\ (forall lines i st e,
        reaches lines i st -> In e (listStack st) ->
        exists items p rest,
          readContent (entry_node e) (blocks st)
          = Some (items ++ [ListItem (Paragraph p :: rest)])
          /\ isFilled (paragraph_content p) = true
          /\ (forall node,
                nestInLastItem node (items ++ [ListItem (Paragraph p :: rest)])
                = items ++ [ListItem (Paragraph p :: rest ++ [node])])
          /\ (forall line,
                trim line <> [] ->
                continueLastItem line
                  (items ++ [ListItem (Paragraph p :: rest)])
                = items
                  ++ [ListItem
                        (Paragraph
                           (ParagraphNode
                              (paragraph_content p
                               ++ HardBreak :: parseMarkdownInline (trim line)))
                         :: rest)])).
Proof.
  split; [apply parseMarkdownBlocks_live|].
  intros lines i st e Hreach Hin.
  pose proof (reaches_live _ _ _ Hreach) as Hlive.
  destruct (reaches_ok _ _ _ Hreach) as [[Hvalid _] _].
  rewrite Forall_forall in Hvalid.
  destruct (Hvalid e) as (b & o & Hb & Hhead); [by apply list_elem_of_In|].
  destruct (listHead_listContent _ _ Hhead) as [c Hc].
  pose proof (liveBlock_listContent _ _ (derefAt_live _ _ _ _ Hlive Hb) Hc)
    as Hitems.
  destruct (liveItems_last _ Hitems) as (items & p & rest & -> & _ & Hp & _).
  exists items, p, rest. split; [|split; [done|split]].
  - unfold readContent. rewrite Hb. by cbn.
  - intros node. by rewrite nestInLastItem_snoc.
  - intros line Hne. by apply continueLastItem_filled.
Qed.

Lemma lists_always_have_items_witness :
  exists items p rest,
    readContent {| ref_steps := [(0, 0)]; ref_index := 1 |}
      [BulletList
         [ListItem [Paragraph (buildParagraph (str "a"));
                    BulletList [ListItem [Paragraph (buildParagraph (str "b"))]]]]]
    = Some (items ++ [ListItem (Paragraph p :: rest)])
    /\ isFilled (paragraph_content p) = true.
Proof.
  destruct (proj2 (lists_always_have_items []) _ _ _
              {| entry_type := bullet; entry_indent := 2;
                 entry_node := {| ref_steps := [(0, 0)]; ref_index := 1 |} |}
              reaches_nested_items (or_introl eq_refl))
    as (items & p & rest & H1 & H2 & _).
  exists items, p, rest. split; [exact H1|exact H2].
Defined.
